(** * Stair-Stringer: the dimensional parser, layout solver, materials
      estimator, 3D geometry builder and perspective calibrator

    A shallow embedding of [src/lib/units.ts], [src/lib/stairs.ts],
    [src/lib/materials.ts], [src/lib/rendering/geometry.ts] and of the state
    machine of [src/components/rendering/PerspectiveCalibration.tsx].

    Numbers.  A JavaScript [number] is modelled as an exact rational [Q]:
    the arithmetic of the code is kept operator by operator, and the
    rounding error, overflow, infinities and NaN of IEEE-754 doubles are
    outside the model.  Every result that the code obtains from
    [Math.round], [Math.floor] or [Math.ceil] is an integer and is kept as a
    [Z].  Division is only used by the theorems below where the divisor is
    known to be non-zero.  [Math.atan], [Math.sqrt] and [Math.PI] have no
    rational model; they are taken as an interface ([MathLib]).

    Strings.  A JavaScript string is modelled as a [string] of 8-bit
    characters, read as ASCII (white space beyond ASCII is outside the
    model); the regular expressions of the parser are kept as regular
    expressions and run by a small backtracking matcher. *)

From Stdlib Require Import ZArith QArith Qround Qabs Lia Lqa List Bool.
From Stdlib Require Import Ascii String DecimalString.
Import ListNotations.

Local Open Scope Z_scope.

(** ** JavaScript's [Math] on exact numbers *)

Module JsMath.

(** [Math.floor]. *)
Definition floor (x : Q) : Z := Qfloor x.

(** [Math.ceil]. *)
Definition ceil (x : Q) : Z := Qceiling x.

(** [Math.round]: the nearest integer, a tie going up. *)
Definition round (x : Q) : Z := Qfloor (x + (1 # 2))%Q.

(** [Math.abs]. *)
Definition abs (x : Q) : Q := Qabs x.

(** The part of [Math] that leaves the rationals. *)
Class MathLib : Type := {
  atan : Q -> Q;
  sqrt : Q -> Q;
  PI : Q
}.

(** [for (let i = 0; i < n; i++) body(i)] over a state [S]. *)
Definition for_loop {S : Type} (n : Z) (body : Z -> S -> S) (init : S) : S :=
  fold_left (fun acc i => body (Z.of_nat i) acc) (seq 0 (Z.to_nat n)) init.

(** [arr.push(v)]. *)
Definition push {A : Type} (v : A) (arr : list A) : list A := arr ++ [v].

Lemma inject_Z_le_pred (z r : Z) :
  (z <= r - 1)%Z -> (inject_Z z <= inject_Z r - 1)%Q.
Proof. intros Hz. unfold Qle, Qminus, Qplus, Qopp, inject_Z; simpl. lia. Qed.

Lemma inject_Z_succ_le (z r : Z) :
  (r + 1 <= z)%Z -> (inject_Z r + 1 <= inject_Z z)%Q.
Proof. intros Hz. unfold Qle, Qplus, inject_Z; simpl. lia. Qed.

Lemma round_lower (x : Q) : (x - (1 # 2) < inject_Z (round x))%Q.
Proof.
  unfold round.
  pose proof (Qlt_floor (x + (1 # 2))) as H.
  rewrite inject_Z_plus in H. change (inject_Z 1) with 1%Q in H.
  lra.
Qed.

Lemma round_upper (x : Q) : (inject_Z (round x) <= x + (1 # 2))%Q.
Proof. unfold round. apply Qfloor_le. Qed.

(** No integer is nearer to [x] than [round x]. *)
Lemma round_nearest (x : Q) (z : Z) :
  (Qabs (inject_Z (round x) - x) <= Qabs (inject_Z z - x))%Q.
Proof.
  pose proof (round_lower x) as Hl. pose proof (round_upper x) as Hu.
  assert (Hhalf : (Qabs (inject_Z (round x) - x) <= 1 # 2)%Q).
  { apply Qabs_Qle_condition. split; lra. }
  destruct (Z_lt_le_dec z (round x)) as [Hlt | Hge].
  - assert (Hz : (inject_Z z <= inject_Z (round x) - 1)%Q)
      by (apply inject_Z_le_pred; lia).
    eapply Qle_trans; [exact Hhalf|].
    rewrite <- Qabs_opp.
    eapply Qle_trans; [| apply Qle_Qabs ].
    lra.
  - destruct (Z.eq_dec z (round x)) as [-> | Hne]; [apply Qle_refl|].
    assert (Hz : (inject_Z (round x) + 1 <= inject_Z z)%Q)
      by (apply inject_Z_succ_le; lia).
    eapply Qle_trans; [exact Hhalf|].
    eapply Qle_trans; [| apply Qle_Qabs ].
    lra.
Qed.

Lemma floor_unique (x : Q) (z : Z) :
  (inject_Z z <= x)%Q -> (x < inject_Z (z + 1))%Q -> floor x = z.
Proof.
  intros Hle Hlt. unfold floor.
  pose proof (Qfloor_le x) as H1. pose proof (Qlt_floor x) as H2.
  assert (Ha : (inject_Z z < inject_Z (Qfloor x + 1))%Q) by lra.
  assert (Hb : (inject_Z (Qfloor x) < inject_Z (z + 1))%Q) by lra.
  rewrite <- Zlt_Qlt in Ha, Hb. lia.
Qed.

(** Shifting by an integer commutes with [floor] and with [round]. *)
Lemma floor_shift (x : Q) (k : Z) : floor (x + inject_Z k) = floor x + k.
Proof.
  apply floor_unique.
  - rewrite inject_Z_plus. pose proof (Qfloor_le x). unfold floor. lra.
  - rewrite <- Z.add_assoc, (Z.add_comm k 1), Z.add_assoc, inject_Z_plus.
    pose proof (Qlt_floor x). unfold floor. lra.
Qed.

Lemma round_shift (x : Q) (k : Z) : round (x + inject_Z k) = round x + k.
Proof.
  unfold round. change (Qfloor (x + (1 # 2))) with (floor (x + (1 # 2))).
  rewrite <- floor_shift. unfold floor. apply Qfloor_comp. ring.
Qed.

Lemma for_loop_ext {S : Type} (n : Z) (body1 body2 : Z -> S -> S) (init : S) :
  (forall i acc, body1 i acc = body2 i acc) ->
  for_loop n body1 init = for_loop n body2 init.
Proof.
  intros Hext. unfold for_loop.
  generalize (seq 0 (Z.to_nat n)) as l. intros l. revert init.
  induction l as [| i l IH]; intros init; simpl; [reflexivity|].
  now rewrite Hext, IH.
Qed.

Lemma for_loop_push {A : Type} (n : Z) (f : Z -> A) (init : list A) :
  for_loop n (fun i acc => push (f i) acc) init
  = init ++ map (fun i => f (Z.of_nat i)) (seq 0 (Z.to_nat n)).
Proof.
  unfold for_loop, push.
  generalize (seq 0 (Z.to_nat n)) as l. intros l. revert init.
  induction l as [| i l IH]; intros init; simpl.
  - now rewrite app_nil_r.
  - rewrite IH, <- app_assoc. reflexivity.
Qed.

End JsMath.

(** ** Results of code that may throw *)

(** A call either returns a value or throws [new Error(msg)]. *)
Inductive outcome (A : Type) : Type :=
| Ret (a : A)
| Throw (msg : string).

Arguments Ret {A} a.
Arguments Throw {A} msg.

(** [x ?? d]. *)
Definition nullish {A : Type} (x : option A) (d : A) : A :=
  match x with
  | Some v => v
  | None => d
  end.

(** [x > y], [x < y], [x >= y] and [x <= y] on numbers. *)
Definition gtb (x y : Q) : bool := negb (Qle_bool x y).
Definition ltb (x y : Q) : bool := negb (Qle_bool y x).
Definition geb (x y : Q) : bool := Qle_bool y x.
Definition leb (x y : Q) : bool := Qle_bool x y.

(** The double quote character, and a string made of it. *)
Definition dquote : ascii := "034"%char.
Definition dq : string := String dquote EmptyString.

Lemma gtb_true (x y : Q) : gtb x y = true <-> (y < x)%Q.
Proof.
  unfold gtb. rewrite negb_true_iff.
  destruct (Qle_bool x y) eqn:E.
  - apply Qle_bool_iff in E. split; [discriminate | intros H; lra].
  - split; [intros _ | reflexivity].
    apply Qnot_le_lt. intros H. apply Qle_bool_iff in H. congruence.
Qed.

Lemma gtb_false (x y : Q) : gtb x y = false <-> (x <= y)%Q.
Proof.
  unfold gtb. rewrite negb_false_iff. apply Qle_bool_iff.
Qed.

Lemma ltb_true (x y : Q) : ltb x y = true <-> (x < y)%Q.
Proof. apply gtb_true. Qed.

Lemma geb_true (x y : Q) : geb x y = true <-> (y <= x)%Q.
Proof. apply Qle_bool_iff. Qed.

Lemma leb_true (x y : Q) : leb x y = true <-> (x <= y)%Q.
Proof. apply Qle_bool_iff. Qed.

(** ** JavaScript strings *)

Module JsString.

Local Open Scope string_scope.

(** [n.toString()] and [`${n}`] for an integer. *)
Definition Z_to_string (n : Z) : string := NilZero.string_of_int (Z.to_int n).

Definition code (c : ascii) : N := N_of_ascii c.

(** [\d]. *)
Definition is_digit (c : ascii) : bool := ((48 <=? code c) && (code c <=? 57))%N.
(** [\s] and the characters that [trim] strips: tab, line feed, vertical
    tab, form feed, carriage return and the space. *)
Definition is_space (c : ascii) : bool :=
  (((9 <=? code c) && (code c <=? 13)) || (code c =? 32))%N.
(** [[a-z]] and [[A-Z]]. *)
Definition is_lower (c : ascii) : bool := ((97 <=? code c) && (code c <=? 122))%N.
Definition is_upper (c : ascii) : bool := ((65 <=? code c) && (code c <=? 90))%N.
(** [[+-]]. *)
Definition is_sign (c : ascii) : bool := ((code c =? 43) || (code c =? 45))%N.
(** [.]: any character but a line terminator. *)
Definition is_any (c : ascii) : bool := negb ((code c =? 10) || (code c =? 13))%N.
(** A literal character. *)
Definition is_char (a c : ascii) : bool := Ascii.eqb a c.

Fixpoint smap (f : ascii -> ascii) (s : string) : string :=
  match s with
  | EmptyString => EmptyString
  | String c s' => String (f c) (smap f s')
  end.

(** [s.replace(/[class]/g, empty)]: the characters outside the class. *)
Fixpoint remove (class : ascii -> bool) (s : string) : string :=
  match s with
  | EmptyString => EmptyString
  | String c s' => if class c then remove class s' else String c (remove class s')
  end.

(** [s.toLowerCase()]. *)
Definition toLowerCase (s : string) : string :=
  smap (fun c => if is_upper c then ascii_of_N (code c + 32) else c) s.

Fixpoint trimStart (s : string) : string :=
  match s with
  | EmptyString => EmptyString
  | String c s' => if is_space c then trimStart s' else s
  end.

Fixpoint trimEnd (s : string) : string :=
  match s with
  | EmptyString => EmptyString
  | String c s' =>
      match trimEnd s' with
      | EmptyString => if is_space c then EmptyString else String c EmptyString
      | t => String c t
      end
  end.

(** [s.trim()]. *)
Definition trim (s : string) : string := trimEnd (trimStart s).

(** [s.replace(/\s+/g, " ")]: every run of white space becomes one space;
    [in_run] tells that the previous character was white space. *)
Fixpoint collapse (in_run : bool) (s : string) : string :=
  match s with
  | EmptyString => EmptyString
  | String c s' =>
      if is_space c
      then (if in_run then collapse true s' else String " " (collapse true s'))
      else String c (collapse false s')
  end.

Definition collapse_spaces (s : string) : string := collapse false s.

(** The value of a run of decimal digits after [acc]. *)
Fixpoint digits_value (acc : Z) (s : string) : Z :=
  match s with
  | EmptyString => acc
  | String c s' => digits_value (10 * acc + (Z.of_N (code c) - 48)) s'
  end.

(** The text before the first [.] and, if there is one, the text after. *)
Fixpoint split_point (s : string) : string * option string :=
  match s with
  | EmptyString => (EmptyString, None)
  | String c s' =>
      if is_char "." c then (EmptyString, Some s')
      else let '(i, f) := split_point s' in (String c i, f)
  end.

Definition unsigned_value (s : string) : Q :=
  match split_point s with
  | (i, None) => inject_Z (digits_value 0 i)
  | (i, Some f) =>
      (inject_Z (digits_value 0 i)
       + inject_Z (digits_value 0 f) / inject_Z (10 ^ Z.of_nat (String.length f)))%Q
  end.

(** [Number(s)] for the numerals that the parser hands to it: an optional
    sign, digits, and optionally a point and digits. *)
Definition Number (s : string) : Q :=
  match s with
  | String c s' =>
      if is_char "-" c then (- unsigned_value s')%Q
      else if is_char "+" c then unsigned_value s'
      else unsigned_value s
  | EmptyString => 0%Q
  end.

(** [!s] for a string. *)
Definition is_empty (s : string) : bool :=
  match s with EmptyString => true | _ => false end.

(** The first [n] characters. *)
Fixpoint take (n : nat) (s : string) : string :=
  match n, s with
  | S n', String c s' => String c (take n' s')
  | _, _ => EmptyString
  end.

Lemma append_assoc (a b c : string) : (a ++ b) ++ c = a ++ (b ++ c).
Proof. induction a as [| x a IH]; simpl; [reflexivity | now rewrite IH]. Qed.

Lemma append_nil_r (a : string) : a ++ EmptyString = a.
Proof. induction a as [| x a IH]; simpl; [reflexivity | now rewrite IH]. Qed.

Lemma length_append (a b : string) :
  String.length (a ++ b) = (String.length a + String.length b)%nat.
Proof. induction a as [| x a IH]; simpl; [reflexivity | now rewrite IH]. Qed.

(** *** Lengths, and strings that an operation leaves alone *)

(** Every character of [s] is in [class]. *)
Fixpoint all (class : ascii -> bool) (s : string) : bool :=
  match s with
  | EmptyString => true
  | String c s' => class c && all class s'
  end.

Lemma all_append (class : ascii -> bool) (a b : string) :
  all class (a ++ b) = all class a && all class b.
Proof.
  induction a as [| x a IH]; simpl; [reflexivity|].
  now rewrite IH, andb_assoc.
Qed.

Lemma all_impl (class class' : ascii -> bool) (s : string) :
  (forall c, class c = true -> class' c = true) ->
  all class s = true -> all class' s = true.
Proof.
  intros Himp. induction s as [| c s IH]; simpl; [reflexivity|].
  rewrite !andb_true_iff. intros [Hc Hs]. split; auto.
Qed.

Lemma length_smap (f : ascii -> ascii) (s : string) :
  String.length (smap f s) = String.length s.
Proof. induction s as [| c s IH]; simpl; [reflexivity | now rewrite IH]. Qed.

Lemma smap_id (f : ascii -> ascii) (s : string) :
  all (fun c => Ascii.eqb (f c) c) s = true -> smap f s = s.
Proof.
  induction s as [| c s IH]; simpl; [reflexivity|].
  rewrite andb_true_iff. intros [Hc Hs].
  apply Ascii.eqb_eq in Hc. now rewrite Hc, IH.
Qed.

Lemma length_remove (class : ascii -> bool) (s : string) :
  (String.length (remove class s) <= String.length s)%nat.
Proof.
  induction s as [| c s IH]; simpl; [lia|].
  destruct (class c); simpl; lia.
Qed.

Lemma remove_same_length (class : ascii -> bool) (s : string) :
  String.length (remove class s) = String.length s -> remove class s = s.
Proof.
  induction s as [| c s IH]; simpl; [reflexivity|].
  pose proof (length_remove class s) as Hle.
  destruct (class c); simpl; intros Hlen; [lia|].
  rewrite IH by lia. reflexivity.
Qed.

Lemma remove_none (class : ascii -> bool) (s : string) :
  all (fun c => negb (class c)) s = true -> remove class s = s.
Proof.
  induction s as [| c s IH]; simpl; [reflexivity|].
  rewrite andb_true_iff, negb_true_iff. intros [Hc Hs].
  now rewrite Hc, IH.
Qed.

Lemma length_trimStart (s : string) :
  (String.length (trimStart s) <= String.length s)%nat.
Proof.
  induction s as [| c s IH]; simpl; [lia|].
  destruct (is_space c); simpl; lia.
Qed.

Lemma trimStart_same_length (s : string) :
  String.length (trimStart s) = String.length s -> trimStart s = s.
Proof.
  destruct s as [| c s]; simpl; [reflexivity|].
  pose proof (length_trimStart s).
  destruct (is_space c); simpl; [lia | reflexivity].
Qed.

Lemma length_trimEnd (s : string) :
  (String.length (trimEnd s) <= String.length s)%nat.
Proof.
  induction s as [| c s IH]; simpl; [lia|].
  destruct (trimEnd s); [destruct (is_space c)|]; simpl in *; lia.
Qed.

Lemma trimEnd_same_length (s : string) :
  String.length (trimEnd s) = String.length s -> trimEnd s = s.
Proof.
  induction s as [| c s IH]; simpl; [reflexivity|].
  pose proof (length_trimEnd s) as Hle.
  destruct (trimEnd s) as [| x t] eqn:E.
  - destruct (is_space c); simpl in *; intros Hlen; [lia|].
    destruct s; [reflexivity | simpl in Hlen; lia].
  - simpl in *. intros Hlen. rewrite IH by lia. reflexivity.
Qed.

Lemma length_trim (s : string) : (String.length (trim s) <= String.length s)%nat.
Proof.
  unfold trim. pose proof (length_trimEnd (trimStart s)).
  pose proof (length_trimStart s). lia.
Qed.

Lemma trim_same_length (s : string) :
  String.length (trim s) = String.length s -> trim s = s.
Proof.
  unfold trim. intros Hlen.
  pose proof (length_trimEnd (trimStart s)).
  pose proof (length_trimStart s).
  rewrite trimEnd_same_length by lia. apply trimStart_same_length. lia.
Qed.

(** A string without white space is its own trim and has no run to collapse. *)
Lemma trimEnd_no_space (s : string) :
  all (fun c => negb (is_space c)) s = true -> trimEnd s = s.
Proof.
  induction s as [| c s IH]; simpl; [reflexivity|].
  rewrite andb_true_iff, negb_true_iff. intros [Hc Hs].
  rewrite IH by assumption. rewrite Hc. destruct s; reflexivity.
Qed.

Lemma trim_no_space (s : string) :
  all (fun c => negb (is_space c)) s = true -> trim s = s.
Proof.
  intros Hs. unfold trim.
  assert (Hstart : trimStart s = s).
  { destruct s as [| c s]; simpl in *; [reflexivity|].
    apply andb_true_iff in Hs. destruct Hs as [Hc _].
    apply negb_true_iff in Hc. now rewrite Hc. }
  rewrite Hstart. now apply trimEnd_no_space.
Qed.

Lemma collapse_no_space (b : bool) (s : string) :
  all (fun c => negb (is_space c)) s = true -> collapse b s = s.
Proof.
  revert b. induction s as [| c s IH]; intros b; simpl; [reflexivity|].
  rewrite andb_true_iff, negb_true_iff. intros [Hc Hs].
  now rewrite Hc, IH.
Qed.

Lemma take_append (a b : string) : take (String.length a) (a ++ b) = a.
Proof. induction a as [| x a IH]; simpl; [now destruct b | now rewrite IH]. Qed.

Lemma take_all (a : string) : take (String.length a) a = a.
Proof. induction a as [| x a IH]; simpl; [reflexivity | now rewrite IH]. Qed.

(** *** The character classes against each other *)

Lemma is_char_eq (a c : ascii) : is_char a c = true <-> c = a.
Proof. unfold is_char. rewrite Ascii.eqb_eq. split; congruence. Qed.

Ltac class_arith :=
  unfold is_digit, is_space, is_lower, is_upper, is_sign, is_any in *;
  repeat match goal with
  | H : _ && _ = true |- _ => apply andb_true_iff in H; destruct H
  | H : (_ <=? _)%N = true |- _ => apply N.leb_le in H
  end;
  repeat match goal with
  | |- context [(?x <=? ?y)%N] => destruct (N.leb_spec x y)
  | |- context [(?x =? ?y)%N] => destruct (N.eqb_spec x y)
  end; simpl; try reflexivity; try lia.

Lemma digit_not_space (c : ascii) : is_digit c = true -> is_space c = false.
Proof. intros H. class_arith. Qed.

Lemma digit_not_sign (c : ascii) : is_digit c = true -> is_sign c = false.
Proof. intros H. class_arith. Qed.

Lemma digit_not_lower (c : ascii) : is_digit c = true -> is_lower c = false.
Proof. intros H. class_arith. Qed.

Lemma digit_not_upper (c : ascii) : is_digit c = true -> is_upper c = false.
Proof. intros H. class_arith. Qed.

(** A digit is none of the punctuation that the parser looks for. *)
Lemma digit_not_char (a c : ascii) :
  is_digit a = false -> is_digit c = true -> is_char a c = false.
Proof.
  intros Ha Hc. destruct (is_char a c) eqn:E; [| reflexivity].
  apply is_char_eq in E. congruence.
Qed.

(** *** Trimming, and the white space around a text *)

Lemma smap_append (f : ascii -> ascii) (a b : string) :
  smap f (a ++ b) = smap f a ++ smap f b.
Proof. induction a as [| x a IH]; simpl; [reflexivity | now rewrite IH]. Qed.

Lemma remove_append (class : ascii -> bool) (a b : string) :
  remove class (a ++ b) = remove class a ++ remove class b.
Proof.
  induction a as [| x a IH]; simpl; [reflexivity|].
  destruct (class x); simpl; now rewrite IH.
Qed.

Lemma all_smap (class : ascii -> bool) (f : ascii -> ascii) (s : string) :
  (forall c, class (f c) = true) -> all class (smap f s) = true.
Proof.
  intros Hf. induction s as [| c s IH]; simpl; [reflexivity|].
  now rewrite Hf, IH.
Qed.

Lemma all_remove (class class' : ascii -> bool) (s : string) :
  all class s = true -> all class (remove class' s) = true.
Proof.
  induction s as [| c s IH]; simpl; [reflexivity|].
  rewrite andb_true_iff. intros [Hc Hs].
  destruct (class' c); simpl; [auto | now rewrite Hc, IH].
Qed.

Lemma trimStart_decompose (s : string) :
  exists a, s = a ++ trimStart s /\ all is_space a = true.
Proof.
  induction s as [| c s [a [Ha Hsp]]].
  - now exists EmptyString.
  - simpl. destruct (is_space c) eqn:Hc.
    + exists (String c a). simpl. now rewrite Hc, Hsp, <- Ha.
    + now exists EmptyString.
Qed.

Lemma trimEnd_decompose (s : string) :
  exists b, s = trimEnd s ++ b /\ all is_space b = true.
Proof.
  induction s as [| c s [b [Hb Hsp]]].
  - now exists EmptyString.
  - simpl. destruct (trimEnd s) as [| x t] eqn:E.
    + simpl in Hb. destruct (is_space c) eqn:Hc.
      * exists (String c b). simpl. rewrite Hc, Hsp. now subst s.
      * exists b. simpl. split; [now subst s | exact Hsp].
    + exists b. simpl in *. split; [now rewrite <- Hb | exact Hsp].
Qed.

Lemma trim_decompose (s : string) :
  exists a b, s = a ++ trim s ++ b /\ all is_space a = true /\ all is_space b = true.
Proof.
  destruct (trimStart_decompose s) as [a [Ha Hsa]].
  destruct (trimEnd_decompose (trimStart s)) as [b [Hb Hsb]].
  exists a, b. unfold trim. now rewrite <- Hb, <- Ha.
Qed.

Lemma trimStart_spaces (a : string) : all is_space a = true -> trimStart a = EmptyString.
Proof.
  induction a as [| c a IH]; simpl; [reflexivity|].
  rewrite andb_true_iff. intros [Hc Ha]. now rewrite Hc, IH.
Qed.

Lemma trimStart_pad (a s : string) :
  all is_space a = true -> trimStart (a ++ s) = trimStart s.
Proof.
  induction a as [| c a IH]; simpl; [reflexivity|].
  rewrite andb_true_iff. intros [Hc Ha]. now rewrite Hc, IH.
Qed.

Lemma trimEnd_spaces (b : string) : all is_space b = true -> trimEnd b = EmptyString.
Proof.
  induction b as [| c b IH]; simpl; [reflexivity|].
  rewrite andb_true_iff. intros [Hc Hb]. now rewrite IH, Hc.
Qed.

Lemma trimEnd_pad (s b : string) :
  all is_space b = true -> trimEnd (s ++ b) = trimEnd s.
Proof.
  intros Hb. induction s as [| c s IH]; simpl.
  - now apply trimEnd_spaces.
  - now rewrite IH.
Qed.

Lemma trim_pad_end (s b : string) :
  all is_space b = true -> trim (s ++ b) = trim s.
Proof.
  intros Hb. unfold trim. induction s as [| c s IH]; simpl.
  - now rewrite trimStart_spaces.
  - destruct (is_space c); [exact IH|].
    change (String c (s ++ b)) with (String c s ++ b). now apply trimEnd_pad.
Qed.

(** White space around a text does not change its trim. *)
Lemma trim_pad (a s b : string) :
  all is_space a = true -> all is_space b = true -> trim (a ++ s ++ b) = trim s.
Proof.
  intros Ha Hb. unfold trim. rewrite trimStart_pad by assumption.
  now apply trim_pad_end.
Qed.

Lemma trim_idempotent (s : string) : trim (trim s) = trim s.
Proof.
  destruct (trim_decompose s) as (a & b & Hs & Ha & Hb).
  rewrite Hs at 2. now rewrite trim_pad.
Qed.

Lemma all_trim (class : ascii -> bool) (s : string) :
  all class s = true -> all class (trim s) = true.
Proof.
  destruct (trim_decompose s) as (a & b & Hs & _ & _). intros Hall.
  rewrite Hs, !all_append in Hall.
  apply andb_true_iff in Hall. destruct Hall as [_ Hall].
  apply andb_true_iff in Hall. now destruct Hall.
Qed.

(** A map or a removal that leaves white space alone commutes with the
    trim, up to another trim. *)
Lemma trim_smap (f : ascii -> ascii) (s : string) :
  (forall c, is_space c = true -> f c = c) ->
  trim (smap f s) = trim (smap f (trim s)).
Proof.
  intros Hf. destruct (trim_decompose s) as (a & b & Hs & Ha & Hb).
  assert (Hid : forall t, all is_space t = true -> smap f t = t).
  { intros t Ht. apply smap_id, (all_impl is_space); [| exact Ht].
    intros c Hc. rewrite Hf by assumption. apply Ascii.eqb_refl. }
  rewrite Hs at 1. rewrite !smap_append, (Hid a Ha), (Hid b Hb).
  now apply trim_pad.
Qed.

Lemma trim_remove (class : ascii -> bool) (s : string) :
  (forall c, is_space c = true -> class c = false) ->
  trim (remove class s) = trim (remove class (trim s)).
Proof.
  intros Hcl. destruct (trim_decompose s) as (a & b & Hs & Ha & Hb).
  assert (Hid : forall t, all is_space t = true -> remove class t = t).
  { intros t Ht. apply remove_none, (all_impl is_space); [| exact Ht].
    intros c Hc. now rewrite Hcl. }
  rewrite Hs at 1. rewrite !remove_append, (Hid a Ha), (Hid b Hb).
  now apply trim_pad.
Qed.

Lemma trimEnd_changed (s : string) :
  trimEnd s <> s ->
  exists pre c, s = pre ++ String c EmptyString /\ is_space c = true.
Proof.
  induction s as [| c s IH]; simpl; [congruence|].
  destruct (trimEnd s) as [| x t] eqn:E.
  - destruct (is_space c) eqn:Hc.
    + intros _. destruct s as [| y s].
      * now exists EmptyString, c.
      * destruct IH as (pre & z & -> & Hz); [discriminate|].
        now exists (String c pre), z.
    + intros Hne. destruct s as [| y s]; [congruence|].
      destruct IH as (pre & z & -> & Hz); [discriminate|].
      now exists (String c pre), z.
  - intros Hne. destruct IH as (pre & z & -> & Hz); [congruence|].
    now exists (String c pre), z.
Qed.

(** A text that its trim changes starts or ends with white space. *)
Lemma trim_changed (s : string) :
  trim s <> s ->
  (exists c t, s = String c t /\ is_space c = true)
  \/ (exists pre c, s = pre ++ String c EmptyString /\ is_space c = true).
Proof.
  intros Hne. destruct s as [| c t]; [now contradiction Hne|].
  destruct (is_space c) eqn:Hc; [left; now exists c, t|].
  right. apply trimEnd_changed. unfold trim in Hne. simpl in Hne.
  now rewrite Hc in Hne.
Qed.

Lemma space_not_digit (c : ascii) : is_space c = true -> is_digit c = false.
Proof.
  intros H. destruct (is_digit c) eqn:E; [| reflexivity].
  apply digit_not_space in E. congruence.
Qed.

Lemma space_not_sign (c : ascii) : is_space c = true -> is_sign c = false.
Proof.
  unfold is_space, is_sign. intros H.
  apply orb_true_iff in H. destruct H as [H | H].
  - apply andb_true_iff in H. destruct H as [H1 H2].
    apply N.leb_le in H1, H2.
    destruct (N.eqb_spec (code c) 43), (N.eqb_spec (code c) 45); simpl;
      try reflexivity; lia.
  - apply N.eqb_eq in H. now rewrite H.
Qed.

Lemma space_not_lower (c : ascii) : is_space c = true -> is_lower c = false.
Proof.
  unfold is_space, is_lower. intros H.
  apply orb_true_iff in H. destruct H as [H | H].
  - apply andb_true_iff in H. destruct H as [H1 H2].
    apply N.leb_le in H1, H2.
    destruct (N.leb_spec 97 (code c)); simpl; [lia | reflexivity].
  - apply N.eqb_eq in H. now rewrite H.
Qed.

Lemma space_not_hyphen (c : ascii) : is_space c = true -> is_char "-" c = false.
Proof.
  intros H. destruct (is_char "-" c) eqn:E; [| reflexivity].
  apply is_char_eq in E. subst c. discriminate.
Qed.

(** The last character of a text is [c]. *)
Definition ends_with (s : string) (c : ascii) : Prop :=
  exists pre, s = pre ++ String c EmptyString.

Lemma ends_with_append (a b : string) (c : ascii) :
  ends_with b c -> ends_with (a ++ b) c.
Proof.
  intros [pre ->]. exists (a ++ pre). now rewrite append_assoc.
Qed.

Lemma ends_with_tail (a b : string) (b0 x : ascii) :
  ends_with (a ++ String b0 b) x -> ends_with (String b0 b) x.
Proof.
  intros [pre Hpre]. revert pre Hpre.
  induction a as [| a0 a IH]; intros pre Heq.
  - now exists pre.
  - destruct pre as [| p0 pre]; simpl in Heq.
    + inversion Heq. destruct a; discriminate.
    + inversion Heq. eapply IH; eauto.
Qed.

Lemma all_ends_with (class : ascii -> bool) (s : string) (c : ascii) :
  all class s = true -> ends_with s c -> class c = true.
Proof.
  intros Hs [pre ->]. rewrite all_append in Hs. simpl in Hs.
  apply andb_true_iff in Hs. destruct Hs as [_ Hc].
  now apply andb_true_iff in Hc.
Qed.

Lemma trim_fixed (s : string) :
  (forall c t, s = String c t -> is_space c = false) ->
  (forall c, ends_with s c -> is_space c = false) ->
  trim s = s.
Proof.
  intros Hfirst Hlast. destruct (string_dec (trim s) s) as [Heq | Hne]; [exact Heq|].
  exfalso. destruct (trim_changed s Hne) as [(c & t & Hs & Hc) | (pre & c & Hs & Hc)].
  - rewrite (Hfirst c t Hs) in Hc. discriminate.
  - rewrite (Hlast c) in Hc; [discriminate | now exists pre].
Qed.

(** A word without white space goes through the collapse as it is. *)
Lemma collapse_word (b : bool) (a t : string) :
  all (fun c => negb (is_space c)) a = true ->
  collapse b (a ++ t)
  = a ++ collapse (match a with EmptyString => b | _ => false end) t.
Proof.
  revert b. induction a as [| c a IH]; intros b; simpl; [reflexivity|].
  rewrite andb_true_iff, negb_true_iff. intros [Hc Ha].
  rewrite Hc, IH by assumption. now destruct a.
Qed.

End JsString.

(** ** Regular expressions *)

Module Regex.
Import JsString.

(** The fragment of the regular expressions that [units.ts] uses: character
    classes, concatenation, greedy [?], [*] and [+], and capture groups.
    Every pattern of the parser is anchored at both ends. *)
Inductive regex : Type :=
| Eps
| Chr (class : ascii -> bool)
| Cat (r1 r2 : regex)
| Opt (r : regex)
| Star (r : regex)
| Group (n : nat) (r : regex).

Definition Plus (r : regex) : regex := Cat r (Star r).

(** The text of the groups that matched, latest first. *)
Definition captures : Type := list (nat * string).

Fixpoint group (n : nat) (caps : captures) : option string :=
  match caps with
  | [] => None
  | (m, s) :: caps' => if Nat.eqb n m then Some s else group n caps'
  end.

(** What was consumed between [s] and its suffix [rest]. *)
Definition consumed (s rest : string) : string :=
  take (String.length s - String.length rest) s.

Section Matcher.
Context {A : Type}.

(** A continuation receives the captures and the rest of the input. *)
Definition cont : Type := captures -> string -> option A.

(** Greedy iteration of a matcher [m]: one more round of [m] — which must
    consume something — first, and only then the continuation.  [fuel]
    bounds the rounds; [exec] starts it at the length of the input, which
    is always enough ([star_loop_fuel]). *)
Fixpoint star_loop (m : string -> captures -> cont -> option A) (fuel : nat)
    (s : string) (caps : captures) (k : cont) : option A :=
  match fuel with
  | O => k caps s
  | S fuel' =>
      match m s caps (fun caps' s' =>
                        if (String.length s' <? String.length s)%nat
                        then star_loop m fuel' s' caps' k else None) with
      | Some v => Some v
      | None => k caps s
      end
  end.

(** The backtracking matcher: the alternatives in the order of the
    ECMAScript semantics, the first success wins. *)
Fixpoint exec (r : regex) (s : string) (caps : captures) (k : cont) : option A :=
  match r with
  | Eps => k caps s
  | Chr class =>
      match s with
      | String c s' => if class c then k caps s' else None
      | EmptyString => None
      end
  | Cat r1 r2 => exec r1 s caps (fun caps' s' => exec r2 s' caps' k)
  | Opt r' =>
      match exec r' s caps k with
      | Some v => Some v
      | None => k caps s
      end
  | Star r' => star_loop (exec r') (String.length s) s caps k
  | Group n r' =>
      exec r' s caps (fun caps' s' => k ((n, consumed s s') :: caps') s')
  end.

End Matcher.

(** [s.match(/^r$/)]: the captures of the match of the whole of [s]. *)
Definition matches (r : regex) (s : string) : option captures :=
  exec r s [] (fun caps rest => if is_empty rest then Some caps else None).

(** [/^r$/.test(s)]. *)
Definition test (r : regex) (s : string) : bool :=
  match matches r s with Some _ => true | None => false end.

(** [m[n]] of a match. *)
Definition nth_group (n : nat) (caps : captures) : string :=
  match group n caps with Some s => s | None => EmptyString end.

(** *** The equations of the matcher *)

Section Equations.
Context {A : Type}.

Lemma exec_cat (r1 r2 : regex) (s : string) (caps : captures) (k : @cont A) :
  exec (Cat r1 r2) s caps k = exec r1 s caps (fun caps' s' => exec r2 s' caps' k).
Proof. reflexivity. Qed.

Lemma exec_opt (r : regex) (s : string) (caps : captures) (k : @cont A) :
  exec (Opt r) s caps k
  = match exec r s caps k with Some v => Some v | None => k caps s end.
Proof. reflexivity. Qed.

Lemma exec_star (r : regex) (s : string) (caps : captures) (k : @cont A) :
  exec (Star r) s caps k = star_loop (exec r) (String.length s) s caps k.
Proof. reflexivity. Qed.

Lemma exec_group (n : nat) (r : regex) (s : string) (caps : captures)
    (k : @cont A) :
  exec (Group n r) s caps k
  = exec r s caps (fun caps' s' => k ((n, consumed s s') :: caps') s').
Proof. reflexivity. Qed.

Lemma exec_chr (class : ascii -> bool) (c : ascii) (s : string)
    (caps : captures) (k : @cont A) :
  exec (Chr class) (String c s) caps k = if class c then k caps s else None.
Proof. reflexivity. Qed.

Lemma exec_chr_nil (class : ascii -> bool) (caps : captures) (k : @cont A) :
  exec (Chr class) EmptyString caps k = None.
Proof. reflexivity. Qed.

End Equations.

(** Unfold the matcher at the head of the goal, one construct at a time. *)
Ltac exec_step :=
  repeat (progress (rewrite ?exec_cat, ?exec_opt, ?exec_group, ?exec_star,
                      ?exec_chr, ?exec_chr_nil; cbv beta)).

(** *** The fuel of the iteration *)

Section Fuel.
Context {A : Type}.

(** The result of the matcher only depends on what the continuation does
    with the suffixes of the input. *)
Definition agree (n : nat) (k1 k2 : @cont A) : Prop :=
  forall caps s, (String.length s <= n)%nat -> k1 caps s = k2 caps s.

Lemma star_loop_ext (m : string -> captures -> @cont A -> option A) :
  (forall s caps k1 k2, agree (String.length s) k1 k2 -> m s caps k1 = m s caps k2) ->
  forall fuel s caps k1 k2,
    agree (String.length s) k1 k2 ->
    star_loop m fuel s caps k1 = star_loop m fuel s caps k2.
Proof.
  intros Hm fuel. induction fuel as [| fuel IH]; intros s caps k1 k2 Hk.
  - apply Hk. lia.
  - cbn [star_loop]. rewrite (Hk caps s) by lia.
    erewrite Hm; [reflexivity|].
    intros caps' s' Hlen.
    destruct (Nat.ltb_spec (String.length s') (String.length s)); [| reflexivity].
    apply IH. intros caps'' s'' Hlen'. apply Hk. lia.
Qed.

Lemma exec_ext (r : regex) (s : string) (caps : captures) (k1 k2 : @cont A) :
  agree (String.length s) k1 k2 -> exec r s caps k1 = exec r s caps k2.
Proof.
  revert s caps k1 k2.
  induction r as [| class | r1 IH1 r2 IH2 | r IH | r IH | n r IH];
    intros s caps k1 k2 Hk.
  - apply Hk. lia.
  - destruct s as [| c s]; [reflexivity|]. rewrite !exec_chr.
    destruct (class c); [| reflexivity]. apply Hk. simpl. lia.
  - rewrite !exec_cat. apply IH1. intros caps' s' Hlen.
    apply IH2. intros caps'' s'' Hlen'. apply Hk. lia.
  - rewrite !exec_opt, (IH s caps k1 k2 Hk), (Hk caps s) by lia. reflexivity.
  - rewrite !exec_star. now apply star_loop_ext.
  - rewrite !exec_group. apply IH. intros caps' s' Hlen. now apply Hk.
Qed.

(** The matcher succeeds through its continuation only. *)
Lemma exec_fails (r : regex) (s : string) (caps : captures) (k : @cont A) :
  agree (String.length s) k (fun _ _ => None) -> exec r s caps k = None.
Proof.
  intros Hk. rewrite (exec_ext r s caps k (fun _ _ => None) Hk).
  clear k Hk. revert s caps.
  assert (Hstar : forall m : string -> captures -> @cont A -> option A,
            (forall s caps, m s caps (fun _ _ => None) = None) ->
            (forall s caps k1 k2, agree (String.length s) k1 k2 ->
                                  m s caps k1 = m s caps k2) ->
            forall fuel s caps, star_loop m fuel s caps (fun _ _ => None) = None).
  { intros m Hm Hext fuel. induction fuel as [| fuel IH]; intros s caps;
      [reflexivity|].
    cbn [star_loop]. erewrite Hext; [now rewrite Hm|].
    intros caps' s' _. destruct (_ <? _)%nat; [apply IH | reflexivity]. }
  induction r as [| class | r1 IH1 r2 IH2 | r IH | r IH | n r IH]; intros s caps.
  - reflexivity.
  - destruct s as [| c s]; [reflexivity|]. rewrite exec_chr. now destruct (class c).
  - rewrite exec_cat. erewrite exec_ext; [apply IH1|].
    intros caps' s' _. apply IH2.
  - now rewrite exec_opt, IH.
  - rewrite exec_star. apply Hstar; [exact IH|]. intros. now apply exec_ext.
  - rewrite exec_group. apply IH.
Qed.

(** The fuel of the iteration never runs out: started at the length of the
    input or above, it gives the same result, since a round has to consume a
    character. *)
Lemma star_loop_fuel (r : regex) (fuel1 fuel2 : nat) (s : string)
    (caps : captures) (k : @cont A) :
  (String.length s <= fuel1)%nat -> (String.length s <= fuel2)%nat ->
  star_loop (exec r) fuel1 s caps k = star_loop (exec r) fuel2 s caps k.
Proof.
  revert fuel2 s caps.
  induction fuel1 as [| fuel1 IH]; intros fuel2 s caps H1 H2.
  - destruct fuel2 as [| fuel2]; [reflexivity|]. cbn [star_loop].
    rewrite exec_fails; [reflexivity|].
    intros caps' s' Hlen.
    destruct (Nat.ltb_spec (String.length s') (String.length s)); [lia | reflexivity].
  - destruct fuel2 as [| fuel2]; cbn [star_loop].
    + rewrite exec_fails; [reflexivity|].
      intros caps' s' Hlen.
      destruct (Nat.ltb_spec (String.length s') (String.length s)); [lia | reflexivity].
    + erewrite exec_ext; [reflexivity|].
      intros caps' s' Hlen.
      destruct (Nat.ltb_spec (String.length s') (String.length s)); [| reflexivity].
      apply IH; lia.
Qed.

End Fuel.

(** *** Iterating a character class *)

(** The input does not go on with a character of [class]. *)
Definition stops (class : ascii -> bool) (s : string) : bool :=
  match s with
  | EmptyString => true
  | String c _ => negb (class c)
  end.

Section ClassLoops.
Context {A : Type}.
Variable class : ascii -> bool.

(** Where the class cannot start, the iteration matches nothing. *)
Lemma star_loop_stop (fuel : nat) (s : string) (caps : captures) (k : @cont A) :
  stops class s = true ->
  star_loop (exec (Chr class)) fuel s caps k = k caps s.
Proof.
  intros Hstop. destruct fuel as [| fuel]; [reflexivity|].
  cbn [star_loop exec]. destruct s as [| c s]; [reflexivity|].
  simpl in Hstop. apply negb_true_iff in Hstop. now rewrite Hstop.
Qed.

(** The iteration fails when the continuation fails after every run of
    the class that the input starts with. *)
Lemma star_loop_none (fuel : nat) (s : string) (caps : captures) (k : @cont A) :
  (forall pre rest, s = (pre ++ rest)%string -> all class pre = true ->
                    k caps rest = None) ->
  star_loop (exec (Chr class)) fuel s caps k = None.
Proof.
  revert s. induction fuel as [| fuel IH]; intros s Hk.
  - apply (Hk EmptyString s); reflexivity.
  - cbn [star_loop exec].
    assert (Hhere : k caps s = None) by (apply (Hk EmptyString s); reflexivity).
    destruct s as [| c s]; [exact Hhere|].
    destruct (class c) eqn:Hc; [| exact Hhere].
    destruct (String.length s <? String.length (String c s))%nat; [| exact Hhere].
    rewrite IH; [exact Hhere|].
    intros pre rest Hsplit Hpre. apply (Hk (String c pre) rest).
    + simpl. now rewrite Hsplit.
    + simpl. now rewrite Hc, Hpre.
Qed.

(** The iteration takes the longest run first: if the continuation
    succeeds after it, that is the result. *)
Lemma star_loop_greedy (fuel : nat) (pre rest : string) (caps : captures)
    (k : @cont A) (v : A) :
  all class pre = true -> stops class rest = true ->
  (String.length pre <= fuel)%nat ->
  k caps rest = Some v ->
  star_loop (exec (Chr class)) fuel (pre ++ rest) caps k = Some v.
Proof.
  intros Hpre Hstop Hfuel Hk. revert fuel Hfuel Hpre.
  induction pre as [| c pre IH]; intros fuel Hfuel Hpre.
  - simpl. now rewrite star_loop_stop.
  - destruct fuel as [| fuel]; [simpl in Hfuel; lia|].
    simpl in Hpre. apply andb_true_iff in Hpre. destruct Hpre as [Hc Hpre].
    cbn [star_loop exec append]. rewrite Hc.
    assert (Hlt : (String.length (pre ++ rest)
                   <? String.length (String c (pre ++ rest)))%nat = true)
      by (apply Nat.ltb_lt; simpl; lia).
    rewrite Hlt, IH; [reflexivity | simpl in Hfuel; lia | exact Hpre].
Qed.

(** The same when the run of the class is all that is left. *)
Lemma star_loop_greedy_all (fuel : nat) (s : string) (caps : captures)
    (k : @cont A) (v : A) :
  all class s = true -> (String.length s <= fuel)%nat ->
  k caps EmptyString = Some v ->
  star_loop (exec (Chr class)) fuel s caps k = Some v.
Proof.
  intros Hs Hfuel Hk. rewrite <- (append_nil_r s).
  apply star_loop_greedy; auto.
Qed.

End ClassLoops.

(** A run of a class followed by a character outside it splits in one way
    only: whatever follows a shorter run starts inside the class or with
    that character. *)
Lemma split_run (class : ascii -> bool) (run pre rest tail : string) (x : ascii) :
  all class run = true -> all class pre = true -> class x = false ->
  (run ++ String x tail)%string = (pre ++ rest)%string ->
  exists c t, rest = String c t /\ (class c = true \/ c = x).
Proof.
  revert pre. induction run as [| r run IH]; intros pre Hrun Hpre Hx Heq.
  - destruct pre as [| p pre]; simpl in *.
    + exists x, tail. split; [congruence | now right].
    + inversion Heq; subst p. apply andb_true_iff in Hpre. destruct Hpre. congruence.
  - simpl in Hrun. apply andb_true_iff in Hrun. destruct Hrun as [Hr Hrun].
    destruct pre as [| p pre]; simpl in *.
    + exists r, (run ++ String x tail)%string. split; [congruence | now left].
    + inversion Heq; subst p. apply andb_true_iff in Hpre. destruct Hpre.
      eapply IH; eauto.
Qed.

(** What is left of such a text after a shorter run is the rest of the
    run and the character outside the class. *)
Lemma split_run_suffix (class : ascii -> bool) (run pre rest tail : string)
    (x : ascii) :
  all class run = true -> all class pre = true -> class x = false ->
  (run ++ String x tail)%string = (pre ++ rest)%string ->
  exists run', rest = (run' ++ String x tail)%string /\ all class run' = true.
Proof.
  revert pre. induction run as [| r run IH]; intros pre Hrun Hpre Hx Heq.
  - destruct pre as [| p pre]; simpl in *.
    + now exists EmptyString.
    + inversion Heq; subst p. apply andb_true_iff in Hpre. destruct Hpre. congruence.
  - destruct pre as [| p pre]; simpl in *.
    + exists (String r run). split; [now rewrite <- Heq | exact Hrun].
    + apply andb_true_iff in Hrun. destruct Hrun as [Hr Hrun].
      inversion Heq; subst p. apply andb_true_iff in Hpre. destruct Hpre.
      eapply IH; eauto.
Qed.

Lemma consumed_append (a b : string) : consumed (a ++ b) b = a.
Proof.
  unfold consumed. rewrite length_append.
  replace (String.length a + String.length b - String.length b)%nat
    with (String.length a) by lia.
  apply take_append.
Qed.

Lemma consumed_all (a : string) : consumed a EmptyString = a.
Proof.
  unfold consumed. simpl. rewrite Nat.sub_0_r. apply take_all.
Qed.

(** *** The language of a pattern *)

(** The texts that a pattern describes. *)
Inductive lang : regex -> string -> Prop :=
| lang_eps : lang Eps EmptyString
| lang_chr (class : ascii -> bool) (c : ascii) :
    class c = true -> lang (Chr class) (String c EmptyString)
| lang_cat (r1 r2 : regex) (a b : string) :
    lang r1 a -> lang r2 b -> lang (Cat r1 r2) (a ++ b)%string
| lang_opt_none (r : regex) : lang (Opt r) EmptyString
| lang_opt_some (r : regex) (a : string) : lang r a -> lang (Opt r) a
| lang_star_nil (r : regex) : lang (Star r) EmptyString
| lang_star_cons (r : regex) (a b : string) :
    lang r a -> lang (Star r) b -> lang (Star r) (a ++ b)%string
| lang_group (n : nat) (r : regex) (a : string) : lang r a -> lang (Group n r) a.

(** The pattern matches the empty text. *)
Fixpoint nullable (r : regex) : bool :=
  match r with
  | Eps => true
  | Chr _ => false
  | Cat r1 r2 => nullable r1 && nullable r2
  | Opt _ => true
  | Star _ => true
  | Group _ r' => nullable r'
  end.

(** The characters that a text of the pattern is made of. *)
Fixpoint alphabet (r : regex) (c : ascii) : bool :=
  match r with
  | Eps => false
  | Chr class => class c
  | Cat r1 r2 => alphabet r1 c || alphabet r2 c
  | Opt r' => alphabet r' c
  | Star r' => alphabet r' c
  | Group _ r' => alphabet r' c
  end.

(** The characters that a text of the pattern can end with. *)
Fixpoint lastset (r : regex) (c : ascii) : bool :=
  match r with
  | Eps => false
  | Chr class => class c
  | Cat r1 r2 => lastset r2 c || (nullable r2 && lastset r1 c)
  | Opt r' => lastset r' c
  | Star r' => lastset r' c
  | Group _ r' => lastset r' c
  end.

Section Soundness.
Context {A : Type}.

(** A success of the matcher is a success of its continuation after a
    text of the pattern. *)
Definition sound_for (m : string -> captures -> @cont A -> option A)
    (r : regex) : Prop :=
  forall s caps k v,
    m s caps k = Some v ->
    exists pre rest caps',
      s = (pre ++ rest)%string /\ lang r pre /\ k caps' rest = Some v.

Lemma star_loop_sound (r : regex) :
  sound_for (exec r) r ->
  forall fuel, sound_for (star_loop (exec r) fuel) (Star r).
Proof.
  intros Hr fuel. induction fuel as [| fuel IH]; intros s caps k v Hv.
  - exists EmptyString, s, caps. repeat split; [constructor | exact Hv].
  - cbn [star_loop] in Hv.
    destruct (exec r s caps _) as [v' |] eqn:Hround.
    + inversion Hv; subst v'. clear Hv.
      apply Hr in Hround. destruct Hround as (pre & rest & caps' & -> & Hpre & Hk).
      destruct (String.length rest <? String.length (pre ++ rest))%nat;
        [| discriminate].
      apply IH in Hk. destruct Hk as (pre' & rest' & caps'' & -> & Hpre' & Hk).
      exists (pre ++ pre')%string, rest', caps''. repeat split.
      * now rewrite append_assoc.
      * now constructor.
      * exact Hk.
    + exists EmptyString, s, caps. repeat split; [constructor | exact Hv].
Qed.

Lemma exec_sound (r : regex) : sound_for (exec r) r.
Proof.
  induction r as [| class | r1 IH1 r2 IH2 | r IH | r IH | n r IH];
    intros s caps k v Hv.
  - exists EmptyString, s, caps. repeat split; [constructor | exact Hv].
  - destruct s as [| c s]; [discriminate|]. rewrite exec_chr in Hv.
    destruct (class c) eqn:Hc; [| discriminate].
    exists (String c EmptyString), s, caps. repeat split; [now constructor | exact Hv].
  - rewrite exec_cat in Hv. apply IH1 in Hv.
    destruct Hv as (pre1 & rest1 & caps1 & -> & Hpre1 & Hv).
    apply IH2 in Hv. destruct Hv as (pre2 & rest & caps' & -> & Hpre2 & Hv).
    exists (pre1 ++ pre2)%string, rest, caps'. repeat split.
    + now rewrite append_assoc.
    + now constructor.
    + exact Hv.
  - rewrite exec_opt in Hv. destruct (exec r s caps k) as [v' |] eqn:Hr.
    + inversion Hv; subst v'. apply IH in Hr.
      destruct Hr as (pre & rest & caps' & -> & Hpre & Hk).
      exists pre, rest, caps'. repeat split; [now constructor | exact Hk].
    + exists EmptyString, s, caps. repeat split; [constructor | exact Hv].
  - rewrite exec_star in Hv. eapply star_loop_sound; eauto.
  - rewrite exec_group in Hv. apply IH in Hv.
    destruct Hv as (pre & rest & caps' & -> & Hpre & Hk).
    exists pre, rest, ((n, consumed (pre ++ rest) rest) :: caps'). repeat split.
    + now constructor.
    + exact Hk.
Qed.

End Soundness.

(** What [matches] accepts is in the language of the pattern. *)
Lemma matches_sound (r : regex) (s : string) (caps : captures) :
  matches r s = Some caps -> lang r s.
Proof.
  unfold matches. intros Hm. apply exec_sound in Hm.
  destruct Hm as (pre & rest & caps' & -> & Hpre & Hk).
  destruct rest; [| discriminate]. now rewrite append_nil_r.
Qed.

Lemma lang_alphabet (r : regex) (s : string) :
  lang r s -> all (alphabet r) s = true.
Proof.
  induction 1.
  - reflexivity.
  - simpl. now rewrite H.
  - rewrite all_append.
    rewrite (all_impl (alphabet r1) (alphabet (Cat r1 r2)) a),
            (all_impl (alphabet r2) (alphabet (Cat r1 r2)) b);
      auto; intros c Hc; simpl; rewrite Hc; auto using orb_true_r.
  - reflexivity.
  - assumption.
  - reflexivity.
  - rewrite all_append, IHlang2, andb_true_r.
    apply (all_impl (alphabet r)); [intros c Hc; exact Hc | exact IHlang1].
  - assumption.
Qed.

Lemma lang_nullable (r : regex) : lang r EmptyString -> nullable r = true.
Proof.
  remember EmptyString as s eqn:Hs. induction 1; cbn [nullable]; auto.
  - discriminate.
  - destruct a; [| discriminate]. simpl in Hs. subst b.
    now rewrite IHlang1, IHlang2.
Qed.

Lemma lang_last (r : regex) (s : string) (c : ascii) :
  lang r s -> ends_with s c -> lastset r c = true.
Proof.
  intros Hl. revert c. induction Hl; intros x Hend; cbn [lastset].
  - destruct Hend as [[| ? ?] Hpre]; discriminate.
  - destruct Hend as [[| ? [| ? ?]] Hpre]; simpl in Hpre; inversion Hpre.
    now subst.
  - destruct b as [| b0 b].
    + rewrite append_nil_r in Hend.
      rewrite (lang_nullable r2 Hl2), (IHHl1 x Hend). apply orb_true_r.
    + rewrite IHHl2; [reflexivity | now apply ends_with_tail in Hend].
  - destruct Hend as [[| ? ?] Hpre]; discriminate.
  - auto.
  - destruct Hend as [[| ? ?] Hpre]; discriminate.
  - destruct b as [| b0 b].
    + rewrite append_nil_r in Hend. auto.
    + apply IHHl2. now apply ends_with_tail in Hend.
  - auto.
Qed.

End Regex.

(** ** The dimensional parser and formatter ([units.ts]) *)

Module Units.
Import JsMath JsString Regex.

Local Open Scope string_scope.

(** [/^[+-]?\d+(\.\d+)?$/] *)
Definition RE_NUMBER : regex :=
  Cat (Opt (Chr is_sign))
      (Cat (Plus (Chr is_digit))
           (Opt (Group 1 (Cat (Chr (is_char ".")) (Plus (Chr is_digit)))))).

(** [/^([+-]?\d+)\s*'\s*( .* )$/], the second group being any run of
    characters other than line terminators. *)
Definition RE_FEET : regex :=
  Cat (Group 1 (Cat (Opt (Chr is_sign)) (Plus (Chr is_digit))))
      (Cat (Star (Chr is_space))
           (Cat (Chr (is_char "'"))
                (Cat (Star (Chr is_space)) (Group 2 (Star (Chr is_any)))))).

(** [/^([+-]?\d+)\s+(\d+)\s*\/\s*(\d+)$/] *)
Definition RE_MIXED : regex :=
  Cat (Group 1 (Cat (Opt (Chr is_sign)) (Plus (Chr is_digit))))
      (Cat (Plus (Chr is_space))
           (Cat (Group 2 (Plus (Chr is_digit)))
                (Cat (Star (Chr is_space))
                     (Cat (Chr (is_char "/"))
                          (Cat (Star (Chr is_space))
                               (Group 3 (Plus (Chr is_digit)))))))).

(** [/^(\d+)\s*\/\s*(\d+)$/] *)
Definition RE_FRACTION : regex :=
  Cat (Group 1 (Plus (Chr is_digit)))
      (Cat (Star (Chr is_space))
           (Cat (Chr (is_char "/"))
                (Cat (Star (Chr is_space)) (Group 2 (Plus (Chr is_digit)))))).

(** [den === 0]. *)
Definition is_zero (x : Q) : bool := Qeq_bool x 0.

(** [p.replace(/-/g, " ")]. *)
Definition hyphens_to_spaces (p : string) : string :=
  smap (fun c => if is_char "-" c then " "%char else c) p.

(** [parseInchesPart]; the recursive call is on a shorter string, and
    [fuel] bounds the depth ([None] when it runs out). *)
Fixpoint parseInchesPart_fuel (fuel : nat) (part : string) : option (outcome Q) :=
  match fuel with
  | O => None
  | S fuel' =>
      let p := trim part in
      if is_empty p then Some (Ret 0%Q) else
      (* Support hyphen mixed fraction: 1-1/2 => 1 1/2 *)
      let p := hyphens_to_spaces p in
      (* If just a decimal/integer inches *)
      if test RE_NUMBER p then Some (Ret (Number p)) else
      (* Mixed fraction: "1 1/2" *)
      match matches RE_MIXED p with
      | Some mixed =>
          let whole := Number (nth_group 1 mixed) in
          let num := Number (nth_group 2 mixed) in
          let den := Number (nth_group 3 mixed) in
          if is_zero den then Some (Throw "Invalid fraction")
          else Some (Ret (whole + num / den)%Q)
      | None =>
          (* Pure fraction: "17/64" *)
          match matches RE_FRACTION p with
          | Some frac =>
              let num := Number (nth_group 1 frac) in
              let den := Number (nth_group 2 frac) in
              if is_zero den then Some (Throw "Invalid fraction")
              else Some (Ret (num / den)%Q)
          | None =>
              (* Allow something like "1 1/2 in" (extra text) *)
              let cleaned := trim (remove is_lower p) in
              if negb (String.eqb cleaned p)
              then parseInchesPart_fuel fuel' cleaned
              else Some (Throw "Unrecognized format")
          end
      end
  end.

(** Every recursive call removes a character, so the length of the part
    bounds the depth; [parseInchesPart_total] below shows that the default
    is never taken. *)
Definition parseInchesPart (part : string) : outcome Q :=
  match parseInchesPart_fuel (S (String.length part)) part with
  | Some r => r
  | None => Throw "Unrecognized format"
  end.

Definition parseInches (input : string) : outcome Q :=
  let s := toLowerCase (trim input) in
  if is_empty s then Throw "Empty input" else
  (* If it's a plain number, treat as inches (decimal allowed) *)
  if test RE_NUMBER s then Ret (Number s) else
  (* Normalize: remove double quotes, keep feet marker ' *)
  let str := trim (collapse_spaces (remove (is_char dquote) s)) in
  (* Split feet part if present *)
  let '(feet, rest) :=
    match matches RE_FEET str with
    | Some feetMatch => (Number (nth_group 1 feetMatch), trim (nth_group 2 feetMatch))
    | None => (0%Q, str)
    end in
  match (if is_empty rest then Ret 0%Q else parseInchesPart rest) with
  | Ret inches => Ret (feet * 12 + inches)%Q
  | Throw msg => Throw msg
  end.

(** [gcd]: the loop [while (y) [x, y] = [y, x % y]], at most [fuel] rounds. *)
Fixpoint gcd_loop (fuel : nat) (x y : Z) : Z :=
  match fuel with
  | O => x
  | S fuel' => if (y =? 0)%Z then x else gcd_loop fuel' y (Z.rem x y)
  end.

(** The remainder shrinks at every round, so [|b| + 1] rounds are enough
    ([gcd_is_gcd] below). *)
Definition gcd (a b : Z) : Z :=
  let x := Z.abs a in
  let y := Z.abs b in
  gcd_loop (S (Z.to_nat y)) x y.

(** [toFraction], for an integer denominator. *)
Definition toFraction (valueIn : Q) (denom : Z) : string :=
  let whole := floor (valueIn + (1 # 1000000000)) in
  let frac := (valueIn - inject_Z whole)%Q in
  let n := round (frac * inject_Z denom) in
  if (n =? 0)%Z then Z_to_string whole else
  if (n =? denom)%Z then Z_to_string (whole + 1) else
  let g := gcd n denom in
  let nn := n / g in
  let dd := denom / g in
  if (whole =? 0)%Z then Z_to_string nn ++ "/" ++ Z_to_string dd
  else Z_to_string whole ++ " " ++ Z_to_string nn ++ "/" ++ Z_to_string dd.

Definition toFeetInches (inches : Q) : string :=
  let sign := if ltb inches 0 then "-" else EmptyString in
  let abs := JsMath.abs inches in
  let ft := floor (abs / 12) in
  let inch := (abs - inject_Z ft * 12)%Q in
  (* show inches to nearest 1/16 in display *)
  let frac := toFraction inch 16 in
  if (0 <? ft)%Z then sign ++ Z_to_string ft ++ "' " ++ frac ++ dq
  else sign ++ frac ++ dq.

(** *** The parser *)

(** The body of [parseInchesPart], with [self] for the recursive call: what
    it does with the trimmed part once the hyphens are spaces, and the whole
    of it. *)
Definition parseNormalised (self : string -> option (outcome Q))
    (p : string) : option (outcome Q) :=
  if test RE_NUMBER p then Some (Ret (Number p)) else
  match matches RE_MIXED p with
  | Some mixed =>
      if is_zero (Number (nth_group 3 mixed)) then Some (Throw "Invalid fraction")
      else Some (Ret (Number (nth_group 1 mixed)
                      + Number (nth_group 2 mixed) / Number (nth_group 3 mixed))%Q)
  | None =>
      match matches RE_FRACTION p with
      | Some frac =>
          if is_zero (Number (nth_group 2 frac)) then Some (Throw "Invalid fraction")
          else Some (Ret (Number (nth_group 1 frac) / Number (nth_group 2 frac))%Q)
      | None =>
          let cleaned := trim (remove is_lower p) in
          if negb (String.eqb cleaned p) then self cleaned
          else Some (Throw "Unrecognized format")
      end
  end.

Definition parseInchesPart_body (self : string -> option (outcome Q))
    (part : string) : option (outcome Q) :=
  let p := trim part in
  if is_empty p then Some (Ret 0%Q)
  else parseNormalised self (hyphens_to_spaces p).

Lemma parseInchesPart_fuel_step (fuel : nat) (part : string) :
  parseInchesPart_fuel (S fuel) part
  = parseInchesPart_body (parseInchesPart_fuel fuel) part.
Proof. reflexivity. Qed.

(** Stripping the unit letters and trimming either changes nothing or
    shortens the text. *)
Lemma cleaned_shorter (p : string) :
  trim (remove is_lower p) <> p ->
  (String.length (trim (remove is_lower p)) < String.length p)%nat.
Proof.
  intros Hne.
  pose proof (length_trim (remove is_lower p)) as H1.
  pose proof (length_remove is_lower p) as H2.
  destruct (Nat.eq_dec (String.length (trim (remove is_lower p)))
                       (String.length p)) as [Heq | Hlt]; [| lia].
  exfalso. apply Hne.
  assert (Hr : remove is_lower p = p) by (apply remove_same_length; lia).
  rewrite Hr in *. apply trim_same_length. exact Heq.
Qed.

(** The recursion of [parseInchesPart] ends: with more fuel than the part
    has characters there is always a result. *)
Lemma parseInchesPart_fuel_total (fuel : nat) (part : string) :
  (String.length part < fuel)%nat ->
  exists r, parseInchesPart_fuel fuel part = Some r.
Proof.
  revert part. induction fuel as [| fuel IH]; intros part Hfuel; [lia|].
  rewrite parseInchesPart_fuel_step. unfold parseInchesPart_body, parseNormalised.
  destruct (is_empty (trim part)); [eexists; reflexivity|].
  set (p := hyphens_to_spaces (trim part)).
  destruct (test RE_NUMBER p); [eexists; reflexivity|].
  destruct (matches RE_MIXED p) as [mixed|].
  { destruct (is_zero _); eexists; reflexivity. }
  destruct (matches RE_FRACTION p) as [frac|].
  { destruct (is_zero _); eexists; reflexivity. }
  destruct (String.eqb_spec (trim (remove is_lower p)) p) as [Heq | Hne];
    cbn [negb]; [eexists; reflexivity|].
  apply IH. pose proof (cleaned_shorter p Hne) as Hlt.
  assert (Hp : String.length p = String.length (trim part))
    by (unfold p, hyphens_to_spaces; apply length_smap).
  pose proof (length_trim part). lia.
Qed.

(** More fuel does not change a result. *)
Lemma parseInchesPart_fuel_mono (fuel fuel' : nat) (part : string) (r : outcome Q) :
  (fuel <= fuel')%nat ->
  parseInchesPart_fuel fuel part = Some r ->
  parseInchesPart_fuel fuel' part = Some r.
Proof.
  revert fuel' part. induction fuel as [| fuel IH]; intros fuel' part Hle Hr;
    [discriminate|].
  destruct fuel' as [| fuel']; [lia|].
  rewrite parseInchesPart_fuel_step in *.
  unfold parseInchesPart_body, parseNormalised in *.
  destruct (is_empty (trim part)); [exact Hr|].
  destruct (test RE_NUMBER _); [exact Hr|].
  destruct (matches RE_MIXED _); [exact Hr|].
  destruct (matches RE_FRACTION _); [exact Hr|].
  destruct (negb _); [| exact Hr].
  apply IH; [lia | exact Hr].
Qed.

(** [parseInchesPart] never takes its default, and satisfies the equation
    of the source function. *)
Lemma parseInchesPart_total (part : string) :
  parseInchesPart_fuel (S (String.length part)) part = Some (parseInchesPart part).
Proof.
  unfold parseInchesPart.
  destruct (parseInchesPart_fuel_total (S (String.length part)) part) as [r Hr];
    [lia|].
  now rewrite Hr.
Qed.

Lemma parseInchesPart_eq (part : string) :
  Some (parseInchesPart part)
  = parseInchesPart_body (fun cleaned => Some (parseInchesPart cleaned)) part.
Proof.
  rewrite <- parseInchesPart_total, parseInchesPart_fuel_step.
  unfold parseInchesPart_body, parseNormalised.
  destruct (is_empty (trim part)); [reflexivity|].
  set (p := hyphens_to_spaces (trim part)).
  destruct (test RE_NUMBER p); [reflexivity|].
  destruct (matches RE_MIXED p); [reflexivity|].
  destruct (matches RE_FRACTION p); [reflexivity|].
  destruct (String.eqb_spec (trim (remove is_lower p)) p) as [Heq | Hne];
    cbn [negb]; [reflexivity|].
  apply (parseInchesPart_fuel_mono (S (String.length (trim (remove is_lower p))))).
  - pose proof (cleaned_shorter p Hne) as Hlt.
    assert (Hp : String.length p = String.length (trim part))
      by (unfold p, hyphens_to_spaces; apply length_smap).
    pose proof (length_trim part). lia.
  - apply parseInchesPart_total.
Qed.

(** *** Hyphens as white space *)

(** The three numeric patterns end with a digit and are made of signs,
    digits, points, white space and slashes. *)
Lemma numeric_last (c : ascii) :
  (lastset RE_NUMBER c = true -> is_digit c = true)
  /\ (lastset RE_MIXED c = true -> is_digit c = true)
  /\ (lastset RE_FRACTION c = true -> is_digit c = true).
Proof.
  unfold RE_NUMBER, RE_MIXED, RE_FRACTION, Plus.
  repeat split; cbn [lastset nullable andb orb]; destruct (is_digit c); auto;
    cbn [andb orb]; rewrite ?orb_false_r, ?andb_false_r; auto.
Qed.

Definition numeric_char (c : ascii) : bool :=
  is_sign c || is_digit c || is_char "." c || is_space c || is_char "/" c.

Lemma numeric_alphabet (c : ascii) :
  (alphabet RE_NUMBER c = true -> numeric_char c = true)
  /\ (alphabet RE_MIXED c = true -> numeric_char c = true)
  /\ (alphabet RE_FRACTION c = true -> numeric_char c = true).
Proof.
  unfold numeric_char, RE_NUMBER, RE_MIXED, RE_FRACTION, Plus.
  repeat split; cbn [alphabet];
    destruct (is_sign c), (is_digit c), (is_char "." c), (is_space c),
      (is_char "/" c); auto.
Qed.

Lemma numeric_not_lower (c : ascii) : numeric_char c = true -> is_lower c = false.
Proof.
  unfold numeric_char. rewrite !orb_true_iff.
  intros [[[[H | H] | H] | H] | H].
  - unfold is_sign in H. apply orb_true_iff in H.
    destruct H as [H | H]; apply N.eqb_eq in H; unfold is_lower; now rewrite H.
  - now apply digit_not_lower.
  - apply is_char_eq in H. now subst c.
  - now apply space_not_lower.
  - apply is_char_eq in H. now subst c.
Qed.

(** What one of the numeric patterns matches has no unit letter to strip. *)
Lemma lang_no_letters (r : regex) (x : string) :
  (forall c, alphabet r c = true -> numeric_char c = true) ->
  lang r x -> remove is_lower x = x.
Proof.
  intros Hr Hx. apply remove_none, (all_impl (alphabet r)).
  - intros c Hc. now rewrite numeric_not_lower by auto.
  - now apply lang_alphabet.
Qed.

(** Nor does it start or end with white space. *)
Lemma lang_trimmed (r : regex) (q : string) :
  (forall c, lastset r c = true -> is_digit c = true) ->
  (forall c t caps k, is_space c = true ->
      @exec captures r (String c t) caps k = None) ->
  trim q <> q -> matches r q = None.
Proof.
  intros Hlast Hfirst Hne.
  destruct (trim_changed q Hne) as [(c & t & -> & Hc) | (pre & c & -> & Hc)].
  - now apply Hfirst.
  - destruct (matches r (pre ++ String c EmptyString)) as [caps |] eqn:Hm; [| reflexivity].
    apply matches_sound in Hm.
    assert (Hd : is_digit c = true)
      by (apply Hlast, (lang_last r _ c Hm); now exists pre).
    apply digit_not_space in Hd. congruence.
Qed.

Lemma untrimmed_no_match (q : string) :
  trim q <> q ->
  test RE_NUMBER q = false /\ matches RE_MIXED q = None
  /\ matches RE_FRACTION q = None.
Proof.
  intros Hne.
  assert (Hfirst : forall class c, is_space c = true ->
            class = is_sign \/ class = is_digit -> class c = false).
  { intros class c Hc [-> | ->];
      [now apply space_not_sign | now apply space_not_digit]. }
  split; [| split].
  - unfold test. rewrite (lang_trimmed RE_NUMBER q); auto.
    + apply numeric_last.
    + intros c t caps k Hc. unfold RE_NUMBER, Plus. exec_step.
      now rewrite (space_not_sign c Hc), (space_not_digit c Hc).
  - apply lang_trimmed; auto.
    + apply numeric_last.
    + intros c t caps k Hc. unfold RE_MIXED, Plus. exec_step.
      now rewrite (space_not_sign c Hc), (space_not_digit c Hc).
  - apply lang_trimmed; auto.
    + apply numeric_last.
    + intros c t caps k Hc. unfold RE_FRACTION, Plus. exec_step.
      now rewrite (space_not_digit c Hc).
Qed.

Lemma letters_no_match (x : string) :
  remove is_lower x <> x ->
  test RE_NUMBER x = false /\ matches RE_MIXED x = None
  /\ matches RE_FRACTION x = None.
Proof.
  intros Hne.
  assert (Hno : forall r,
            (forall c, alphabet r c = true -> numeric_char c = true) ->
            matches r x = None).
  { intros r Hr. destruct (matches r x) as [caps |] eqn:Hm; [| reflexivity].
    exfalso. apply Hne, (lang_no_letters r); [exact Hr|].
    now apply (matches_sound r x caps). }
  unfold test. rewrite !Hno; try apply numeric_alphabet. auto.
Qed.

Definition no_hyphen (c : ascii) : bool := negb (is_char "-" c).

Lemma hyphens_to_spaces_free (s : string) :
  all no_hyphen (hyphens_to_spaces s) = true.
Proof.
  apply all_smap. intros c. unfold no_hyphen.
  destruct (is_char "-" c) eqn:E; [reflexivity | now rewrite E].
Qed.

Lemma hyphens_to_spaces_id (s : string) :
  all no_hyphen s = true -> hyphens_to_spaces s = s.
Proof.
  intros Hs. apply smap_id, (all_impl no_hyphen); [| exact Hs].
  unfold no_hyphen. intros c Hc. apply negb_true_iff in Hc.
  rewrite Hc. apply Ascii.eqb_refl.
Qed.

Lemma is_empty_hyphens (s : string) :
  is_empty (hyphens_to_spaces s) = is_empty s.
Proof. now destruct s. Qed.

(** The recursive call, as a result. *)
Definition retry (cleaned : string) : option (outcome Q) :=
  Some (parseInchesPart cleaned).

(** [parseInchesPart] on a part that is trimmed and has no hyphen. *)
Lemma parseInchesPart_clean (y : string) :
  trim y = y -> all no_hyphen y = true ->
  Some (parseInchesPart y)
  = if is_empty y then Some (Ret 0%Q) else parseNormalised retry y.
Proof.
  intros Htrim Hfree. rewrite parseInchesPart_eq. unfold parseInchesPart_body.
  now rewrite Htrim, hyphens_to_spaces_id.
Qed.

(** Stripping the unit letters first comes to the same as parsing the
    trimmed text: the retry does exactly that. *)
Lemma parseInchesPart_retry (z : string) :
  all no_hyphen z = true ->
  Some (parseInchesPart (trim (remove is_lower z)))
  = if is_empty (trim z) then Some (Ret 0%Q) else parseNormalised retry (trim z).
Proof.
  intros Hfree.
  rewrite (trim_remove is_lower z space_not_lower).
  set (x := trim z).
  assert (Hx : trim x = x) by apply trim_idempotent.
  assert (Hxf : all no_hyphen x = true) by now apply all_trim.
  destruct (String.eqb_spec (trim (remove is_lower x)) x) as [Heq | Hne].
  - rewrite Heq. now apply parseInchesPart_clean.
  - assert (Hletters : remove is_lower x <> x).
    { intros Hr. apply Hne. now rewrite Hr. }
    destruct (letters_no_match x Hletters) as (Hn & Hm & Hf).
    assert (Hnonempty : is_empty x = false).
    { destruct x; [now contradiction Hne | reflexivity]. }
    rewrite Hnonempty. unfold parseNormalised. rewrite Hn, Hm, Hf.
    destruct (String.eqb_spec (trim (remove is_lower x)) x); [contradiction|].
    reflexivity.
Qed.

(** In the inches part a hyphen is white space: turning the hyphens of a
    part into spaces beforehand does not change what [parseInchesPart]
    returns or throws. *)
Lemma parseInchesPart_hyphens (part : string) :
  parseInchesPart (hyphens_to_spaces part) = parseInchesPart part.
Proof.
  assert (Hgoal : Some (parseInchesPart (hyphens_to_spaces part))
                  = Some (parseInchesPart part)); [| congruence].
  set (q := hyphens_to_spaces (trim part)).
  assert (Hq : all no_hyphen q = true) by apply hyphens_to_spaces_free.
  assert (Hspace : forall c, is_space c = true ->
            (if is_char "-" c then " "%char else c) = c).
  { intros c Hc. now rewrite space_not_hyphen. }
  assert (Htq : trim (hyphens_to_spaces part) = trim q)
    by (unfold q, hyphens_to_spaces; apply trim_smap, Hspace).
  rewrite (parseInchesPart_eq (hyphens_to_spaces part)), (parseInchesPart_eq part).
  unfold parseInchesPart_body. fold q. rewrite Htq.
  rewrite (hyphens_to_spaces_id (trim q)) by now apply all_trim.
  destruct (is_empty (trim part)) eqn:Hempty.
  - destruct (trim part); [reflexivity | discriminate].
  - destruct (String.eqb_spec (trim q) q) as [Heq | Hne].
    + rewrite Heq. unfold q at 1. now rewrite is_empty_hyphens, Hempty.
    + destruct (untrimmed_no_match q Hne) as (Hn & Hm & Hf).
      unfold parseNormalised at 2. rewrite Hn, Hm, Hf.
      destruct (String.eqb_spec (trim (remove is_lower q)) q) as [Hcl | Hcl].
      * exfalso. apply Hne. rewrite <- Hcl. apply trim_idempotent.
      * cbn [negb]. symmetry. now apply parseInchesPart_retry.
Qed.

(** *** Fractions over zero *)

(** A numeral of the patterns: one decimal digit or more. *)
Definition digits (s : string) : Prop := s <> EmptyString /\ all is_digit s = true.

Lemma number_rejects_fraction (n d : string) :
  digits n -> test RE_NUMBER (n ++ String "/" d) = false.
Proof.
  intros [Hne Hn]. destruct n as [| c0 n]; [contradiction|].
  simpl in Hn. apply andb_true_iff in Hn. destruct Hn as [Hc0 Hn].
  unfold test, matches, RE_NUMBER, Plus. cbn [append]. exec_step.
  rewrite (digit_not_sign c0 Hc0), Hc0.
  rewrite star_loop_none; [reflexivity|].
  intros pre rest Hsplit Hpre.
  destruct (split_run is_digit n pre rest d "/" Hn Hpre eq_refl Hsplit)
    as (c & t & -> & Hc).
  exec_step.
  assert (Hpt : is_char "." c = false).
  { destruct Hc as [Hc | ->]; [| reflexivity]. now apply digit_not_char. }
  now rewrite Hpt.
Qed.

Lemma feet_rejects_fraction (n d : string) :
  digits n -> matches RE_FEET (n ++ String "/" d) = None.
Proof.
  intros [Hne Hn]. destruct n as [| c0 n]; [contradiction|].
  simpl in Hn. apply andb_true_iff in Hn. destruct Hn as [Hc0 Hn].
  unfold matches, RE_FEET, Plus. cbn [append]. exec_step.
  rewrite (digit_not_sign c0 Hc0), Hc0.
  rewrite star_loop_none; [reflexivity|].
  intros pre rest Hsplit Hpre.
  destruct (split_run is_digit n pre rest d "/" Hn Hpre eq_refl Hsplit)
    as (c & t & -> & Hc).
  exec_step.
  assert (Hsp : is_space c = false).
  { destruct Hc as [Hc | ->]; [| reflexivity]. now apply digit_not_space. }
  assert (Hq : is_char "'" c = false).
  { destruct Hc as [Hc | ->]; [| reflexivity]. now apply digit_not_char. }
  rewrite star_loop_stop by (simpl; now rewrite Hsp).
  exec_step. now rewrite Hq.
Qed.

Lemma mixed_rejects_fraction (n d : string) :
  digits n -> matches RE_MIXED (n ++ String "/" d) = None.
Proof.
  intros [Hne Hn]. destruct n as [| c0 n]; [contradiction|].
  simpl in Hn. apply andb_true_iff in Hn. destruct Hn as [Hc0 Hn].
  unfold matches, RE_MIXED, Plus. cbn [append]. exec_step.
  rewrite (digit_not_sign c0 Hc0), Hc0.
  rewrite star_loop_none; [reflexivity|].
  intros pre rest Hsplit Hpre.
  destruct (split_run is_digit n pre rest d "/" Hn Hpre eq_refl Hsplit)
    as (c & t & -> & Hc).
  exec_step.
  assert (Hsp : is_space c = false).
  { destruct Hc as [Hc | ->]; [| reflexivity]. now apply digit_not_space. }
  now rewrite Hsp.
Qed.

Lemma fraction_accepts (n d : string) :
  digits n -> digits d ->
  matches RE_FRACTION (n ++ String "/" d) = Some [(2%nat, d); (1%nat, n)].
Proof.
  intros [Hne Hn] [Hde Hd].
  destruct n as [| c0 n]; [contradiction|].
  destruct d as [| d0 d]; [contradiction|].
  simpl in Hn, Hd. apply andb_true_iff in Hn, Hd.
  destruct Hn as [Hc0 Hn]. destruct Hd as [Hd0 Hd].
  unfold matches, RE_FRACTION, Plus. cbn [append]. exec_step.
  rewrite Hc0.
  erewrite star_loop_greedy; [reflexivity | exact Hn | reflexivity | | ].
  - rewrite length_append. lia.
  - exec_step. rewrite star_loop_stop by reflexivity.
    exec_step. change (is_char "/" "/") with true. cbv iota.
    rewrite star_loop_stop by (simpl; now rewrite (digit_not_space d0 Hd0)).
    exec_step. rewrite Hd0.
    erewrite star_loop_greedy_all; [reflexivity | exact Hd | lia | ].
    cbv beta. cbn [is_empty]. unfold consumed.
    replace (String.length (String d0 d) - String.length EmptyString)%nat
      with (String.length (String d0 d)) by (simpl; lia).
    replace (String.length (String c0 (n ++ String "/" (String d0 d)))
             - String.length (String "/" (String d0 d)))%nat
      with (String.length (String c0 n))
      by (simpl; rewrite length_append; simpl; lia).
    change (String c0 (n ++ String "/" (String d0 d)))
      with (String c0 n ++ String "/" (String d0 d)).
    rewrite take_all, (take_append (String c0 n)). reflexivity.
Qed.

(** The characters of a pure fraction: digits and the slash. *)
Definition fraction_char (c : ascii) : bool := is_digit c || is_char "/" c.

Lemma fraction_chars (n d : string) :
  digits n -> digits d -> all fraction_char (n ++ String "/" d) = true.
Proof.
  intros [_ Hn] [_ Hd]. rewrite all_append. cbn [all].
  rewrite (all_impl is_digit fraction_char n), (all_impl is_digit fraction_char d);
    auto; unfold fraction_char; intros c ->; reflexivity.
Qed.

Lemma fraction_char_cases (c : ascii) :
  fraction_char c = true -> is_digit c = true \/ c = "/"%char.
Proof.
  unfold fraction_char. rewrite orb_true_iff, is_char_eq. tauto.
Qed.

(** A pure fraction goes through the normalisations of the parser
    unchanged. *)
Lemma fraction_normal (s : string) :
  all fraction_char s = true ->
  trim s = s /\ toLowerCase s = s /\ remove (is_char dquote) s = s
  /\ collapse_spaces s = s
  /\ hyphens_to_spaces s = s.
Proof.
  intros Hs.
  assert (Hsp : all (fun c => negb (is_space c)) s = true).
  { apply (all_impl fraction_char); [| exact Hs]. intros c Hc.
    destruct (fraction_char_cases c Hc) as [Hd | ->]; [| reflexivity].
    now rewrite digit_not_space. }
  repeat split.
  - now apply trim_no_space.
  - apply smap_id, (all_impl fraction_char); [| exact Hs]. intros c Hc.
    destruct (fraction_char_cases c Hc) as [Hd | ->]; [| reflexivity].
    rewrite digit_not_upper by assumption. apply Ascii.eqb_refl.
  - apply remove_none, (all_impl fraction_char); [| exact Hs]. intros c Hc.
    destruct (fraction_char_cases c Hc) as [Hd | ->]; [| reflexivity].
    now rewrite digit_not_char.
  - now apply collapse_no_space.
  - apply smap_id, (all_impl fraction_char); [| exact Hs]. intros c Hc.
    destruct (fraction_char_cases c Hc) as [Hd | ->]; [| reflexivity].
    rewrite (digit_not_char "-" c eq_refl Hd). apply Ascii.eqb_refl.
Qed.

(** Every pure fraction over a zero denominator is an invalid fraction,
    for [parseInchesPart] and for [parseInches]. *)
Lemma parseInchesPart_fraction_zero (n d : string) :
  digits n -> digits d -> (Number d == 0)%Q ->
  parseInchesPart (n ++ String "/" d) = Throw "Invalid fraction".
Proof.
  intros Hn Hd Hzero.
  destruct (fraction_normal _ (fraction_chars n d Hn Hd))
    as (Htrim & _ & _ & _ & Hhyphen).
  assert (Hne : is_empty (n ++ String "/" d) = false)
    by (destruct n; [destruct Hn; contradiction | reflexivity]).
  pose proof (parseInchesPart_eq (n ++ String "/" d)) as Heq.
  unfold parseInchesPart_body, parseNormalised in Heq.
  rewrite Htrim, Hne, Hhyphen, (number_rejects_fraction n d Hn),
    (mixed_rejects_fraction n d Hn), (fraction_accepts n d Hn Hd) in Heq.
  cbn [nth_group group Nat.eqb] in Heq.
  assert (Hz : is_zero (Number d) = true) by (apply Qeq_bool_iff, Hzero).
  rewrite Hz in Heq. congruence.
Qed.

Lemma parseInches_fraction_zero (n d : string) :
  digits n -> digits d -> (Number d == 0)%Q ->
  parseInches (n ++ String "/" d) = Throw "Invalid fraction".
Proof.
  intros Hn Hd Hzero.
  destruct (fraction_normal _ (fraction_chars n d Hn Hd))
    as (Htrim & Hlower & Hquote & Hcollapse & _).
  assert (Hne : is_empty (n ++ String "/" d) = false)
    by (destruct n; [destruct Hn; contradiction | reflexivity]).
  unfold parseInches.
  rewrite Htrim, Hlower, Hne, (number_rejects_fraction n d Hn), Hquote,
    Hcollapse, Htrim, (feet_rejects_fraction n d Hn), Hne,
    (parseInchesPart_fraction_zero n d Hn Hd Hzero).
  reflexivity.
Qed.

(** *** Mixed numbers over zero *)

(** A whole number, a space and a fraction. *)
Definition mixed (w n d : string) : string := w ++ String " " (n ++ String "/" d).

Lemma digits_cons (s : string) :
  digits s -> exists c t, s = String c t /\ is_digit c = true /\ all is_digit t = true.
Proof.
  intros [Hne Hs]. destruct s as [| c t]; [contradiction|].
  simpl in Hs. apply andb_true_iff in Hs. destruct Hs. now exists c, t.
Qed.

Lemma digits_no_space (s : string) :
  all is_digit s = true -> all (fun c => negb (is_space c)) s = true.
Proof.
  apply all_impl. intros c Hc. now rewrite digit_not_space.
Qed.

Lemma mixed_accepts (w n d : string) :
  digits w -> digits n -> digits d ->
  matches RE_MIXED (mixed w n d) = Some [(3%nat, d); (2%nat, n); (1%nat, w)].
Proof.
  intros Hw Hn Hd. unfold mixed.
  destruct (digits_cons w Hw) as (w0 & w' & -> & Hw0 & Hw').
  destruct (digits_cons n Hn) as (n0 & n' & -> & Hn0 & Hn').
  destruct (digits_cons d Hd) as (d0 & d' & -> & Hd0 & Hd').
  unfold matches, RE_MIXED, Plus. cbn [append]. exec_step.
  rewrite (digit_not_sign w0 Hw0), Hw0.
  erewrite star_loop_greedy; [reflexivity | exact Hw' | reflexivity | | ].
  { rewrite length_append. lia. }
  exec_step. change (is_space " ") with true. cbv iota.
  rewrite star_loop_stop by (simpl; now rewrite (digit_not_space n0 Hn0)).
  exec_step. rewrite Hn0.
  erewrite star_loop_greedy; [reflexivity | exact Hn' | reflexivity | | ].
  { rewrite length_append. lia. }
  exec_step. rewrite star_loop_stop by reflexivity.
  exec_step. change (is_char "/" "/") with true. cbv iota.
  rewrite star_loop_stop by (simpl; now rewrite (digit_not_space d0 Hd0)).
  exec_step. rewrite Hd0.
  erewrite star_loop_greedy_all; [reflexivity | exact Hd' | lia | ].
  cbv beta. cbn [is_empty].
  rewrite consumed_all.
  change (String n0 (n' ++ String "/" (String d0 d')))
    with (String n0 n' ++ String "/" (String d0 d')).
  rewrite consumed_append.
  change (String w0 (w' ++ String " " (String n0 n' ++ String "/" (String d0 d'))))
    with (String w0 w' ++ String " " (String n0 n' ++ String "/" (String d0 d'))).
  rewrite consumed_append. reflexivity.
Qed.

Lemma number_rejects_mixed (w n d : string) :
  digits w -> test RE_NUMBER (mixed w n d) = false.
Proof.
  intros Hw. unfold mixed.
  destruct (digits_cons w Hw) as (w0 & w' & -> & Hw0 & Hw').
  unfold test, matches, RE_NUMBER, Plus. cbn [append]. exec_step.
  rewrite (digit_not_sign w0 Hw0), Hw0.
  rewrite star_loop_none; [reflexivity|].
  intros pre rest Hsplit Hpre.
  destruct (split_run is_digit w' pre rest _ " " Hw' Hpre eq_refl Hsplit)
    as (c & t & -> & Hc).
  exec_step.
  assert (Hpt : is_char "." c = false).
  { destruct Hc as [Hc | ->]; [| reflexivity]. now apply digit_not_char. }
  now rewrite Hpt.
Qed.

Lemma feet_rejects_mixed (w n d : string) :
  digits w -> digits n -> matches RE_FEET (mixed w n d) = None.
Proof.
  intros Hw Hn. unfold mixed.
  destruct (digits_cons w Hw) as (w0 & w' & -> & Hw0 & Hw').
  destruct (digits_cons n Hn) as (n0 & n' & -> & Hn0 & Hn').
  unfold matches, RE_FEET, Plus. cbn [append]. exec_step.
  rewrite (digit_not_sign w0 Hw0), Hw0.
  rewrite star_loop_none; [reflexivity|].
  intros pre rest Hsplit Hpre.
  destruct (split_run_suffix is_digit w' pre rest _ " " Hw' Hpre eq_refl Hsplit)
    as (run & -> & Hrun).
  exec_step. rewrite star_loop_none; [reflexivity|].
  intros pre' rest' Hsplit' Hpre'.
  assert (Hhead : exists c t, rest' = String c t /\ is_char "'" c = false).
  { destruct run as [| r run].
    - cbn [append] in Hsplit'.
      destruct (split_run is_space (String " " EmptyString) pre' rest' _ n0
                  eq_refl Hpre' (digit_not_space n0 Hn0) Hsplit')
        as (c & t & -> & Hc).
      exists c, t. split; [reflexivity|].
      destruct Hc as [Hc | ->]; [| now apply digit_not_char].
      destruct (is_char "'" c) eqn:E; [| reflexivity].
      apply is_char_eq in E. subst c. discriminate.
    - simpl in Hrun. apply andb_true_iff in Hrun. destruct Hrun as [Hr _].
      destruct pre' as [| p pre'].
      + simpl in Hsplit'. subst rest'.
        exists r, (run ++ String " " (String n0 n' ++ String "/" d)).
        split; [reflexivity | now apply digit_not_char].
      + simpl in Hsplit', Hpre'. inversion Hsplit'; subst p.
        apply andb_true_iff in Hpre'. destruct Hpre' as [Hp _].
        apply digit_not_space in Hr. congruence. }
  destruct Hhead as (c & t & -> & Hc). exec_step. now rewrite Hc.
Qed.

Definition mixed_char (c : ascii) : bool :=
  is_digit c || is_char " " c || is_char "/" c.

Lemma mixed_char_cases (c : ascii) :
  mixed_char c = true -> is_digit c = true \/ c = " "%char \/ c = "/"%char.
Proof.
  unfold mixed_char. rewrite !orb_true_iff, !is_char_eq. tauto.
Qed.

Lemma mixed_chars (w n d : string) :
  digits w -> digits n -> digits d -> all mixed_char (mixed w n d) = true.
Proof.
  intros [_ Hw] [_ Hn] [_ Hd]. unfold mixed.
  rewrite all_append. cbn [all]. rewrite all_append. cbn [all].
  rewrite (all_impl is_digit mixed_char w), (all_impl is_digit mixed_char n),
    (all_impl is_digit mixed_char d);
    auto; unfold mixed_char; intros c ->; reflexivity.
Qed.

Lemma mixed_normal (w n d : string) :
  digits w -> digits n -> digits d ->
  let m := mixed w n d in
  trim m = m /\ toLowerCase m = m /\ remove (is_char dquote) m = m
  /\ collapse_spaces m = m /\ hyphens_to_spaces m = m.
Proof.
  intros Hw Hn Hd m.
  pose proof (mixed_chars w n d Hw Hn Hd) as Hm. fold m in Hm.
  destruct (digits_cons w Hw) as (w0 & w' & Ew & Hw0 & Hw').
  destruct (digits_cons d Hd) as (d0 & d' & Ed & Hd0 & Hd').
  repeat split.
  - apply trim_fixed.
    + unfold m, mixed. rewrite Ew. intros c t Heq. inversion Heq; subst c.
      now apply digit_not_space.
    + intros c Hend. apply digit_not_space.
      apply (all_ends_with is_digit d); [apply Hd|].
      unfold m, mixed in Hend. rewrite Ed in *.
      change (w ++ String " " (n ++ String "/" (String d0 d')))
        with (w ++ (String " " n ++ String "/" (String d0 d'))) in Hend.
      rewrite <- append_assoc in Hend.
      change ((w ++ String " " n) ++ String "/" (String d0 d'))
        with ((w ++ String " " n) ++ String "/" EmptyString ++ String d0 d') in Hend.
      rewrite <- append_assoc in Hend.
      now apply ends_with_tail in Hend.
  - apply smap_id, (all_impl mixed_char); [| exact Hm]. intros c Hc.
    destruct (mixed_char_cases c Hc) as [H | [-> | ->]]; try reflexivity.
    rewrite digit_not_upper by assumption. apply Ascii.eqb_refl.
  - apply remove_none, (all_impl mixed_char); [| exact Hm]. intros c Hc.
    destruct (mixed_char_cases c Hc) as [H | [-> | ->]]; try reflexivity.
    now rewrite digit_not_char.
  - unfold collapse_spaces, m, mixed.
    rewrite collapse_word by (apply digits_no_space, Hw).
    rewrite Ew. cbn [collapse]. change (is_space " ") with true. cbv iota.
    rewrite collapse_no_space; [reflexivity|].
    rewrite all_append. cbn [all]. rewrite !digits_no_space; [reflexivity | apply Hd | apply Hn].
  - apply hyphens_to_spaces_id, (all_impl mixed_char); [| exact Hm]. intros c Hc.
    unfold no_hyphen.
    destruct (mixed_char_cases c Hc) as [H | [-> | ->]]; try reflexivity.
    now rewrite (digit_not_char "-" c eq_refl H).
Qed.

Lemma parseInchesPart_mixed_zero (w n d : string) :
  digits w -> digits n -> digits d -> (Number d == 0)%Q ->
  parseInchesPart (mixed w n d) = Throw "Invalid fraction".
Proof.
  intros Hw Hn Hd Hzero.
  destruct (mixed_normal w n d Hw Hn Hd) as (Htrim & _ & _ & _ & Hhyphen).
  assert (Hne : is_empty (mixed w n d) = false)
    by (unfold mixed; destruct w; [destruct Hw; contradiction | reflexivity]).
  pose proof (parseInchesPart_eq (mixed w n d)) as Heq.
  unfold parseInchesPart_body, parseNormalised in Heq.
  rewrite Htrim, Hne, Hhyphen, (number_rejects_mixed w n d Hw),
    (mixed_accepts w n d Hw Hn Hd) in Heq.
  cbn [nth_group group Nat.eqb] in Heq.
  assert (Hz : is_zero (Number d) = true) by (apply Qeq_bool_iff, Hzero).
  rewrite Hz in Heq. congruence.
Qed.

Lemma parseInches_mixed_zero (w n d : string) :
  digits w -> digits n -> digits d -> (Number d == 0)%Q ->
  parseInches (mixed w n d) = Throw "Invalid fraction".
Proof.
  intros Hw Hn Hd Hzero.
  destruct (mixed_normal w n d Hw Hn Hd) as (Htrim & Hlower & Hquote & Hcollapse & _).
  assert (Hne : is_empty (mixed w n d) = false)
    by (unfold mixed; destruct w; [destruct Hw; contradiction | reflexivity]).
  unfold parseInches.
  rewrite Htrim, Hlower, Hne, (number_rejects_mixed w n d Hw), Hquote,
    Hcollapse, Htrim, (feet_rejects_mixed w n d Hw Hn), Hne,
    (parseInchesPart_mixed_zero w n d Hw Hn Hd Hzero).
  reflexivity.
Qed.

(** *** The parser on field notation *)

(** A call returns the number [q]. *)
Definition returns (r : outcome Q) (q : Q) : Prop :=
  exists q', r = Ret q' /\ (q' == q)%Q.

(** C4: [parseInches "9' 1 1/2"] is 109.5 and [parseInches "17/64"] is
    0.265625; the empty input is rejected; ["1/0"] is an invalid fraction,
    and so is every pure fraction and every mixed number whose denominator
    is zero; in the inches part the hyphens are white space, so that
    ["9'1-1/2"] parses as ["9' 1 1/2"]. *)
Theorem parseInches_field_notation :
  returns (parseInches "9' 1 1/2") (1095 # 10)
  /\ returns (parseInches "17/64") (265625 # 1000000)
  /\ parseInches EmptyString = Throw "Empty input"
  /\ parseInches "1/0" = Throw "Invalid fraction"
  /\ (forall n d, digits n -> digits d -> (Number d == 0)%Q ->
        parseInches (n ++ "/" ++ d) = Throw "Invalid fraction")
  /\ (forall w n d, digits w -> digits n -> digits d -> (Number d == 0)%Q ->
        parseInches (w ++ " " ++ n ++ "/" ++ d) = Throw "Invalid fraction")
  /\ (forall part,
        parseInchesPart (hyphens_to_spaces part) = parseInchesPart part)
  /\ parseInches "9'1-1/2" = parseInches "9' 1 1/2".
Proof.
  split; [| split; [| split; [| split; [| split; [| split; [| split]]]]]].
  - exists (219 # 2). split; reflexivity.
  - exists (17 # 64). split; reflexivity.
  - reflexivity.
  - reflexivity.
  - apply parseInches_fraction_zero.
  - apply parseInches_mixed_zero.
  - apply parseInchesPart_hyphens.
  - reflexivity.
Qed.

(** C4 on more samples: zero denominators written with several zeros, in a
    mixed number, after a feet marker and before a unit; a sign in front of
    a fraction is not a form that the parser knows. *)
Example parseInches_samples :
  parseInches "3/00" = Throw "Invalid fraction"
  /\ parseInches "3 1/0" = Throw "Invalid fraction"
  /\ parseInches "9' 1/0" = Throw "Invalid fraction"
  /\ parseInches "1/0 in" = Throw "Invalid fraction"
  /\ parseInches "+1/0" = Throw "Unrecognized format"
  /\ parseInches "9 1/2" = Ret (19 # 2)
  /\ parseInches "-10.25" = Ret (-1025 # 100)
  /\ parseInches ("10" ++ dq) = Ret 10%Q
  /\ parseInches "1 1/2 in" = Ret (3 # 2).
Proof. repeat split; reflexivity. Qed.

(** *** The formatter *)

(** The loop of [gcd] computes the greatest common divisor. *)
Lemma gcd_loop_gcd (fuel : nat) (x y : Z) :
  (0 <= x)%Z -> (0 <= y)%Z -> (Z.to_nat y < fuel)%nat ->
  gcd_loop fuel x y = Z.gcd x y.
Proof.
  revert x y. induction fuel as [| fuel IH]; intros x y Hx Hy Hfuel; [lia|].
  cbn [gcd_loop]. destruct (Z.eqb_spec y 0) as [-> | Hne].
  - rewrite Z.gcd_0_r. lia.
  - assert (Hy' : (0 < y)%Z) by lia.
    rewrite Z.rem_mod_nonneg by lia.
    pose proof (Z.mod_pos_bound x y Hy') as Hb.
    rewrite IH by lia.
    rewrite (Z.gcd_comm y), Z.gcd_mod by lia. apply Z.gcd_comm.
Qed.

Lemma gcd_is_gcd (a b : Z) : gcd a b = Z.gcd a b.
Proof.
  unfold gcd. rewrite gcd_loop_gcd by lia.
  now rewrite Z.gcd_abs_l, Z.gcd_abs_r.
Qed.

(** The numerator that [toFraction] rounds to, relative to the whole part
    it took: between 0 and [denom], and [round (valueIn * denom)] once the
    whole part is added back. *)
Lemma toFraction_numerator (valueIn : Q) (denom : Z) :
  (0 < denom <= 500000000)%Z ->
  let whole := floor (valueIn + (1 # 1000000000)) in
  let n := round ((valueIn - inject_Z whole) * inject_Z denom) in
  (0 <= n <= denom)%Z
  /\ round (valueIn * inject_Z denom) = (whole * denom + n)%Z.
Proof.
  intros Hd whole n.
  assert (Hn : n = (round (valueIn * inject_Z denom) + - (whole * denom))%Z).
  { unfold n. rewrite <- round_shift. unfold round. apply Qfloor_comp.
    rewrite inject_Z_opp, inject_Z_mult. ring. }
  split; [| lia].
  pose proof (Qfloor_le (valueIn + (1 # 1000000000))) as Hlo.
  pose proof (Qlt_floor (valueIn + (1 # 1000000000))) as Hhi.
  fold (floor (valueIn + (1 # 1000000000))) in Hlo, Hhi. fold whole in Hlo, Hhi.
  rewrite inject_Z_plus in Hhi. change (inject_Z 1) with 1%Q in Hhi.
  set (frac := (valueIn - inject_Z whole)%Q) in *.
  assert (Hfl : (- (1 # 1000000000) <= frac)%Q) by (unfold frac; lra).
  assert (Hfh : (frac < 1 - (1 # 1000000000))%Q) by (unfold frac; lra).
  assert (Hdq : (0 < inject_Z denom)%Q)
    by (change 0%Q with (inject_Z 0); rewrite <- Zlt_Qlt; lia).
  assert (Hdh : (inject_Z denom <= 500000000)%Q)
    by (change 500000000%Q with (inject_Z 500000000); rewrite <- Zle_Qle; lia).
  assert (Hpl : (- (1 # 1000000000) * inject_Z denom <= frac * inject_Z denom)%Q)
    by (apply Qmult_le_compat_r; lra).
  assert (Hph : (frac * inject_Z denom
                 <= (1 - (1 # 1000000000)) * inject_Z denom)%Q)
    by (apply Qmult_le_compat_r; lra).
  pose proof (round_lower (frac * inject_Z denom)) as Hrl.
  pose proof (round_upper (frac * inject_Z denom)) as Hru.
  fold n in Hrl, Hru.
  split.
  - assert (H : (inject_Z (-1) < inject_Z n)%Q)
      by (change (inject_Z (-1)) with (-1)%Q; lra).
    rewrite <- Zlt_Qlt in H. lia.
  - assert (H : (inject_Z n < inject_Z (denom + 1))%Q)
      by (rewrite inject_Z_plus; change (inject_Z 1) with 1%Q; lra).
    rewrite <- Zlt_Qlt in H. lia.
Qed.

(** How [toFraction] writes a whole part [whole] and a numerator [n] over
    [denom]: the whole alone, the reduced fraction alone, or both. *)
Definition render_mixed (whole n denom : Z) : string :=
  if (n =? 0)%Z then Z_to_string whole
  else
    let g := Z.gcd n denom in
    if (whole =? 0)%Z
    then Z_to_string (n / g) ++ "/" ++ Z_to_string (denom / g)
    else Z_to_string whole ++ " " ++ Z_to_string (n / g) ++ "/"
         ++ Z_to_string (denom / g).

(** C6: [toFraction value denom] rounds [value] to the nearest multiple
    [r / denom] of [1 / denom], and writes it as its whole part
    [r div denom] and the fraction [(r mod denom) / denom] reduced by their
    greatest common divisor: the whole alone when the fraction is zero — so
    a numerator that reaches [denom] rolls over into the next whole — the
    fraction alone when the whole is zero, and both otherwise.
    [toFraction 7.3125 16] is ["7 5/16"] and [toFraction 7.96875 16] is
    ["8"]. *)
Theorem toFraction_rounds (valueIn : Q) (denom : Z) :
  (0 < denom <= 500000000)%Z ->
  let r := round (valueIn * inject_Z denom) in
  let g := Z.gcd (r mod denom) denom in
  (forall z : Z,
      Qabs (inject_Z r / inject_Z denom - valueIn)
      <= Qabs (inject_Z z / inject_Z denom - valueIn))%Q
  /\ toFraction valueIn denom = render_mixed (r / denom) (r mod denom) denom
  /\ (0 <= r mod denom < denom)%Z
  /\ Z.gcd (r mod denom / g) (denom / g) = 1%Z
  /\ toFraction (73125 # 10000) 16 = "7 5/16"
  /\ toFraction (796875 # 100000) 16 = "8".
Proof.
  intros Hd r g.
  assert (Hdq : (0 < inject_Z denom)%Q)
    by (change 0%Q with (inject_Z 0); rewrite <- Zlt_Qlt; lia).
  split; [| split; [| split; [| split; [| split]]]].
  - intros z.
    pose proof (round_nearest (valueIn * inject_Z denom) z) as Hnear.
    fold r in Hnear.
    assert (Hscale : forall y : Q,
              (Qabs (y / inject_Z denom - valueIn)
               == Qabs (y - valueIn * inject_Z denom) / inject_Z denom)%Q).
    { intros y.
      assert (Heq : (y / inject_Z denom - valueIn
                     == (y - valueIn * inject_Z denom) * / inject_Z denom)%Q)
        by (field; lra).
      rewrite Heq, Qabs_Qmult.
      rewrite (Qabs_pos (/ inject_Z denom)).
      - reflexivity.
      - apply Qlt_le_weak, Qinv_lt_0_compat, Hdq. }
    rewrite !Hscale. unfold Qdiv.
    apply Qmult_le_compat_r; [exact Hnear|].
    apply Qlt_le_weak, Qinv_lt_0_compat, Hdq.
  - destruct (toFraction_numerator valueIn denom Hd) as [Hn Hr].
    fold r in Hr. unfold toFraction, render_mixed.
    set (whole := floor (valueIn + (1 # 1000000000))) in *.
    set (n := round ((valueIn - inject_Z whole) * inject_Z denom)) in *.
    destruct (Z.eqb_spec n 0) as [Hz | Hnz].
    + assert (Hdiv : (r / denom = whole)%Z).
      { rewrite Hr, Hz, Z.add_0_r. apply Z.div_mul. lia. }
      assert (Hmod : (r mod denom = 0)%Z).
      { rewrite Hr, Hz, Z.add_0_r. apply Z.mod_mul. lia. }
      rewrite Hdiv, Hmod. reflexivity.
    + destruct (Z.eqb_spec n denom) as [He | Hne].
      * assert (Hr' : r = ((whole + 1) * denom)%Z) by lia.
        assert (Hdiv : (r / denom = whole + 1)%Z).
        { rewrite Hr'. apply Z.div_mul. lia. }
        assert (Hmod : (r mod denom = 0)%Z).
        { rewrite Hr'. apply Z.mod_mul. lia. }
        rewrite Hdiv, Hmod. reflexivity.
      * assert (Hdiv : (r / denom = whole)%Z).
        { symmetry. apply (Z.div_unique_pos r denom whole n); lia. }
        assert (Hmod : (r mod denom = n)%Z).
        { symmetry. apply (Z.mod_unique_pos r denom whole n); lia. }
        rewrite Hdiv, Hmod, gcd_is_gcd.
        destruct (Z.eqb_spec n 0); [contradiction|]. reflexivity.
  - apply Z.mod_pos_bound. lia.
  - apply Z.gcd_div_gcd; [| reflexivity].
    unfold g. intros Hg. apply Z.gcd_eq_0_r in Hg. lia.
  - reflexivity.
  - reflexivity.
Qed.

(** C6 at sixteenths. *)
Lemma toFraction_rounds_witness :
  toFraction (73125 # 10000) 16
  = render_mixed (round ((73125 # 10000) * inject_Z 16) / 16)
                 (round ((73125 # 10000) * inject_Z 16) mod 16) 16.
Proof.
  apply (toFraction_rounds (73125 # 10000) 16). lia.
Defined.

(** C7: [toFeetInches value] takes the magnitude of [value], splits it
    into whole feet [ft] and an inch part [inch] with [0 <= inch < 12] and
    [|value| = ft * 12 + inch], writes the inch part with [toFraction] at
    sixteenths, the feet in front when there are any, and a ["-"] in front of
    it all exactly when [value] is negative. *)
Theorem toFeetInches_split (value : Q) :
  let ft := floor (Qabs value / 12) in
  let inch := (Qabs value - inject_Z ft * 12)%Q in
  (0 <= ft)%Z
  /\ (0 <= inch)%Q /\ (inch < 12)%Q
  /\ (Qabs value == inject_Z ft * 12 + inch)%Q
  /\ toFeetInches value
     = (if ltb value 0 then "-" else EmptyString)
       ++ (if (0 <? ft)%Z then Z_to_string ft ++ "' " else EmptyString)
       ++ toFraction inch 16 ++ dq
  /\ ((value < 0)%Q ->
      toFeetInches value = "-" ++ toFeetInches (Qabs value))
  /\ ((0 <= value)%Q -> toFeetInches value = toFeetInches (Qabs value)).
Proof.
  intros ft inch.
  pose proof (Qabs_nonneg value) as Habs.
  pose proof (Qfloor_le (Qabs value / 12)) as Hlo.
  pose proof (Qlt_floor (Qabs value / 12)) as Hhi.
  fold (floor (Qabs value / 12)) in Hlo, Hhi. fold ft in Hlo, Hhi.
  rewrite inject_Z_plus in Hhi. change (inject_Z 1) with 1%Q in Hhi.
  assert (Hq : (Qabs value / 12 * 12 == Qabs value)%Q) by (field; lra).
  assert (Hshape : forall v : Q,
            toFeetInches v
            = (if ltb v 0 then "-" else EmptyString)
              ++ (if (0 <? floor (Qabs v / 12))%Z
                  then Z_to_string (floor (Qabs v / 12)) ++ "' " else EmptyString)
              ++ toFraction (Qabs v - inject_Z (floor (Qabs v / 12)) * 12) 16
              ++ dq).
  { intros v. unfold toFeetInches, JsMath.abs.
    destruct (0 <? floor (Qabs v / 12))%Z; [| reflexivity].
    now rewrite <- !append_assoc. }
  assert (Hidem : Qabs (Qabs value) = Qabs value).
  { destruct value as [num den]. unfold Qabs. now rewrite Z.abs_idemp. }
  assert (Hpos : ltb (Qabs value) 0 = false).
  { destruct (ltb (Qabs value) 0) eqn:E; [| reflexivity].
    apply ltb_true in E. lra. }
  split; [| split; [| split; [| split; [| split; [| split]]]]].
  - assert (H : (inject_Z (-1) < inject_Z ft)%Q)
      by (change (inject_Z (-1)) with (-1)%Q; lra).
    rewrite <- Zlt_Qlt in H. lia.
  - unfold inch. lra.
  - unfold inch. lra.
  - unfold inch. ring.
  - apply Hshape.
  - intros Hneg. rewrite (Hshape value), (Hshape (Qabs value)), Hidem, Hpos.
    apply ltb_true in Hneg. rewrite Hneg. reflexivity.
  - intros Hnn. rewrite (Hshape value), (Hshape (Qabs value)), Hidem, Hpos.
    destruct (ltb value 0) eqn:E; [| reflexivity].
    apply ltb_true in E. lra.
Qed.

(** C7 on samples: 109.5 in either way, and an inch part that [toFraction]
    rounds up to the next foot. *)
Example toFeetInches_samples :
  toFeetInches (1095 # 10) = "9' 1 1/2" ++ dq
  /\ toFeetInches (- (1095 # 10)) = "-9' 1 1/2" ++ dq
  /\ toFeetInches 5 = "5" ++ dq
  /\ toFeetInches (2397 # 100) = "1' 12" ++ dq.
Proof. repeat split; reflexivity. Qed.

End Units.

(** ** The layout solver ([stairs.ts]) *)

Module StairInputs.
Record t : Type := mk {
  totalRiseIn : Q;
  treadRunIn : Q;
  targetRiserIn : option Q;
  finishMode : bool;
  topFinishIn : option Q;
  bottomFinishIn : option Q
}.
End StairInputs.

Module StairOutputs.
Record t : Type := mk {
  numRisers : Z;
  numTreads : Z;
  exactRiserIn : Q;
  treadRunIn : Q;
  totalRunIn : Q;
  angleDeg : Q;
  stringerLenIn : Q;
  firstRiserIn : Q;
  lastRiserIn : Q;
  remainingMeatIn : Q;
  meatPass : bool;
  warnings : list string
}.
End StairOutputs.

Module Stairs.
Import JsMath.

Definition STRINGER_ACTUAL_DEPTH_IN : Q := 1125 # 100.
Definition MIN_MEAT_IN : Q := 35 # 10.

Definition WARN_RISER : string :=
  "Riser over 7.75" ++ dq ++ " (may fail code depending on jurisdiction).".
Definition WARN_TREAD : string :=
  "Tread run under 10" ++ dq ++ " (may fail code depending on jurisdiction).".
Definition WARN_MEAT : string :=
  "2x12 meat FAIL — redesign needed (bigger stock/LVL or adjust rise/run).".

(** [if (c) warnings.push(w)]. *)
Definition push_if (c : bool) (w : string) (warnings : list string) : list string :=
  if c then push w warnings else warnings.

Definition calcStairs {M : MathLib} (input : StairInputs.t) : outcome StairOutputs.t :=
  let warnings : list string := [] in
  let totalRiseIn := StairInputs.totalRiseIn input in
  (* [input.treadRunIn ?? 10.0]: the field is a number, never undefined *)
  let treadRunIn := StairInputs.treadRunIn input in
  let targetRiserIn := nullish (StairInputs.targetRiserIn input) (725 # 100) in
  if negb (gtb totalRiseIn 0) then Throw "Total rise must be > 0" else
  if negb (gtb treadRunIn 0) then Throw "Tread run must be > 0" else
  let raw := (totalRiseIn / targetRiserIn)%Q in
  let numRisers := round raw in
  let numRisers := if numRisers <? 2 then 2 else numRisers in
  let exactRiserIn := (totalRiseIn / inject_Z numRisers)%Q in
  let numTreads := numRisers - 1 in
  let totalRunIn := (inject_Z numTreads * treadRunIn)%Q in
  let angleDeg := (atan (exactRiserIn / treadRunIn) * (180 / PI))%Q in
  let stringerLenIn := sqrt (totalRiseIn ^ 2 + totalRunIn ^ 2)%Q in
  let '(firstRiserIn, lastRiserIn) :=
    if StairInputs.finishMode input then
      let top := nullish (StairInputs.topFinishIn input) 0%Q in
      let bottom := nullish (StairInputs.bottomFinishIn input) 0%Q in
      ((exactRiserIn + bottom)%Q, (exactRiserIn - top)%Q)
    else (exactRiserIn, exactRiserIn) in
  let remainingMeatIn := (STRINGER_ACTUAL_DEPTH_IN - exactRiserIn - treadRunIn)%Q in
  let meatPass := geb remainingMeatIn MIN_MEAT_IN in
  let warnings := push_if (gtb exactRiserIn (775 # 100)) WARN_RISER warnings in
  let warnings := push_if (ltb treadRunIn 10) WARN_TREAD warnings in
  let warnings := push_if (negb meatPass) WARN_MEAT warnings in
  Ret (StairOutputs.mk numRisers numTreads exactRiserIn treadRunIn totalRunIn
         angleDeg stringerLenIn firstRiserIn lastRiserIn remainingMeatIn
         meatPass warnings).

(** *** Properties of the solver *)

Section Solver.
Context {M : MathLib}.

(** The clamp [if (numRisers < 2) numRisers = 2] is a maximum. *)
Lemma clamp_two (n : Z) : (if n <? 2 then 2 else n) = Z.max n 2.
Proof. destruct (Z.ltb_spec n 2); lia. Qed.

(** The two guards decide whether [calcStairs] throws. *)
Lemma calcStairs_guards (input : StairInputs.t) :
  (0 < StairInputs.totalRiseIn input)%Q ->
  (0 < StairInputs.treadRunIn input)%Q ->
  exists o, calcStairs input = Ret o.
Proof.
  intros Hrise Hrun. unfold calcStairs.
  apply gtb_true in Hrise. apply gtb_true in Hrun.
  rewrite Hrise, Hrun. simpl negb. cbv iota.
  destruct (StairInputs.finishMode input); eexists; reflexivity.
Qed.

(** What a returned layout holds, field by field. *)
Lemma calcStairs_fields (input : StairInputs.t) (o : StairOutputs.t) :
  calcStairs input = Ret o ->
  let raw := (StairInputs.totalRiseIn input
              / nullish (StairInputs.targetRiserIn input) (725 # 100))%Q in
  StairOutputs.numRisers o = Z.max (round raw) 2
  /\ StairOutputs.numTreads o = StairOutputs.numRisers o - 1
  /\ StairOutputs.exactRiserIn o
     = (StairInputs.totalRiseIn input / inject_Z (StairOutputs.numRisers o))%Q
  /\ StairOutputs.treadRunIn o = StairInputs.treadRunIn input
  /\ StairOutputs.totalRunIn o
     = (inject_Z (StairOutputs.numTreads o) * StairInputs.treadRunIn input)%Q
  /\ StairOutputs.remainingMeatIn o
     = (STRINGER_ACTUAL_DEPTH_IN - StairOutputs.exactRiserIn o
        - StairInputs.treadRunIn input)%Q
  /\ StairOutputs.meatPass o = geb (StairOutputs.remainingMeatIn o) MIN_MEAT_IN
  /\ StairOutputs.warnings o
     = push_if (negb (StairOutputs.meatPass o)) WARN_MEAT
         (push_if (ltb (StairInputs.treadRunIn input) 10) WARN_TREAD
            (push_if (gtb (StairOutputs.exactRiserIn o) (775 # 100)) WARN_RISER [])).
Proof.
  unfold calcStairs. intros H.
  destruct (negb (gtb (StairInputs.totalRiseIn input) 0)); [discriminate|].
  destruct (negb (gtb (StairInputs.treadRunIn input) 0)); [discriminate|].
  rewrite clamp_two in H.
  destruct (StairInputs.finishMode input); inversion H; subst o; clear H;
    cbn [StairOutputs.numRisers StairOutputs.numTreads StairOutputs.exactRiserIn
         StairOutputs.treadRunIn StairOutputs.totalRunIn
         StairOutputs.remainingMeatIn StairOutputs.meatPass
         StairOutputs.warnings]; repeat split; reflexivity.
Qed.

(** C1: for a positive total rise, tread run and target riser, [calcStairs]
    returns a layout whose [numRisers] is the integer closest to
    [totalRiseIn / targetRiserIn] clamped below at 2, whose [exactRiserIn] is
    [totalRiseIn / numRisers] so that [numRisers * exactRiserIn] gives back
    [totalRiseIn], whose [numTreads] is [numRisers - 1] and whose [totalRunIn]
    is [numTreads * treadRunIn]. *)
Theorem calcStairs_layout (input : StairInputs.t) :
  let totalRiseIn := StairInputs.totalRiseIn input in
  let treadRunIn := StairInputs.treadRunIn input in
  let targetRiserIn := nullish (StairInputs.targetRiserIn input) (725 # 100) in
  let closest := round (totalRiseIn / targetRiserIn) in
  (0 < totalRiseIn)%Q -> (0 < treadRunIn)%Q -> (0 < targetRiserIn)%Q ->
  (forall z : Z,
      Qabs (inject_Z closest - totalRiseIn / targetRiserIn)
      <= Qabs (inject_Z z - totalRiseIn / targetRiserIn))%Q
  /\ exists o,
       calcStairs input = Ret o
       /\ StairOutputs.numRisers o = Z.max closest 2
       /\ 2 <= StairOutputs.numRisers o
       /\ StairOutputs.exactRiserIn o
          = (totalRiseIn / inject_Z (StairOutputs.numRisers o))%Q
       /\ (inject_Z (StairOutputs.numRisers o) * StairOutputs.exactRiserIn o
           == totalRiseIn)%Q
       /\ StairOutputs.numTreads o = StairOutputs.numRisers o - 1
       /\ StairOutputs.totalRunIn o
          = (inject_Z (StairOutputs.numTreads o) * treadRunIn)%Q.
Proof.
  intros totalRiseIn treadRunIn targetRiserIn closest Hrise Hrun Htarget.
  split; [intros z; apply round_nearest|].
  destruct (calcStairs_guards input Hrise Hrun) as [o Ho].
  destruct (calcStairs_fields input o Ho)
    as (Hn & Ht & He & _ & Hr & _).
  fold totalRiseIn targetRiserIn closest in Hn.
  exists o.
  assert (Hge : 2 <= StairOutputs.numRisers o) by (rewrite Hn; lia).
  repeat split; try assumption.
  rewrite He. fold totalRiseIn. field.
  intros Hz. unfold Qeq, inject_Z in Hz. simpl in Hz. lia.
Qed.

(** The warnings of a layout, as the three advisory conditions decide them. *)
Lemma calcStairs_warnings (input : StairInputs.t) (o : StairOutputs.t) :
  calcStairs input = Ret o ->
  StairOutputs.warnings o
  = ((if gtb (StairOutputs.exactRiserIn o) (775 # 100) then [WARN_RISER] else [])
     ++ (if ltb (StairInputs.treadRunIn input) 10 then [WARN_TREAD] else [])
     ++ (if StairOutputs.meatPass o then [] else [WARN_MEAT]))%list.
Proof.
  intros Ho.
  destruct (calcStairs_fields input o Ho) as (_ & _ & _ & _ & _ & _ & _ & Hw).
  rewrite Hw. unfold push_if, push.
  destruct (gtb _ _), (ltb _ _), (StairOutputs.meatPass o); reflexivity.
Qed.

(** C2: [calcStairs] throws exactly when the total rise or the tread run is
    not positive; otherwise it returns a layout, and the three advisory
    conditions (riser over 7.75, tread run under 10, failing meat check) only
    decide which warning strings the layout carries, all three at once when
    all three hold. *)
Theorem calcStairs_throws_iff (input : StairInputs.t) :
  ((exists msg, calcStairs input = Throw msg)
   <-> (StairInputs.totalRiseIn input <= 0 \/ StairInputs.treadRunIn input <= 0)%Q)
  /\ ((0 < StairInputs.totalRiseIn input)%Q ->
      (0 < StairInputs.treadRunIn input)%Q ->
      exists o,
        calcStairs input = Ret o
        /\ StairOutputs.meatPass o
           = geb (STRINGER_ACTUAL_DEPTH_IN - StairOutputs.exactRiserIn o
                  - StairInputs.treadRunIn input) MIN_MEAT_IN
        /\ StairOutputs.warnings o
           = ((if gtb (StairOutputs.exactRiserIn o) (775 # 100)
               then [WARN_RISER] else [])
              ++ (if ltb (StairInputs.treadRunIn input) 10
                  then [WARN_TREAD] else [])
              ++ (if StairOutputs.meatPass o then [] else [WARN_MEAT]))%list
        /\ ((775 # 100 < StairOutputs.exactRiserIn o)%Q ->
            (StairInputs.treadRunIn input < 10)%Q ->
            StairOutputs.meatPass o = false ->
            StairOutputs.warnings o = [WARN_RISER; WARN_TREAD; WARN_MEAT])).
Proof.
  split; [split|].
  - intros [msg Hthrow].
    destruct (Qlt_le_dec 0 (StairInputs.totalRiseIn input)) as [Hrise|]; [|now left].
    destruct (Qlt_le_dec 0 (StairInputs.treadRunIn input)) as [Hrun|]; [|now right].
    destruct (calcStairs_guards input Hrise Hrun) as [o Ho]. congruence.
  - intros Hbad. unfold calcStairs.
    destruct (gtb (StairInputs.totalRiseIn input) 0) eqn:Erise; simpl negb; cbv iota.
    + destruct (gtb (StairInputs.treadRunIn input) 0) eqn:Erun; simpl negb; cbv iota.
      * apply gtb_true in Erise. apply gtb_true in Erun.
        destruct Hbad; lra.
      * eexists; reflexivity.
    + eexists; reflexivity.
  - intros Hrise Hrun.
    destruct (calcStairs_guards input Hrise Hrun) as [o Ho].
    exists o. pose proof (calcStairs_warnings input o Ho) as Hw.
    destruct (calcStairs_fields input o Ho) as (_ & _ & _ & _ & _ & Hm & Hp & _).
    repeat split; try assumption.
    + now rewrite Hp, Hm.
    + intros H1 H2 H3. rewrite Hw.
      apply gtb_true in H1. apply ltb_true in H2. now rewrite H1, H2, H3.
Qed.

End Solver.

(** Rational stand-ins for [Math.atan], [Math.sqrt] and [Math.PI], with
    which the solver can be run on samples: the square root to a millionth
    through the integer square root, the arc tangent by a rational
    approximant.  No theorem depends on them. *)
Definition sampleMath : MathLib := {|
  atan := fun x => (x * (15 + 4 * x * x) / (15 + 9 * x * x))%Q;
  sqrt := fun x => (inject_Z (Z.sqrt (Qfloor (x * 1000000000000))) / 1000000)%Q;
  PI := 355 # 113
|}.

(** C1, at the sample of the specification: 109.5 in of rise, 10 in treads
    and a 7.25 in target give 15 risers and 14 treads. *)
Lemma calcStairs_layout_witness :
  let input := StairInputs.mk (1095 # 10) 10 (Some (725 # 100)) false None None in
  let closest := round ((1095 # 10) / (725 # 100)) in
  closest = 15
  /\ (forall z : Z,
        Qabs (inject_Z closest - (1095 # 10) / (725 # 100))
        <= Qabs (inject_Z z - (1095 # 10) / (725 # 100)))%Q
  /\ exists o,
       @calcStairs sampleMath input = Ret o
       /\ StairOutputs.numRisers o = Z.max closest 2
       /\ 2 <= StairOutputs.numRisers o
       /\ StairOutputs.exactRiserIn o
          = ((1095 # 10) / inject_Z (StairOutputs.numRisers o))%Q
       /\ (inject_Z (StairOutputs.numRisers o) * StairOutputs.exactRiserIn o
           == 1095 # 10)%Q
       /\ StairOutputs.numTreads o = StairOutputs.numRisers o - 1
       /\ StairOutputs.totalRunIn o
          = (inject_Z (StairOutputs.numTreads o) * 10)%Q.
Proof.
  intros input closest. split; [reflexivity|].
  apply (@calcStairs_layout sampleMath input); reflexivity.
Defined.


(** C2, with every warning at once: 16 in of rise in two 8 in risers on 9 in
    treads is returned with the three warnings. *)
Example calcStairs_all_warnings :
  exists o,
    @calcStairs sampleMath (StairInputs.mk 16 9 (Some 8%Q) false None None) = Ret o
    /\ StairOutputs.warnings o = [WARN_RISER; WARN_TREAD; WARN_MEAT].
Proof. eexists. split; reflexivity. Qed.

(** C2, at the guards: a zero rise and a negative run both throw. *)
Example calcStairs_rejects :
  @calcStairs sampleMath (StairInputs.mk 0 10 None false None None)
  = Throw "Total rise must be > 0"
  /\ @calcStairs sampleMath (StairInputs.mk 100 (-1) None false None None)
     = Throw "Tread run must be > 0".
Proof. split; reflexivity. Qed.

End Stairs.

(** ** The materials estimator ([materials.ts]) *)

Module MaterialsInputs.
Record t : Type := mk {
  stairWidthIn : Q;
  stringerOcin : Q;
  closedStair : bool;
  numTreads : Z;
  numRisers : Z;
  stringerLenIn : Q
}.
End MaterialsInputs.

Module MaterialsOutputs.
Record t : Type := mk {
  numStringers : Z;
  suggestedStockLenFt : Q;
  treadsQty : Z;
  risersQty : Z;
  notes : list string
}.
End MaterialsOutputs.

Module Materials.
Import JsMath.

Definition COMMON_STOCK_FT : list Q := [8; 10; 12; 14; 16; 18; 20]%Q.

Definition calcMaterials (m : MaterialsInputs.t) : MaterialsOutputs.t :=
  let notes : list string := [] in
  let numStringers :=
    ceil (MaterialsInputs.stairWidthIn m / MaterialsInputs.stringerOcin m) + 1 in
  let numStringers := if numStringers <? 2 then 2 else numStringers in
  let numStringers :=
    if leb (MaterialsInputs.stairWidthIn m) 36
    then Z.max numStringers 3 else numStringers in
  let neededFt := (MaterialsInputs.stringerLenIn m / 12)%Q in
  let suggestedStockLenFt :=
    nullish (find (fun ft => geb ft neededFt) COMMON_STOCK_FT)
            (inject_Z (ceil neededFt)) in
  let treadsQty := MaterialsInputs.numTreads m in
  let risersQty :=
    if MaterialsInputs.closedStair m then MaterialsInputs.numRisers m else 0 in
  let notes :=
    if geb suggestedStockLenFt 18
    then push "Long stock: consider LVL or splicing plan."%string notes else notes in
  let notes := push "Blocking/bridging as required (especially mid-span)."%string notes in
  let notes :=
    push "Check local code for max riser/min tread + guard/handrail requirements."%string
         notes in
  MaterialsOutputs.mk numStringers suggestedStockLenFt treadsQty risersQty notes.

(** *** Properties of the estimator *)

(** The stringer count, as [calcMaterials] computes it. *)
Lemma numStringers_eq (m : MaterialsInputs.t) :
  let spacing := ceil (MaterialsInputs.stairWidthIn m
                       / MaterialsInputs.stringerOcin m) + 1 in
  MaterialsOutputs.numStringers (calcMaterials m)
  = if leb (MaterialsInputs.stairWidthIn m) 36
    then Z.max (Z.max spacing 2) 3 else Z.max spacing 2.
Proof.
  unfold calcMaterials. cbn [MaterialsOutputs.numStringers].
  destruct (Z.ltb_spec
              (ceil (MaterialsInputs.stairWidthIn m
                     / MaterialsInputs.stringerOcin m) + 1) 2);
    destruct (leb (MaterialsInputs.stairWidthIn m) 36); lia.
Qed.

(** The guarantee the geometry builder relies on: never fewer than two. *)
Lemma numStringers_ge_2 (m : MaterialsInputs.t) :
  2 <= MaterialsOutputs.numStringers (calcMaterials m).
Proof.
  rewrite numStringers_eq.
  destruct (leb (MaterialsInputs.stairWidthIn m) 36); lia.
Qed.

(** A positive width over a positive spacing needs at least one bay. *)
Lemma ceil_ratio_pos (w oc : Q) : (0 < w)%Q -> (0 < oc)%Q -> 1 <= ceil (w / oc).
Proof.
  intros Hw Hoc. unfold ceil.
  assert (Hpos : (0 < w / oc)%Q).
  { unfold Qdiv. apply Qmult_lt_0_compat; [assumption|].
    now apply Qinv_lt_0_compat. }
  pose proof (Qle_ceiling (w / oc)) as Hc.
  assert (Hlt : (inject_Z 0 < inject_Z (Qceiling (w / oc)))%Q)
    by (change (inject_Z 0) with 0%Q; lra).
  rewrite <- Zlt_Qlt in Hlt. lia.
Qed.

(** C5: for a positive width and spacing, [numStringers] is the larger of
    [ceil(stairWidthIn / stringerOcin) + 1] (floored at 2) and, for widths up
    to 36 in, the hard floor 3; at a width of 36 in there are at least three
    stringers whatever the spacing (of any sign: only a spacing of zero,
    where the code divides by zero, is left out). *)
Theorem calcMaterials_numStringers :
  (forall m : MaterialsInputs.t,
      (0 < MaterialsInputs.stairWidthIn m)%Q ->
      (0 < MaterialsInputs.stringerOcin m)%Q ->
      let spacing := ceil (MaterialsInputs.stairWidthIn m
                           / MaterialsInputs.stringerOcin m) + 1 in
      let n := MaterialsOutputs.numStringers (calcMaterials m) in
      ((MaterialsInputs.stairWidthIn m <= 36)%Q -> n = Z.max (Z.max spacing 2) 3)
      /\ ((36 < MaterialsInputs.stairWidthIn m)%Q -> n = Z.max spacing 2)
      /\ 2 <= spacing /\ 2 <= n)
  /\ (forall m : MaterialsInputs.t,
         (MaterialsInputs.stairWidthIn m == 36)%Q ->
         ~ (MaterialsInputs.stringerOcin m == 0)%Q ->
         3 <= MaterialsOutputs.numStringers (calcMaterials m)).
Proof.
  split.
  - intros m Hw Hoc spacing n.
    pose proof (ceil_ratio_pos _ _ Hw Hoc) as Hc.
    subst n. rewrite numStringers_eq. fold spacing.
    destruct (leb (MaterialsInputs.stairWidthIn m) 36) eqn:E.
    + apply leb_true in E. repeat split; try lia. intros; lra.
    + assert (~ (MaterialsInputs.stairWidthIn m <= 36)%Q) as Hn.
      { intros H. apply leb_true in H. congruence. }
      repeat split; try (subst spacing; lia). intros H. contradiction.
  - intros m Hw _. rewrite numStringers_eq.
    assert (E : leb (MaterialsInputs.stairWidthIn m) 36 = true)
      by (apply leb_true; lra).
    rewrite E. lia.
Qed.

(** C5 on samples: 36 in at 16 in on center takes four stringers, 36 in at
    48 in on center still three, 48 in at 16 in on center four. *)
Example calcMaterials_numStringers_samples :
  MaterialsOutputs.numStringers
    (calcMaterials (MaterialsInputs.mk 36 16 true 14 15 (1777 # 10))) = 4
  /\ MaterialsOutputs.numStringers
       (calcMaterials (MaterialsInputs.mk 36 48 true 14 15 (1777 # 10))) = 3
  /\ MaterialsOutputs.numStringers
       (calcMaterials (MaterialsInputs.mk 48 16 true 14 15 (1777 # 10))) = 4.
Proof. repeat split; reflexivity. Qed.

End Materials.

(** ** The 3D geometry builder ([rendering/geometry.ts]) *)

Module Geometry.
Import JsMath.

(** [THREE.Vector3]. *)
Record Vector3 : Type := mkVector3 { vx : Q; vy : Q; vz : Q }.

Record Dimensions : Type := mkDimensions { width : Q; height : Q; depth : Q }.

Record StaircaseGeometry : Type := mkGeometry {
  stringers : list (list Vector3);
  treads : list (list Vector3);
  risers : list (list Vector3);
  dimensions : Dimensions
}.

Definition STRINGER_DEPTH : Q := 1125 # 100.
Definition TREAD_THICKNESS : Q := 1.

Definition buildStaircaseGeometry (stairData : StairOutputs.t)
    (materialsData : MaterialsOutputs.t) (stairWidthIn : Q) : StaircaseGeometry :=
  let exactRiserIn := StairOutputs.exactRiserIn stairData in
  let treadRunIn := StairOutputs.treadRunIn stairData in
  let numRisers := StairOutputs.numRisers stairData in
  let numTreads := StairOutputs.numTreads stairData in
  let totalRunIn := StairOutputs.totalRunIn stairData in
  let numStringers := MaterialsOutputs.numStringers materialsData in
  (* Build stringers *)
  let stringerSpacing := (stairWidthIn / inject_Z (numStringers - 1))%Q in
  let stringers :=
    for_loop numStringers (fun i stringers =>
      let xPos := (inject_Z i * stringerSpacing)%Q in
      let stringerPath : list Vector3 := [] in
      (* Start at bottom *)
      let stringerPath := push (mkVector3 xPos 0 0) stringerPath in
      (* Create notched path for each step *)
      let stringerPath :=
        for_loop numTreads (fun step stringerPath =>
          let riseY := (inject_Z (step + 1) * exactRiserIn)%Q in
          let runZ := (inject_Z (step + 1) * treadRunIn)%Q in
          (* Top of riser *)
          let stringerPath :=
            push (mkVector3 xPos riseY (runZ - treadRunIn)) stringerPath in
          (* Back of tread *)
          push (mkVector3 xPos riseY runZ) stringerPath) stringerPath in
      (* Top landing *)
      let totalRise := (inject_Z numRisers * exactRiserIn)%Q in
      let stringerPath := push (mkVector3 xPos totalRise totalRunIn) stringerPath in
      push stringerPath stringers) [] in
  (* Build treads *)
  let treads :=
    for_loop numTreads (fun step treads =>
      let riseY := (inject_Z (step + 1) * exactRiserIn)%Q in
      let runZ := (inject_Z (step + 1) * treadRunIn)%Q in
      let tread :=
        [ mkVector3 0 riseY (runZ - treadRunIn);
          mkVector3 stairWidthIn riseY (runZ - treadRunIn);
          mkVector3 stairWidthIn riseY runZ;
          mkVector3 0 riseY runZ;
          mkVector3 0 (riseY + TREAD_THICKNESS) (runZ - treadRunIn);
          mkVector3 stairWidthIn (riseY + TREAD_THICKNESS) (runZ - treadRunIn);
          mkVector3 stairWidthIn (riseY + TREAD_THICKNESS) runZ;
          mkVector3 0 (riseY + TREAD_THICKNESS) runZ ]%Q in
      push tread treads) [] in
  (* Build risers (vertical boards) *)
  let risers :=
    for_loop numRisers (fun step risers =>
      let bottomY := (inject_Z step * exactRiserIn)%Q in
      let topY := (inject_Z (step + 1) * exactRiserIn)%Q in
      let runZ := (inject_Z step * treadRunIn)%Q in
      let riser :=
        [ mkVector3 0 bottomY runZ;
          mkVector3 stairWidthIn bottomY runZ;
          mkVector3 stairWidthIn topY runZ;
          mkVector3 0 topY runZ ]%Q in
      push riser risers) [] in
  mkGeometry stringers treads risers
    (mkDimensions stairWidthIn (inject_Z numRisers * exactRiserIn)%Q totalRunIn).

(** *** The loops as lists *)

(** A loop that pushes two values per round. *)
Lemma for_loop_push2 {A : Type} (n : Z) (f g : Z -> A) (init : list A) :
  for_loop n (fun i acc => push (g i) (push (f i) acc)) init
  = init ++ flat_map (fun i => [f (Z.of_nat i); g (Z.of_nat i)])
                     (seq 0 (Z.to_nat n)).
Proof.
  unfold for_loop, push.
  generalize (seq 0 (Z.to_nat n)) as l. intros l. revert init.
  induction l as [| i l IH]; intros init; simpl.
  - now rewrite app_nil_r.
  - rewrite IH, <- !app_assoc. reflexivity.
Qed.

Lemma flat_pairs_length {A : Type} (f g : nat -> A) (l : list nat) :
  List.length (flat_map (fun i => [f i; g i]) l) = (2 * List.length l)%nat.
Proof. induction l as [| i l IH]; simpl; [reflexivity | rewrite IH; lia]. Qed.

Lemma flat_pairs_nth {A : Type} (f g : nat -> A) (start len k : nat) :
  (k < len)%nat ->
  nth_error (flat_map (fun i => [f i; g i]) (seq start len)) (2 * k)
  = Some (f (start + k)%nat)
  /\ nth_error (flat_map (fun i => [f i; g i]) (seq start len)) (2 * k + 1)
     = Some (g (start + k)%nat).
Proof.
  revert start k. induction len as [| len IH]; intros start k Hk; [lia|].
  destruct k as [| k].
  - simpl. rewrite Nat.add_0_r. split; reflexivity.
  - replace (2 * S k)%nat with (S (S (2 * k))) by lia.
    cbn [seq flat_map app nth_error Nat.add].
    replace (start + S k)%nat with (S start + k)%nat by lia.
    apply IH. lia.
Qed.

Section StringerPath.
Variable stairData : StairOutputs.t.

Let exactRiserIn := StairOutputs.exactRiserIn stairData.
Let treadRunIn := StairOutputs.treadRunIn stairData.
Let numRisers := StairOutputs.numRisers stairData.
Let numTreads := StairOutputs.numTreads stairData.
Let totalRunIn := StairOutputs.totalRunIn stairData.

(** The top-of-riser and back-of-tread points of step [step] at [xPos]. *)
Definition riserTop (xPos : Q) (step : Z) : Vector3 :=
  mkVector3 xPos (inject_Z (step + 1) * exactRiserIn)%Q
            (inject_Z (step + 1) * treadRunIn - treadRunIn)%Q.
Definition treadBack (xPos : Q) (step : Z) : Vector3 :=
  mkVector3 xPos (inject_Z (step + 1) * exactRiserIn)%Q
            (inject_Z (step + 1) * treadRunIn)%Q.

(** The cut path of the stringer at [xPos], written out. *)
Definition stringerPathAt (xPos : Q) : list Vector3 :=
  [mkVector3 xPos 0 0]
  ++ flat_map (fun k => [riserTop xPos (Z.of_nat k); treadBack xPos (Z.of_nat k)])
              (seq 0 (Z.to_nat numTreads))
  ++ [mkVector3 xPos (inject_Z numRisers * exactRiserIn)%Q totalRunIn].

Lemma stringerPathAt_length (xPos : Q) :
  List.length (stringerPathAt xPos) = (1 + 2 * Z.to_nat numTreads + 1)%nat.
Proof.
  unfold stringerPathAt.
  rewrite !length_app, flat_pairs_length, length_seq. simpl. lia.
Qed.

Lemma stringerPathAt_first (xPos : Q) :
  nth_error (stringerPathAt xPos) 0 = Some (mkVector3 xPos 0 0).
Proof. reflexivity. Qed.

Lemma stringerPathAt_step (xPos : Q) (k : nat) :
  (k < Z.to_nat numTreads)%nat ->
  nth_error (stringerPathAt xPos) (1 + 2 * k) = Some (riserTop xPos (Z.of_nat k))
  /\ nth_error (stringerPathAt xPos) (2 + 2 * k)
     = Some (treadBack xPos (Z.of_nat k)).
Proof.
  intros Hk. unfold stringerPathAt.
  destruct (flat_pairs_nth (fun k => riserTop xPos (Z.of_nat k))
              (fun k => treadBack xPos (Z.of_nat k)) 0 _ k Hk) as [Ha Hb].
  assert (Hlen : (2 * k + 1 <
    List.length (flat_map (fun k => [riserTop xPos (Z.of_nat k);
                                     treadBack xPos (Z.of_nat k)])
                          (seq 0 (Z.to_nat numTreads))))%nat)
    by (rewrite flat_pairs_length, length_seq; lia).
  split.
  - rewrite nth_error_app2 by (simpl; lia).
    replace (1 + 2 * k - List.length [mkVector3 xPos 0 0])%nat
      with (2 * k)%nat by (simpl; lia).
    rewrite nth_error_app1 by lia. exact Ha.
  - rewrite nth_error_app2 by (simpl; lia).
    replace (2 + 2 * k - List.length [mkVector3 xPos 0 0])%nat
      with (2 * k + 1)%nat by (simpl; lia).
    rewrite nth_error_app1 by lia. exact Hb.
Qed.

Lemma stringerPathAt_last (xPos : Q) :
  nth_error (stringerPathAt xPos) (1 + 2 * Z.to_nat numTreads)
  = Some (mkVector3 xPos (inject_Z numRisers * exactRiserIn)%Q totalRunIn).
Proof.
  unfold stringerPathAt.
  rewrite nth_error_app2 by (simpl; lia).
  rewrite nth_error_app2 by (rewrite flat_pairs_length, length_seq; simpl; lia).
  rewrite flat_pairs_length, length_seq.
  replace (1 + 2 * Z.to_nat numTreads - List.length [mkVector3 xPos 0 0]
           - 2 * Z.to_nat numTreads)%nat with 0%nat by (simpl; lia).
  reflexivity.
Qed.

(** Every vertex of a stringer path lies in the plane of its stringer. *)
Lemma stringerPathAt_x (xPos : Q) :
  Forall (fun v => vx v = xPos) (stringerPathAt xPos).
Proof.
  unfold stringerPathAt.
  apply Forall_app; split; [now constructor|].
  apply Forall_app; split; [| now constructor].
  apply Forall_flat_map, Forall_forall. intros k _.
  constructor; [reflexivity|]. constructor; [reflexivity | constructor].
Qed.

End StringerPath.

Section Builder.
Variables (stairData : StairOutputs.t) (materialsData : MaterialsOutputs.t).
Variable stairWidthIn : Q.

Let exactRiserIn := StairOutputs.exactRiserIn stairData.
Let treadRunIn := StairOutputs.treadRunIn stairData.
Let numRisers := StairOutputs.numRisers stairData.
Let numStringers := MaterialsOutputs.numStringers materialsData.
Let g := buildStaircaseGeometry stairData materialsData stairWidthIn.

Lemma stringers_eq :
  stringers g
  = map (fun i =>
           stringerPathAt stairData
             (inject_Z (Z.of_nat i)
              * (stairWidthIn / inject_Z (numStringers - 1)))%Q)
        (seq 0 (Z.to_nat numStringers)).
Proof.
  unfold g, buildStaircaseGeometry. cbn [stringers].
  transitivity
    (for_loop numStringers
       (fun i acc =>
          push (stringerPathAt stairData
                  (inject_Z i * (stairWidthIn / inject_Z (numStringers - 1)))%Q)
               acc) []).
  - apply for_loop_ext. intros i acc. f_equal.
    rewrite for_loop_push2. unfold stringerPathAt, push.
    rewrite <- app_assoc. reflexivity.
  - now rewrite for_loop_push.
Qed.

Lemma stringers_length : List.length (stringers g) = Z.to_nat numStringers.
Proof. rewrite stringers_eq, length_map, length_seq. reflexivity. Qed.

Lemma stringers_nth (i : nat) :
  (i < Z.to_nat numStringers)%nat ->
  nth_error (stringers g) i
  = Some (stringerPathAt stairData
            (inject_Z (Z.of_nat i)
             * (stairWidthIn / inject_Z (numStringers - 1)))%Q).
Proof.
  intros Hi. rewrite stringers_eq.
  rewrite nth_error_map, nth_error_seq.
  destruct (Nat.ltb_spec i (Z.to_nat numStringers)); [reflexivity | lia].
Qed.

(** The builder has no input that tells a closed stair from an open one:
    it pushes one quad per riser, whatever the materials say. *)
Lemma risers_length : List.length (risers g) = Z.to_nat numRisers.
Proof.
  unfold g, buildStaircaseGeometry. cbn [risers].
  rewrite (for_loop_push numRisers
    (fun step =>
       [ mkVector3 0 (inject_Z step * exactRiserIn) (inject_Z step * treadRunIn);
         mkVector3 stairWidthIn (inject_Z step * exactRiserIn)
                   (inject_Z step * treadRunIn);
         mkVector3 stairWidthIn (inject_Z (step + 1) * exactRiserIn)
                   (inject_Z step * treadRunIn);
         mkVector3 0 (inject_Z (step + 1) * exactRiserIn)
                   (inject_Z step * treadRunIn) ]%Q)).
  rewrite app_nil_l, length_map, length_seq. reflexivity.
Qed.

Lemma risers_quads : Forall (fun riser => List.length riser = 4%nat) (risers g).
Proof.
  unfold g, buildStaircaseGeometry. cbn [risers].
  rewrite (for_loop_push numRisers
    (fun step =>
       [ mkVector3 0 (inject_Z step * exactRiserIn) (inject_Z step * treadRunIn);
         mkVector3 stairWidthIn (inject_Z step * exactRiserIn)
                   (inject_Z step * treadRunIn);
         mkVector3 stairWidthIn (inject_Z (step + 1) * exactRiserIn)
                   (inject_Z step * treadRunIn);
         mkVector3 0 (inject_Z (step + 1) * exactRiserIn)
                   (inject_Z step * treadRunIn) ]%Q)).
  rewrite app_nil_l. apply Forall_map, Forall_forall. reflexivity.
Qed.


End Builder.

(** *** The stringer paths and the riser quads *)

(** C9: for a layout that the solver returned for a positive target riser
    and for one stringer or more, the geometry has one path per stringer,
    and every one of them has [1 + 2 * numTreads + 1] vertices: the bottom
    origin, then for every tread the top-of-riser point followed by the
    back-of-tread point, and the top landing point last. *)
Theorem stringer_path_vertices {M : MathLib} (input : StairInputs.t)
    (stairData : StairOutputs.t) (materialsData : MaterialsOutputs.t)
    (stairWidthIn : Q) :
  (0 < nullish (StairInputs.targetRiserIn input) (725 # 100))%Q ->
  Stairs.calcStairs input = Ret stairData ->
  1 <= MaterialsOutputs.numStringers materialsData ->
  let exactRiserIn := StairOutputs.exactRiserIn stairData in
  let treadRunIn := StairOutputs.treadRunIn stairData in
  let numRisers := StairOutputs.numRisers stairData in
  let numTreads := StairOutputs.numTreads stairData in
  let totalRunIn := StairOutputs.totalRunIn stairData in
  let numStringers := MaterialsOutputs.numStringers materialsData in
  let g := buildStaircaseGeometry stairData materialsData stairWidthIn in
  Z.of_nat (List.length (stringers g)) = numStringers
  /\ (forall i, 0 <= i < numStringers ->
        exists path,
          nth_error (stringers g) (Z.to_nat i) = Some path
          /\ Z.of_nat (List.length path) = 1 + 2 * numTreads + 1
          /\ exists xPos,
               nth_error path 0 = Some (mkVector3 xPos 0 0)
               /\ (forall step, 0 <= step < numTreads ->
                     nth_error path (Z.to_nat (1 + 2 * step))
                     = Some (mkVector3 xPos (inject_Z (step + 1) * exactRiserIn)
                               (inject_Z (step + 1) * treadRunIn - treadRunIn))%Q
                     /\ nth_error path (Z.to_nat (1 + 2 * step + 1))
                        = Some (mkVector3 xPos (inject_Z (step + 1) * exactRiserIn)
                                  (inject_Z (step + 1) * treadRunIn))%Q)
               /\ nth_error path (Z.to_nat (1 + 2 * numTreads))
                  = Some (mkVector3 xPos (inject_Z numRisers * exactRiserIn)%Q
                            totalRunIn)).
Proof.
  intros _ Hsolved Hstringers exactRiserIn treadRunIn numRisers numTreads
    totalRunIn numStringers g.
  destruct (Stairs.calcStairs_fields input stairData Hsolved)
    as (Hn & Ht & _).
  assert (Hpos : 1 <= numTreads) by (unfold numTreads; lia).
  split.
  { unfold g. rewrite stringers_length. fold numStringers. lia. }
  intros i Hi.
  set (xPos := (inject_Z i * (stairWidthIn / inject_Z (numStringers - 1)))%Q).
  exists (stringerPathAt stairData xPos). split; [| split].
  - unfold g. rewrite stringers_nth by (fold numStringers; lia).
    rewrite Z2Nat.id by lia. reflexivity.
  - rewrite stringerPathAt_length. fold numTreads. lia.
  - exists xPos. split; [apply stringerPathAt_first|]. split.
    + intros step Hstep.
      destruct (stringerPathAt_step stairData xPos (Z.to_nat step)) as [Ha Hb].
      { fold numTreads. lia. }
      rewrite Z2Nat.id in Ha, Hb by lia.
      replace (Z.to_nat (1 + 2 * step)) with (1 + 2 * Z.to_nat step)%nat by lia.
      replace (Z.to_nat (1 + 2 * step + 1)) with (2 + 2 * Z.to_nat step)%nat by lia.
      split; assumption.
    + replace (Z.to_nat (1 + 2 * numTreads))
        with (1 + 2 * Z.to_nat numTreads)%nat by lia.
      apply stringerPathAt_last.
Qed.

(** C10: with at least two stringers, stringer [i] has every vertex at
    [x = i * stairWidthIn / (numStringers - 1)]; the first stringer is at
    [x = 0] and the last one at [x = stairWidthIn]. *)
Theorem stringers_evenly_spaced (stairData : StairOutputs.t)
    (materialsData : MaterialsOutputs.t) (stairWidthIn : Q) :
  let numStringers := MaterialsOutputs.numStringers materialsData in
  let g := buildStaircaseGeometry stairData materialsData stairWidthIn in
  2 <= numStringers ->
  Z.of_nat (List.length (stringers g)) = numStringers
  /\ (forall i, 0 <= i < numStringers ->
        exists path,
          nth_error (stringers g) (Z.to_nat i) = Some path
          /\ path <> []
          /\ Forall (fun v =>
                       vx v = (inject_Z i
                               * (stairWidthIn / inject_Z (numStringers - 1)))%Q)
                    path
          /\ (i = 0 -> Forall (fun v => vx v == 0)%Q path)
          /\ (i = numStringers - 1 ->
              Forall (fun v => vx v == stairWidthIn)%Q path)).
Proof.
  intros numStringers g Hn. split.
  - unfold g. rewrite stringers_length. fold numStringers. lia.
  - intros i Hi.
    exists (stringerPathAt stairData
              (inject_Z i * (stairWidthIn / inject_Z (numStringers - 1)))%Q).
    assert (Hx := stringerPathAt_x stairData
              (inject_Z i * (stairWidthIn / inject_Z (numStringers - 1)))%Q).
    split; [| split; [| split; [| split]]].
    + unfold g. rewrite stringers_nth by (fold numStringers; lia).
      rewrite Z2Nat.id by lia. reflexivity.
    + discriminate.
    + exact Hx.
    + intros ->. eapply Forall_impl; [| exact Hx].
      intros v ->. change (inject_Z 0) with 0%Q. ring.
    + intros ->. eapply Forall_impl; [| exact Hx].
      intros v ->. field.
      intros Hz. unfold Qeq, inject_Z in Hz. simpl in Hz. lia.
Qed.

(** The sample layout of the specification (109.5 in of rise, 10 in treads,
    7.25 in target) and two sets of materials for it, 36 in wide at 16 in on
    center: a closed stair and an open one. *)
Definition sampleInput : StairInputs.t :=
  StairInputs.mk (1095 # 10) 10 (Some (725 # 100)) false None None.

Definition sampleLayout : StairOutputs.t :=
  match @Stairs.calcStairs Stairs.sampleMath sampleInput with
  | Ret o => o
  | Throw _ => StairOutputs.mk 0 0 0 0 0 0 0 0 0 0 false []
  end.

Definition sampleMaterials (closedStair : bool) : MaterialsOutputs.t :=
  Materials.calcMaterials
    (MaterialsInputs.mk 36 16 closedStair
       (StairOutputs.numTreads sampleLayout)
       (StairOutputs.numRisers sampleLayout)
       (StairOutputs.stringerLenIn sampleLayout)).

(** C9 on the sample layout: four paths of 30 vertices. *)
Lemma stringer_path_vertices_witness :
  let g := buildStaircaseGeometry sampleLayout (sampleMaterials true) 36 in
  Z.of_nat (List.length (stringers g)) = 4
  /\ (forall i, 0 <= i < 4 ->
        exists path,
          nth_error (stringers g) (Z.to_nat i) = Some path
          /\ Z.of_nat (List.length path) = 1 + 2 * 14 + 1
          /\ exists xPos,
               nth_error path 0 = Some (mkVector3 xPos 0 0)
               /\ (forall step, 0 <= step < 14 ->
                     nth_error path (Z.to_nat (1 + 2 * step))
                     = Some (mkVector3 xPos
                               (inject_Z (step + 1)
                                * StairOutputs.exactRiserIn sampleLayout)
                               (inject_Z (step + 1) * 10 - 10))%Q
                     /\ nth_error path (Z.to_nat (1 + 2 * step + 1))
                        = Some (mkVector3 xPos
                                  (inject_Z (step + 1)
                                   * StairOutputs.exactRiserIn sampleLayout)
                                  (inject_Z (step + 1) * 10))%Q)
               /\ nth_error path (Z.to_nat (1 + 2 * 14))
                  = Some (mkVector3 xPos
                            (inject_Z 15 * StairOutputs.exactRiserIn sampleLayout)%Q
                            (inject_Z 14 * 10)%Q)).
Proof.
  apply (@stringer_path_vertices Stairs.sampleMath sampleInput sampleLayout
           (sampleMaterials true) 36);
    [reflexivity | reflexivity | vm_compute; discriminate].
Defined.

(** C10 on the sample layout: four stringers, the first at [x = 0] and the
    last at [x = 36]. *)
Lemma stringers_evenly_spaced_witness :
  let numStringers := MaterialsOutputs.numStringers (sampleMaterials true) in
  let g := buildStaircaseGeometry sampleLayout (sampleMaterials true) 36 in
  numStringers = 4
  /\ Z.of_nat (List.length (stringers g)) = numStringers
  /\ (forall i, 0 <= i < numStringers ->
        exists path,
          nth_error (stringers g) (Z.to_nat i) = Some path
          /\ path <> []
          /\ Forall (fun v =>
                       vx v = (inject_Z i * (36 / inject_Z (numStringers - 1)))%Q)
                    path
          /\ (i = 0 -> Forall (fun v => vx v == 0)%Q path)
          /\ (i = numStringers - 1 -> Forall (fun v => vx v == 36)%Q path)).
Proof.
  intros numStringers g. split; [reflexivity|].
  apply (stringers_evenly_spaced sampleLayout (sampleMaterials true) 36).
  vm_compute. discriminate.
Defined.

(** C3, on the code: [buildStaircaseGeometry] returns one 4-vertex quad per
    riser for every stair, closed or open.  For the open sample stair the
    materials count no riser board ([risersQty = 0]) and the geometry still
    holds 15 riser quads. *)
Theorem open_stair_riser_quads :
  (forall stairData materialsData stairWidthIn,
      let g := buildStaircaseGeometry stairData materialsData stairWidthIn in
      List.length (risers g) = Z.to_nat (StairOutputs.numRisers stairData)
      /\ Forall (fun riser => List.length riser = 4%nat) (risers g))
  /\ MaterialsOutputs.risersQty (sampleMaterials false) = 0
  /\ List.length
       (risers (buildStaircaseGeometry sampleLayout (sampleMaterials false) 36))
     = 15%nat.
Proof.
  split; [| split].
  - intros stairData materialsData stairWidthIn g. split.
    + apply risers_length.
    + apply risers_quads.
  - reflexivity.
  - rewrite risers_length. reflexivity.
Qed.

End Geometry.

(** ** The perspective calibrator ([PerspectiveCalibration.tsx]) *)

Module Calibration.

Local Open Scope string_scope.

Record CalibrationPoint : Type := mkPoint {
  px : Q;
  py : Q;
  realHeight : option Q;
  label : string
}.

Record CalibrationData : Type := mkData {
  data_points : list CalibrationPoint;
  imageWidth : Q;
  imageHeight : Q;
  data_floorY : Q;
  vanishingPointX : option Q;
  vanishingPointY : option Q
}.

Inductive Step : Type := floor | reference | vanishing | done.

(** The React state of the component. *)
Record State : Type := mkState {
  points : list CalibrationPoint;
  currentStep : Step;
  floorY : Q;
  imageDimensions : Q * Q
}.

(** The state at mount: [useState([])], [useState("floor")], [useState(0.9)],
    [useState({ width: 0, height: 0 })]. *)
Definition initial : State := mkState [] floor (9 # 10) (0%Q, 0%Q).

(** What a click carries: the pointer position and, when the canvas is
    mounted, its bounding rectangle (left, top, width, height). *)
Record MouseEvent : Type := mkMouse {
  clientX : Q;
  clientY : Q;
  canvasRect : option (Q * Q * Q * Q)
}.

Definition setPoints (v : list CalibrationPoint) (st : State) : State :=
  mkState v (currentStep st) (floorY st) (imageDimensions st).
Definition setCurrentStep (v : Step) (st : State) : State :=
  mkState (points st) v (floorY st) (imageDimensions st).
Definition setFloorY (v : Q) (st : State) : State :=
  mkState (points st) (currentStep st) v (imageDimensions st).
Definition setImageDimensions (v : Q * Q) (st : State) : State :=
  mkState (points st) (currentStep st) (floorY st) v.

Definition handleCanvasClick (e : MouseEvent) (st : State) : State :=
  match canvasRect e with
  | None => st
  | Some (rect_left, rect_top, rect_width, rect_height) =>
      let x := ((clientX e - rect_left) / rect_width)%Q in
      let y := ((clientY e - rect_top) / rect_height)%Q in
      match currentStep st with
      | floor => setFloorY y st
      | reference =>
          let label :=
            "Point " ++ JsString.Z_to_string (Z.of_nat (List.length (points st)) + 1) in
          setPoints (points st ++ [mkPoint x y None label]) st
      | _ => st
      end
  end.

Definition ALERT_POINTS : string := "Please mark at least 2 reference points".

(** [handleNext]: the next state and the message it alerts, if any. *)
Definition handleNext (st : State) : State * option string :=
  match currentStep st with
  | floor => (setCurrentStep reference st, None)
  | reference =>
      if (Z.of_nat (List.length (points st)) <? 2)%Z
      then (st, Some ALERT_POINTS)
      else (setCurrentStep done st, None)
  | _ => (st, None)
  end.

(** [handleComplete]: the data handed to [onCalibrationComplete]. *)
Definition handleComplete (st : State) : CalibrationData :=
  let '(vanishingPointX, vanishingPointY) :=
    if (2 <=? Z.of_nat (List.length (points st)))%Z
    then (Some (fold_left (fun sum p => (sum + px p)%Q) (points st) 0%Q
                / inject_Z (Z.of_nat (List.length (points st))))%Q,
          Some (4 # 10))
    else (None, None) in
  mkData (points st) (fst (imageDimensions st)) (snd (imageDimensions st))
         (floorY st) vanishingPointX vanishingPointY.

(** What the user and the browser can do to the mounted component.  The
    NEXT button is rendered while the step is not [done] and the COMPLETE
    button only at [done]; SKIP and COMPLETE hand over to the parent and do
    not change the state. *)
Inductive Event : Type :=
| ImageLoaded (width height : Q)
| Click (e : MouseEvent)
| Next
| Complete
| Skip.

Inductive Effect : Type :=
| Alert (msg : string)
| CalibrationComplete (data : CalibrationData)
| Skipped.

Definition dispatch (ev : Event) (st : State) : State * list Effect :=
  match ev with
  | ImageLoaded w h => (setImageDimensions (w, h) st, [])
  | Click e => (handleCanvasClick e st, [])
  | Next =>
      match currentStep st with
      | done => (st, [])
      | _ =>
          let '(st', alert) := handleNext st in
          (st', match alert with Some msg => [Alert msg] | None => [] end)
      end
  | Complete =>
      match currentStep st with
      | done => (st, [CalibrationComplete (handleComplete st)])
      | _ => (st, [])
      end
  | Skip => (st, [Skipped])
  end.

(** A session: the events in order, from a state; the effects accumulate. *)
Fixpoint run (evs : list Event) (st : State) : State * list Effect :=
  match evs with
  | [] => (st, [])
  | ev :: evs' =>
      let '(st', out) := dispatch ev st in
      let '(st'', out') := run evs' st' in
      (st'', out ++ out')%list
  end.

(** The arithmetic mean of a list of numbers. *)
Definition mean (l : list Q) : Q :=
  (fold_right Qplus 0 l / inject_Z (Z.of_nat (List.length l)))%Q.

(** *** The guard of the reference step and the completion action *)

(** [points.reduce((sum, p) => sum + p.x, 0)] is the sum of the x-fractions. *)
Lemma reduce_sum (l : list CalibrationPoint) (a : Q) :
  (fold_left (fun sum p => sum + px p) l a
   == a + fold_right Qplus 0 (map px l))%Q.
Proof.
  revert a. induction l as [| p l IH]; intros a; simpl.
  - ring.
  - rewrite IH. ring.
Qed.

(** A calibration with a vanishing point at the mean x-fraction of its
    points and at the assumed height 0.4. *)
Definition vanishing_at_mean (data : CalibrationData) : Prop :=
  exists vpx,
    vanishingPointX data = Some vpx
    /\ (vpx == mean (map px (data_points data)))%Q
    /\ vanishingPointY data = Some (4 # 10).

Lemma handleComplete_mean (st : State) :
  (2 <= List.length (points st))%nat ->
  data_points (handleComplete st) = points st
  /\ vanishing_at_mean (handleComplete st).
Proof.
  intros Hlen. unfold vanishing_at_mean, handleComplete.
  destruct (Z.leb_spec 2 (Z.of_nat (List.length (points st)))) as [_ | Hlt];
    [| lia].
  cbn [vanishingPointX vanishingPointY data_points]. split; [reflexivity|].
  eexists. split; [reflexivity|]. split; [| reflexivity].
  unfold mean. rewrite reduce_sum, length_map.
  unfold Qdiv. ring.
Qed.

(** The step [done] is only entered through the guard of [handleNext]. *)
Definition guarded (st : State) : Prop :=
  currentStep st = done -> (2 <= List.length (points st))%nat.

Lemma handleNext_guarded (st : State) :
  guarded st -> guarded (fst (handleNext st)).
Proof.
  unfold guarded, handleNext. intros Hinv.
  destruct (currentStep st) eqn:E; cbn [fst]; try (rewrite E; discriminate).
  - cbn. discriminate.
  - destruct (Z.ltb_spec (Z.of_nat (List.length (points st))) 2);
      cbn [fst].
    + rewrite E. discriminate.
    + cbn. lia.
  - rewrite E. exact Hinv.
Qed.

Lemma dispatch_guarded (ev : Event) (st : State) :
  guarded st -> guarded (fst (dispatch ev st)).
Proof.
  intros Hinv. destruct ev as [w h | e | | |]; cbn [dispatch].
  - exact Hinv.
  - cbn [fst]. unfold handleCanvasClick.
    destruct (canvasRect e) as [[[[? ?] ?] ?]|]; [| exact Hinv].
    unfold guarded in *.
    destruct (currentStep st) eqn:E; cbn; rewrite ?E; try discriminate.
    exact Hinv.
  - pose proof (handleNext_guarded st Hinv) as Hn.
    destruct (currentStep st) eqn:E;
      try (destruct (handleNext st) as [st' alert]; exact Hn).
    exact Hinv.
  - destruct (currentStep st); exact Hinv.
  - exact Hinv.
Qed.

Lemma dispatch_emits (ev : Event) (st : State) (data : CalibrationData) :
  guarded st ->
  In (CalibrationComplete data) (snd (dispatch ev st)) ->
  vanishing_at_mean data.
Proof.
  intros Hinv Hin. destruct ev as [w h | e | | |]; cbn [dispatch] in Hin.
  - destruct Hin.
  - destruct Hin.
  - destruct (currentStep st); [| | | destruct Hin];
      destruct (handleNext st) as [st' [msg|]]; cbn in Hin;
      intuition discriminate.
  - destruct (currentStep st) eqn:E; cbn in Hin; try contradiction.
    destruct Hin as [Heq | []]. inversion Heq; subst data.
    apply handleComplete_mean, Hinv, E.
  - cbn in Hin. intuition discriminate.
Qed.

Lemma run_emits (evs : list Event) (st : State) (data : CalibrationData) :
  guarded st ->
  In (CalibrationComplete data) (snd (run evs st)) ->
  vanishing_at_mean data.
Proof.
  revert st. induction evs as [| ev evs IH]; intros st Hinv Hin.
  - destruct Hin.
  - cbn [run] in Hin.
    pose proof (dispatch_guarded ev st Hinv) as Hinv'.
    pose proof (dispatch_emits ev st data Hinv) as Hnow.
    destruct (dispatch ev st) as [st' out]. cbn [fst snd] in *.
    specialize (IH st' Hinv').
    destruct (run evs st') as [st'' out']. cbn [snd] in *.
    apply in_app_or in Hin. destruct Hin; auto.
Qed.

(** C8: leaving the reference step with fewer than two points alerts the
    validation message and changes nothing; with two points or more the step
    becomes [done]; and every CalibrationData that a session completes with
    has [vanishingPointX] at the mean of its points' x-fractions and
    [vanishingPointY] at 0.4. *)
Theorem calibration_guard_and_completion :
  (forall st, currentStep st = reference ->
      (List.length (points st) < 2)%nat ->
      handleNext st = (st, Some ALERT_POINTS)
      /\ dispatch Next st = (st, [Alert ALERT_POINTS]))
  /\ (forall st, currentStep st = reference ->
         (2 <= List.length (points st))%nat ->
         handleNext st = (setCurrentStep done st, None)
         /\ dispatch Next st = (setCurrentStep done st, []))
  /\ (forall st, (2 <= List.length (points st))%nat ->
         data_points (handleComplete st) = points st
         /\ vanishing_at_mean (handleComplete st))
  /\ (forall evs data,
         In (CalibrationComplete data) (snd (run evs initial)) ->
         vanishing_at_mean data).
Proof.
  split; [| split; [| split]].
  - intros st Hstep Hlen. unfold dispatch, handleNext. rewrite Hstep.
    destruct (Z.ltb_spec (Z.of_nat (List.length (points st))) 2); [| lia].
    split; reflexivity.
  - intros st Hstep Hlen. unfold dispatch, handleNext. rewrite Hstep.
    destruct (Z.ltb_spec (Z.of_nat (List.length (points st))) 2); [lia |].
    split; reflexivity.
  - apply handleComplete_mean.
  - intros evs data. apply run_emits. unfold guarded. discriminate.
Qed.

(** A canvas of 800 by 600 at the origin, and a click on it. *)
Definition clickAt (x y : Q) : Event :=
  Click (mkMouse x y (Some (0, 0, 800, 600)%Q)).

(** C8 on two sessions: one reference point, NEXT, COMPLETE alerts and emits
    nothing; two reference points at x-fractions 1/4 and 3/4 complete with
    the vanishing point at (1/2, 0.4). *)
Example calibration_sessions :
  (let '(st, out) := run [Next; clickAt 200 300; Next; Complete] initial in
   currentStep st = reference /\ out = [Alert ALERT_POINTS])
  /\ (let '(st, out) :=
        run [clickAt 400 540; Next; clickAt 200 300; clickAt 600 150;
             Next; Complete] initial in
      currentStep st = done
      /\ map label (points st) = ["Point 1"; "Point 2"]
      /\ exists data,
           out = [CalibrationComplete data]
           /\ option_map Qred (vanishingPointX data) = Some (1 # 2)
           /\ vanishingPointY data = Some (4 # 10)).
Proof.
  split.
  - vm_compute. split; reflexivity.
  - vm_compute. repeat split. eexists. repeat split.
Qed.

End Calibration.

(** * Further properties of the code *)

(** The solver divides the total rise by the target riser, and the
    estimator and the builder divide by the spacing on center and by the
    number of stringers less one.  The quotients below are exact, so a
    layout, a count or a geometry of these definitions is the one of the
    code wherever the divisor is not zero: the theorems on returned layouts
    are stated for a positive target riser, those on the place of the
    stringers for two stringers or more, and those on the page for a positive
    spacing.  In the same way the value of a run of digits and the digits of
    an integer are exact here, as they are in the code for integers of at
    most [2 ^ 53] in size, and the theorems on the texts of integers are
    stated up to there. *)

(** ** The layout solver: what every returned layout satisfies *)

Module SolverFacts.
Import JsMath Stairs.

Section Facts.
Context {M : MathLib}.

(** A layout is only returned for a positive rise and run. *)
Lemma calcStairs_ret_positive (input : StairInputs.t) (o : StairOutputs.t) :
  calcStairs input = Ret o ->
  (0 < StairInputs.totalRiseIn input)%Q /\ (0 < StairInputs.treadRunIn input)%Q.
Proof.
  unfold calcStairs. intros H.
  destruct (gtb (StairInputs.totalRiseIn input) 0) eqn:E1; [| discriminate].
  destruct (gtb (StairInputs.treadRunIn input) 0) eqn:E2; [| discriminate].
  split; now apply gtb_true.
Qed.

Lemma inject_Z_pos (n : Z) : 0 < n -> (0 < inject_Z n)%Q.
Proof. intros H. change 0%Q with (inject_Z 0). now rewrite <- Zlt_Qlt. Qed.

Lemma exactRiser_positive (input : StairInputs.t) (o : StairOutputs.t) :
  calcStairs input = Ret o -> (0 < StairOutputs.exactRiserIn o)%Q.
Proof.
  intros Ho. destruct (calcStairs_ret_positive input o Ho) as [Hrise _].
  destruct (calcStairs_fields input o Ho) as (Hn & _ & He & _).
  rewrite He. unfold Qdiv. apply Qmult_lt_0_compat; [assumption|].
  apply Qinv_lt_0_compat, inject_Z_pos. lia.
Qed.

(** X1: every layout that [calcStairs] returns for a positive target riser
    carries a warning.  The riser is positive then, so the meat check passes
    only when the run is under 7.75 in, and such a run is under the 10 in of
    the tread warning: a run of 7.75 in or more always fails the meat check,
    and a layout that passes it always has the tread warning. *)
Theorem calcStairs_never_without_warning (input : StairInputs.t)
    (o : StairOutputs.t) :
  (0 < nullish (StairInputs.targetRiserIn input) (725 # 100))%Q ->
  calcStairs input = Ret o ->
  StairOutputs.warnings o <> []
  /\ ((775 # 100 <= StairInputs.treadRunIn input)%Q ->
      In WARN_MEAT (StairOutputs.warnings o))
  /\ (StairOutputs.meatPass o = true -> In WARN_TREAD (StairOutputs.warnings o)).
Proof.
  intros _ Ho.
  pose proof (exactRiser_positive input o Ho) as Hpos.
  pose proof (calcStairs_warnings input o Ho) as Hw.
  destruct (calcStairs_fields input o Ho) as (_ & _ & _ & _ & _ & Hm & Hp & _).
  assert (Hfail : (775 # 100 <= StairInputs.treadRunIn input)%Q ->
                  StairOutputs.meatPass o = false).
  { intros Hrun. rewrite Hp. destruct (geb _ _) eqn:E; [| reflexivity].
    apply geb_true in E. rewrite Hm in E.
    unfold STRINGER_ACTUAL_DEPTH_IN, MIN_MEAT_IN in E. lra. }
  assert (Hmeat : (775 # 100 <= StairInputs.treadRunIn input)%Q ->
                  In WARN_MEAT (StairOutputs.warnings o)).
  { intros Hrun. rewrite Hw, (Hfail Hrun). apply in_or_app. right.
    apply in_or_app. right. now left. }
  assert (Htread : StairOutputs.meatPass o = true ->
                   In WARN_TREAD (StairOutputs.warnings o)).
  { intros Hpass. rewrite Hw.
    assert (Hlt : ltb (StairInputs.treadRunIn input) 10 = true).
    { apply ltb_true. destruct (Qlt_le_dec (StairInputs.treadRunIn input) (775 # 100));
        [lra|]. rewrite Hfail in Hpass by assumption. discriminate. }
    rewrite Hlt. apply in_or_app. right. apply in_or_app. left. now left. }
  split; [| split]; try assumption.
  intros Hnil.
  destruct (StairOutputs.meatPass o) eqn:E.
  - specialize (Htread eq_refl). rewrite Hnil in Htread. destruct Htread.
  - rewrite Hw in Hnil. destruct (gtb _ _), (ltb _ _); discriminate.
Qed.

(** X2: a layout returned for a positive target riser is never degenerate:
    one riser more than treads, a tread at least, a positive riser of at most
    half the total rise, and a total run of one tread run or more. *)
Theorem calcStairs_nondegenerate (input : StairInputs.t) (o : StairOutputs.t) :
  (0 < nullish (StairInputs.targetRiserIn input) (725 # 100))%Q ->
  calcStairs input = Ret o ->
  StairOutputs.numRisers o = StairOutputs.numTreads o + 1
  /\ 1 <= StairOutputs.numTreads o
  /\ (0 < StairOutputs.exactRiserIn o)%Q
  /\ (StairOutputs.exactRiserIn o <= StairInputs.totalRiseIn input / 2)%Q
  /\ (StairInputs.treadRunIn input <= StairOutputs.totalRunIn o)%Q.
Proof.
  intros _ Ho.
  destruct (calcStairs_ret_positive input o Ho) as [Hrise Hrun].
  pose proof (exactRiser_positive input o Ho) as Hpos.
  destruct (calcStairs_fields input o Ho) as (Hn & Ht & He & _ & Hr & _).
  assert (Hge : 2 <= StairOutputs.numRisers o) by (rewrite Hn; lia).
  assert (Hq : (2 <= inject_Z (StairOutputs.numRisers o))%Q)
    by (change 2%Q with (inject_Z 2); now rewrite <- Zle_Qle).
  assert (Hq1 : (1 <= inject_Z (StairOutputs.numTreads o))%Q)
    by (change 1%Q with (inject_Z 1); rewrite <- Zle_Qle; lia).
  split; [lia|]. split; [lia|]. split; [assumption|]. split.
  - assert (Hmul : (inject_Z (StairOutputs.numRisers o) * StairOutputs.exactRiserIn o
                    == StairInputs.totalRiseIn input)%Q)
      by (rewrite He; field; lra).
    assert (Hprod : (0 <= (inject_Z (StairOutputs.numRisers o) - 2)
                          * StairOutputs.exactRiserIn o)%Q)
      by (apply Qmult_le_0_compat; lra).
    assert (Hhalf : (StairInputs.totalRiseIn input / 2
                     == StairInputs.totalRiseIn input * (1 # 2))%Q) by field.
    rewrite Hhalf, <- Hmul. ring_simplify in Hprod. lra.
  - rewrite Hr.
    assert (Hprod : (0 <= (inject_Z (StairOutputs.numTreads o) - 1)
                          * StairInputs.treadRunIn input)%Q)
      by (apply Qmult_le_0_compat; lra).
    ring_simplify in Hprod. lra.
Qed.

(** X3: when the rounded quotient is two risers or more (the clamp does not
    act), the exact riser is within [targetRiserIn / (2 * numRisers)] of the
    target riser, hence within a quarter of it. *)
Theorem exactRiser_near_target (input : StairInputs.t) (o : StairOutputs.t) :
  let targetRiserIn := nullish (StairInputs.targetRiserIn input) (725 # 100) in
  calcStairs input = Ret o ->
  (0 < targetRiserIn)%Q ->
  2 <= round (StairInputs.totalRiseIn input / targetRiserIn) ->
  (Qabs (StairOutputs.exactRiserIn o - targetRiserIn)
   <= targetRiserIn / (2 * inject_Z (StairOutputs.numRisers o)))%Q
  /\ (Qabs (StairOutputs.exactRiserIn o - targetRiserIn) <= targetRiserIn / 4)%Q.
Proof.
  intros target Ho Htarget Hround.
  destruct (calcStairs_fields input o Ho) as (Hn & _ & He & _).
  fold target in Hn.
  set (total := StairInputs.totalRiseIn input) in *.
  set (n := StairOutputs.numRisers o) in *.
  assert (Hn' : n = round (total / target)) by lia.
  pose proof (round_lower (total / target)) as Hl.
  pose proof (round_upper (total / target)) as Hu.
  rewrite <- Hn' in Hl, Hu.
  assert (Hnq : (2 <= inject_Z n)%Q)
    by (change 2%Q with (inject_Z 2); rewrite <- Zle_Qle; lia).
  assert (Hraw : (total / target * target == total)%Q) by (field; lra).
  assert (Hlo : ((inject_Z n - (1 # 2)) * target <= total)%Q) by nra.
  assert (Hhi : (total <= (inject_Z n + (1 # 2)) * target)%Q) by nra.
  assert (Hex : (StairOutputs.exactRiserIn o * inject_Z n == total)%Q)
    by (rewrite He; field; lra).
  assert (Hbound : (target / (2 * inject_Z n) * (2 * inject_Z n) == target)%Q)
    by (field; lra).
  set (e := StairOutputs.exactRiserIn o) in *.
  set (b := (target / (2 * inject_Z n))%Q) in *.
  assert (Hb4 : (target / 4 * 4 == target)%Q) by (field; lra).
  assert (Hb : (b <= target / 4)%Q) by nra.
  assert (Hmain : (Qabs (e - target) <= b)%Q).
  { apply Qabs_Qle_condition. split; nra. }
  split; [exact Hmain | lra].
Qed.

End Facts.

Section Monotone.
Context {M : MathLib}.

(** X4: for one target riser, a larger total rise never gets fewer risers
    or fewer treads. *)
Theorem numRisers_monotone (input1 input2 : StairInputs.t)
    (o1 o2 : StairOutputs.t) :
  let target1 := nullish (StairInputs.targetRiserIn input1) (725 # 100) in
  let target2 := nullish (StairInputs.targetRiserIn input2) (725 # 100) in
  calcStairs input1 = Ret o1 -> calcStairs input2 = Ret o2 ->
  (target1 == target2)%Q -> (0 < target1)%Q ->
  (StairInputs.totalRiseIn input1 <= StairInputs.totalRiseIn input2)%Q ->
  StairOutputs.numRisers o1 <= StairOutputs.numRisers o2
  /\ StairOutputs.numTreads o1 <= StairOutputs.numTreads o2.
Proof.
  intros target1 target2 H1 H2 Heq Hpos Hle.
  destruct (calcStairs_fields input1 o1 H1) as (Hn1 & Ht1 & _).
  destruct (calcStairs_fields input2 o2 H2) as (Hn2 & Ht2 & _).
  fold target1 in Hn1. fold target2 in Hn2.
  assert (Hr : round (StairInputs.totalRiseIn input1 / target1)
               <= round (StairInputs.totalRiseIn input2 / target2)).
  { unfold round. apply Qfloor_resp_le. rewrite <- Heq.
    apply Qplus_le_compat; [| apply Qle_refl].
    unfold Qdiv. apply Qmult_le_compat_r; [assumption|].
    apply Qlt_le_weak, Qinv_lt_0_compat, Hpos. }
  lia.
Qed.

End Monotone.

Section Finish.
Context {M : MathLib}.

(** X5: the finish adjustments move the first and the last riser only.  For
    a positive target riser, the flight of the first riser, the
    [numRisers - 2] risers between and the last riser adds up to the total
    rise plus the bottom finish minus the top finish in finish mode, and to
    the total rise otherwise, where both finish values are ignored. *)
Theorem finish_adjusts_first_and_last (input : StairInputs.t)
    (o : StairOutputs.t) :
  (0 < nullish (StairInputs.targetRiserIn input) (725 # 100))%Q ->
  calcStairs input = Ret o ->
  let top := nullish (StairInputs.topFinishIn input) 0%Q in
  let bottom := nullish (StairInputs.bottomFinishIn input) 0%Q in
  let flight := (StairOutputs.firstRiserIn o
                 + inject_Z (StairOutputs.numRisers o - 2)
                   * StairOutputs.exactRiserIn o
                 + StairOutputs.lastRiserIn o)%Q in
  if StairInputs.finishMode input
  then StairOutputs.firstRiserIn o = (StairOutputs.exactRiserIn o + bottom)%Q
       /\ StairOutputs.lastRiserIn o = (StairOutputs.exactRiserIn o - top)%Q
       /\ (flight == StairInputs.totalRiseIn input + bottom - top)%Q
  else StairOutputs.firstRiserIn o = StairOutputs.exactRiserIn o
       /\ StairOutputs.lastRiserIn o = StairOutputs.exactRiserIn o
       /\ (flight == StairInputs.totalRiseIn input)%Q.
Proof.
  intros _ Ho top bottom flight.
  destruct (calcStairs_fields input o Ho) as (Hn & _ & He & _).
  assert (Hq : (2 <= inject_Z (StairOutputs.numRisers o))%Q)
    by (change 2%Q with (inject_Z 2); rewrite <- Zle_Qle; lia).
  assert (Hmul : (inject_Z (StairOutputs.numRisers o) * StairOutputs.exactRiserIn o
                  == StairInputs.totalRiseIn input)%Q)
    by (rewrite He; field; lra).
  assert (Hsplit : (inject_Z (StairOutputs.numRisers o - 2)
                    == inject_Z (StairOutputs.numRisers o) - 2)%Q)
    by (unfold Z.sub; rewrite inject_Z_plus; reflexivity).
  assert (Hends :
    if StairInputs.finishMode input
    then StairOutputs.firstRiserIn o = (StairOutputs.exactRiserIn o + bottom)%Q
         /\ StairOutputs.lastRiserIn o = (StairOutputs.exactRiserIn o - top)%Q
    else StairOutputs.firstRiserIn o = StairOutputs.exactRiserIn o
         /\ StairOutputs.lastRiserIn o = StairOutputs.exactRiserIn o).
  { clear - Ho. unfold calcStairs in Ho.
    destruct (negb (gtb (StairInputs.totalRiseIn input) 0)); [discriminate|].
    destruct (negb (gtb (StairInputs.treadRunIn input) 0)); [discriminate|].
    destruct (StairInputs.finishMode input); inversion Ho; subst o;
      split; reflexivity. }
  unfold flight.
  destruct (StairInputs.finishMode input); destruct Hends as [Hf Hl];
    (split; [exact Hf | split; [exact Hl |]]);
    rewrite Hf, Hl, Hsplit, <- Hmul; ring.
Qed.

End Finish.

(** X1 on a low flight: 6 in of rise in two 3 in risers on 4 in treads
    passes the meat check and has the tread warning. *)
Lemma calcStairs_never_without_warning_witness :
  let input := StairInputs.mk 6 4 (Some 3%Q) false None None in
  exists o,
    @calcStairs sampleMath input = Ret o
    /\ StairOutputs.meatPass o = true
    /\ StairOutputs.warnings o <> []
    /\ ((775 # 100 <= 4)%Q -> In WARN_MEAT (StairOutputs.warnings o))
    /\ (StairOutputs.meatPass o = true -> In WARN_TREAD (StairOutputs.warnings o)).
Proof.
  intros input. eexists. split; [reflexivity|]. split; [reflexivity|].
  apply (@calcStairs_never_without_warning sampleMath input); reflexivity.
Defined.

(** X2 on the sample flight of 109.5 in. *)
Lemma calcStairs_nondegenerate_witness :
  let input := StairInputs.mk (1095 # 10) 10 (Some (725 # 100)) false None None in
  exists o,
    @calcStairs sampleMath input = Ret o
    /\ StairOutputs.numRisers o = StairOutputs.numTreads o + 1
    /\ 1 <= StairOutputs.numTreads o
    /\ (0 < StairOutputs.exactRiserIn o)%Q
    /\ (StairOutputs.exactRiserIn o <= (1095 # 10) / 2)%Q
    /\ (10 <= StairOutputs.totalRunIn o)%Q.
Proof.
  intros input. eexists. split; [reflexivity|].
  apply (@calcStairs_nondegenerate sampleMath input); reflexivity.
Defined.

(** X3 on the sample flight: 15 risers of 7.3 in for a target of 7.25 in. *)
Lemma exactRiser_near_target_witness :
  let input := StairInputs.mk (1095 # 10) 10 (Some (725 # 100)) false None None in
  exists o,
    @calcStairs sampleMath input = Ret o
    /\ (Qabs (StairOutputs.exactRiserIn o - (725 # 100))
        <= (725 # 100) / (2 * inject_Z (StairOutputs.numRisers o)))%Q
    /\ (Qabs (StairOutputs.exactRiserIn o - (725 # 100)) <= (725 # 100) / 4)%Q.
Proof.
  intros input. eexists. split; [reflexivity|].
  apply (@exactRiser_near_target sampleMath input);
    [reflexivity | reflexivity | vm_compute; discriminate].
Defined.

(** X4 on two flights of 100 in and 109.5 in for the default target. *)
Lemma numRisers_monotone_witness :
  let input1 := StairInputs.mk 100 10 None false None None in
  let input2 := StairInputs.mk (1095 # 10) 10 None false None None in
  exists o1 o2,
    @calcStairs sampleMath input1 = Ret o1
    /\ @calcStairs sampleMath input2 = Ret o2
    /\ StairOutputs.numRisers o1 = 14 /\ StairOutputs.numRisers o2 = 15
    /\ StairOutputs.numRisers o1 <= StairOutputs.numRisers o2
    /\ StairOutputs.numTreads o1 <= StairOutputs.numTreads o2.
Proof.
  intros input1 input2. do 2 eexists.
  split; [reflexivity|]. split; [reflexivity|].
  split; [reflexivity|]. split; [reflexivity|].
  apply (@numRisers_monotone sampleMath input1 input2);
    [reflexivity | reflexivity | reflexivity | reflexivity
    | vm_compute; discriminate].
Defined.

(** X5 in finish mode: a 1 in bottom finish and a 0.75 in top finish on the
    sample flight. *)
Lemma finish_adjusts_first_and_last_witness :
  let input := StairInputs.mk (1095 # 10) 10 None true (Some (3 # 4)) (Some 1%Q) in
  exists o,
    @calcStairs sampleMath input = Ret o
    /\ StairOutputs.firstRiserIn o = (StairOutputs.exactRiserIn o + 1)%Q
    /\ StairOutputs.lastRiserIn o = (StairOutputs.exactRiserIn o - (3 # 4))%Q
    /\ (StairOutputs.firstRiserIn o
        + inject_Z (StairOutputs.numRisers o - 2) * StairOutputs.exactRiserIn o
        + StairOutputs.lastRiserIn o == (1095 # 10) + 1 - (3 # 4))%Q.
Proof.
  intros input. eexists. split; [reflexivity|].
  apply (@finish_adjusts_first_and_last sampleMath input); reflexivity.
Defined.

End SolverFacts.

(** ** The materials estimator: stock length, notes and spacing *)

Module MaterialsFacts.
Import JsMath Materials.

(** The stock length that [calcMaterials] suggests for [neededFt] feet. *)
Definition suggested (neededFt : Q) : Q :=
  nullish (find (fun ft => geb ft neededFt) COMMON_STOCK_FT)
          (inject_Z (ceil neededFt)).

Lemma suggestedStockLenFt_eq (m : MaterialsInputs.t) :
  MaterialsOutputs.suggestedStockLenFt (calcMaterials m)
  = suggested (MaterialsInputs.stringerLenIn m / 12).
Proof. reflexivity. Qed.

Lemma geb_false (x y : Q) : geb x y = false -> (x < y)%Q.
Proof.
  intros H. apply Qnot_le_lt. intros Hle. apply geb_true in Hle. congruence.
Qed.

(** The scan of the catalog returns its first length that is long enough,
    and the ceiling of the need beyond the catalog. *)
Lemma suggested_spec (neededFt : Q) :
  (neededFt <= suggested neededFt)%Q
  /\ (forall ft, In ft COMMON_STOCK_FT -> (neededFt <= ft)%Q ->
                 (suggested neededFt <= ft)%Q)
  /\ ((neededFt <= 20)%Q -> In (suggested neededFt) COMMON_STOCK_FT)
  /\ ((20 < neededFt)%Q -> suggested neededFt = inject_Z (ceil neededFt)).
Proof.
  unfold suggested, COMMON_STOCK_FT. cbn [find].
  repeat match goal with
  | |- context [geb ?a neededFt] =>
      let E := fresh "E" in
      destruct (geb a neededFt) eqn:E;
      [apply geb_true in E | apply geb_false in E]
  end; cbn [nullish];
  (split; [first [assumption | apply Qle_ceiling] |
   split; [intros ft Hin Hle; cbn [In] in Hin;
           repeat (destruct Hin as [<- | Hin]; [lra |]); destruct Hin |
   split; [intros Hle; cbn [In]; first [lra | tauto] |
           intros Hgt; first [lra | reflexivity]]]]).
Qed.

(** X6: the stock length that [calcMaterials] suggests is long enough for
    the stringer, and no catalog length that is long enough is shorter; it
    is a catalog length for stringers of up to 20 ft, and the need rounded up
    to whole feet beyond. *)
Theorem stock_length_suffices (m : MaterialsInputs.t) :
  let neededFt := (MaterialsInputs.stringerLenIn m / 12)%Q in
  let stock := MaterialsOutputs.suggestedStockLenFt (calcMaterials m) in
  (MaterialsInputs.stringerLenIn m <= stock * 12)%Q
  /\ (forall ft, In ft COMMON_STOCK_FT -> (neededFt <= ft)%Q -> (stock <= ft)%Q)
  /\ ((neededFt <= 20)%Q -> In stock COMMON_STOCK_FT)
  /\ ((20 < neededFt)%Q -> stock = inject_Z (ceil neededFt)).
Proof.
  intros neededFt stock. unfold stock. rewrite suggestedStockLenFt_eq.
  fold neededFt. destruct (suggested_spec neededFt) as (H1 & H2 & H3 & H4).
  repeat split; try assumption.
  assert (Hq : (neededFt * 12 == MaterialsInputs.stringerLenIn m)%Q)
    by (unfold neededFt; field).
  lra.
Qed.

(** The note on long stock, and the two notes of every list. *)
Definition NOTE_LONG : string := "Long stock: consider LVL or splicing plan.".
Definition NOTE_BLOCKING : string :=
  "Blocking/bridging as required (especially mid-span).".
Definition NOTE_CODE : string :=
  "Check local code for max riser/min tread + guard/handrail requirements.".

(** X7: the long-stock note is among the notes exactly when the stringer is
    over 16 ft (192 in) long, which is when the suggested stock is 18 ft or
    more; the two standing notes are always there. *)
Theorem long_stock_note (m : MaterialsInputs.t) :
  let notes := MaterialsOutputs.notes (calcMaterials m) in
  (In NOTE_LONG notes <-> (192 < MaterialsInputs.stringerLenIn m)%Q)
  /\ In NOTE_BLOCKING notes /\ In NOTE_CODE notes
  /\ (List.length notes = 2%nat \/ List.length notes = 3%nat).
Proof.
  intros notes.
  assert (Hnotes : notes
          = (if geb (suggested (MaterialsInputs.stringerLenIn m / 12)) 18
             then [NOTE_LONG] else [])
            ++ [NOTE_BLOCKING; NOTE_CODE]).
  { unfold notes, calcMaterials. cbn [MaterialsOutputs.notes].
    fold (suggested (MaterialsInputs.stringerLenIn m / 12)).
    destruct (geb _ 18); reflexivity. }
  set (neededFt := (MaterialsInputs.stringerLenIn m / 12)%Q) in *.
  assert (Hq : (neededFt * 12 == MaterialsInputs.stringerLenIn m)%Q)
    by (unfold neededFt; field).
  destruct (suggested_spec neededFt) as (H1 & H2 & H3 & H4).
  assert (Hiff : geb (suggested neededFt) 18 = true <-> (16 < neededFt)%Q).
  { rewrite geb_true. split.
    - intros H18. apply Qnot_le_lt. intros Hle.
      assert (H16 : (suggested neededFt <= 16)%Q).
      { apply H2; [| exact Hle]. unfold COMMON_STOCK_FT. cbn [In]. tauto. }
      lra.
    - intros H16. destruct (Qlt_le_dec 20 neededFt) as [Hbig | Hsmall]; [lra|].
      specialize (H3 Hsmall). unfold COMMON_STOCK_FT in H3. cbn [In] in H3.
      repeat (destruct H3 as [H3' | H3]; [rewrite <- H3' in *; lra |]).
      destruct H3. }
  rewrite Hnotes. split.
  - split.
    + intros Hin. destruct (geb (suggested neededFt) 18) eqn:E.
      * destruct Hiff as [Hif _]. specialize (Hif eq_refl). lra.
      * cbn in Hin. destruct Hin as [Hin | [Hin | []]]; discriminate.
    + intros Hlen. assert (E : geb (suggested neededFt) 18 = true)
        by (apply Hiff; lra).
      rewrite E. now left.
  - split; [| split].
    + apply in_or_app. right. now left.
    + apply in_or_app. right. right. now left.
    + destruct (geb _ 18); [right | left]; reflexivity.
Qed.

(** X8: for a positive width and on-center spacing, the stringers that
    [calcMaterials] counts, spread over the width as the geometry builder
    spreads them ([stairWidthIn / (numStringers - 1)]), are never farther
    apart than the on-center spacing asked for. *)
Theorem stringer_spacing_within_oc (m : MaterialsInputs.t) :
  (0 < MaterialsInputs.stairWidthIn m)%Q ->
  (0 < MaterialsInputs.stringerOcin m)%Q ->
  let n := MaterialsOutputs.numStringers (calcMaterials m) in
  (MaterialsInputs.stairWidthIn m / inject_Z (n - 1)
   <= MaterialsInputs.stringerOcin m)%Q.
Proof.
  intros Hw Hoc n.
  set (w := MaterialsInputs.stairWidthIn m) in *.
  set (oc := MaterialsInputs.stringerOcin m) in *.
  assert (Hn : ceil (w / oc) <= n - 1).
  { unfold n. rewrite numStringers_eq. fold w oc.
    destruct (leb w 36); lia. }
  pose proof (ceil_ratio_pos w oc Hw Hoc) as Hc.
  pose proof (Qle_ceiling (w / oc)) as Hceil. fold (ceil (w / oc)) in Hceil.
  assert (Hnq : (inject_Z (ceil (w / oc)) <= inject_Z (n - 1))%Q)
    by now rewrite <- Zle_Qle.
  assert (Hpos : (1 <= inject_Z (n - 1))%Q)
    by (change 1%Q with (inject_Z 1); rewrite <- Zle_Qle; lia).
  assert (Hratio : (w / oc * oc == w)%Q) by (field; lra).
  apply Qle_shift_div_r; [lra|].
  assert (Hprod : (0 <= (inject_Z (n - 1) - w / oc) * oc)%Q)
    by (apply Qmult_le_0_compat; lra).
  ring_simplify in Hprod. lra.
Qed.

(** X8 on a 36 in stair at 16 in on center: four stringers, 12 in apart. *)
Lemma stringer_spacing_within_oc_witness :
  let m := MaterialsInputs.mk 36 16 true 14 15 (1777 # 10) in
  MaterialsOutputs.numStringers (calcMaterials m) = 4
  /\ (36 / inject_Z (MaterialsOutputs.numStringers (calcMaterials m) - 1)
      <= 16)%Q.
Proof.
  intros m. split; [reflexivity|].
  apply (stringer_spacing_within_oc m); reflexivity.
Defined.

End MaterialsFacts.

(** ** The geometry builder: the box, the stringer paths and the boards *)

Module GeometryFacts.
Import JsMath Geometry.

Section Lists.
Variables (stairData : StairOutputs.t) (materialsData : MaterialsOutputs.t).
Variable stairWidthIn : Q.

Let exactRiserIn := StairOutputs.exactRiserIn stairData.
Let treadRunIn := StairOutputs.treadRunIn stairData.
Let g := buildStaircaseGeometry stairData materialsData stairWidthIn.

(** The quad of riser [step] and the box of tread [step]. *)
Definition riserQuad (step : Z) : list Vector3 :=
  [ mkVector3 0 (inject_Z step * exactRiserIn) (inject_Z step * treadRunIn);
    mkVector3 stairWidthIn (inject_Z step * exactRiserIn)
              (inject_Z step * treadRunIn);
    mkVector3 stairWidthIn (inject_Z (step + 1) * exactRiserIn)
              (inject_Z step * treadRunIn);
    mkVector3 0 (inject_Z (step + 1) * exactRiserIn)
              (inject_Z step * treadRunIn) ]%Q.

Definition treadBox (step : Z) : list Vector3 :=
  let riseY := (inject_Z (step + 1) * exactRiserIn)%Q in
  let runZ := (inject_Z (step + 1) * treadRunIn)%Q in
  [ mkVector3 0 riseY (runZ - treadRunIn);
    mkVector3 stairWidthIn riseY (runZ - treadRunIn);
    mkVector3 stairWidthIn riseY runZ;
    mkVector3 0 riseY runZ;
    mkVector3 0 (riseY + TREAD_THICKNESS) (runZ - treadRunIn);
    mkVector3 stairWidthIn (riseY + TREAD_THICKNESS) (runZ - treadRunIn);
    mkVector3 stairWidthIn (riseY + TREAD_THICKNESS) runZ;
    mkVector3 0 (riseY + TREAD_THICKNESS) runZ ]%Q.

Lemma risers_eq :
  risers g
  = map (fun k => riserQuad (Z.of_nat k))
        (seq 0 (Z.to_nat (StairOutputs.numRisers stairData))).
Proof.
  unfold g, buildStaircaseGeometry. cbn [risers].
  now rewrite (for_loop_push _ riserQuad).
Qed.

Lemma treads_eq :
  treads g
  = map (fun k => treadBox (Z.of_nat k))
        (seq 0 (Z.to_nat (StairOutputs.numTreads stairData))).
Proof.
  unfold g, buildStaircaseGeometry. cbn [treads].
  now rewrite (for_loop_push _ treadBox).
Qed.

End Lists.

(** A vertex inside the box of the dimensions. *)
Definition in_box (d : Dimensions) (v : Vector3) : Prop :=
  (0 <= vx v <= width d)%Q /\ (0 <= vy v <= height d)%Q
  /\ (0 <= vz v <= depth d)%Q.

Lemma inject_Z_nonneg (n : Z) : 0 <= n -> (0 <= inject_Z n)%Q.
Proof. intros H. change 0%Q with (inject_Z 0). now rewrite <- Zle_Qle. Qed.

Lemma scale_le (a b : Z) (x : Q) :
  a <= b -> (0 <= x)%Q -> (inject_Z a * x <= inject_Z b * x)%Q.
Proof.
  intros Hab Hx. apply Qmult_le_compat_r; [| exact Hx]. now rewrite <- Zle_Qle.
Qed.

Lemma scale_nonneg (a : Z) (x : Q) :
  0 <= a -> (0 <= x)%Q -> (0 <= inject_Z a * x)%Q.
Proof. intros Ha Hx. apply Qmult_le_0_compat; [now apply inject_Z_nonneg | exact Hx]. Qed.

(** What the builder needs of a layout, and the solver provides. *)
Record well_formed (stairData : StairOutputs.t) : Prop := {
  wf_risers : StairOutputs.numRisers stairData
              = StairOutputs.numTreads stairData + 1;
  wf_treads : 1 <= StairOutputs.numTreads stairData;
  wf_riser : (0 < StairOutputs.exactRiserIn stairData)%Q;
  wf_run : (0 < StairOutputs.treadRunIn stairData)%Q;
  wf_total : StairOutputs.totalRunIn stairData
             = (inject_Z (StairOutputs.numTreads stairData)
                * StairOutputs.treadRunIn stairData)%Q
}.

Lemma solver_well_formed {M : MathLib} (input : StairInputs.t)
    (stairData : StairOutputs.t) :
  Stairs.calcStairs input = Ret stairData -> well_formed stairData.
Proof.
  intros Ho.
  destruct (Stairs.calcStairs_fields input stairData Ho)
    as (Hn & Ht & He & Hrun & Hr & _).
  destruct (SolverFacts.calcStairs_ret_positive input stairData Ho) as [_ Hpos].
  constructor.
  - lia.
  - lia.
  - now apply (SolverFacts.exactRiser_positive input).
  - now rewrite Hrun.
  - now rewrite Hrun, Hr.
Qed.

Section Box.
Variables (stairData : StairOutputs.t) (materialsData : MaterialsOutputs.t).
Variable stairWidthIn : Q.
Hypothesis Hwf : well_formed stairData.
Hypothesis Hwidth : (0 <= stairWidthIn)%Q.
Hypothesis Hstringers : 2 <= MaterialsOutputs.numStringers materialsData.

Let e := StairOutputs.exactRiserIn stairData.
Let r := StairOutputs.treadRunIn stairData.
Let nR := StairOutputs.numRisers stairData.
Let nT := StairOutputs.numTreads stairData.
Let g := buildStaircaseGeometry stairData materialsData stairWidthIn.

Lemma dimensions_eq :
  dimensions g = mkDimensions stairWidthIn (inject_Z nR * e)%Q (inject_Z nT * r)%Q.
Proof.
  unfold g, buildStaircaseGeometry. cbn [dimensions]. now rewrite (wf_total _ Hwf).
Qed.

Lemma step_in_box (x : Q) (k : Z) (y z : Q) :
  (0 <= x <= stairWidthIn)%Q ->
  (0 <= y <= inject_Z nR * e)%Q -> (0 <= z <= inject_Z nT * r)%Q ->
  in_box (dimensions g) (mkVector3 x y z).
Proof. intros Hx Hy Hz. rewrite dimensions_eq. repeat split; cbn; tauto. Qed.

Lemma stringer_in_box (i : nat) :
  (i < Z.to_nat (MaterialsOutputs.numStringers materialsData))%nat ->
  Forall (in_box (dimensions g))
    (stringerPathAt stairData
       (inject_Z (Z.of_nat i)
        * (stairWidthIn
           / inject_Z (MaterialsOutputs.numStringers materialsData - 1)))%Q).
Proof.
  intros Hi. destruct Hwf as [Hrisers Htreads He Hr Htotal].
  fold e in He. fold r in Hr. fold nR nT in Hrisers. fold nT in Htreads.
  set (n := MaterialsOutputs.numStringers materialsData) in *.
  set (s := (stairWidthIn / inject_Z (n - 1))%Q).
  assert (Hn1 : (1 <= inject_Z (n - 1))%Q)
    by (change 1%Q with (inject_Z 1); rewrite <- Zle_Qle; lia).
  assert (Hs : (0 <= s)%Q).
  { unfold s, Qdiv. apply Qmult_le_0_compat; [exact Hwidth|].
    apply Qlt_le_weak, Qinv_lt_0_compat. lra. }
  assert (Hfull : (inject_Z (n - 1) * s == stairWidthIn)%Q)
    by (unfold s; field; lra).
  assert (Hx : (0 <= inject_Z (Z.of_nat i) * s <= stairWidthIn)%Q).
  { split; [apply scale_nonneg; [lia | exact Hs]|].
    rewrite <- Hfull. apply scale_le; [lia | exact Hs]. }
  assert (He0 : (0 <= e)%Q) by lra. assert (Hr0 : (0 <= r)%Q) by lra.
  unfold stringerPathAt. fold e r nR nT.
  apply Forall_app; split; [| apply Forall_app; split].
  - constructor; [| constructor]. apply step_in_box; try assumption.
    + split; [lra | apply scale_nonneg; [lia | exact He0]].
    + split; [lra | apply scale_nonneg; [lia | exact Hr0]].
  - apply Forall_flat_map, Forall_forall. intros k Hk. apply in_seq in Hk.
    assert (Hy : (0 <= inject_Z (Z.of_nat k + 1) * e <= inject_Z nR * e)%Q).
    { split; [apply scale_nonneg; [lia | exact He0] | apply scale_le; [lia | exact He0]]. }
    assert (Hz : (0 <= inject_Z (Z.of_nat k + 1) * r <= inject_Z nT * r)%Q).
    { split; [apply scale_nonneg; [lia | exact Hr0] | apply scale_le; [lia | exact Hr0]]. }
    assert (Hz' : (r <= inject_Z (Z.of_nat k + 1) * r)%Q).
    { setoid_replace r with (inject_Z 1 * r)%Q at 1 by (change (inject_Z 1) with 1%Q; ring).
      apply scale_le; [lia | exact Hr0]. }
    constructor; [| constructor; [| constructor]].
    + unfold riserTop. fold e r. apply step_in_box; try assumption. lra.
    + unfold treadBack. fold e r. apply step_in_box; assumption.
  - constructor; [| constructor]. rewrite Htotal. fold nT r.
    apply step_in_box; try assumption.
    + split; [apply scale_nonneg; [lia | exact He0] | apply Qle_refl].
    + split; [apply scale_nonneg; [lia | exact Hr0] | apply Qle_refl].
Qed.

Lemma riser_in_box (k : nat) :
  (k < Z.to_nat nR)%nat ->
  Forall (in_box (dimensions g)) (riserQuad stairData stairWidthIn (Z.of_nat k)).
Proof.
  intros Hk. destruct Hwf as [Hrisers Htreads He Hr Htotal].
  fold e in He. fold r in Hr. fold nR nT in Hrisers. fold nT in Htreads.
  assert (He0 : (0 <= e)%Q) by lra. assert (Hr0 : (0 <= r)%Q) by lra.
  assert (Hy0 : (0 <= inject_Z (Z.of_nat k) * e <= inject_Z nR * e)%Q).
  { split; [apply scale_nonneg; [lia | exact He0] | apply scale_le; [lia | exact He0]]. }
  assert (Hy1 : (0 <= inject_Z (Z.of_nat k + 1) * e <= inject_Z nR * e)%Q).
  { split; [apply scale_nonneg; [lia | exact He0] | apply scale_le; [lia | exact He0]]. }
  assert (Hz : (0 <= inject_Z (Z.of_nat k) * r <= inject_Z nT * r)%Q).
  { split; [apply scale_nonneg; [lia | exact Hr0] | apply scale_le; [lia | exact Hr0]]. }
  unfold riserQuad. fold e r.
  repeat constructor; apply step_in_box; try assumption; lra.
Qed.

End Box.
Section Path.
Variable stairData : StairOutputs.t.
Hypothesis Hwf : well_formed stairData.

Let e := StairOutputs.exactRiserIn stairData.
Let r := StairOutputs.treadRunIn stairData.
Let nR := StairOutputs.numRisers stairData.
Let nT := StairOutputs.numTreads stairData.

(** Two vertices at the same point. *)
Definition veq (a b : Vector3) : Prop :=
  (vx a == vx b)%Q /\ (vy a == vy b)%Q /\ (vz a == vz b)%Q.

(** The edge from vertex [j] of a path to the next one: a rise of one riser
    from an even vertex, a run of one tread from an odd one. *)
Definition edge_ok (j : nat) (a b : Vector3) : Prop :=
  vx b = vx a
  /\ if Nat.even j
     then (vz b == vz a)%Q /\ (vy b == vy a + e)%Q
     else (vy b == vy a)%Q /\ (vz b == vz a + r)%Q.

Lemma succ_scale (k : Z) (x : Q) :
  (inject_Z (k + 1) * x == inject_Z k * x + x)%Q.
Proof. rewrite inject_Z_plus. change (inject_Z 1) with 1%Q. ring. Qed.

(** The vertices of a path by index: the origin, then the top of riser and
    the back of tread of each step, then the landing. *)
Lemma path_even (xPos : Q) (k : nat) :
  (k <= Z.to_nat nT)%nat ->
  exists a, nth_error (stringerPathAt stairData xPos) (2 * k) = Some a
    /\ veq a (mkVector3 xPos (inject_Z (Z.of_nat k) * e)
                        (inject_Z (Z.of_nat k) * r))%Q.
Proof.
  intros Hk. destruct k as [| k].
  - eexists. split; [apply stringerPathAt_first|].
    repeat split; cbn; ring.
  - destruct (stringerPathAt_step stairData xPos k) as [_ Hb]; [lia|].
    eexists. split.
    + replace (2 * S k)%nat with (2 + 2 * k)%nat by lia. exact Hb.
    + unfold treadBack. fold e r.
      replace (Z.of_nat (S k)) with (Z.of_nat k + 1) by lia.
      repeat split; cbn [vx vy vz]; reflexivity.
Qed.

Lemma path_odd (xPos : Q) (k : nat) :
  (k <= Z.to_nat nT)%nat ->
  exists b, nth_error (stringerPathAt stairData xPos) (2 * k + 1) = Some b
    /\ veq b (mkVector3 xPos (inject_Z (Z.of_nat k + 1) * e)
                        (inject_Z (Z.of_nat k) * r))%Q.
Proof.
  intros Hk. destruct Hwf as [Hrisers Htreads He Hr Htotal].
  fold nR nT in Hrisers. fold nT in Htreads.
  destruct (Nat.eq_dec k (Z.to_nat nT)) as [-> | Hne].
  - eexists. split.
    + replace (2 * Z.to_nat nT + 1)%nat with (1 + 2 * Z.to_nat nT)%nat by lia.
      apply stringerPathAt_last.
    + rewrite Htotal. fold nR nT e r.
      replace (Z.of_nat (Z.to_nat nT)) with nT by lia.
      replace (nT + 1) with nR by lia.
      repeat split; cbn [vx vy vz]; reflexivity.
  - destruct (stringerPathAt_step stairData xPos k) as [Ha _]; [lia|].
    eexists. split.
    + replace (2 * k + 1)%nat with (1 + 2 * k)%nat by lia. exact Ha.
    + unfold riserTop. fold e r.
      repeat split; cbn [vx vy vz]; try reflexivity.
      rewrite succ_scale. ring.
Qed.

Lemma path_edge (xPos : Q) (j : nat) (a b : Vector3) :
  nth_error (stringerPathAt stairData xPos) j = Some a ->
  nth_error (stringerPathAt stairData xPos) (S j) = Some b ->
  edge_ok j a b.
Proof.
  intros Ha Hb.
  assert (Hlen : (S j < List.length (stringerPathAt stairData xPos))%nat)
    by (apply nth_error_Some; congruence).
  rewrite stringerPathAt_length in Hlen. fold nT in Hlen.
  unfold edge_ok.
  destruct (Nat.even j) eqn:Ev.
  - apply Nat.even_spec in Ev. destruct Ev as [k ->].
    destruct (path_even xPos k) as (a' & Ha' & Hxa & Hya & Hza); [lia|].
    destruct (path_odd xPos k) as (b' & Hb' & Hxb & Hyb & Hzb); [lia|].
    replace (S (2 * k)) with (2 * k + 1)%nat in Hb by lia.
    assert (a' = a) by congruence. assert (b' = b) by congruence. subst a' b'.
    pose proof (stringerPathAt_x stairData xPos) as Hx.
    rewrite Forall_forall in Hx.
    split; [rewrite (Hx a), (Hx b); eauto using nth_error_In|].
    cbn [vx vy vz] in Hya, Hza, Hyb, Hzb. rewrite Hyb, Hzb, Hya, Hza.
    split; [reflexivity | apply succ_scale].
  - assert (Hodd : Nat.odd j = true) by (rewrite <- Nat.negb_even, Ev; reflexivity).
    apply Nat.odd_spec in Hodd. destruct Hodd as [k ->].
    destruct (path_odd xPos k) as (a' & Ha' & Hxa & Hya & Hza); [lia|].
    destruct (path_even xPos (S k)) as (b' & Hb' & Hxb & Hyb & Hzb); [lia|].
    replace (S (2 * k + 1)) with (2 * S k)%nat in Hb by lia.
    assert (a' = a) by congruence. assert (b' = b) by congruence. subst a' b'.
    pose proof (stringerPathAt_x stairData xPos) as Hx.
    rewrite Forall_forall in Hx.
    split; [rewrite (Hx a), (Hx b); eauto using nth_error_In|].
    cbn [vx vy vz] in Hya, Hza, Hyb, Hzb. rewrite Hyb, Hzb, Hya, Hza.
    replace (Z.of_nat (S k)) with (Z.of_nat k + 1) by lia.
    split; [reflexivity | apply succ_scale].
Qed.

End Path.

Section Composition.
Context {M : MathLib}.
Variables (input : StairInputs.t) (stairData : StairOutputs.t).
Variables (materialsData : MaterialsOutputs.t) (stairWidthIn : Q).

(** X9: for a layout of the solver for a positive target riser, a width
    that is not negative and two stringers or more, the geometry stays within
    its stated dimensions: the box is [stairWidthIn] wide, as high as the
    total rise and as deep as the total run; there is a path for every
    stringer, a quad for every riser and a box for every tread; every vertex
    of every stringer and of every riser lies in the box, and every vertex
    of every tread lies over its footprint, at most the thickness of a tread
    above the top of the last tread notch. *)
Theorem geometry_within_dimensions :
  (0 < nullish (StairInputs.targetRiserIn input) (725 # 100))%Q ->
  Stairs.calcStairs input = Ret stairData ->
  (0 <= stairWidthIn)%Q ->
  2 <= MaterialsOutputs.numStringers materialsData ->
  let g := buildStaircaseGeometry stairData materialsData stairWidthIn in
  width (dimensions g) = stairWidthIn
  /\ (height (dimensions g) == StairInputs.totalRiseIn input)%Q
  /\ depth (dimensions g) = StairOutputs.totalRunIn stairData
  /\ (Z.of_nat (List.length (stringers g))
      = MaterialsOutputs.numStringers materialsData
      /\ Z.of_nat (List.length (risers g)) = StairOutputs.numRisers stairData
      /\ Z.of_nat (List.length (treads g)) = StairOutputs.numTreads stairData)
  /\ Forall (Forall (in_box (dimensions g))) (stringers g)
  /\ Forall (Forall (in_box (dimensions g))) (risers g)
  /\ Forall (Forall (fun v =>
       (0 <= vx v <= width (dimensions g))%Q
       /\ (0 <= vz v <= depth (dimensions g))%Q
       /\ (0 <= vy v <= height (dimensions g)
                        - StairOutputs.exactRiserIn stairData
                        + TREAD_THICKNESS)%Q)) (treads g).
Proof.
  intros _ Ho Hwidth Hstringers g.
  pose proof (solver_well_formed input stairData Ho) as Hwf.
  destruct (Stairs.calcStairs_fields input stairData Ho)
    as (Hn & _ & He & _).
  destruct (SolverFacts.calcStairs_ret_positive input stairData Ho) as [Hrise _].
  split; [reflexivity|].
  split; [| split; [reflexivity | split; [| split; [| split]]]].
  - unfold g, buildStaircaseGeometry. cbn [dimensions height]. rewrite He.
    assert (Hq : (2 <= inject_Z (StairOutputs.numRisers stairData))%Q)
      by (change 2%Q with (inject_Z 2); rewrite <- Zle_Qle; lia).
    field. lra.
  - pose proof (wf_treads _ Hwf) as Htreads.
    unfold g. rewrite stringers_length, risers_eq, treads_eq.
    rewrite !length_map, !length_seq. lia.
  - unfold g. rewrite stringers_eq. apply Forall_map, Forall_forall.
    intros i Hi. apply in_seq in Hi.
    apply stringer_in_box; try assumption. lia.
  - unfold g. rewrite risers_eq. apply Forall_map, Forall_forall.
    intros k Hk. apply in_seq in Hk.
    apply riser_in_box; try assumption. lia.
  - unfold g. rewrite treads_eq, (dimensions_eq _ _ _ Hwf).
    apply Forall_map, Forall_forall. intros k Hk. apply in_seq in Hk.
    destruct Hwf as [Hrisers Htreads Hepos Hr Htotal].
    set (e := StairOutputs.exactRiserIn stairData) in *.
    set (r := StairOutputs.treadRunIn stairData) in *.
    set (nT := StairOutputs.numTreads stairData) in *.
    rewrite Hrisers.
    assert (He0 : (0 <= e)%Q) by lra. assert (Hr0 : (0 <= r)%Q) by lra.
    assert (Hy : (0 <= inject_Z (Z.of_nat k + 1) * e <= inject_Z nT * e)%Q).
    { split; [apply scale_nonneg; [lia | exact He0]
             | apply scale_le; [lia | exact He0]]. }
    assert (Hz : (0 <= inject_Z (Z.of_nat k + 1) * r <= inject_Z nT * r)%Q).
    { split; [apply scale_nonneg; [lia | exact Hr0]
             | apply scale_le; [lia | exact Hr0]]. }
    assert (Hz' : (0 <= inject_Z (Z.of_nat k) * r)%Q)
      by (apply scale_nonneg; [lia | exact Hr0]).
    pose proof (succ_scale (Z.of_nat k) r) as Hs.
    pose proof (succ_scale nT e) as Hs'.
    unfold treadBox, TREAD_THICKNESS. fold e r.
    repeat constructor; cbn [vx vy vz width height depth]; lra.
Qed.

(** X10: every stringer path of a layout of the solver is a staircase.  For
    a positive target riser and two stringers or more there is a path for
    every stringer; it starts on the floor at the front of the stair and
    ends at the landing, as high as the total rise and as far back as the
    total run; along it the vertices stay in the plane of the stringer; from
    an even vertex the next one is straight above, one exact riser higher,
    and from an odd vertex it is level, one tread run farther back. *)
Theorem stringer_path_is_staircase :
  (0 < nullish (StairInputs.targetRiserIn input) (725 # 100))%Q ->
  Stairs.calcStairs input = Ret stairData ->
  2 <= MaterialsOutputs.numStringers materialsData ->
  let g := buildStaircaseGeometry stairData materialsData stairWidthIn in
  let numStringers := MaterialsOutputs.numStringers materialsData in
  Z.of_nat (List.length (stringers g)) = numStringers
  /\ (forall i, 0 <= i < numStringers ->
        exists path first last,
          nth_error (stringers g) (Z.to_nat i) = Some path
          /\ nth_error path 0 = Some first
          /\ (vy first == 0)%Q /\ (vz first == 0)%Q
          /\ nth_error path (List.length path - 1) = Some last
          /\ (vy last == StairInputs.totalRiseIn input)%Q
          /\ (vz last == StairOutputs.totalRunIn stairData)%Q
          /\ (forall (j : nat) (a b : Vector3),
                nth_error path j = Some a -> nth_error path (S j) = Some b ->
                vx b = vx a
                /\ if Nat.even j
                   then (vz b == vz a)%Q
                        /\ (vy b == vy a + StairOutputs.exactRiserIn stairData)%Q
                   else (vy b == vy a)%Q
                        /\ (vz b == vz a + StairOutputs.treadRunIn stairData)%Q)).
Proof.
  intros _ Ho Hstringers g numStringers.
  pose proof (solver_well_formed input stairData Ho) as Hwf.
  destruct (Stairs.calcStairs_fields input stairData Ho)
    as (Hn & _ & He & _).
  destruct (SolverFacts.calcStairs_ret_positive input stairData Ho) as [Hrise _].
  split.
  { unfold g. rewrite stringers_length. fold numStringers. lia. }
  intros i Hi.
  set (xPos := (inject_Z (Z.of_nat (Z.to_nat i))
                * (stairWidthIn / inject_Z (numStringers - 1)))%Q).
  exists (stringerPathAt stairData xPos),
         (mkVector3 xPos 0 0),
         (mkVector3 xPos
            (inject_Z (StairOutputs.numRisers stairData)
             * StairOutputs.exactRiserIn stairData)%Q
            (StairOutputs.totalRunIn stairData)).
  split; [unfold g; apply stringers_nth; fold numStringers; lia|].
  split; [apply stringerPathAt_first|].
  split; [reflexivity|]. split; [reflexivity|].
  split.
  { rewrite stringerPathAt_length.
    replace (1 + 2 * Z.to_nat (StairOutputs.numTreads stairData) + 1 - 1)%nat
      with (1 + 2 * Z.to_nat (StairOutputs.numTreads stairData))%nat by lia.
    apply stringerPathAt_last. }
  split.
  { cbn [vy]. rewrite He.
    assert (Hq : (2 <= inject_Z (StairOutputs.numRisers stairData))%Q)
      by (change 2%Q with (inject_Z 2); rewrite <- Zle_Qle; lia).
    field. lra. }
  split; [reflexivity|].
  intros j a b Ha Hb. exact (path_edge stairData Hwf _ j a b Ha Hb).
Qed.

(** X11: the boards fit the notches.  For a layout of the solver for a
    positive target riser and two stringers or more, the left edge of riser
    [k] runs between vertices [2k]
    and [2k + 1] of the leftmost stringer path, and the left edge of the
    underside of tread [k] between vertices [2k + 1] and [2k + 2]; there are
    as many riser quads as risers and as many tread boxes as treads. *)
Theorem boards_fit_notches :
  (0 < nullish (StairInputs.targetRiserIn input) (725 # 100))%Q ->
  Stairs.calcStairs input = Ret stairData ->
  2 <= MaterialsOutputs.numStringers materialsData ->
  let g := buildStaircaseGeometry stairData materialsData stairWidthIn in
  let origin := mkVector3 0 0 0 in
  Z.of_nat (List.length (risers g)) = StairOutputs.numRisers stairData
  /\ Z.of_nat (List.length (treads g)) = StairOutputs.numTreads stairData
  /\ exists path,
       nth_error (stringers g) 0 = Some path
       /\ (forall k : nat, Z.of_nat k < StairOutputs.numRisers stairData ->
             exists riser a b,
               nth_error (risers g) k = Some riser
               /\ nth_error path (2 * k) = Some a
               /\ nth_error path (2 * k + 1) = Some b
               /\ veq (nth 0 riser origin) a /\ veq (nth 3 riser origin) b)
       /\ (forall k : nat, Z.of_nat k < StairOutputs.numTreads stairData ->
             exists tread b c,
               nth_error (treads g) k = Some tread
               /\ nth_error path (2 * k + 1) = Some b
               /\ nth_error path (2 * k + 2) = Some c
               /\ veq (nth 0 tread origin) b /\ veq (nth 3 tread origin) c).
Proof.
  intros _ Ho Hstringers g origin.
  pose proof (solver_well_formed input stairData Ho) as Hwf.
  pose proof (wf_risers _ Hwf) as Hrisers.
  pose proof (wf_treads _ Hwf) as Htreads.
  set (spacing := (stairWidthIn
                   / inject_Z (MaterialsOutputs.numStringers materialsData - 1))%Q).
  set (xPos := (inject_Z (Z.of_nat 0) * spacing)%Q).
  assert (Hx : (xPos == 0)%Q) by (unfold xPos; cbn; ring).
  split; [| split].
  - unfold g. rewrite risers_eq, length_map, length_seq. lia.
  - unfold g. rewrite treads_eq, length_map, length_seq. lia.
  - exists (stringerPathAt stairData xPos). split; [| split].
    + unfold g. apply stringers_nth. lia.
    + intros k Hk.
      destruct (path_even stairData xPos k) as (a & Ha & Hxa & Hya & Hza); [lia|].
      destruct (path_odd stairData Hwf xPos k) as (b & Hb & Hxb & Hyb & Hzb); [lia|].
      exists (riserQuad stairData stairWidthIn (Z.of_nat k)), a, b.
      split.
      { unfold g. rewrite risers_eq, nth_error_map, nth_error_seq.
        destruct (Nat.ltb_spec k (Z.to_nat (StairOutputs.numRisers stairData)));
          [reflexivity | lia]. }
      split; [exact Ha|]. split; [exact Hb|].
      cbn [vx vy vz] in Hxa, Hya, Hza, Hxb, Hyb, Hzb.
      split; repeat split; cbn [nth riserQuad treadBox vx vy vz]; rewrite ?Hxa, ?Hya, ?Hza, ?Hxb, ?Hyb, ?Hzb, ?Hx;
        reflexivity.
    + intros k Hk.
      destruct (path_odd stairData Hwf xPos k) as (b & Hb & Hxb & Hyb & Hzb); [lia|].
      destruct (path_even stairData xPos (S k)) as (c & Hc & Hxc & Hyc & Hzc); [lia|].
      exists (treadBox stairData stairWidthIn (Z.of_nat k)), b, c.
      split.
      { unfold g. rewrite treads_eq, nth_error_map, nth_error_seq.
        destruct (Nat.ltb_spec k (Z.to_nat (StairOutputs.numTreads stairData)));
          [reflexivity | lia]. }
      split; [exact Hb|].
      split; [replace (2 * k + 2)%nat with (2 * S k)%nat by lia; exact Hc|].
      cbn [vx vy vz] in Hxb, Hyb, Hzb, Hxc, Hyc, Hzc.
      replace (Z.of_nat (S k)) with (Z.of_nat k + 1) in Hyc, Hzc by lia.
      split; repeat split; cbn [nth riserQuad treadBox vx vy vz]; rewrite ?Hxb, ?Hyb, ?Hzb, ?Hxc, ?Hyc, ?Hzc, ?Hx;
        try reflexivity.
      rewrite succ_scale. ring.
Qed.

End Composition.

(** X9 on the sample flight, 36 in wide on four stringers. *)
Lemma geometry_within_dimensions_witness :
  let g := buildStaircaseGeometry sampleLayout (sampleMaterials true) 36 in
  width (dimensions g) = 36%Q
  /\ (height (dimensions g) == 1095 # 10)%Q
  /\ depth (dimensions g) = StairOutputs.totalRunIn sampleLayout
  /\ (Z.of_nat (List.length (stringers g)) = 4
      /\ Z.of_nat (List.length (risers g)) = 15
      /\ Z.of_nat (List.length (treads g)) = 14)
  /\ Forall (Forall (in_box (dimensions g))) (stringers g)
  /\ Forall (Forall (in_box (dimensions g))) (risers g)
  /\ Forall (Forall (fun v =>
       (0 <= vx v <= width (dimensions g))%Q
       /\ (0 <= vz v <= depth (dimensions g))%Q
       /\ (0 <= vy v <= height (dimensions g)
                        - StairOutputs.exactRiserIn sampleLayout
                        + TREAD_THICKNESS)%Q)) (treads g).
Proof.
  apply (@geometry_within_dimensions Stairs.sampleMath sampleInput sampleLayout
           (sampleMaterials true) 36);
    [reflexivity | reflexivity | vm_compute; discriminate
    | vm_compute; discriminate].
Defined.

(** X10 on the sample flight: four paths from the floor to 109.5 in up and
    140 in back, in rises of 7.3 in and runs of 10 in. *)
Lemma stringer_path_is_staircase_witness :
  let g := buildStaircaseGeometry sampleLayout (sampleMaterials true) 36 in
  StairOutputs.exactRiserIn sampleLayout = ((1095 # 10) / inject_Z 15)%Q
  /\ StairOutputs.treadRunIn sampleLayout = 10%Q
  /\ Z.of_nat (List.length (stringers g)) = 4
  /\ (forall i, 0 <= i < 4 ->
        exists path first last,
          nth_error (stringers g) (Z.to_nat i) = Some path
          /\ nth_error path 0 = Some first
          /\ (vy first == 0)%Q /\ (vz first == 0)%Q
          /\ nth_error path (List.length path - 1) = Some last
          /\ (vy last == 1095 # 10)%Q
          /\ (vz last == inject_Z 14 * 10)%Q
          /\ (forall (j : nat) (a b : Vector3),
                nth_error path j = Some a -> nth_error path (S j) = Some b ->
                vx b = vx a
                /\ if Nat.even j
                   then (vz b == vz a)%Q
                        /\ (vy b == vy a + StairOutputs.exactRiserIn sampleLayout)%Q
                   else (vy b == vy a)%Q
                        /\ (vz b == vz a + StairOutputs.treadRunIn sampleLayout)%Q)).
Proof.
  intros g. split; [reflexivity|]. split; [reflexivity|].
  apply (@stringer_path_is_staircase Stairs.sampleMath sampleInput sampleLayout
           (sampleMaterials true) 36);
    [reflexivity | reflexivity | vm_compute; discriminate].
Defined.

(** X11 on the sample flight: 15 riser quads and 14 tread boxes along the
    leftmost of the four stringers. *)
Lemma boards_fit_notches_witness :
  let g := buildStaircaseGeometry sampleLayout (sampleMaterials true) 36 in
  let origin := mkVector3 0 0 0 in
  Z.of_nat (List.length (risers g)) = 15
  /\ Z.of_nat (List.length (treads g)) = 14
  /\ exists path,
       nth_error (stringers g) 0 = Some path
       /\ (forall k : nat, Z.of_nat k < 15 ->
             exists riser a b,
               nth_error (risers g) k = Some riser
               /\ nth_error path (2 * k) = Some a
               /\ nth_error path (2 * k + 1) = Some b
               /\ veq (nth 0 riser origin) a /\ veq (nth 3 riser origin) b)
       /\ (forall k : nat, Z.of_nat k < 14 ->
             exists tread b c,
               nth_error (treads g) k = Some tread
               /\ nth_error path (2 * k + 1) = Some b
               /\ nth_error path (2 * k + 2) = Some c
               /\ veq (nth 0 tread origin) b /\ veq (nth 3 tread origin) c).
Proof.
  apply (@boards_fit_notches Stairs.sampleMath sampleInput sampleLayout
           (sampleMaterials true) 36);
    [reflexivity | reflexivity | vm_compute; discriminate].
Defined.

End GeometryFacts.

(** ** The calibrator: what a session can reach and emit *)

Module CalibrationFacts.
Import Calibration.

Local Open Scope string_scope.

(** The labels of [n] reference points marked one after the other. *)
Definition numbered (n : nat) : list string :=
  map (fun i => "Point " ++ JsString.Z_to_string (Z.of_nat i)) (seq 1 n).

Lemma numbered_S (n : nat) :
  numbered (S n)
  = (numbered n
     ++ [("Point " ++ JsString.Z_to_string (Z.of_nat n + 1))%string])%list.
Proof.
  unfold numbered. rewrite seq_S, map_app. cbn [map].
  replace (Z.of_nat (1 + n)) with (Z.of_nat n + 1)%Z by lia. reflexivity.
Qed.

(** What holds of every state of a session. *)
Record reachable (st : State) : Prop := {
  r_step : currentStep st <> vanishing;
  r_floor : currentStep st = floor -> points st = [];
  r_done : currentStep st = done -> (2 <= List.length (points st))%nat;
  r_labels : map label (points st) = numbered (List.length (points st));
  r_heights : Forall (fun p => realHeight p = None) (points st)
}.

Lemma initial_reachable : reachable initial.
Proof.
  constructor; cbn; intros; first [discriminate | reflexivity | constructor].
Qed.

Lemma click_reachable (e : MouseEvent) (st : State) :
  reachable st -> reachable (handleCanvasClick e st).
Proof.
  intros [Hstep Hfloor Hdone Hlabels Hheights]. unfold handleCanvasClick.
  destruct (canvasRect e) as [[[[rect_left rect_top] rect_width] rect_height]|];
    [| now constructor].
  destruct (currentStep st) eqn:E.
  - constructor; cbn; rewrite ?E; try assumption; try discriminate.
  - constructor; cbn [setPoints points currentStep]; rewrite ?E;
      try discriminate.
    + rewrite map_app, length_app, Hlabels. cbn [map List.length label].
      rewrite Nat.add_1_r, numbered_S. reflexivity.
    + apply Forall_app. split; [assumption | now constructor].
  - congruence.
  - constructor; rewrite ?E; assumption.
Qed.

Lemma next_reachable (st : State) :
  reachable st -> reachable (fst (handleNext st)).
Proof.
  intros [Hstep Hfloor Hdone Hlabels Hheights]. unfold handleNext.
  destruct (currentStep st) eqn:E; cbn [fst].
  - constructor; cbn; try assumption; try discriminate.
  - destruct (Z.ltb_spec (Z.of_nat (List.length (points st))) 2); cbn [fst].
    + constructor; rewrite ?E; try assumption; discriminate.
    + constructor; cbn; try assumption; try discriminate. intros _. lia.
  - constructor; rewrite ?E; assumption.
  - constructor; rewrite ?E; assumption.
Qed.

Lemma dispatch_reachable (ev : Event) (st : State) :
  reachable st -> reachable (fst (dispatch ev st)).
Proof.
  intros Hinv. destruct ev as [w h | e | | |]; cbn [dispatch].
  - destruct Hinv. now constructor.
  - now apply click_reachable.
  - pose proof (next_reachable st Hinv) as Hn.
    destruct (currentStep st) eqn:E;
      try (destruct (handleNext st) as [st' alert]; exact Hn).
    exact Hinv.
  - destruct (currentStep st); exact Hinv.
  - exact Hinv.
Qed.

(** A completion is only emitted by COMPLETE at the step [done], from the
    state as it is. *)
Lemma dispatch_completes (ev : Event) (st : State) (data : CalibrationData) :
  In (CalibrationComplete data) (snd (dispatch ev st)) ->
  currentStep st = done /\ data = handleComplete st.
Proof.
  intros Hin. destruct ev as [w h | e | | |]; cbn [dispatch] in Hin.
  - destruct Hin.
  - destruct Hin.
  - destruct (currentStep st); [| | | destruct Hin];
      destruct (handleNext st) as [st' [msg|]]; cbn in Hin;
      intuition discriminate.
  - destruct (currentStep st) eqn:E; cbn in Hin; try contradiction.
    destruct Hin as [Heq | []]. inversion Heq. now split.
  - cbn in Hin. intuition discriminate.
Qed.

(** An invariant of [dispatch] holds of the final state of a session, and
    of the state of every completion in it. *)
Lemma run_invariant (P : State -> Prop) :
  (forall ev st, P st -> P (fst (dispatch ev st))) ->
  forall evs st, P st ->
    P (fst (run evs st))
    /\ forall data, In (CalibrationComplete data) (snd (run evs st)) ->
         exists st', P st' /\ currentStep st' = done
                     /\ data = handleComplete st'.
Proof.
  intros Hstep evs. induction evs as [| ev evs IH]; intros st Hst.
  - cbn. split; [assumption | intros data []].
  - cbn [run].
    pose proof (Hstep ev st Hst) as Hst'.
    pose proof (fun data => dispatch_completes ev st data) as Hnow.
    destruct (dispatch ev st) as [st' out]. cbn [fst snd] in *.
    destruct (IH st' Hst') as [Hfinal Hlater].
    destruct (run evs st') as [st'' out']. cbn [fst snd] in *.
    split; [assumption|]. intros data Hin.
    apply in_app_or in Hin. destruct Hin as [Hin | Hin].
    + destruct (Hnow data Hin) as [Hd ->]. now exists st.
    + now apply Hlater.
Qed.

(** X12: in every session from the mounted component, the step is never
    [vanishing]; no point is marked before the floor step is left; the
    points are labelled Point 1, Point 2, ... in the order of marking and
    carry no real height; and every calibration that is emitted holds two
    points or more, labelled so, with a vanishing point. *)
Theorem session_invariants (evs : list Event) :
  let st := fst (run evs initial) in
  let out := snd (run evs initial) in
  currentStep st <> vanishing
  /\ (currentStep st = floor -> points st = [])
  /\ map label (points st) = numbered (List.length (points st))
  /\ Forall (fun p => realHeight p = None) (points st)
  /\ forall data, In (CalibrationComplete data) out ->
       (2 <= List.length (data_points data))%nat
       /\ map label (data_points data)
          = numbered (List.length (data_points data))
       /\ vanishingPointX data <> None
       /\ vanishingPointY data = Some (4 # 10).
Proof.
  intros st out.
  destruct (run_invariant reachable dispatch_reachable evs initial
              initial_reachable) as [Hfinal Hemit].
  fold st in Hfinal. fold out in Hemit.
  destruct Hfinal as [Hstep Hfloor Hdone Hlabels Hheights].
  repeat (split; [assumption|]).
  intros data Hin. destruct (Hemit data Hin) as (st' & Hr & Hd & ->).
  destruct Hr as [_ _ Hdone' Hlabels' _]. specialize (Hdone' Hd).
  unfold handleComplete.
  destruct (Z.leb_spec 2 (Z.of_nat (List.length (points st')))); [| lia].
  cbn [data_points vanishingPointX vanishingPointY].
  repeat split; try assumption. discriminate.
Qed.

(** A click on the canvas: within the bounding rectangle, of positive
    size, that the event carries. *)
Definition on_canvas (ev : Event) : Prop :=
  match ev with
  | Click e =>
      match canvasRect e with
      | Some (rect_left, rect_top, rect_width, rect_height) =>
          (0 < rect_width)%Q /\ (0 < rect_height)%Q
          /\ (rect_left <= clientX e <= rect_left + rect_width)%Q
          /\ (rect_top <= clientY e <= rect_top + rect_height)%Q
      | None => True
      end
  | _ => True
  end.

(** A fraction of the canvas. *)
Definition fraction (x : Q) : Prop := (0 <= x <= 1)%Q.

Record in_frame (st : State) : Prop := {
  f_floor : fraction (floorY st);
  f_points : Forall (fun p => fraction (px p) /\ fraction (py p)) (points st)
}.

Lemma fraction_unit (lo size x : Q) :
  (0 < size)%Q -> (lo <= x <= lo + size)%Q -> fraction ((x - lo) / size).
Proof.
  intros Hsize [Hlo Hhi]. unfold fraction. split.
  - apply Qle_shift_div_l; [exact Hsize | lra].
  - apply Qle_shift_div_r; [exact Hsize | lra].
Qed.

Lemma dispatch_in_frame (ev : Event) (st : State) :
  on_canvas ev -> in_frame st -> in_frame (fst (dispatch ev st)).
Proof.
  intros Hon [Hfloor Hpoints]. destruct ev as [w h | e | | |]; cbn [dispatch].
  - now constructor.
  - cbn [fst]. unfold handleCanvasClick. cbn [on_canvas] in Hon.
    destruct (canvasRect e) as [[[[rect_left rect_top] rect_width] rect_height]|];
      [| now constructor].
    destruct Hon as (Hw & Hh & Hx & Hy).
    destruct (currentStep st); constructor; cbn; try assumption.
    + now apply fraction_unit.
    + apply Forall_app. split; [assumption|].
      constructor; [| constructor]. cbn. split; now apply fraction_unit.
  - destruct (currentStep st) eqn:E; unfold handleNext; rewrite ?E; cbn;
      try (now constructor).
    destruct (Z.of_nat (List.length (points st)) <? 2)%Z; now constructor.
  - destruct (currentStep st); now constructor.
  - now constructor.
Qed.

Lemma sum_unit (l : list Q) :
  Forall fraction l ->
  (0 <= fold_right Qplus 0 l <= inject_Z (Z.of_nat (List.length l)))%Q.
Proof.
  induction 1 as [| x l [Hx0 Hx1] _ IH].
  - cbn. split; apply Qle_refl.
  - cbn [fold_right List.length]. rewrite Nat2Z.inj_succ.
    unfold Z.succ. rewrite inject_Z_plus. change (inject_Z 1) with 1%Q. lra.
Qed.

Lemma mean_unit (l : list Q) :
  l <> [] -> Forall fraction l -> fraction (mean l).
Proof.
  intros Hne Hl. destruct (sum_unit l Hl) as [H0 H1].
  assert (Hn : (0 < inject_Z (Z.of_nat (List.length l)))%Q).
  { change 0%Q with (inject_Z 0). rewrite <- Zlt_Qlt.
    destruct l; [congruence | cbn [List.length]; lia]. }
  unfold fraction, mean. split.
  - apply Qle_shift_div_l; [exact Hn | lra].
  - apply Qle_shift_div_r; [exact Hn | lra].
Qed.

Lemma run_in_frame (evs : list Event) (st : State) :
  Forall on_canvas evs -> in_frame st ->
  in_frame (fst (run evs st))
  /\ forall data, In (CalibrationComplete data) (snd (run evs st)) ->
       exists st', in_frame st' /\ data = handleComplete st'.
Proof.
  intros Hon. revert st. induction Hon as [| ev evs Hev _ IH]; intros st Hst.
  - cbn. split; [assumption | intros data []].
  - cbn [run].
    pose proof (dispatch_in_frame ev st Hev Hst) as Hst'.
    pose proof (fun data => dispatch_completes ev st data) as Hnow.
    destruct (dispatch ev st) as [st' out]. cbn [fst snd] in *.
    destruct (IH st' Hst') as [Hfinal Hlater].
    destruct (run evs st') as [st'' out']. cbn [fst snd] in *.
    split; [assumption|]. intros data Hin.
    apply in_app_or in Hin. destruct Hin as [Hin | Hin].
    + destruct (Hnow data Hin) as [_ ->]. now exists st.
    + now apply Hlater.
Qed.

(** X13: when every click of a session falls on the canvas, the floor
    level and both coordinates of every point are fractions between 0 and 1,
    in the final state and in every calibration that is emitted, and so is
    the horizontal position of the vanishing point of such a calibration. *)
Theorem fractions_stay_in_frame (evs : list Event) :
  Forall on_canvas evs ->
  let st := fst (run evs initial) in
  let out := snd (run evs initial) in
  fraction (floorY st)
  /\ Forall (fun p => fraction (px p) /\ fraction (py p)) (points st)
  /\ forall data, In (CalibrationComplete data) out ->
       fraction (data_floorY data)
       /\ Forall (fun p => fraction (px p) /\ fraction (py p)) (data_points data)
       /\ forall vpx, vanishingPointX data = Some vpx -> fraction vpx.
Proof.
  intros Hon st out.
  assert (Hinit : in_frame initial).
  { constructor; cbn; [unfold fraction; lra | constructor]. }
  destruct (run_in_frame evs initial Hon Hinit) as [[Hfloor Hpoints] Hemit].
  fold st in Hfloor, Hpoints. fold out in Hemit.
  split; [assumption|]. split; [assumption|].
  intros data Hin. destruct (Hemit data Hin) as (st' & [Hf Hp] & ->).
  unfold handleComplete.
  destruct (Z.leb_spec 2 (Z.of_nat (List.length (points st')))) as [Hge | Hlt];
    cbn [data_floorY data_points vanishingPointX];
    (split; [assumption|]); (split; [assumption|]); [| discriminate].
  intros vpx Hvpx. injection Hvpx as <-.
  assert (Hmean : fraction (mean (map px (points st')))).
  { apply mean_unit.
    - destruct (points st'); [cbn in Hge; lia | discriminate].
    - apply Forall_map. revert Hp. apply Forall_impl. tauto. }
  unfold fraction, mean in *. rewrite length_map in Hmean.
  rewrite reduce_sum.
  setoid_replace (0 + fold_right Qplus 0 (map px (points st')))%Q
    with (fold_right Qplus 0 (map px (points st')))%Q by ring.
  exact Hmean.
Qed.

(** X14: there is no way back from the step [done]: whatever events follow,
    the step, the points and the floor level stay as they are, and every
    calibration that is emitted holds exactly these points and this floor
    level. *)
Theorem done_is_final (evs : list Event) (st : State) :
  currentStep st = done ->
  let st' := fst (run evs st) in
  currentStep st' = done /\ points st' = points st /\ floorY st' = floorY st
  /\ forall data, In (CalibrationComplete data) (snd (run evs st)) ->
       data_points data = points st /\ data_floorY data = floorY st.
Proof.
  intros Hdone st'.
  set (P := fun s => currentStep s = done /\ points s = points st
                     /\ floorY s = floorY st).
  assert (Hstep : forall ev s, P s -> P (fst (dispatch ev s))).
  { intros ev s (Hd & Hp & Hf). unfold P.
    destruct ev as [w h | e | | |]; cbn [dispatch]; rewrite ?Hd; cbn [fst];
      try (now repeat split).
    unfold handleCanvasClick.
    destruct (canvasRect e) as [[[[? ?] ?] ?]|]; rewrite ?Hd; now repeat split. }
  destruct (run_invariant P Hstep evs st) as [Hfinal Hemit];
    [now repeat split|].
  fold st' in Hfinal. destruct Hfinal as (Hd & Hp & Hf).
  repeat (split; [assumption|]).
  intros data Hin. destruct (Hemit data Hin) as (s & (_ & Hp' & Hf') & _ & ->).
  unfold handleComplete.
  destruct (2 <=? Z.of_nat (List.length (points s)))%Z;
    cbn [data_points data_floorY]; now split.
Qed.

(** X13 on a session of three clicks on a canvas of 800 by 600. *)
Lemma fractions_stay_in_frame_witness :
  let evs := [clickAt 400 540; Next; clickAt 200 300; clickAt 600 150;
              Next; Complete] in
  let st := fst (run evs initial) in
  let out := snd (run evs initial) in
  List.length out = 1%nat
  /\ fraction (floorY st)
  /\ Forall (fun p => fraction (px p) /\ fraction (py p)) (points st)
  /\ forall data, In (CalibrationComplete data) out ->
       fraction (data_floorY data)
       /\ Forall (fun p => fraction (px p) /\ fraction (py p)) (data_points data)
       /\ forall vpx, vanishingPointX data = Some vpx -> fraction vpx.
Proof.
  intros evs st out. split; [reflexivity|].
  apply (fractions_stay_in_frame evs).
  repeat constructor; cbn; lra.
Defined.

(** X14 after two points and NEXT: further clicks and NEXT change nothing. *)
Lemma done_is_final_witness :
  let st := fst (run [Next; clickAt 200 300; clickAt 600 150; Next] initial) in
  let evs := [clickAt 10 10; Next; Complete; clickAt 20 20] in
  let st' := fst (run evs st) in
  currentStep st' = done /\ points st' = points st /\ floorY st' = floorY st
  /\ forall data, In (CalibrationComplete data) (snd (run evs st)) ->
       data_points data = points st /\ data_floorY data = floorY st.
Proof.
  intros st evs. apply (done_is_final evs st). reflexivity.
Defined.

End CalibrationFacts.

(** ** The parser and the formatter: what is written parses back *)

From Stdlib Require Import DecimalPos.

Module UnitsFacts.
Import JsMath JsString Regex Units.

Local Open Scope string_scope.

(** *** Decimal numerals *)

Lemma uint_digits (d : Decimal.uint) :
  all is_digit (NilEmpty.string_of_uint d) = true.
Proof. induction d; cbn [NilEmpty.string_of_uint all]; auto. Qed.

Lemma uint_value_acc (d : Decimal.uint) (acc : positive) :
  digits_value (Z.pos acc) (NilEmpty.string_of_uint d)
  = Z.pos (Pos.of_uint_acc d acc).
Proof.
  revert acc.
  induction d; intros acc;
    cbn [NilEmpty.string_of_uint digits_value Pos.of_uint_acc];
    [reflexivity | ..];
    rewrite <- IHd; f_equal;
    match goal with
    | |- context [Z.of_N (code ?c)] =>
        let v := eval vm_compute in (Z.of_N (code c)) in
        change (Z.of_N (code c)) with v
    end; lia.
Qed.

Lemma uint_value (d : Decimal.uint) :
  digits_value 0 (NilEmpty.string_of_uint d) = Z.of_N (Pos.of_uint d).
Proof.
  induction d; cbn [NilEmpty.string_of_uint digits_value Pos.of_uint];
    [reflexivity | exact IHd | ..];
    cbn [Z.of_N]; rewrite <- uint_value_acc; reflexivity.
Qed.

(** The decimal text of a natural number is a run of digits, of that
    value. *)
Lemma Z_to_string_digits (n : Z) :
  (0 <= n)%Z ->
  digits (Z_to_string n) /\ digits_value 0 (Z_to_string n) = n.
Proof.
  intros Hn. destruct n as [| p | p]; [| | lia].
  - split; [split; [discriminate | reflexivity] | reflexivity].
  - unfold Z_to_string. cbn [Z.to_int NilZero.string_of_int].
    pose proof (DecimalPos.Unsigned.to_uint_nonnil p) as Hnil.
    pose proof (DecimalPos.Unsigned.of_to p) as Hof.
    assert (Hs : NilZero.string_of_uint (Pos.to_uint p)
                 = NilEmpty.string_of_uint (Pos.to_uint p))
      by (destruct (Pos.to_uint p); [contradiction | ..]; reflexivity).
    rewrite Hs. split; [split|].
    + destruct (Pos.to_uint p); [contradiction | ..]; discriminate.
    + apply uint_digits.
    + rewrite uint_value, Hof. reflexivity.
Qed.

Lemma Z_to_string_neg (p : positive) :
  Z_to_string (Z.neg p) = String "-" (Z_to_string (Z.pos p)).
Proof. reflexivity. Qed.

(** *** Numerals *)

Lemma split_point_digits (s : string) :
  all is_digit s = true -> split_point s = (s, None).
Proof.
  induction s as [| c s IH]; intros Hs; [reflexivity|].
  simpl in Hs. apply andb_true_iff in Hs. destruct Hs as [Hc Hs].
  cbn [split_point]. rewrite (digit_not_char "." c eq_refl Hc), (IH Hs).
  reflexivity.
Qed.

Lemma Number_digits (s : string) :
  digits s -> Number s = inject_Z (digits_value 0 s).
Proof.
  intros Hs. destruct (digits_cons s Hs) as (c & t & -> & Hc & Ht).
  unfold Number.
  rewrite (digit_not_char "-" c eq_refl Hc), (digit_not_char "+" c eq_refl Hc).
  unfold unsigned_value. rewrite split_point_digits; [reflexivity|].
  simpl. now rewrite Hc, Ht.
Qed.

Lemma Number_negative (s : string) :
  all is_digit s = true ->
  Number (String "-" s) = (- inject_Z (digits_value 0 s))%Q.
Proof.
  intros Hs. unfold Number. change (is_char "-" "-") with true. cbv iota.
  unfold unsigned_value. now rewrite split_point_digits.
Qed.

(** The plain-number pattern takes a run of digits, signed or not. *)
Lemma number_accepts (s : string) : digits s -> test RE_NUMBER s = true.
Proof.
  intros Hs. destruct (digits_cons s Hs) as (c & t & -> & Hc & Ht).
  unfold test, matches, RE_NUMBER, Plus. exec_step.
  rewrite (digit_not_sign c Hc), Hc.
  erewrite star_loop_greedy_all; [reflexivity | exact Ht | lia |].
  exec_step. reflexivity.
Qed.

Lemma number_accepts_signed (s : string) :
  digits s -> test RE_NUMBER (String "-" s) = true.
Proof.
  intros Hs. destruct (digits_cons s Hs) as (c & t & -> & Hc & Ht).
  unfold test, matches, RE_NUMBER, Plus. exec_step.
  change (is_sign "-") with true. cbv iota. rewrite Hc.
  erewrite star_loop_greedy_all; [reflexivity | exact Ht | simpl; lia |].
  exec_step. reflexivity.
Qed.

(** *** Whole numbers, fractions and mixed numbers *)

Lemma digits_normal (s : string) :
  all is_digit s = true ->
  trim s = s /\ toLowerCase s = s.
Proof.
  intros Hs. split.
  - apply trim_no_space, digits_no_space, Hs.
  - apply smap_id, (all_impl is_digit); [| exact Hs]. intros c Hc.
    rewrite digit_not_upper by assumption. apply Ascii.eqb_refl.
Qed.

Lemma parseInches_digits (s : string) :
  digits s -> parseInches s = Ret (inject_Z (digits_value 0 s)).
Proof.
  intros Hs. destruct (digits_normal s (proj2 Hs)) as [Htrim Hlower].
  assert (Hne : is_empty s = false)
    by (destruct s; [destruct Hs; contradiction | reflexivity]).
  unfold parseInches.
  now rewrite Htrim, Hlower, Hne, (number_accepts s Hs), (Number_digits s Hs).
Qed.

Lemma parseInches_negative (s : string) :
  digits s -> parseInches (String "-" s) = Ret (- inject_Z (digits_value 0 s))%Q.
Proof.
  intros Hs. destruct (digits_normal s (proj2 Hs)) as [Htrim Hlower].
  assert (Hsp : all (fun c => negb (is_space c)) (String "-" s) = true)
    by (cbn [all]; rewrite (digits_no_space s (proj2 Hs)); reflexivity).
  assert (Hlow : toLowerCase (String "-" s) = String "-" s).
  { unfold toLowerCase in *. cbn [smap]. now rewrite Hlower. }
  unfold parseInches.
  rewrite (trim_no_space _ Hsp), Hlow. cbn [is_empty].
  now rewrite (number_accepts_signed s Hs), (Number_negative s (proj2 Hs)).
Qed.

(** The integers that a number of the code holds exactly, every one of
    them: those up to [2 ^ 53] in size.  [Number] reads the text of such an
    integer as that integer, and [String] writes it in plain digits. *)
Definition MAX_EXACT_INTEGER : Z := 2 ^ 53.

(** X15: the decimal text of an integer of at most [2 ^ 53] in size parses
    back to that integer: [parseInches (String n)] is [n], for negative [n]
    as well. *)
Theorem parseInches_integer_round_trip (n : Z) :
  Z.abs n <= MAX_EXACT_INTEGER ->
  returns (parseInches (Z_to_string n)) (inject_Z n).
Proof.
  intros _. destruct n as [| p | p].
  - eexists. split; [reflexivity | reflexivity].
  - destruct (Z_to_string_digits (Z.pos p)) as [Hd Hv]; [lia|].
    eexists. split; [apply parseInches_digits, Hd|]. now rewrite Hv.
  - destruct (Z_to_string_digits (Z.pos p)) as [Hd Hv]; [lia|].
    rewrite Z_to_string_neg.
    eexists. split; [apply parseInches_negative, Hd|]. now rewrite Hv.
Qed.

Lemma parseInchesPart_fraction (n d : string) :
  digits n -> digits d -> ~ (Number d == 0)%Q ->
  parseInchesPart (n ++ String "/" d) = Ret (Number n / Number d)%Q.
Proof.
  intros Hn Hd Hnz.
  destruct (fraction_normal _ (fraction_chars n d Hn Hd))
    as (Htrim & _ & _ & _ & Hhyphen).
  assert (Hne : is_empty (n ++ String "/" d) = false)
    by (destruct n; [destruct Hn; contradiction | reflexivity]).
  pose proof (parseInchesPart_eq (n ++ String "/" d)) as Heq.
  unfold parseInchesPart_body, parseNormalised in Heq.
  rewrite Htrim, Hne, Hhyphen, (number_rejects_fraction n d Hn),
    (mixed_rejects_fraction n d Hn), (fraction_accepts n d Hn Hd) in Heq.
  cbn [nth_group group Nat.eqb] in Heq.
  assert (Hz : is_zero (Number d) = false).
  { unfold is_zero. destruct (Qeq_bool (Number d) 0) eqn:E; [| reflexivity].
    apply Qeq_bool_iff in E. contradiction. }
  rewrite Hz in Heq. congruence.
Qed.

Lemma parseInches_fraction (n d : string) :
  digits n -> digits d -> ~ (Number d == 0)%Q ->
  parseInches (n ++ String "/" d) = Ret (0 * 12 + Number n / Number d)%Q.
Proof.
  intros Hn Hd Hnz.
  destruct (fraction_normal _ (fraction_chars n d Hn Hd))
    as (Htrim & Hlower & Hquote & Hcollapse & _).
  assert (Hne : is_empty (n ++ String "/" d) = false)
    by (destruct n; [destruct Hn; contradiction | reflexivity]).
  unfold parseInches.
  rewrite Htrim, Hlower, Hne, (number_rejects_fraction n d Hn), Hquote,
    Hcollapse, Htrim, (feet_rejects_fraction n d Hn), Hne,
    (parseInchesPart_fraction n d Hn Hd Hnz).
  reflexivity.
Qed.

Lemma parseInchesPart_mixed (w n d : string) :
  digits w -> digits n -> digits d -> ~ (Number d == 0)%Q ->
  parseInchesPart (mixed w n d) = Ret (Number w + Number n / Number d)%Q.
Proof.
  intros Hw Hn Hd Hnz.
  destruct (mixed_normal w n d Hw Hn Hd) as (Htrim & _ & _ & _ & Hhyphen).
  assert (Hne : is_empty (mixed w n d) = false)
    by (unfold mixed; destruct w; [destruct Hw; contradiction | reflexivity]).
  pose proof (parseInchesPart_eq (mixed w n d)) as Heq.
  unfold parseInchesPart_body, parseNormalised in Heq.
  rewrite Htrim, Hne, Hhyphen, (number_rejects_mixed w n d Hw),
    (mixed_accepts w n d Hw Hn Hd) in Heq.
  cbn [nth_group group Nat.eqb] in Heq.
  assert (Hz : is_zero (Number d) = false).
  { unfold is_zero. destruct (Qeq_bool (Number d) 0) eqn:E; [| reflexivity].
    apply Qeq_bool_iff in E. contradiction. }
  rewrite Hz in Heq. congruence.
Qed.

Lemma parseInches_mixed (w n d : string) :
  digits w -> digits n -> digits d -> ~ (Number d == 0)%Q ->
  parseInches (mixed w n d)
  = Ret (0 * 12 + (Number w + Number n / Number d))%Q.
Proof.
  intros Hw Hn Hd Hnz.
  destruct (mixed_normal w n d Hw Hn Hd)
    as (Htrim & Hlower & Hquote & Hcollapse & _).
  assert (Hne : is_empty (mixed w n d) = false)
    by (unfold mixed; destruct w; [destruct Hw; contradiction | reflexivity]).
  unfold parseInches.
  rewrite Htrim, Hlower, Hne, (number_rejects_mixed w n d Hw), Hquote,
    Hcollapse, Htrim, (feet_rejects_mixed w n d Hw Hn), Hne,
    (parseInchesPart_mixed w n d Hw Hn Hd Hnz).
  reflexivity.
Qed.

(** X16: for runs of digits [w], [n] and [d] that each write an integer of
    at most [2 ^ 53], with [d] not zero, the fraction [n/d] parses to the
    quotient of [n] by [d] and the mixed number [w n/d] to [w] plus that
    quotient, the digits being read in base ten. *)
Theorem parseInches_fraction_value (w n d : string) :
  digits w -> digits n -> digits d -> digits_value 0 d <> 0%Z ->
  digits_value 0 w <= MAX_EXACT_INTEGER ->
  digits_value 0 n <= MAX_EXACT_INTEGER ->
  digits_value 0 d <= MAX_EXACT_INTEGER ->
  let W := inject_Z (digits_value 0 w) in
  let N := inject_Z (digits_value 0 n) in
  let D := inject_Z (digits_value 0 d) in
  returns (parseInches (n ++ "/" ++ d)) (N / D)
  /\ returns (parseInches (w ++ " " ++ n ++ "/" ++ d)) (W + N / D).
Proof.
  intros Hw Hn Hd Hnz _ _ _ W N D.
  assert (Hq : ~ (Number d == 0)%Q).
  { rewrite (Number_digits d Hd). intros H.
    unfold Qeq, inject_Z in H. cbn [Qnum Qden] in H. lia. }
  split.
  - eexists. split; [apply (parseInches_fraction n d Hn Hd Hq)|].
    rewrite (Number_digits n Hn), (Number_digits d Hd). fold N D. ring.
  - eexists. split; [apply (parseInches_mixed w n d Hw Hn Hd Hq)|].
    rewrite (Number_digits w Hw), (Number_digits n Hn), (Number_digits d Hd).
    fold W N D. ring.
Qed.

(** *** What the formatter writes *)

(** The value of a run of digits. *)
Definition numeral (s : string) : Q := inject_Z (digits_value 0 s).

(** The three shapes that [toFraction] writes, with their values: a whole
    number, a fraction, and a whole number with a fraction. *)
Inductive rendered : string -> Q -> Prop :=
| rendered_whole (s : string) (q : Q) :
    digits s -> (q == numeral s)%Q -> rendered s q
| rendered_fraction (n d : string) (q : Q) :
    digits n -> digits d -> digits_value 0 d <> 0%Z ->
    (q == numeral n / numeral d)%Q -> rendered (n ++ String "/" d) q
| rendered_mixed (w n d : string) (q : Q) :
    digits w -> digits n -> digits d -> digits_value 0 d <> 0%Z ->
    (q == numeral w + numeral n / numeral d)%Q -> rendered (mixed w n d) q.

Lemma numeral_nonzero (d : string) :
  digits d -> digits_value 0 d <> 0%Z -> ~ (Number d == 0)%Q.
Proof.
  intros Hd Hnz. rewrite (Number_digits d Hd). intros H.
  unfold Qeq, inject_Z in H. cbn [Qnum Qden] in H. lia.
Qed.

Lemma digits_fraction_chars (s : string) :
  all is_digit s = true -> all fraction_char s = true.
Proof. apply all_impl. unfold fraction_char. now intros c ->. Qed.

Lemma rendered_chars (x : string) (q : Q) :
  rendered x q -> all mixed_char x = true.
Proof.
  intros [s q' [_ Hs] _ | n d q' Hn Hd _ _ | w n d q' Hw Hn Hd _ _].
  - revert Hs. apply all_impl. unfold mixed_char. now intros c ->.
  - generalize (fraction_chars n d Hn Hd). apply all_impl.
    unfold fraction_char, mixed_char. intros c Hc.
    apply orb_true_iff in Hc. destruct Hc as [-> | ->];
      [reflexivity | apply orb_true_r].
  - now apply mixed_chars.
Qed.

Lemma rendered_normal (x : string) (q : Q) :
  rendered x q ->
  trim x = x /\ toLowerCase x = x /\ remove (is_char dquote) x = x
  /\ collapse_spaces x = x /\ hyphens_to_spaces x = x /\ is_empty x = false.
Proof.
  intros [s q' Hs _ | n d q' Hn Hd _ _ | w n d q' Hw Hn Hd _ _].
  - destruct (fraction_normal s (digits_fraction_chars s (proj2 Hs)))
      as (H1 & H2 & H3 & H4 & H5).
    repeat split; try assumption.
    destruct s; [destruct Hs; contradiction | reflexivity].
  - destruct (fraction_normal _ (fraction_chars n d Hn Hd))
      as (H1 & H2 & H3 & H4 & H5).
    repeat split; try assumption.
    destruct n; [destruct Hn; contradiction | reflexivity].
  - destruct (mixed_normal w n d Hw Hn Hd) as (H1 & H2 & H3 & H4 & H5).
    repeat split; try assumption.
    unfold mixed. destruct w; [destruct Hw; contradiction | reflexivity].
Qed.

Lemma rendered_head (x : string) (q : Q) :
  rendered x q -> exists c t, x = String c t /\ is_digit c = true.
Proof.
  intros [s q' Hs _ | n d q' Hn Hd _ _ | w n d q' Hw Hn Hd _ _].
  - destruct (digits_cons s Hs) as (c & t & -> & Hc & _). now exists c, t.
  - destruct (digits_cons n Hn) as (c & t & -> & Hc & _).
    now exists c, (t ++ String "/" d).
  - destruct (digits_cons w Hw) as (c & t & -> & Hc & _).
    now exists c, (t ++ String " " (n ++ String "/" d)).
Qed.

Lemma ends_with_digits (a d : string) (c : ascii) :
  digits d -> ends_with (a ++ d) c -> is_digit c = true.
Proof.
  intros Hd Hend. destruct (digits_cons d Hd) as (d0 & d' & -> & Hd0 & Hd').
  apply ends_with_tail in Hend.
  apply (all_ends_with is_digit (String d0 d')); [| exact Hend].
  simpl. now rewrite Hd0, Hd'.
Qed.

Lemma rendered_last (x : string) (q : Q) (c : ascii) :
  rendered x q -> ends_with x c -> is_digit c = true.
Proof.
  intros [s q' Hs _ | n d q' Hn Hd _ _ | w n d q' Hw Hn Hd _ _] Hend.
  - now apply (ends_with_digits EmptyString s).
  - apply (ends_with_digits (n ++ String "/" EmptyString) d); [exact Hd|].
    now rewrite append_assoc.
  - apply (ends_with_digits (w ++ String " " (n ++ String "/" EmptyString)) d);
      [exact Hd|].
    unfold mixed in Hend. rewrite append_assoc. cbn [append].
    now rewrite append_assoc.
Qed.

Lemma parseInchesPart_digits (s : string) :
  digits s -> parseInchesPart s = Ret (Number s).
Proof.
  intros Hs.
  destruct (fraction_normal s (digits_fraction_chars s (proj2 Hs)))
    as (Htrim & _ & _ & _ & Hhyphen).
  assert (Hne : is_empty s = false)
    by (destruct s; [destruct Hs; contradiction | reflexivity]).
  pose proof (parseInchesPart_eq s) as Heq.
  unfold parseInchesPart_body, parseNormalised in Heq.
  rewrite Htrim, Hne, Hhyphen, (number_accepts s Hs) in Heq. congruence.
Qed.

(** Each shape parses to its value, as a part in inches. *)
Lemma rendered_part (x : string) (q : Q) :
  rendered x q -> returns (parseInchesPart x) q.
Proof.
  intros [s q' Hs Hq | n d q' Hn Hd Hnz Hq | w n d q' Hw Hn Hd Hnz Hq].
  - eexists. split; [apply parseInchesPart_digits, Hs|].
    now rewrite (Number_digits s Hs), Hq.
  - eexists. split;
      [apply (parseInchesPart_fraction n d Hn Hd (numeral_nonzero d Hd Hnz))|].
    now rewrite (Number_digits n Hn), (Number_digits d Hd), Hq.
  - eexists. split;
      [apply (parseInchesPart_mixed w n d Hw Hn Hd (numeral_nonzero d Hd Hnz))|].
    now rewrite (Number_digits w Hw), (Number_digits n Hn),
      (Number_digits d Hd), Hq.
Qed.

(** *** The marks of feet and inches *)

(** The plain-number pattern takes signs, digits and points only. *)
Lemma number_rejects (x : string) :
  all numeric_char x = false -> test RE_NUMBER x = false.
Proof.
  intros Hx. unfold test. destruct (matches RE_NUMBER x) as [caps |] eqn:Hm;
    [| reflexivity].
  apply matches_sound, lang_alphabet in Hm.
  rewrite (all_impl (alphabet RE_NUMBER) numeric_char x) in Hx;
    [discriminate | | exact Hm].
  intros c. apply numeric_alphabet.
Qed.

Lemma lang_cat_inv (r1 r2 : regex) (s : string) :
  lang (Cat r1 r2) s -> exists a b, s = a ++ b /\ lang r1 a /\ lang r2 b.
Proof. intros H. inversion H; subst. now exists a, b. Qed.

Lemma lang_chr_inv (class : ascii -> bool) (s : string) :
  lang (Chr class) s -> exists c, s = String c EmptyString /\ class c = true.
Proof. intros H. inversion H; subst. now exists c. Qed.

(** The feet pattern needs the mark of the feet. *)
Lemma feet_needs_mark (x : string) :
  all (fun c => negb (is_char "'" c)) x = true -> matches RE_FEET x = None.
Proof.
  intros Hx. destruct (matches RE_FEET x) as [caps |] eqn:Hm; [| reflexivity].
  exfalso. apply matches_sound in Hm. unfold RE_FEET in Hm.
  apply lang_cat_inv in Hm. destruct Hm as (a & b & -> & _ & Hm).
  apply lang_cat_inv in Hm. destruct Hm as (a' & b' & -> & _ & Hm).
  apply lang_cat_inv in Hm. destruct Hm as (a'' & b'' & -> & Hm & _).
  apply lang_chr_inv in Hm. destruct Hm as (c & -> & Hc).
  rewrite !all_append in Hx. cbn [all] in Hx. rewrite Hc in Hx.
  cbn in Hx. rewrite !andb_false_r in Hx. discriminate.
Qed.

Lemma mixed_char_marks (x : string) :
  all mixed_char x = true ->
  all (fun c => negb (is_char "'" c)) x = true /\ all is_any x = true.
Proof.
  intros Hx. split; revert Hx; apply all_impl; intros c Hc;
    destruct (mixed_char_cases c Hc) as [H | [-> | ->]]; try reflexivity.
  - now rewrite (digit_not_char "'" c eq_refl H).
  - unfold is_any, is_digit in *. apply andb_true_iff in H. destruct H as [H _].
    apply N.leb_le in H. apply negb_true_iff, orb_false_iff.
    split; apply N.eqb_neq; lia.
Qed.

(** The feet pattern on a number of feet, the mark, a space and the rest. *)
Lemma feet_accepts (F x : string) :
  digits F -> all is_any x = true ->
  (exists c t, x = String c t /\ is_space c = false) ->
  matches RE_FEET (F ++ String "'" (String " " x)) = Some [(2%nat, x); (1%nat, F)].
Proof.
  intros HF Hany (x0 & x' & Hx & Hx0).
  destruct (digits_cons F HF) as (f0 & f' & -> & Hf0 & Hf').
  unfold matches, RE_FEET, Plus. cbn [append]. exec_step.
  rewrite (digit_not_sign f0 Hf0), Hf0.
  erewrite star_loop_greedy; [reflexivity | exact Hf' | reflexivity | | ].
  { rewrite length_append. lia. }
  exec_step. rewrite star_loop_stop by reflexivity.
  exec_step. change (is_char "'" "'") with true. cbv iota.
  change (String " " x) with (String " " EmptyString ++ x).
  erewrite star_loop_greedy; [reflexivity | reflexivity | | | ].
  { rewrite Hx. simpl. now rewrite Hx0. }
  { rewrite length_append. simpl. lia. }
  exec_step.
  erewrite star_loop_greedy_all; [reflexivity | exact Hany | lia | ].
  cbv beta. cbn [is_empty]. rewrite consumed_all.
  change (String f0 (f' ++ String "'" (String " " EmptyString ++ x)))
    with (String f0 f' ++ String "'" (String " " EmptyString ++ x)).
  rewrite consumed_append. reflexivity.
Qed.

Lemma ends_with_last (a : string) (c c' : ascii) :
  ends_with (a ++ String c EmptyString) c' -> c' = c.
Proof.
  intros Hend.
  assert (H : ends_with (String c EmptyString) c')
    by (apply (ends_with_tail a); exact Hend).
  destruct H as [pre Hpre]. destruct pre as [| p pre]; simpl in Hpre.
  - congruence.
  - inversion Hpre. destruct pre; discriminate.
Qed.

(** A rendered length with the mark of the inches parses to its value. *)
Lemma rendered_inches (x : string) (q : Q) :
  rendered x q -> returns (parseInches (x ++ dq)) q.
Proof.
  intros Hx.
  destruct (rendered_normal x q Hx) as (Htrim & Hlower & Hquote & Hcollapse & _ & Hne).
  destruct (rendered_head x q Hx) as (c & t & Ex & Hc).
  pose proof (rendered_chars x q Hx) as Hchars.
  destruct (mixed_char_marks x Hchars) as [Hmark _].
  destruct (rendered_part x q Hx) as (q' & Hpart & Hq).
  assert (Htrim' : trim (x ++ dq) = x ++ dq).
  { apply trim_fixed.
    - rewrite Ex. intros c' t' Heq. inversion Heq; subst c'.
      now apply digit_not_space.
    - intros c' Hend. apply ends_with_last in Hend. now subst c'. }
  assert (Hlower' : toLowerCase (x ++ dq) = x ++ dq).
  { unfold toLowerCase in *. now rewrite smap_append, Hlower. }
  assert (Hne' : is_empty (x ++ dq) = false) by (rewrite Ex; reflexivity).
  assert (Hnum : test RE_NUMBER (x ++ dq) = false).
  { apply number_rejects. rewrite all_append. apply andb_false_r. }
  assert (Hquote' : remove (is_char dquote) (x ++ dq) = x).
  { rewrite remove_append, Hquote. apply append_nil_r. }
  exists (0 * 12 + q')%Q. split; [| rewrite Hq; ring].
  unfold parseInches.
  rewrite Htrim', Hlower', Hne', Hnum, Hquote', Hcollapse, Htrim,
    (feet_needs_mark x Hmark), Hne, Hpart.
  reflexivity.
Qed.

(** A number of feet, the mark of the feet, a space and a rendered length
    with the mark of the inches parse to twelve times the feet plus the
    value of that length. *)
Lemma rendered_feet_inches (F x : string) (q : Q) :
  digits F -> rendered x q ->
  returns (parseInches (F ++ "' " ++ x ++ dq)) (numeral F * 12 + q).
Proof.
  intros HF Hx.
  destruct (rendered_normal x q Hx) as (Htrim & Hlower & Hquote & Hcollapse & _ & Hne).
  destruct (rendered_head x q Hx) as (c & t & Ex & Hc).
  pose proof (rendered_chars x q Hx) as Hchars.
  destruct (mixed_char_marks x Hchars) as [_ Hany].
  destruct (rendered_part x q Hx) as (q' & Hpart & Hq).
  destruct (digits_cons F HF) as (f0 & f' & EF & Hf0 & Hf').
  destruct (digits_normal F (proj2 HF)) as [HFtrim HFlower].
  set (text := F ++ "' " ++ x ++ dq).
  set (str := F ++ String "'" (String " " x)).
  assert (Htrim' : trim text = text).
  { apply trim_fixed.
    - unfold text. rewrite EF. intros c' t' Heq. inversion Heq; subst c'.
      now apply digit_not_space.
    - intros c' Hend. unfold text in Hend.
      rewrite <- !append_assoc in Hend.
      apply ends_with_last in Hend. now subst c'. }
  assert (Hlower' : toLowerCase text = text).
  { unfold text, toLowerCase in *.
    now rewrite !smap_append, HFlower, Hlower. }
  assert (Hne' : is_empty text = false) by (unfold text; rewrite EF; reflexivity).
  assert (Hnum : test RE_NUMBER text = false).
  { apply number_rejects. unfold text. rewrite all_append.
    cbn [append all]. change (numeric_char "'") with false.
    apply andb_false_r. }
  assert (Hquote' : remove (is_char dquote) text = str).
  { unfold text, str. rewrite !remove_append, Hquote.
    rewrite (remove_none (is_char dquote) F).
    - cbn. now rewrite append_nil_r.
    - revert Hf'. rewrite EF. cbn [all]. intros Hf'.
      rewrite (digit_not_char dquote f0 eq_refl Hf0). cbn [negb andb].
      revert Hf'. apply all_impl. intros c' Hc'.
      now rewrite (digit_not_char dquote c' eq_refl Hc'). }
  assert (Hcollapse' : collapse_spaces str = str).
  { unfold str, collapse_spaces.
    change (F ++ String "'" (String " " x))
      with (F ++ (String "'" EmptyString ++ String " " x)).
    rewrite <- append_assoc.
    rewrite collapse_word.
    - rewrite EF. cbn [append collapse]. change (is_space " ") with true.
      cbv iota. rewrite Ex. cbn [collapse].
      rewrite (digit_not_space c Hc).
      unfold collapse_spaces in Hcollapse. rewrite Ex in Hcollapse.
      cbn [collapse] in Hcollapse. rewrite (digit_not_space c Hc) in Hcollapse.
      now rewrite Hcollapse.
    - rewrite all_append, (digits_no_space F (proj2 HF)). reflexivity. }
  assert (Htrim'' : trim str = str).
  { apply trim_fixed.
    - unfold str. rewrite EF. intros c' t' Heq. inversion Heq; subst c'.
      now apply digit_not_space.
    - intros c' Hend. apply digit_not_space.
      apply (rendered_last x q c' Hx). unfold str in Hend.
      change (F ++ String "'" (String " " x))
        with (F ++ (String "'" (String " " EmptyString) ++ x)) in Hend.
      rewrite <- append_assoc in Hend. rewrite Ex in Hend |- *.
      now apply ends_with_tail in Hend. }
  assert (Hfeet : matches RE_FEET str = Some [(2%nat, x); (1%nat, F)]).
  { apply feet_accepts; [exact HF | exact Hany |].
    exists c, t. split; [exact Ex | now apply digit_not_space]. }
  exists (Number F * 12 + q')%Q. split.
  - unfold parseInches.
    rewrite Htrim', Hlower', Hne', Hnum, Hquote', Hcollapse', Htrim'', Hfeet.
    cbn [nth_group group Nat.eqb]. rewrite Htrim, Hne, Hpart. reflexivity.
  - rewrite (Number_digits F HF), Hq. reflexivity.
Qed.

(** *** The round trips *)

(** [toFraction] in terms of the rounded numerator [r]: its quotient and
    remainder by [denom]. *)
Lemma toFraction_render (valueIn : Q) (denom : Z) :
  (0 < denom <= 500000000)%Z ->
  let r := round (valueIn * inject_Z denom) in
  toFraction valueIn denom = render_mixed (r / denom) (r mod denom) denom.
Proof.
  intros Hd r.
  destruct (toFraction_numerator valueIn denom Hd) as [Hn Hr].
  fold r in Hr. unfold toFraction, render_mixed.
  set (whole := floor (valueIn + (1 # 1000000000))) in *.
  set (n := round ((valueIn - inject_Z whole) * inject_Z denom)) in *.
  destruct (Z.eqb_spec n 0) as [Hz | Hnz].
  - rewrite Hr, Hz, Z.add_0_r, Z.div_mul, Z.mod_mul by lia. reflexivity.
  - destruct (Z.eqb_spec n denom) as [He | Hne].
    + assert (Hr' : r = ((whole + 1) * denom)%Z) by lia.
      rewrite Hr', Z.div_mul, Z.mod_mul by lia. reflexivity.
    + assert (Hdiv : (r / denom = whole)%Z)
        by (symmetry; apply (Z.div_unique_pos r denom whole n); lia).
      assert (Hmod : (r mod denom = n)%Z)
        by (symmetry; apply (Z.mod_unique_pos r denom whole n); lia).
      rewrite Hdiv, Hmod, gcd_is_gcd.
      destruct (Z.eqb_spec n 0); [contradiction | reflexivity].
Qed.

Lemma round_nonneg (x : Q) : (0 <= x)%Q -> (0 <= round x)%Z.
Proof.
  intros Hx. unfold round. change 0%Z with (Qfloor 0).
  apply Qfloor_resp_le. lra.
Qed.

(** What [toFraction] writes for a length that is not negative is one of
    the three shapes, and its value is the length rounded to the nearest
    multiple of [1 / denom]. *)
Lemma toFraction_rendered (valueIn : Q) (denom : Z) :
  (0 <= valueIn)%Q -> (0 < denom <= 500000000)%Z ->
  rendered (toFraction valueIn denom)
           (inject_Z (round (valueIn * inject_Z denom)) / inject_Z denom).
Proof.
  intros Hv Hd. rewrite (toFraction_render valueIn denom Hd).
  set (r := round (valueIn * inject_Z denom)).
  assert (Hdq : (0 < inject_Z denom)%Q)
    by (change 0%Q with (inject_Z 0); rewrite <- Zlt_Qlt; lia).
  assert (Hr : (0 <= r)%Z).
  { apply round_nonneg, Qmult_le_0_compat; lra. }
  pose proof (Z.div_mod r denom ltac:(lia)) as Hdm.
  pose proof (Z.mod_pos_bound r denom ltac:(lia)) as Hmod.
  assert (HW : (0 <= r / denom)%Z) by (apply Z.div_pos; lia).
  set (W := (r / denom)%Z) in *. set (N := (r mod denom)%Z) in *.
  assert (Hrq : (inject_Z r == inject_Z denom * inject_Z W + inject_Z N)%Q)
    by (rewrite Hdm, inject_Z_plus, inject_Z_mult; reflexivity).
  unfold render_mixed.
  destruct (Z.eqb_spec N 0) as [Hz | Hnz].
  - destruct (Z_to_string_digits W HW) as [Hdig Hval].
    apply rendered_whole; [exact Hdig|].
    unfold numeral. rewrite Hval, Hrq, Hz. field. lra.
  - set (g := Z.gcd N denom).
    assert (Hg : (0 < g)%Z).
    { pose proof (Z.gcd_nonneg N denom).
      destruct (Z.eq_dec g 0) as [H0 | H0]; [| lia].
      apply Z.gcd_eq_0_r in H0. lia. }
    destruct (Z.gcd_divide_l N denom) as [nn Hnn].
    destruct (Z.gcd_divide_r N denom) as [dd Hdd].
    fold g in Hnn, Hdd.
    assert (Hn' : (N / g = nn)%Z) by (rewrite Hnn; apply Z.div_mul; lia).
    assert (Hd' : (denom / g = dd)%Z)
      by (rewrite Hdd at 1; apply Z.div_mul; lia).
    rewrite Hn', Hd'.
    assert (Hnn0 : (0 < nn)%Z) by nia.
    assert (Hdd0 : (0 < dd)%Z) by nia.
    destruct (Z_to_string_digits nn ltac:(lia)) as [Hndig Hnval].
    destruct (Z_to_string_digits dd ltac:(lia)) as [Hddig Hdval].
    assert (Hgq : (0 < inject_Z g)%Q)
      by (change 0%Q with (inject_Z 0); rewrite <- Zlt_Qlt; lia).
    assert (Hddq : (0 < inject_Z dd)%Q)
      by (change 0%Q with (inject_Z 0); rewrite <- Zlt_Qlt; lia).
    assert (Hfrac : (inject_Z N / inject_Z denom == inject_Z nn / inject_Z dd)%Q).
    { rewrite Hnn, Hdd, !inject_Z_mult. field. split; lra. }
    destruct (Z.eqb_spec W 0) as [HW0 | HW0].
    + apply (rendered_fraction (Z_to_string nn) (Z_to_string dd));
        [exact Hndig | exact Hddig | lia |].
      unfold numeral. rewrite Hnval, Hdval, <- Hfrac, Hrq, HW0.
      field. lra.
    + destruct (Z_to_string_digits W HW) as [Hwdig Hwval].
      apply (rendered_mixed (Z_to_string W) (Z_to_string nn) (Z_to_string dd));
        [exact Hwdig | exact Hndig | exact Hddig | lia |].
      unfold numeral. rewrite Hwval, Hnval, Hdval, <- Hfrac, Hrq.
      field. lra.
Qed.

(** X17: what [toFraction] writes parses back.  For a length that is not
    negative and a denominator of at most 500000000, [parseInches] of the
    text of [toFraction] is the length rounded to the nearest multiple of
    [1 / denom]. *)
Theorem toFraction_round_trip (valueIn : Q) (denom : Z) :
  (0 <= valueIn)%Q -> (0 < denom <= 500000000)%Z ->
  returns (parseInches (toFraction valueIn denom))
          (inject_Z (round (valueIn * inject_Z denom)) / inject_Z denom).
Proof.
  intros Hv Hd.
  pose proof (toFraction_rendered valueIn denom Hv Hd) as Hx.
  set (q := (inject_Z (round (valueIn * inject_Z denom)) / inject_Z denom)%Q)
    in *.
  destruct Hx as [s q' Hs Hq | n d q' Hn Hd' Hnz Hq | w n d q' Hw Hn Hd' Hnz Hq].
  - eexists. split; [apply parseInches_digits, Hs|]. now rewrite Hq.
  - eexists. split;
      [apply (parseInches_fraction n d Hn Hd' (numeral_nonzero d Hd' Hnz))|].
    rewrite (Number_digits n Hn), (Number_digits d Hd'), Hq.
    unfold numeral. ring.
  - eexists. split;
      [apply (parseInches_mixed w n d Hw Hn Hd' (numeral_nonzero d Hd' Hnz))|].
    rewrite (Number_digits w Hw), (Number_digits n Hn), (Number_digits d Hd'), Hq.
    unfold numeral. ring.
Qed.

(** X18: what [toFeetInches] writes parses back.  For a length that is not
    negative, [parseInches] of the text of [toFeetInches], with its marks
    of feet and inches, is the length rounded to the nearest sixteenth of an
    inch. *)
Theorem toFeetInches_round_trip (inches : Q) :
  (0 <= inches)%Q ->
  returns (parseInches (toFeetInches inches))
          (inject_Z (round (inches * 16)) / 16).
Proof.
  intros Hv. unfold toFeetInches.
  assert (Hsign : ltb inches 0 = false).
  { destruct (ltb inches 0) eqn:E; [| reflexivity].
    apply ltb_true in E. lra. }
  assert (Habs : (JsMath.abs inches == inches)%Q) by (apply Qabs_pos, Hv).
  rewrite Hsign. cbn [append].
  set (ft := floor (JsMath.abs inches / 12)).
  set (inch := (JsMath.abs inches - inject_Z ft * 12)%Q).
  pose proof (Qfloor_le (JsMath.abs inches / 12)) as Hlo.
  fold (floor (JsMath.abs inches / 12)) in Hlo. fold ft in Hlo.
  assert (Hft : (0 <= ft)%Z).
  { unfold ft, floor. change 0%Z with (Qfloor 0). apply Qfloor_resp_le.
    rewrite Habs. apply Qle_shift_div_l; lra. }
  assert (Hinch : (0 <= inch)%Q).
  { unfold inch.
    assert (H : (inject_Z ft * 12 <= JsMath.abs inches / 12 * 12)%Q)
      by (apply Qmult_le_compat_r; lra).
    assert (H' : (JsMath.abs inches / 12 * 12 == JsMath.abs inches)%Q) by field.
    lra. }
  pose proof (toFraction_rendered inch 16 Hinch ltac:(lia)) as Hx.
  assert (Hround : round (inches * 16)
                   = (round (inch * inject_Z 16) + ft * 192)%Z).
  { rewrite <- round_shift. unfold round. apply Qfloor_comp.
    unfold inch. rewrite Habs, inject_Z_mult.
    change (inject_Z 16) with 16%Q. change (inject_Z 192) with 192%Q. ring. }
  assert (Hval : (inject_Z ft * 12
                  + inject_Z (round (inch * inject_Z 16)) / inject_Z 16
                  == inject_Z (round (inches * 16)) / 16)%Q).
  { rewrite Hround, inject_Z_plus, inject_Z_mult.
    change (inject_Z 16) with 16%Q. change (inject_Z 192) with 192%Q. field. }
  destruct (Z.ltb_spec 0 ft) as [Hpos | Hzero].
  - destruct (Z_to_string_digits ft Hft) as [Hdig Hdv].
    destruct (rendered_feet_inches (Z_to_string ft) _ _ Hdig Hx)
      as (q' & Hparse & Hq).
    exists q'. split; [exact Hparse|].
    rewrite Hq. unfold numeral. rewrite Hdv. exact Hval.
  - assert (Hft0 : ft = 0%Z) by lia.
    destruct (rendered_inches _ _ Hx) as (q' & Hparse & Hq).
    exists q'. split; [exact Hparse|].
    rewrite Hq, <- Hval, Hft0. ring.
Qed.

(** X17 at 7.3125 in sixteenths: the text 7 5/16 parses to 117/16. *)
Lemma toFraction_round_trip_witness :
  toFraction (73125 # 10000) 16 = "7 5/16"
  /\ returns (parseInches (toFraction (73125 # 10000) 16))
             (inject_Z (round ((73125 # 10000) * inject_Z 16)) / inject_Z 16).
Proof.
  split; [reflexivity|].
  apply (toFraction_round_trip (73125 # 10000) 16); [discriminate | lia].
Defined.

(** X18 at 109.53 in: the text 9' 1 1/2 with the mark of the inches parses
    to 109.5. *)
Lemma toFeetInches_round_trip_witness :
  toFeetInches (10953 # 100) = "9' 1 1/2" ++ dq
  /\ round ((10953 # 100) * 16) = 1752%Z
  /\ returns (parseInches (toFeetInches (10953 # 100)))
             (inject_Z (round ((10953 # 100) * 16)) / 16).
Proof.
  split; [reflexivity|]. split; [reflexivity|].
  apply (toFeetInches_round_trip (10953 # 100)). discriminate.
Defined.

(** X15 on a negative integer and at the bound. *)
Lemma parseInches_integer_round_trip_witness :
  Z_to_string (-42) = "-42"
  /\ returns (parseInches (Z_to_string (-42))) (inject_Z (-42))
  /\ Z_to_string MAX_EXACT_INTEGER = "9007199254740992"
  /\ returns (parseInches (Z_to_string MAX_EXACT_INTEGER))
             (inject_Z MAX_EXACT_INTEGER).
Proof.
  split; [reflexivity|].
  split; [apply (parseInches_integer_round_trip (-42)); vm_compute; discriminate|].
  split; [vm_compute; reflexivity|].
  apply (parseInches_integer_round_trip MAX_EXACT_INTEGER).
  vm_compute. discriminate.
Defined.

(** X16 on 3/4 and on 1 3/4. *)
Lemma parseInches_fraction_value_witness :
  returns (parseInches "3/4") (inject_Z 3 / inject_Z 4)
  /\ returns (parseInches "1 3/4") (inject_Z 1 + inject_Z 3 / inject_Z 4).
Proof.
  apply (parseInches_fraction_value "1" "3" "4");
    first [ split; [discriminate | reflexivity]
          | vm_compute; discriminate ].
Defined.

(** *** The errors of the parser *)

Lemma parseInchesPart_fuel_throws (fuel : nat) (part msg : string) :
  parseInchesPart_fuel fuel part = Some (Throw msg) ->
  msg = "Invalid fraction" \/ msg = "Unrecognized format".
Proof.
  revert part. induction fuel as [| fuel IH]; intros part H; [discriminate|].
  rewrite parseInchesPart_fuel_step in H.
  unfold parseInchesPart_body, parseNormalised in H.
  destruct (is_empty (trim part)); [discriminate|].
  destruct (test RE_NUMBER _); [discriminate|].
  destruct (matches RE_MIXED _).
  { destruct (is_zero _); inversion H. now left. }
  destruct (matches RE_FRACTION _).
  { destruct (is_zero _); inversion H. now left. }
  destruct (negb _); [now apply IH in H|].
  inversion H. now right.
Qed.

Lemma parseInchesPart_throws (part msg : string) :
  parseInchesPart part = Throw msg ->
  msg = "Invalid fraction" \/ msg = "Unrecognized format".
Proof.
  intros H. apply (parseInchesPart_fuel_throws (S (String.length part)) part).
  now rewrite parseInchesPart_total, H.
Qed.

(** A text is empty once trimmed and lowered exactly when its trimmed
    form is empty. *)
Lemma is_empty_lower (s : string) : is_empty (toLowerCase s) = is_empty s.
Proof. now destruct s. Qed.

(** X19: [parseInches] throws three errors and no other: Empty input,
    exactly when the text is empty once trimmed, and otherwise Invalid
    fraction or Unrecognized format. *)
Theorem parseInches_throws_only (input : string) :
  (forall msg, parseInches input = Throw msg ->
     msg = "Empty input" \/ msg = "Invalid fraction"
     \/ msg = "Unrecognized format")
  /\ (parseInches input = Throw "Empty input" <-> trim input = EmptyString).
Proof.
  assert (Hcases :
    (trim input = EmptyString /\ parseInches input = Throw "Empty input")
    \/ (trim input <> EmptyString
        /\ forall msg, parseInches input = Throw msg ->
             msg = "Invalid fraction" \/ msg = "Unrecognized format")).
  { unfold parseInches. rewrite is_empty_lower.
    destruct (trim input) as [| c t] eqn:E; [left; now split|].
    right. split; [discriminate|]. cbn [is_empty]. intros msg.
    destruct (test RE_NUMBER _); [discriminate|].
    destruct (matches RE_FEET _) as [feetMatch |].
    - destruct (is_empty (trim (nth_group 2 feetMatch))); [discriminate|].
      destruct (parseInchesPart _) as [q | msg'] eqn:Hp; [discriminate|].
      intros H. inversion H; subst msg'. now apply parseInchesPart_throws in Hp.
    - destruct (is_empty _); [discriminate|].
      destruct (parseInchesPart _) as [q | msg'] eqn:Hp; [discriminate|].
      intros H. inversion H; subst msg'. now apply parseInchesPart_throws in Hp. }
  destruct Hcases as [[Hempty Hthrow] | [Hne Hother]].
  - split.
    + intros msg H. rewrite Hthrow in H. inversion H. now left.
    + tauto.
  - split.
    + intros msg H. right. now apply Hother.
    + split; [| contradiction].
      intros H. destruct (Hother _ H); discriminate.
Qed.

End UnitsFacts.

(** ** The calculator page: from the text fields to the layout *)

(** The [result] memo of [src/app/page.tsx]: the text fields are parsed, the
    layout is solved and the materials are estimated, and whatever any of
    these throws is caught and becomes the error of the result. *)

Module Page.
Import JsMath JsString Units.

(** The state that [result] depends on. *)
Record Fields : Type := mkFields {
  totalRise : string;
  targetRiser : string;
  treadRun : string;
  finishMode : bool;
  topFinish : string;
  bottomFinish : string;
  stairWidth : string;
  stringerOc : string;
  closedStair : bool
}.

(** [{ ok: true, totalRiseIn, out, stairWidthIn, stringerOcin, mat }]. *)
Record Computed : Type := mkComputed {
  totalRiseIn : Q;
  out : StairOutputs.t;
  stairWidthIn : Q;
  stringerOcin : Q;
  mat : MaterialsOutputs.t
}.

(** The value of the memo: the computed record, or [{ ok: false, error }]. *)
Inductive Result : Type :=
| Ok (r : Computed)
| Failed (error : string).

(** Sequencing of calls of which the first may throw. *)
Definition bind {A B : Type} (x : outcome A) (f : A -> outcome B) : outcome B :=
  match x with
  | Ret a => f a
  | Throw msg => Throw msg
  end.

Definition result {M : MathLib} (s : Fields) : Result :=
  let attempt :=
    bind (parseInches (totalRise s)) (fun totalRiseIn =>
    bind (parseInches (treadRun s)) (fun treadRunIn =>
    bind (if is_empty (trim (targetRiser s)) then Ret None
          else bind (parseInches (targetRiser s)) (fun v => Ret (Some v)))
         (fun targetRiserIn =>
    bind (if finishMode s then parseInches (topFinish s) else Ret 0%Q)
         (fun topFinishIn =>
    bind (if finishMode s then parseInches (bottomFinish s) else Ret 0%Q)
         (fun bottomFinishIn =>
    bind (Stairs.calcStairs
            (StairInputs.mk totalRiseIn treadRunIn targetRiserIn (finishMode s)
                            (Some topFinishIn) (Some bottomFinishIn)))
         (fun out =>
    (* materials *)
    bind (parseInches (stairWidth s)) (fun stairWidthIn =>
    bind (parseInches (stringerOc s)) (fun stringerOcin =>
    let mat :=
      Materials.calcMaterials
        (MaterialsInputs.mk stairWidthIn stringerOcin (closedStair s)
           (StairOutputs.numTreads out) (StairOutputs.numRisers out)
           (StairOutputs.stringerLenIn out)) in
    Ret (mkComputed totalRiseIn out stairWidthIn stringerOcin mat))))))))) in
  match attempt with
  | Ret r => Ok r
  | Throw msg => Failed msg
  end.

(** The fields of the page as it mounts. *)
Definition initialFields : Fields :=
  mkFields ("9' 1 1/2" ++ dq) "7.25" "10" false "0" "0" "36" "16" true.

End Page.

Module PageFacts.
Import JsMath JsString Units Geometry Page.

Local Open Scope string_scope.

(** The errors of the parser and of the solver. *)
Definition parse_error (msg : string) : Prop :=
  msg = "Empty input" \/ msg = "Invalid fraction" \/ msg = "Unrecognized format".

Definition solver_error (msg : string) : Prop :=
  msg = "Total rise must be > 0" \/ msg = "Tread run must be > 0".

Lemma parseInches_error (input msg : string) :
  parseInches input = Throw msg -> parse_error msg.
Proof.
  unfold parse_error, parseInches. rewrite UnitsFacts.is_empty_lower.
  destruct (is_empty (trim input)); [intros H; inversion H; subst msg; now left|].
  destruct (Regex.test RE_NUMBER _); [discriminate|].
  destruct (Regex.matches RE_FEET _) as [feetMatch |].
  - destruct (is_empty (trim (Regex.nth_group 2 feetMatch))); [discriminate|].
    destruct (parseInchesPart _) as [q | msg'] eqn:Hp; [discriminate|].
    intros H. inversion H; subst msg'. right.
    now apply UnitsFacts.parseInchesPart_throws in Hp.
  - destruct (is_empty _); [discriminate|].
    destruct (parseInchesPart _) as [q | msg'] eqn:Hp; [discriminate|].
    intros H. inversion H; subst msg'. right.
    now apply UnitsFacts.parseInchesPart_throws in Hp.
Qed.

Lemma calcStairs_error {M : MathLib} (input : StairInputs.t) (msg : string) :
  Stairs.calcStairs input = Throw msg ->
  solver_error msg
  /\ (StairInputs.totalRiseIn input <= 0 \/ StairInputs.treadRunIn input <= 0)%Q.
Proof.
  unfold Stairs.calcStairs, solver_error.
  destruct (gtb (StairInputs.totalRiseIn input) 0) eqn:E1; cbn [negb].
  - destruct (gtb (StairInputs.treadRunIn input) 0) eqn:E2; cbn [negb].
    + destruct (StairInputs.finishMode input); discriminate.
    + intros H. inversion H; subst msg. apply gtb_false in E2.
      split; now right.
  - intros H. inversion H; subst msg. apply gtb_false in E1. split; now left.
Qed.

(** What went well when [bind] returns. *)
Lemma bind_ret {A B : Type} (x : outcome A) (f : A -> outcome B) (b : B) :
  bind x f = Ret b -> exists a, x = Ret a /\ f a = Ret b.
Proof.
  destruct x as [a | msg]; cbn [bind]; intros H; [now exists a | discriminate].
Qed.

(** What threw when [bind] throws. *)
Lemma bind_throw {A B : Type} (x : outcome A) (f : A -> outcome B) (msg : string) :
  bind x f = Throw msg ->
  x = Throw msg \/ exists a, x = Ret a /\ f a = Throw msg.
Proof.
  destruct x as [a | msg']; cbn [bind]; intros H.
  - right. now exists a.
  - left. now inversion H.
Qed.

Section Memo.
Context {M : MathLib}.

(** X20: a calculation only fails with one of five messages: the three
    errors of the parser, on one of the text fields, and the two guards of
    the solver; with finish mode off, the texts of the two finish fields are
    never parsed, so nothing in them can make it fail. *)
Theorem result_failure (s : Fields) (msg : string) :
  result s = Failed msg ->
  (parse_error msg \/ solver_error msg)
  /\ (finishMode s = false ->
      forall top bottom : string,
        result (mkFields (totalRise s) (targetRiser s) (treadRun s) false
                         top bottom (stairWidth s) (stringerOc s)
                         (closedStair s))
        = Failed msg).
Proof.
  intros H. split.
  - unfold result in H.
    match type of H with
    | match ?a with _ => _ end = _ => destruct a as [r | msg'] eqn:Ha
    end; [discriminate|].
    inversion H; subst msg'. clear H.
    repeat match type of Ha with
    | bind ?x _ = Throw _ =>
        apply bind_throw in Ha;
        destruct Ha as [Ha | (? & _ & Ha)]
    end;
    repeat match goal with
    | Hx : (if ?c then _ else _) = Throw _ |- _ => destruct c
    | Hx : bind _ _ = Throw _ |- _ =>
        apply bind_throw in Hx; destruct Hx as [Hx | (? & _ & Hx)]
    end;
    try discriminate;
    try (left; eapply parseInches_error; eassumption);
    try (right; eapply calcStairs_error; eassumption).
  - intros Hmode top bottom. rewrite <- H. unfold result.
    cbn [totalRise targetRiser treadRun finishMode topFinish bottomFinish
         stairWidth stringerOc closedStair].
    rewrite Hmode. reflexivity.
Qed.

(** X21: when a calculation succeeds with a target riser field that is
    empty or holds a positive length, and with a positive spacing on center,
    the rise it reports is what the rise field parses to, and it is
    positive; the layout is the solver's for it, with one riser more than
    treads and risers that add up to the rise; the materials count one tread
    per tread, one riser board per riser for a closed stair and none for an
    open one, and two stringers or more; and for a width that is not
    negative the geometry built from it, as the 3D view builds it, has that
    many stringer paths, all within a box that is as high as the rise. *)
Theorem result_success (s : Fields) (r : Computed) :
  result s = Ok r ->
  (forall target, parseInches (targetRiser s) = Ret target -> (0 < target)%Q) ->
  (0 < stringerOcin r)%Q ->
  parseInches (totalRise s) = Ret (totalRiseIn r)
  /\ parseInches (stairWidth s) = Ret (stairWidthIn r)
  /\ (0 < totalRiseIn r)%Q
  /\ StairOutputs.numRisers (out r) = StairOutputs.numTreads (out r) + 1
  /\ (inject_Z (StairOutputs.numRisers (out r))
      * StairOutputs.exactRiserIn (out r) == totalRiseIn r)%Q
  /\ MaterialsOutputs.treadsQty (mat r) = StairOutputs.numTreads (out r)
  /\ MaterialsOutputs.risersQty (mat r)
     = (if closedStair s then StairOutputs.numRisers (out r) else 0)
  /\ 2 <= MaterialsOutputs.numStringers (mat r)
  /\ ((0 <= stairWidthIn r)%Q ->
      let g := buildStaircaseGeometry (out r) (mat r) (stairWidthIn r) in
      Z.of_nat (List.length (stringers g))
      = MaterialsOutputs.numStringers (mat r)
      /\ (height (dimensions g) == totalRiseIn r)%Q
      /\ Forall (Forall (GeometryFacts.in_box (dimensions g))) (stringers g)).
Proof.
  intros H _ _. unfold result in H.
  match type of H with
  | match ?a with _ => _ end = _ => destruct a as [r' | msg'] eqn:Ha
  end; [| discriminate].
  inversion H; subst r'. clear H.
  apply bind_ret in Ha. destruct Ha as (rise & Hrise & Ha).
  apply bind_ret in Ha. destruct Ha as (run & Hrun & Ha).
  apply bind_ret in Ha. destruct Ha as (target & Htarget & Ha).
  apply bind_ret in Ha. destruct Ha as (top & Htop & Ha).
  apply bind_ret in Ha. destruct Ha as (bottom & Hbottom & Ha).
  apply bind_ret in Ha. destruct Ha as (o & Ho & Ha).
  apply bind_ret in Ha. destruct Ha as (w & Hw & Ha).
  apply bind_ret in Ha. destruct Ha as (oc & Hoc & Ha).
  inversion Ha; subst r. clear Ha.
  cbn [totalRiseIn out stairWidthIn stringerOcin mat].
  set (input := StairInputs.mk rise run target (finishMode s) (Some top)
                               (Some bottom)) in *.
  set (m := MaterialsInputs.mk w oc (closedStair s) (StairOutputs.numTreads o)
              (StairOutputs.numRisers o) (StairOutputs.stringerLenIn o)).
  destruct (SolverFacts.calcStairs_ret_positive input o Ho) as [Hpos _].
  destruct (Stairs.calcStairs_fields input o Ho) as (Hn & Ht & He & _).
  pose proof (Materials.numStringers_ge_2 m) as Hge.
  pose proof (GeometryFacts.solver_well_formed input o Ho) as Hwf.
  assert (Hq : (2 <= inject_Z (StairOutputs.numRisers o))%Q)
    by (change 2%Q with (inject_Z 2); rewrite <- Zle_Qle; lia).
  change (StairInputs.totalRiseIn input) with rise in Hpos, He.
  assert (Hsum : (inject_Z (StairOutputs.numRisers o) * StairOutputs.exactRiserIn o
                  == rise)%Q)
    by (rewrite He; field; lra).
  repeat split; try assumption; try reflexivity.
  - lia.
  - rewrite stringers_length. lia.
  - rewrite stringers_eq. apply Forall_map, Forall_forall.
    intros i Hi. apply in_seq in Hi.
    apply GeometryFacts.stringer_in_box; try assumption. lia.
Qed.

End Memo.

(** X20 on the page as it mounts but for an empty rise field. *)
Lemma result_failure_witness :
  let s := mkFields EmptyString "7.25" "10" false "0" "0" "36" "16" true in
  (parse_error "Empty input" \/ solver_error "Empty input")
  /\ (finishMode s = false ->
      forall top bottom : string,
        @result Stairs.sampleMath
          (mkFields (totalRise s) (targetRiser s) (treadRun s) false
                    top bottom (stairWidth s) (stringerOc s) (closedStair s))
        = Failed "Empty input").
Proof.
  intros s. apply (@result_failure Stairs.sampleMath s "Empty input").
  reflexivity.
Defined.

(** What the page computes as it mounts. *)
Definition initialComputed : Computed :=
  match @result Stairs.sampleMath initialFields with
  | Ok r => r
  | Failed _ =>
      mkComputed 0 (StairOutputs.mk 0 0 0 0 0 0 0 0 0 0 false [])
                 0 0 (MaterialsOutputs.mk 0 0 0 0 [])
  end.

(** X21 on the page as it mounts: 9 ft 1 1/2 in of rise on 10 in treads,
    36 in wide at 16 in on center, is 15 risers on four stringers. *)
Lemma result_success_witness :
  let r := initialComputed in
  StairOutputs.numRisers (out r) = 15
  /\ MaterialsOutputs.numStringers (mat r) = 4
  /\ parseInches (totalRise initialFields) = Ret (totalRiseIn r)
  /\ parseInches (stairWidth initialFields) = Ret (stairWidthIn r)
  /\ (0 < totalRiseIn r)%Q
  /\ StairOutputs.numRisers (out r) = StairOutputs.numTreads (out r) + 1
  /\ (inject_Z (StairOutputs.numRisers (out r))
      * StairOutputs.exactRiserIn (out r) == totalRiseIn r)%Q
  /\ MaterialsOutputs.treadsQty (mat r) = StairOutputs.numTreads (out r)
  /\ MaterialsOutputs.risersQty (mat r)
     = (if closedStair initialFields then StairOutputs.numRisers (out r) else 0)
  /\ 2 <= MaterialsOutputs.numStringers (mat r)
  /\ ((0 <= stairWidthIn r)%Q ->
      let g := buildStaircaseGeometry (out r) (mat r) (stairWidthIn r) in
      Z.of_nat (List.length (stringers g))
      = MaterialsOutputs.numStringers (mat r)
      /\ (height (dimensions g) == totalRiseIn r)%Q
      /\ Forall (Forall (GeometryFacts.in_box (dimensions g))) (stringers g)).
Proof.
  intros r. split; [vm_compute; reflexivity|].
  split; [vm_compute; reflexivity|].
  apply (@result_success Stairs.sampleMath initialFields r).
  - vm_compute. reflexivity.
  - intros target Htarget. vm_compute in Htarget.
    injection Htarget as <-. reflexivity.
  - vm_compute. reflexivity.
Defined.

End PageFacts.

(** ** The printable report: escaping the text for HTML *)

Module Html.
Import JsString.

Local Open Scope string_scope.

(** [s.replaceAll(pattern, replacement)] for a pattern of one character
    and a replacement without [$]. *)
Fixpoint replaceAll (pattern : ascii) (replacement : string) (s : string) : string :=
  match s with
  | EmptyString => EmptyString
  | String c s' =>
      if Ascii.eqb c pattern then replacement ++ replaceAll pattern replacement s'
      else String c (replaceAll pattern replacement s')
  end.

Definition escapeHtml (s : string) : string :=
  replaceAll "'" "&#039;"
    (replaceAll dquote "&quot;"
       (replaceAll ">" "&gt;"
          (replaceAll "<" "&lt;"
             (replaceAll "&" "&amp;" s)))).

End Html.

Module HtmlFacts.
Import JsString Html.

Local Open Scope string_scope.

(** The characters that mean something to HTML, and what stands for each
    in the escaped text. *)
Definition special (c : ascii) : bool :=
  Ascii.eqb c "&" || Ascii.eqb c "<" || Ascii.eqb c ">" || Ascii.eqb c dquote
  || Ascii.eqb c "'".

Definition entity (c : ascii) : string :=
  if Ascii.eqb c "&" then "&amp;"
  else if Ascii.eqb c "<" then "&lt;"
  else if Ascii.eqb c ">" then "&gt;"
  else if Ascii.eqb c dquote then "&quot;"
  else if Ascii.eqb c "'" then "&#039;"
  else String c EmptyString.

(** The text with every character replaced by what stands for it, in one
    pass. *)
Fixpoint escaped (s : string) : string :=
  match s with
  | EmptyString => EmptyString
  | String c s' => entity c ++ escaped s'
  end.

Lemma replaceAll_append (pattern : ascii) (replacement a b : string) :
  replaceAll pattern replacement (a ++ b)
  = replaceAll pattern replacement a ++ replaceAll pattern replacement b.
Proof.
  induction a as [| c a IH]; cbn [append replaceAll]; [reflexivity|].
  destruct (Ascii.eqb c pattern); rewrite IH; [| reflexivity].
  now rewrite append_assoc.
Qed.

(** The five passes on a text that starts with [c]: the later passes leave
    alone what the earlier ones wrote. *)
Lemma escapeHtml_cons (c : ascii) (s : string) :
  escapeHtml (String c s) = entity c ++ escapeHtml s.
Proof.
  unfold escapeHtml, entity. cbn [replaceAll].
  destruct (Ascii.eqb_spec c "&") as [-> | Hamp].
  { rewrite !replaceAll_append. reflexivity. }
  cbn [replaceAll]. destruct (Ascii.eqb_spec c "<") as [-> | Hlt].
  { rewrite !replaceAll_append. reflexivity. }
  cbn [replaceAll]. destruct (Ascii.eqb_spec c ">") as [-> | Hgt].
  { rewrite !replaceAll_append. reflexivity. }
  cbn [replaceAll]. destruct (Ascii.eqb_spec c dquote) as [-> | Hdq].
  { rewrite !replaceAll_append. reflexivity. }
  cbn [replaceAll]. destruct (Ascii.eqb_spec c "'") as [-> | Hap];
    reflexivity.
Qed.

Lemma escapeHtml_escaped (s : string) : escapeHtml s = escaped s.
Proof.
  induction s as [| c s IH]; [reflexivity|].
  now rewrite escapeHtml_cons, IH.
Qed.

Lemma escaped_append (a b : string) : escaped (a ++ b) = escaped a ++ escaped b.
Proof.
  induction a as [| c a IH]; cbn [append escaped]; [reflexivity|].
  now rewrite IH, append_assoc.
Qed.

(** The characters that the escaped text is free of. *)
Definition markup (c : ascii) : bool :=
  Ascii.eqb c "<" || Ascii.eqb c ">" || Ascii.eqb c dquote || Ascii.eqb c "'".

Lemma entity_free (c : ascii) :
  all (fun x => negb (markup x)) (entity c) = true.
Proof.
  unfold entity.
  destruct (Ascii.eqb_spec c "&"); [reflexivity|].
  destruct (Ascii.eqb_spec c "<"); [reflexivity|].
  destruct (Ascii.eqb_spec c ">"); [reflexivity|].
  destruct (Ascii.eqb_spec c dquote); [reflexivity|].
  destruct (Ascii.eqb_spec c "'"); [reflexivity|].
  cbn [all]. unfold markup.
  repeat match goal with
  | H : c <> ?x |- _ => apply Ascii.eqb_neq in H; rewrite H; clear H
  end.
  reflexivity.
Qed.

Lemma entity_plain (c : ascii) :
  special c = false -> entity c = String c EmptyString.
Proof.
  unfold special, entity. intros H.
  repeat (apply orb_false_iff in H; destruct H as [H ?]).
  repeat match goal with
  | Hc : Ascii.eqb c _ = false |- _ => rewrite Hc; clear Hc
  end.
  reflexivity.
Qed.

(** What stands for a character tells which character it was, and where
    it ends. *)
Lemma entity_injective (c c' : ascii) (x y : string) :
  entity c ++ x = entity c' ++ y -> c = c' /\ x = y.
Proof.
  unfold entity.
  destruct (Ascii.eqb_spec c "&") as [-> | H1];
    [| destruct (Ascii.eqb_spec c "<") as [-> | H2];
       [| destruct (Ascii.eqb_spec c ">") as [-> | H3];
          [| destruct (Ascii.eqb_spec c dquote) as [-> | H4];
             [| destruct (Ascii.eqb_spec c "'") as [-> | H5]]]]];
  (destruct (Ascii.eqb_spec c' "&") as [-> | H1'];
    [| destruct (Ascii.eqb_spec c' "<") as [-> | H2'];
       [| destruct (Ascii.eqb_spec c' ">") as [-> | H3'];
          [| destruct (Ascii.eqb_spec c' dquote) as [-> | H4'];
             [| destruct (Ascii.eqb_spec c' "'") as [-> | H5']]]]]);
  cbn [append]; intros H; inversion H; subst;
    try (split; reflexivity); try congruence; try discriminate.
Qed.

Lemma entity_nonempty (c : ascii) (x : string) : entity c ++ x <> EmptyString.
Proof.
  unfold entity.
  destruct (Ascii.eqb c "&"); [discriminate|].
  destruct (Ascii.eqb c "<"); [discriminate|].
  destruct (Ascii.eqb c ">"); [discriminate|].
  destruct (Ascii.eqb c dquote); [discriminate|].
  destruct (Ascii.eqb c "'"); discriminate.
Qed.

(** Two texts with the same one-pass escaped text are the same text. *)
Lemma escaped_injective (a b : string) : escaped a = escaped b -> a = b.
Proof.
  revert b.
  induction a as [| c a IH]; intros [| c' b] H; cbn [escaped] in H.
  - reflexivity.
  - symmetry in H. now apply entity_nonempty in H.
  - now apply entity_nonempty in H.
  - apply entity_injective in H. destruct H as [-> H]. now rewrite (IH b H).
Qed.

(** X22: the five passes of [escapeHtml] come to one pass that replaces
    each of the five special characters by its entity and keeps every other
    character: no pass touches what an earlier one wrote.  So the escaped
    text of a concatenation is the concatenation of the escaped texts, the
    escaped text holds none of the characters less-than, greater-than,
    double quote and apostrophe, a text without special characters is
    left as it is, and nothing is lost: two texts with the same escaped
    text are the same text. *)
Theorem escapeHtml_one_pass (s t : string) :
  escapeHtml s = escaped s
  /\ escapeHtml (s ++ t) = escapeHtml s ++ escapeHtml t
  /\ all (fun c => negb (markup c)) (escapeHtml s) = true
  /\ (all (fun c => negb (special c)) s = true -> escapeHtml s = s)
  /\ (escapeHtml s = escapeHtml t -> s = t).
Proof.
  split; [apply escapeHtml_escaped|].
  split; [rewrite !escapeHtml_escaped; apply escaped_append|].
  split; [| split].
  - rewrite escapeHtml_escaped.
    induction s as [| c s IH]; [reflexivity|].
    cbn [escaped]. now rewrite all_append, entity_free, IH.
  - rewrite escapeHtml_escaped.
    induction s as [| c s IH]; [reflexivity|].
    cbn [all escaped]. intros H. apply andb_true_iff in H.
    destruct H as [Hc Hs]. apply negb_true_iff in Hc.
    now rewrite (entity_plain c Hc), (IH Hs).
  - rewrite !escapeHtml_escaped. apply escaped_injective.
Qed.

End HtmlFacts.

(** ** The image store: ten images per job *)

(** [src/lib/storage/images.ts].  The object store of IndexedDB is modelled
    as the list of its records in the order of their keys, and every
    function takes the store and returns it; what the browser decides — the
    identifier of a new record, the time, and whether the image can be
    decoded and resized — is an argument.  A time stamp is kept as its
    number of milliseconds, which is what the eviction compares. *)

From Stdlib Require Import Permutation Sorting.

Module Images.

Local Open Scope string_scope.

Definition MAX_IMAGES_PER_JOB : Z := 10.
Definition MAX_IMAGE_SIZE : Q := 2048.

(** What the code reads of a [Blob]. *)
Record Blob : Type := mkBlob { size : Z; type : string }.

Record ImageRecord : Type := mkRecord {
  id : string;
  jobId : string;
  filename : string;
  blob : Blob;
  width : Q;
  height : Q;
  uploadedAt : Z
}.

Record ImageMetadata : Type := mkMetadata {
  meta_id : string;
  meta_jobId : string;
  meta_filename : string;
  meta_size : Z;
  meta_width : Q;
  meta_height : Q;
  meta_uploadedAt : Z
}.

Definition Store : Type := list ImageRecord.

(** [db.getAllFromIndex(STORE_NAME, "jobId", jobId)]. *)
Definition getAllFromIndex (db : Store) (job : string) : list ImageRecord :=
  filter (fun r => (jobId r =? job)%string) db.

(** [db.get(STORE_NAME, key)]. *)
Definition get (db : Store) (key : string) : option ImageRecord :=
  find (fun r => (id r =? key)%string) db.

(** [db.delete(STORE_NAME, key)]. *)
Definition delete (db : Store) (key : string) : Store :=
  filter (fun r => negb (id r =? key)%string) db.

Fixpoint insert (record : ImageRecord) (db : Store) : Store :=
  match db with
  | [] => [record]
  | r :: db' =>
      if String.ltb (id record) (id r) then record :: db
      else r :: insert record db'
  end.

Definition CONSTRAINT_ERROR : string := "ConstraintError".

(** [db.add(STORE_NAME, record)]: refused when the key is taken. *)
Definition add (db : Store) (record : ImageRecord) : outcome Store :=
  if existsb (fun r => (id r =? id record)%string) db
  then Throw CONSTRAINT_ERROR
  else Ret (insert record db).

(** [list.sort((a, b) => time(a) - time(b))]: the stable sort by time. *)
Fixpoint insert_sorted (a : ImageRecord) (l : list ImageRecord) : list ImageRecord :=
  match l with
  | [] => [a]
  | b :: l' =>
      if (uploadedAt a <=? uploadedAt b)%Z then a :: l
      else b :: insert_sorted a l'
  end.

Definition sort (l : list ImageRecord) : list ImageRecord :=
  fold_right insert_sorted [] l.

(** The size of the canvas that [resizeImage] draws an image of [width] by
    [height] to. *)
Definition resizeImage_dimensions (width height : Q) : Q * Q :=
  if gtb width MAX_IMAGE_SIZE || gtb height MAX_IMAGE_SIZE then
    if gtb width height
    then (MAX_IMAGE_SIZE, (height / width) * MAX_IMAGE_SIZE)%Q
    else ((width / height) * MAX_IMAGE_SIZE, MAX_IMAGE_SIZE)%Q
  else (width, height).

(** [saveImage]: [optimized] is what [resizeImage] and [getImageDimensions]
    come to for the file, [newId] what [crypto.randomUUID()] returns and
    [now] the time.  The store is returned as it is left, also when the
    call throws. *)
Definition saveImage (db : Store) (job : string) (file_name : string)
    (optimized : outcome (Blob * (Q * Q))) (newId : string) (now : Z)
    : Store * outcome string :=
  (* Check existing images for this job *)
  let existingImages := getAllFromIndex db job in
  (* If at limit, delete oldest *)
  let db :=
    if (MAX_IMAGES_PER_JOB <=? Z.of_nat (List.length existingImages))%Z then
      let sorted := sort existingImages in
      let toDelete :=
        firstn (Z.to_nat (Z.of_nat (List.length existingImages)
                          - MAX_IMAGES_PER_JOB + 1)) sorted in
      fold_left (fun db img => delete db (id img)) toDelete db
    else db in
  (* Resize and optimize *)
  match optimized with
  | Throw msg => (db, Throw msg)
  | Ret (optimizedBlob, (width, height)) =>
      (* Create record *)
      let record := mkRecord newId job file_name optimizedBlob width height now in
      match add db record with
      | Ret db' => (db', Ret newId)
      | Throw msg => (db, Throw msg)
      end
  end.

Definition getImage (db : Store) (imageId : string) : option Blob :=
  match get db imageId with
  | Some record => Some (blob record)
  | None => None
  end.

Definition deleteImage (db : Store) (imageId : string) : Store :=
  delete db imageId.

Definition listImagesForJob (db : Store) (job : string) : list ImageMetadata :=
  map (fun r => mkMetadata (id r) (jobId r) (filename r) (size (blob r))
                           (width r) (height r) (uploadedAt r))
      (getAllFromIndex db job).

Definition deleteAllImagesForJob (db : Store) (job : string) : Store :=
  let records := getAllFromIndex db job in
  fold_left (fun db record => delete db (id record)) records db.

(** What can be done to the store, and a session of it from the empty
    store of a new database. *)
Inductive Operation : Type :=
| SaveImage (job file_name : string) (optimized : outcome (Blob * (Q * Q)))
            (newId : string) (now : Z)
| DeleteImage (imageId : string)
| DeleteAllImagesForJob (job : string).

Definition perform (op : Operation) (db : Store) : Store :=
  match op with
  | SaveImage job file_name optimized newId now =>
      fst (saveImage db job file_name optimized newId now)
  | DeleteImage imageId => deleteImage db imageId
  | DeleteAllImagesForJob job => deleteAllImagesForJob db job
  end.

Definition session (ops : list Operation) : Store :=
  fold_left (fun db op => perform op db) ops [].

End Images.

Module ImagesFacts.
Import Images.

Local Open Scope string_scope.

(** *** Lists *)

Lemma filter_filter {A : Type} (f g : A -> bool) (l : list A) :
  filter f (filter g l) = filter (fun x => g x && f x) l.
Proof.
  induction l as [| x l IH]; cbn [filter]; [reflexivity|].
  destruct (g x); cbn [filter andb]; [destruct (f x)|]; now rewrite IH.
Qed.

Lemma filter_all {A : Type} (f : A -> bool) (l : list A) :
  (forall x, In x l -> f x = true) -> filter f l = l.
Proof.
  induction l as [| x l IH]; intros H; cbn [filter]; [reflexivity|].
  rewrite (H x (or_introl eq_refl)), IH; [reflexivity|].
  intros y Hy. apply H. now right.
Qed.

Lemma filter_none {A : Type} (f : A -> bool) (l : list A) :
  (forall x, In x l -> f x = false) -> filter f l = [].
Proof.
  induction l as [| x l IH]; intros H; cbn [filter]; [reflexivity|].
  rewrite (H x (or_introl eq_refl)). apply IH.
  intros y Hy. apply H. now right.
Qed.

Lemma filter_permutation (keep : ImageRecord -> bool) (db db' : Store) :
  Permutation db db' -> Permutation (filter keep db) (filter keep db').
Proof.
  induction 1 as [| x l l' _ IH | x y l | l l' l'' _ IH1 _ IH2];
    cbn [filter].
  - constructor.
  - destruct (keep x); [now constructor | exact IH].
  - destruct (keep x), (keep y); try reflexivity. constructor.
  - now transitivity (filter keep l').
Qed.

Lemma NoDup_map_eq {A B : Type} (f : A -> B) (l : list A) (x y : A) :
  NoDup (map f l) -> In x l -> In y l -> f x = f y -> x = y.
Proof.
  induction l as [| a l IH]; intros Hnd Hx Hy Heq; [destruct Hx|].
  cbn [map] in Hnd. inversion Hnd as [| ? ? Hnotin Hnd']; subst.
  destruct Hx as [-> | Hx], Hy as [-> | Hy].
  - reflexivity.
  - exfalso. apply Hnotin. rewrite Heq. now apply in_map.
  - exfalso. apply Hnotin. rewrite <- Heq. now apply in_map.
  - now apply IH.
Qed.

Lemma keys_filter_NoDup (keep : ImageRecord -> bool) (db : Store) :
  NoDup (map id db) -> NoDup (map id (filter keep db)).
Proof.
  induction db as [| r db IH]; intros Hnd; cbn [filter map]; [constructor|].
  cbn [map] in Hnd. inversion Hnd as [| ? ? Hnotin Hnd']; subst.
  destruct (keep r); [| now apply IH].
  cbn [map]. constructor; [| now apply IH].
  intros Hin. apply Hnotin. apply in_map_iff in Hin.
  destruct Hin as (x & Hx & Hin). apply filter_In in Hin.
  rewrite <- Hx. apply in_map. tauto.
Qed.

(** *** The store *)

Definition ids (db : Store) : list string := map id db.

(** The number of images of a job. *)
Definition count (db : Store) (job : string) : nat :=
  List.length (getAllFromIndex db job).

(** The store without the records of some keys. *)
Definition without (keys : list string) (db : Store) : Store :=
  filter (fun r => negb (existsb (String.eqb (id r)) keys)) db.

Lemma delete_many (records : list ImageRecord) (db : Store) :
  fold_left (fun db img => delete db (id img)) records db
  = without (map id records) db.
Proof.
  revert db. induction records as [| a records IH]; intros db; cbn [fold_left map].
  - unfold without. symmetry. now apply filter_all.
  - rewrite IH. unfold without, delete. rewrite filter_filter.
    apply filter_ext. intros r. cbn [existsb]. now rewrite negb_orb.
Qed.

Lemma without_incl (keys : list string) (db : Store) (r : ImageRecord) :
  In r (without keys db) -> In r db.
Proof. unfold without. intros H. apply filter_In in H. tauto. Qed.

Lemma in_without (keys : list string) (db : Store) (r : ImageRecord) :
  In r (without keys db) <-> In r db /\ ~ In (id r) keys.
Proof.
  unfold without. rewrite filter_In, negb_true_iff.
  split; intros [Hin Hk]; split; try assumption.
  - intros Hkey. assert (H : existsb (String.eqb (id r)) keys = true).
    { apply existsb_exists. exists (id r). split; [exact Hkey|].
      apply String.eqb_refl. }
    congruence.
  - destruct (existsb (String.eqb (id r)) keys) eqn:E; [| reflexivity].
    apply existsb_exists in E. destruct E as (k & Hk' & Heq).
    apply String.eqb_eq in Heq. subst k. contradiction.
Qed.

Lemma without_NoDup (keys : list string) (db : Store) :
  NoDup (ids db) -> NoDup (ids (without keys db)).
Proof. apply keys_filter_NoDup. Qed.

Lemma count_without (keys : list string) (db : Store) (job : string) :
  (count (without keys db) job <= count db job)%nat.
Proof.
  unfold count, getAllFromIndex, without.
  rewrite filter_filter.
  rewrite <- (filter_filter (fun r => (jobId r =? job)%string)
                (fun r => negb (existsb (String.eqb (id r)) keys))).
  rewrite filter_filter.
  assert (H : forall (f g : ImageRecord -> bool) l,
             (List.length (filter (fun x => g x && f x) l)
              <= List.length (filter f l))%nat).
  { intros f g l. induction l as [| x l IH]; cbn [filter]; [lia|].
    destruct (g x), (f x); cbn [andb List.length]; lia. }
  apply H.
Qed.

(** *** The stable sort by time *)

Definition older (a b : ImageRecord) : Prop := (uploadedAt a <= uploadedAt b)%Z.

Lemma insert_sorted_perm (a : ImageRecord) (l : list ImageRecord) :
  Permutation (insert_sorted a l) (a :: l).
Proof.
  induction l as [| b l IH]; cbn [insert_sorted]; [reflexivity|].
  destruct (uploadedAt a <=? uploadedAt b)%Z; [reflexivity|].
  rewrite IH. constructor.
Qed.

Lemma sort_perm (l : list ImageRecord) : Permutation (sort l) l.
Proof.
  induction l as [| a l IH]; cbn [sort fold_right]; [constructor|].
  fold (sort l). rewrite insert_sorted_perm. now constructor.
Qed.

Lemma insert_sorted_sorted (a : ImageRecord) (l : list ImageRecord) :
  StronglySorted older l -> StronglySorted older (insert_sorted a l).
Proof.
  induction 1 as [| b l Hs IH Hb]; cbn [insert_sorted].
  - repeat constructor.
  - destruct (Z.leb_spec (uploadedAt a) (uploadedAt b)) as [Hle | Hgt].
    + constructor; [now constructor|].
      constructor; [exact Hle|].
      revert Hb. apply Forall_impl. unfold older. intros c Hc. lia.
    + constructor; [exact IH|].
      eapply Permutation_Forall;
        [apply Permutation_sym, insert_sorted_perm|].
      constructor; [unfold older; lia | exact Hb].
Qed.

Lemma sort_sorted (l : list ImageRecord) : StronglySorted older (sort l).
Proof.
  induction l as [| a l IH]; cbn [sort fold_right]; [constructor|].
  now apply insert_sorted_sorted.
Qed.

Lemma in_skipn {A : Type} (n : nat) (l : list A) (x : A) :
  In x (skipn n l) -> In x l.
Proof.
  revert l. induction n as [| n IH]; intros l H; [exact H|].
  destruct l as [| y l]; [destruct H|]. right. now apply IH.
Qed.

Lemma in_firstn {A : Type} (n : nat) (l : list A) (x : A) :
  In x (firstn n l) -> In x l.
Proof.
  revert l. induction n as [| n IH]; intros l H; [destruct H|].
  destruct l as [| y l]; [destruct H|].
  destruct H as [-> | H]; [now left | right; now apply IH].
Qed.

Lemma sorted_split (n : nat) (l : list ImageRecord) (a b : ImageRecord) :
  StronglySorted older l -> In a (firstn n l) -> In b (skipn n l) -> older a b.
Proof.
  intros Hs. revert n. induction Hs as [| x l Hs IH Hx]; intros n Ha Hb.
  - destruct n; destruct Ha.
  - destruct n as [| n]; [destruct Ha|].
    cbn [firstn skipn] in Ha, Hb. destruct Ha as [<- | Ha].
    + rewrite Forall_forall in Hx. apply Hx.
      apply (in_skipn n l b Hb).
    + now apply (IH n).
Qed.

Lemma nodup_split {A : Type} (a b : list A) (x : A) :
  NoDup (a ++ b) -> In x a -> In x b -> False.
Proof.
  induction a as [| y a IH]; intros Hnd Ha Hb; [destruct Ha|].
  cbn [app] in Hnd. inversion Hnd as [| ? ? Hnotin Hnd']; subst.
  destruct Ha as [-> | Ha].
  - apply Hnotin, in_or_app. now right.
  - now apply IH.
Qed.

(** *** The eviction *)

(** The images that [saveImage] deletes before it adds one to [job]. *)
Definition evicted (db : Store) (job : string) : list ImageRecord :=
  let existingImages := getAllFromIndex db job in
  if (MAX_IMAGES_PER_JOB <=? Z.of_nat (List.length existingImages))%Z
  then firstn (Z.to_nat (Z.of_nat (List.length existingImages)
                         - MAX_IMAGES_PER_JOB + 1))
              (sort existingImages)
  else [].

(** The store after the eviction. *)
Definition evict (db : Store) (job : string) : Store :=
  without (map id (evicted db job)) db.

Lemma saveImage_eq (db : Store) (job file_name : string)
    (optimized : outcome (Blob * (Q * Q))) (newId : string) (now : Z) :
  saveImage db job file_name optimized newId now
  = match optimized with
    | Throw msg => (evict db job, Throw msg)
    | Ret (optimizedBlob, (w, h)) =>
        match add (evict db job)
                  (mkRecord newId job file_name optimizedBlob w h now) with
        | Ret db' => (db', Ret newId)
        | Throw msg => (evict db job, Throw msg)
        end
    end.
Proof.
  assert (He : (if (MAX_IMAGES_PER_JOB
                    <=? Z.of_nat (List.length (getAllFromIndex db job)))%Z
                then fold_left (fun db img => delete db (id img))
                       (firstn (Z.to_nat
                                  (Z.of_nat (List.length (getAllFromIndex db job))
                                   - MAX_IMAGES_PER_JOB + 1))
                               (sort (getAllFromIndex db job))) db
                else db) = evict db job).
  { unfold evict, evicted.
    destruct (MAX_IMAGES_PER_JOB <=? _)%Z; [apply delete_many|].
    unfold without. symmetry. now apply filter_all. }
  unfold saveImage. rewrite He. reflexivity.
Qed.

Lemma evicted_incl (db : Store) (job : string) (r : ImageRecord) :
  In r (evicted db job) -> In r (getAllFromIndex db job).
Proof.
  unfold evicted. destruct (MAX_IMAGES_PER_JOB <=? _)%Z; [| intros []].
  intros H. apply in_firstn in H.
  now apply (Permutation_in _ (sort_perm _)) in H.
Qed.

Lemma ids_job_NoDup (db : Store) (job : string) :
  NoDup (ids db) -> NoDup (ids (getAllFromIndex db job)).
Proof. apply keys_filter_NoDup. Qed.

Lemma getAll_without (keys : list string) (db : Store) (job : string) :
  getAllFromIndex (without keys db) job
  = without keys (getAllFromIndex db job).
Proof.
  unfold getAllFromIndex, without. rewrite !filter_filter.
  apply filter_ext. intros r. apply andb_comm.
Qed.

(** After the eviction the job holds nine images if it held ten or more,
    and what it held otherwise. *)
Lemma evict_count (db : Store) (job : string) :
  NoDup (ids db) ->
  count (evict db job) job = Nat.min (count db job) 9.
Proof.
  intros Hnd. unfold count, evict. rewrite getAll_without.
  set (L := getAllFromIndex db job).
  pose proof (ids_job_NoDup db job Hnd) as HndL. fold L in HndL.
  unfold evicted. fold L.
  destruct (Z.leb_spec MAX_IMAGES_PER_JOB (Z.of_nat (List.length L))) as [Hcap | Hfree].
  - unfold MAX_IMAGES_PER_JOB in *.
    set (k := Z.to_nat (Z.of_nat (List.length L) - 10 + 1)).
    assert (Hperm : Permutation (without (map id (firstn k (sort L))) L)
                                (skipn k (sort L))).
    { unfold without.
      set (p := fun r : ImageRecord =>
                  negb (existsb (String.eqb (id r))
                          (map id (firstn k (sort L))))).
      transitivity (filter p (sort L));
        [apply filter_permutation, Permutation_sym, sort_perm|].
      assert (Hsplit : filter p (sort L)
                       = filter p (firstn k (sort L) ++ skipn k (sort L)))
        by now rewrite firstn_skipn.
      rewrite Hsplit, filter_app. unfold p.
      assert (HndS : NoDup (map id (firstn k (sort L)) ++ map id (skipn k (sort L)))).
      { rewrite <- map_app, firstn_skipn.
        apply (Permutation_NoDup
                 (Permutation_map id (Permutation_sym (sort_perm L)))).
        exact HndL. }
      rewrite filter_none, filter_all; [reflexivity | |].
      - intros x Hx. apply negb_true_iff.
        destruct (existsb _ _) eqn:E; [| reflexivity].
        apply existsb_exists in E. destruct E as (key & Hkey & Heq).
        apply String.eqb_eq in Heq. subst key. exfalso.
        apply (nodup_split _ _ (id x) HndS Hkey). now apply in_map.
      - intros x Hx. apply negb_false_iff, existsb_exists.
        exists (id x). split; [now apply in_map | apply String.eqb_refl]. }
    rewrite (Permutation_length Hperm), length_skipn.
    rewrite (Permutation_length (sort_perm L)). unfold k. lia.
  - unfold without. cbn [map existsb negb]. rewrite filter_all by reflexivity.
    unfold MAX_IMAGES_PER_JOB in *. lia.
Qed.

(** The eviction leaves the other jobs alone. *)
Lemma evict_other (db : Store) (job other : string) :
  NoDup (ids db) -> other <> job ->
  getAllFromIndex (evict db job) other = getAllFromIndex db other.
Proof.
  intros Hnd Hne. unfold evict. rewrite getAll_without.
  unfold without. apply filter_all. intros r Hr.
  apply negb_true_iff. destruct (existsb _ _) eqn:E; [| reflexivity].
  exfalso. apply existsb_exists in E. destruct E as (key & Hkey & Heq).
  apply String.eqb_eq in Heq. subst key.
  apply in_map_iff in Hkey. destruct Hkey as (x & Hid & Hx).
  apply evicted_incl in Hx.
  unfold getAllFromIndex in Hr, Hx. apply filter_In in Hr, Hx.
  destruct Hr as [Hr Hjob], Hx as [Hx Hjob'].
  assert (x = r) by (apply (NoDup_map_eq id db); auto).
  subst x. apply String.eqb_eq in Hjob, Hjob'. congruence.
Qed.

(** *** Adding a record *)

Lemma insert_perm (r : ImageRecord) (db : Store) :
  Permutation (insert r db) (r :: db).
Proof.
  induction db as [| x db IH]; cbn [insert]; [reflexivity|].
  destruct (String.ltb _ _); [reflexivity|].
  rewrite IH. constructor.
Qed.

Lemma add_ret (db db' : Store) (r : ImageRecord) :
  add db r = Ret db' -> ~ In (id r) (ids db) /\ db' = insert r db.
Proof.
  unfold add. destruct (existsb _ db) eqn:E; [discriminate|].
  intros H. inversion H. split; [| reflexivity].
  intros Hin. apply in_map_iff in Hin. destruct Hin as (x & Hid & Hx).
  assert (Ht : existsb (fun x => (id x =? id r)%string) db = true).
  { apply existsb_exists. exists x. split; [exact Hx|].
    now apply String.eqb_eq. }
  congruence.
Qed.

Lemma insert_NoDup (db : Store) (r : ImageRecord) :
  NoDup (ids db) -> ~ In (id r) (ids db) -> NoDup (ids (insert r db)).
Proof.
  intros Hnd Hfresh.
  apply (Permutation_NoDup
           (Permutation_map id (Permutation_sym (insert_perm r db)))).
  cbn [map]. now constructor.
Qed.

Lemma count_insert (db : Store) (r : ImageRecord) (job : string) :
  count (insert r db) job
  = ((if (jobId r =? job)%string then 1 else 0) + count db job)%nat.
Proof.
  unfold count, getAllFromIndex.
  rewrite (Permutation_length (filter_permutation _ _ _ (insert_perm r db))).
  cbn [filter]. now destruct (jobId r =? job)%string.
Qed.

Lemma getAll_insert_other (db : Store) (r : ImageRecord) (other : string) :
  other <> jobId r ->
  getAllFromIndex (insert r db) other = getAllFromIndex db other.
Proof.
  intros Hne. unfold getAllFromIndex.
  assert (Hr : (jobId r =? other)%string = false)
    by (apply String.eqb_neq; congruence).
  induction db as [| x db IH]; cbn [insert filter].
  - now rewrite Hr.
  - destruct (String.ltb _ _); cbn [filter]; [now rewrite Hr|].
    now rewrite IH.
Qed.

Lemma get_insert (db : Store) (r : ImageRecord) :
  ~ In (id r) (ids db) -> get (insert r db) (id r) = Some r.
Proof.
  unfold get. induction db as [| x db IH]; intros Hfresh; cbn [insert find].
  - now rewrite String.eqb_refl.
  - cbn [ids map] in Hfresh.
    destruct (String.ltb _ _); cbn [find]; [now rewrite String.eqb_refl|].
    assert (Hx : (id x =? id r)%string = false)
      by (apply String.eqb_neq; intros Heq; apply Hfresh; now left).
    rewrite Hx. apply IH. intros Hin. apply Hfresh. now right.
Qed.

(** *** Saving an image *)

(** X23: on a store with one record per key — which is what IndexedDB
    keeps — [saveImage] leaves the job with at most ten images, whatever it
    held: when the call succeeds the job holds what it held, capped at
    nine, and the new image, which [getImage] finds under the identifier
    that was returned; when the call throws — the image cannot be resized,
    or the identifier is taken — the eviction has been done all the same
    and the job holds what it held, capped at nine.  The images of the
    other jobs are as they were. *)
Theorem saveImage_keeps_cap (db : Store) (job file_name : string)
    (optimized : outcome (Blob * (Q * Q))) (newId : string) (now : Z) :
  NoDup (ids db) ->
  let db' := fst (saveImage db job file_name optimized newId now) in
  let result := snd (saveImage db job file_name optimized newId now) in
  NoDup (ids db')
  /\ (count db' job <= 10)%nat
  /\ (forall other, other <> job ->
        getAllFromIndex db' other = getAllFromIndex db other)
  /\ match result with
     | Ret imageId =>
         imageId = newId
         /\ count db' job = S (Nat.min (count db job) 9)
         /\ exists optimizedBlob w h,
              optimized = Ret (optimizedBlob, (w, h))
              /\ get db' imageId
                 = Some (mkRecord newId job file_name optimizedBlob w h now)
              /\ getImage db' imageId = Some optimizedBlob
     | Throw _ => count db' job = Nat.min (count db job) 9
     end.
Proof.
  intros Hnd db' result. unfold db', result. rewrite saveImage_eq.
  pose proof (without_NoDup (map id (evicted db job)) db Hnd) as Hnd1.
  fold (evict db job) in Hnd1.
  pose proof (evict_count db job Hnd) as Hcount.
  pose proof (fun other => evict_other db job other Hnd) as Hother.
  destruct optimized as [[optimizedBlob [w h]] | msg]; cbn [fst snd].
  - set (record := mkRecord newId job file_name optimizedBlob w h now).
    destruct (add (evict db job) record) as [db1 | msg] eqn:Hadd; cbn [fst snd].
    + apply add_ret in Hadd. destruct Hadd as [Hfresh ->].
      assert (Hc : count (insert record (evict db job)) job
                   = S (Nat.min (count db job) 9)).
      { rewrite count_insert, Hcount. cbn [jobId record].
        now rewrite String.eqb_refl. }
      split; [now apply insert_NoDup|]. split; [lia|]. split.
      * intros other Hne. rewrite getAll_insert_other by (cbn; congruence).
        now apply Hother.
      * split; [reflexivity|]. split; [exact Hc|].
        exists optimizedBlob, w, h. split; [reflexivity|].
        pose proof (get_insert (evict db job) record Hfresh) as Hget.
        cbn [id record] in Hget. split; [exact Hget|].
        unfold getImage. now rewrite Hget.
    + split; [exact Hnd1|]. split; [lia|]. split; [exact Hother | exact Hcount].
  - split; [exact Hnd1|]. split; [lia|]. split; [exact Hother | exact Hcount].
Qed.

(** X24: the eviction takes the oldest.  On a store with one record per key
    and for a fresh identifier, an image of the job that [saveImage] deleted
    was uploaded no later than any image of the job that it kept. *)
Theorem saveImage_evicts_oldest (db : Store) (job file_name : string)
    (optimized : outcome (Blob * (Q * Q))) (newId : string) (now : Z)
    (gone kept : ImageRecord) :
  NoDup (ids db) -> ~ In newId (ids db) ->
  let db' := fst (saveImage db job file_name optimized newId now) in
  In gone (getAllFromIndex db job) -> ~ In gone db' ->
  In kept (getAllFromIndex db job) -> In kept db' ->
  (uploadedAt gone <= uploadedAt kept)%Z.
Proof.
  intros Hnd Hfresh db' Hgone Hgone' Hkept Hkept'.
  set (L := getAllFromIndex db job) in *.
  assert (Hsub : forall r, In r (evict db job) -> In r db').
  { intros r Hr. unfold db'. rewrite saveImage_eq.
    destruct optimized as [[optimizedBlob [w h]] | msg]; cbn [fst]; [| exact Hr].
    destruct (add _ _) as [db1 | msg] eqn:Hadd; cbn [fst]; [| exact Hr].
    apply add_ret in Hadd. destruct Hadd as [_ ->].
    apply (Permutation_in _ (Permutation_sym (insert_perm _ _))). now right. }
  assert (Hkept1 : In kept (evict db job)).
  { unfold db' in Hkept'. rewrite saveImage_eq in Hkept'.
    destruct optimized as [[optimizedBlob [w h]] | msg]; cbn [fst] in Hkept';
      [| exact Hkept'].
    destruct (add _ _) as [db1 | msg] eqn:Hadd; cbn [fst] in Hkept';
      [| exact Hkept'].
    apply add_ret in Hadd. destruct Hadd as [_ ->].
    apply (Permutation_in _ (insert_perm _ _)) in Hkept'.
    destruct Hkept' as [<- | Hk]; [| exact Hk].
    exfalso. apply Hfresh. unfold L, getAllFromIndex in Hkept.
    apply filter_In in Hkept. destruct Hkept as [Hin _].
    apply (in_map id) in Hin. exact Hin. }
  assert (HgoneDb : In gone db)
    by (unfold L, getAllFromIndex in Hgone; apply filter_In in Hgone; tauto).
  assert (HkeptDb : In kept db)
    by (unfold L, getAllFromIndex in Hkept; apply filter_In in Hkept; tauto).
  assert (Hgone1 : In gone (evicted db job)).
  { destruct (in_dec string_dec (id gone) (map id (evicted db job)))
      as [Hin | Hnot].
    - apply in_map_iff in Hin. destruct Hin as (x & Hid & Hx).
      assert (x = gone).
      { apply (NoDup_map_eq id db); auto.
        pose proof (evicted_incl db job x Hx) as HxL.
        unfold getAllFromIndex in HxL. apply filter_In in HxL. tauto. }
      now subst x.
    - exfalso. apply Hgone', Hsub. unfold evict. apply in_without. tauto. }
  assert (Hkept2 : ~ In (id kept) (map id (evicted db job))).
  { unfold evict in Hkept1. apply in_without in Hkept1. tauto. }
  unfold evicted in Hgone1, Hkept2. fold L in Hgone1, Hkept2.
  destruct (MAX_IMAGES_PER_JOB <=? Z.of_nat (List.length L))%Z;
    [| destruct Hgone1].
  set (k := Z.to_nat (Z.of_nat (List.length L) - MAX_IMAGES_PER_JOB + 1)) in *.
  apply (sorted_split k (sort L) gone kept (sort_sorted L) Hgone1).
  assert (Hs : In kept (sort L))
    by (apply (Permutation_in _ (Permutation_sym (sort_perm L))); exact Hkept).
  rewrite <- (firstn_skipn k (sort L)) in Hs. apply in_app_or in Hs.
  destruct Hs as [Hs | Hs]; [| exact Hs].
  exfalso. apply Hkept2. now apply in_map.
Qed.

(** *** Sessions *)

Lemma perform_invariant (op : Operation) (db : Store) :
  NoDup (ids db) /\ (forall job, (count db job <= 10)%nat) ->
  NoDup (ids (perform op db))
  /\ (forall job, (count (perform op db) job <= 10)%nat).
Proof.
  intros [Hnd Hcap].
  destruct op as [job file_name optimized newId now | imageId | job];
    cbn [perform].
  - rewrite saveImage_eq.
    pose proof (without_NoDup (map id (evicted db job)) db Hnd) as Hnd1.
    fold (evict db job) in Hnd1.
    pose proof (evict_count db job Hnd) as Hcount.
    assert (Hcap1 : forall j, (count (evict db job) j <= 10)%nat).
    { intros j. unfold evict. pose proof (count_without (map id (evicted db job)) db j).
      specialize (Hcap j). lia. }
    destruct optimized as [[optimizedBlob [w h]] | msg]; cbn [fst];
      [| now split].
    destruct (add _ _) as [db1 | msg] eqn:Hadd; cbn [fst]; [| now split].
    apply add_ret in Hadd. destruct Hadd as [Hfresh ->].
    split; [now apply insert_NoDup|].
    intros j. rewrite count_insert. cbn [jobId].
    destruct (String.eqb_spec job j) as [<- | Hne].
    + rewrite Hcount. lia.
    + apply Hcap1.
  - unfold deleteImage.
    assert (Hd : delete db imageId = without [imageId] db).
    { unfold delete, without. apply filter_ext. intros r. cbn [existsb].
      now rewrite orb_false_r. }
    rewrite Hd. split; [now apply without_NoDup|].
    intros j. pose proof (count_without [imageId] db j). specialize (Hcap j). lia.
  - unfold deleteAllImagesForJob. rewrite delete_many.
    split; [now apply without_NoDup|].
    intros j. pose proof (count_without (map id (getAllFromIndex db job)) db j).
    specialize (Hcap j). lia.
Qed.

(** X25: from the empty store of a new database, whatever images are
    saved and deleted, for whatever jobs and whether the calls succeed or
    throw, no job ever holds more than ten images, and no two records share
    an identifier. *)
Theorem store_never_exceeds_cap (ops : list Operation) (job : string) :
  (Z.of_nat (List.length (listImagesForJob (session ops) job))
   <= MAX_IMAGES_PER_JOB)%Z
  /\ NoDup (map id (session ops)).
Proof.
  unfold session.
  assert (H : forall db,
            NoDup (ids db) /\ (forall j, (count db j <= 10)%nat) ->
            NoDup (ids (fold_left (fun db op => perform op db) ops db))
            /\ (forall j, (count (fold_left (fun db op => perform op db) ops db) j
                           <= 10)%nat)).
  { induction ops as [| op ops IH]; intros db Hinv; [exact Hinv|].
    cbn [fold_left]. apply IH. now apply perform_invariant. }
  destruct (H []) as [Hnd Hcap].
  { split; [constructor | intros j; cbn; lia]. }
  split; [| exact Hnd].
  unfold listImagesForJob. rewrite length_map.
  specialize (Hcap job). unfold count in Hcap. unfold MAX_IMAGES_PER_JOB. lia.
Qed.

(** *** The size of a resized image *)

(** X26: the canvas that [resizeImage] draws a positive image to is never
    larger than 2048 on either side and never larger than the image; an
    image within 2048 on both sides keeps its size; a larger one keeps its
    proportions and gets 2048 on its longer side. *)
Theorem resizeImage_within_limit (w h : Q) :
  (0 < w)%Q -> (0 < h)%Q ->
  let '(w', h') := resizeImage_dimensions w h in
  (0 < w' <= MAX_IMAGE_SIZE)%Q /\ (0 < h' <= MAX_IMAGE_SIZE)%Q
  /\ (w' <= w)%Q /\ (h' <= h)%Q
  /\ (w' * h == w * h')%Q
  /\ ((w <= MAX_IMAGE_SIZE)%Q -> (h <= MAX_IMAGE_SIZE)%Q -> w' = w /\ h' = h)
  /\ ((MAX_IMAGE_SIZE < w)%Q \/ (MAX_IMAGE_SIZE < h)%Q ->
      (w' == MAX_IMAGE_SIZE)%Q \/ (h' == MAX_IMAGE_SIZE)%Q).
Proof.
  intros Hw Hh. unfold resizeImage_dimensions, MAX_IMAGE_SIZE.
  destruct (gtb w 2048) eqn:Ew; destruct (gtb h 2048) eqn:Eh; cbn [orb];
    try apply gtb_true in Ew; try apply gtb_false in Ew;
    try apply gtb_true in Eh; try apply gtb_false in Eh.
  1-3: destruct (gtb w h) eqn:Ewh;
    [apply gtb_true in Ewh | apply gtb_false in Ewh].
  all: try (assert (Hr : (0 < h / w)%Q)
              by (apply Qlt_shift_div_l; lra);
            assert (Hr1 : (h / w <= 1)%Q)
              by (apply Qle_shift_div_r; lra);
            assert (Hr2 : (h / w * w == h)%Q) by (field; lra);
            assert (Hr3 : (h / w * 2048 <= h / w * w)%Q)
              by (apply Qmult_le_l; lra)).
  all: try (assert (Hr : (0 < w / h)%Q)
              by (apply Qlt_shift_div_l; lra);
            assert (Hr1 : (w / h <= 1)%Q)
              by (apply Qle_shift_div_r; lra);
            assert (Hr2 : (w / h * h == w)%Q) by (field; lra);
            assert (Hr3 : (w / h * 2048 <= w / h * h)%Q)
              by (apply Qmult_le_l; lra)).
  all: repeat split; try lra; try (intros; lra); try (field; lra);
    try (left; reflexivity); try (right; reflexivity).
Qed.

(** *** A full job *)

(** A store of ten images of one job, uploaded a second apart, and one of
    another job. *)
Definition sampleStore : Store :=
  (map (fun i => mkRecord (JsString.Z_to_string (Z.of_nat i)) "job-a" "photo.jpg"
                          (mkBlob 1000 "image/webp") 800 600
                          (Z.of_nat i * 1000))
       (seq 0 10)
   ++ [mkRecord "b" "job-b" "other.jpg" (mkBlob 500 "image/webp") 640 480 0])%list.

Definition sampleImage : outcome (Blob * (Q * Q)) :=
  Ret (mkBlob 2000 "image/webp", (1024, 768)%Q).

Lemma sampleStore_NoDup : NoDup (ids sampleStore).
Proof.
  vm_compute.
  repeat (constructor;
          [intros H; repeat (destruct H as [H | H]; [discriminate|]); exact H|]).
  constructor.
Qed.

(** X23 on the full job: the oldest image makes room for the new one. *)
Lemma saveImage_keeps_cap_witness :
  let db' := fst (saveImage sampleStore "job-a" "new.jpg" sampleImage "new" 99000) in
  let result := snd (saveImage sampleStore "job-a" "new.jpg" sampleImage "new" 99000) in
  count sampleStore "job-a" = 10%nat
  /\ get db' "0" = None
  /\ NoDup (ids db')
  /\ (count db' "job-a" <= 10)%nat
  /\ (forall other, other <> "job-a" ->
        getAllFromIndex db' other = getAllFromIndex sampleStore other)
  /\ match result with
     | Ret imageId =>
         imageId = "new"
         /\ count db' "job-a" = S (Nat.min (count sampleStore "job-a") 9)
         /\ exists optimizedBlob w h,
              sampleImage = Ret (optimizedBlob, (w, h))
              /\ get db' imageId
                 = Some (mkRecord "new" "job-a" "new.jpg" optimizedBlob w h 99000)
              /\ getImage db' imageId = Some optimizedBlob
     | Throw _ => count db' "job-a" = Nat.min (count sampleStore "job-a") 9
     end.
Proof.
  intros db' result. split; [reflexivity|]. split; [reflexivity|].
  apply (saveImage_keeps_cap sampleStore "job-a" "new.jpg" sampleImage "new" 99000).
  exact sampleStore_NoDup.
Defined.

(** X24 on the full job: the image of second 0 goes, that of second 5
    stays. *)
Lemma saveImage_evicts_oldest_witness :
  let gone := mkRecord "0" "job-a" "photo.jpg" (mkBlob 1000 "image/webp")
                       800 600 0 in
  let kept := mkRecord "5" "job-a" "photo.jpg" (mkBlob 1000 "image/webp")
                       800 600 5000 in
  (uploadedAt gone <= uploadedAt kept)%Z.
Proof.
  intros gone kept.
  apply (saveImage_evicts_oldest sampleStore "job-a" "new.jpg" sampleImage
           "new" 99000 gone kept).
  - exact sampleStore_NoDup.
  - vm_compute. intros H. repeat (destruct H as [H | H]; [discriminate|]). exact H.
  - vm_compute. tauto.
  - vm_compute. intros H. repeat (destruct H as [H | H]; [discriminate|]). exact H.
  - vm_compute. tauto.
  - vm_compute. tauto.
Defined.

(** X26 on a photo of 4096 by 3072: it is drawn at 2048 by 1536. *)
Lemma resizeImage_within_limit_witness :
  resizeImage_dimensions 4096 3072 = (2048, 3072 / 4096 * 2048)%Q
  /\ let '(w', h') := resizeImage_dimensions 4096 3072 in
     (0 < w' <= MAX_IMAGE_SIZE)%Q /\ (0 < h' <= MAX_IMAGE_SIZE)%Q
     /\ (w' <= 4096)%Q /\ (h' <= 3072)%Q
     /\ (w' * 3072 == 4096 * h')%Q
     /\ ((4096 <= MAX_IMAGE_SIZE)%Q -> (3072 <= MAX_IMAGE_SIZE)%Q ->
         w' = 4096%Q /\ h' = 3072%Q)
     /\ ((MAX_IMAGE_SIZE < 4096)%Q \/ (MAX_IMAGE_SIZE < 3072)%Q ->
         (w' == MAX_IMAGE_SIZE)%Q \/ (h' == MAX_IMAGE_SIZE)%Q).
Proof.
  split; [reflexivity|].
  apply (resizeImage_within_limit 4096 3072); reflexivity.
Defined.

End ImagesFacts.

(** ** The 3D scene: the camera and the meshes *)

(** [createStaircaseScene] of [src/lib/rendering/three3d.ts], as far as it
    computes with the geometry: where the camera stands and looks, and the
    shape, size and place of every mesh of the stair.  The renderer, the
    lights, the materials and the controls of three.js are outside the
    model. *)

Module Three3d.
Import JsMath Geometry.

Record CalibrationData : Type := mkCalibrationData {
  floorY : Q;
  vanishingPointX : option Q;
  vanishingPointY : option Q;
  imageWidth : Q;
  imageHeight : Q
}.

(** [Math.max]. *)
Definition max (a b : Q) : Q := if Qle_bool a b then b else a.

(** [camera.position.set(...)] and [camera.lookAt(...)]. *)
Record Camera : Type := mkCamera { position : Vector3; lookAt : Vector3 }.

(** A mesh of a [THREE.BoxGeometry]: its three sizes and its centre. *)
Record BoxMesh : Type := mkBoxMesh { box_size : Vector3; box_position : Vector3 }.

(** A mesh of an extruded [THREE.Shape], as the code sets it up: the
    outline as the points of [moveTo] and [lineTo], the depth of the
    extrusion, [rotation.x] and [position.x].  Where three.js puts the
    turned extrusion in the scene is not part of the model. *)
Record ShapeMesh : Type := mkShapeMesh {
  shape : list (Q * Q);
  extrude_depth : Q;
  rotation_x : Q;
  position_x : Q
}.

Record Scene : Type := mkScene {
  camera : Camera;
  controls_target : Vector3;
  gridSize : Q;
  stringerGroup : list ShapeMesh;
  treadGroup : list BoxMesh;
  riserGroup : list BoxMesh;
  groundSize : Q
}.

(** [array[i]] where the index is known to be in range. *)
Definition at_index (verts : list Vector3) (i : nat) : Vector3 :=
  nth i verts (mkVector3 0 0 0).

(** Reading [stringerPath[0].x] of an empty path is a [TypeError]. *)
Definition TYPE_ERROR : string := "TypeError".

Fixpoint stringerMeshes {M : MathLib} (paths : list (list Vector3)) :
    outcome (list ShapeMesh) :=
  match paths with
  | [] => Ret []
  | stringerPath :: paths' =>
      (* Project to 2D (YZ plane) for extrusion *)
      let outline :=
        match stringerPath with
        | [] => []
        | first :: rest =>
            ((vz first, vy first) :: map (fun v => (vz v, vy v)) rest)
            ++ [(vz first, vy first)]
        end in
      match stringerPath with
      | [] => Throw TYPE_ERROR
      | first :: _ =>
          match stringerMeshes paths' with
          | Ret meshes =>
              (* Rotate to correct orientation (YZ to XY) *)
              Ret (mkShapeMesh outline (15 # 10) (PI / 2) (vx first) :: meshes)
          | Throw msg => Throw msg
          end
      end
  end.

Definition treadMesh (width : Q) (treadVerts : list Vector3) : list BoxMesh :=
  if (8 <=? List.length treadVerts)%nat then
    let treadWidth := width in
    let treadDepth := (vz (at_index treadVerts 2) - vz (at_index treadVerts 0))%Q in
    let treadThickness := 1%Q in
    [mkBoxMesh (mkVector3 treadWidth treadThickness treadDepth)
       (mkVector3 (width / 2)
                  (vy (at_index treadVerts 0) + treadThickness / 2)
                  ((vz (at_index treadVerts 0) + vz (at_index treadVerts 2)) / 2))%Q]
  else [].

Definition riserMesh (width : Q) (riserVerts : list Vector3) : list BoxMesh :=
  if (4 <=? List.length riserVerts)%nat then
    let riserWidth := width in
    let riserHeight := (vy (at_index riserVerts 2) - vy (at_index riserVerts 0))%Q in
    let riserThickness := (75 # 100)%Q in
    [mkBoxMesh (mkVector3 riserWidth riserHeight riserThickness)
       (mkVector3 (width / 2)
                  ((vy (at_index riserVerts 0) + vy (at_index riserVerts 2)) / 2)
                  (vz (at_index riserVerts 0) - riserThickness / 2))%Q]
  else [].

Definition placeCamera (dimensions : Dimensions)
    (calibrationData : option CalibrationData) : Camera :=
  let width := Geometry.width dimensions in
  let height := Geometry.height dimensions in
  let depth := Geometry.depth dimensions in
  let maxDim := max (max width height) depth in
  match calibrationData with
  | Some calibration =>
      (* Position camera to match the photo's viewpoint *)
      let floorHeight := ((1 - floorY calibration) * height)%Q in
      let cameraHeight := (floorHeight + height * (5 # 10))%Q in
      let cameraDistance := (maxDim * 3)%Q in
      (* Position based on vanishing point if available *)
      let horizontalOffset :=
        match vanishingPointX calibration with
        | Some x => if Qeq_bool x 0 then 0%Q else ((x - (5 # 10)) * depth * 2)%Q
        | None => 0%Q
        end in
      mkCamera (mkVector3 (width / 2 + horizontalOffset) cameraHeight cameraDistance)
               (mkVector3 (width / 2) (height / 2) (depth / 2))
  | None =>
      (* Default isometric view *)
      let cameraDistance := (maxDim * (25 # 10))%Q in
      mkCamera (mkVector3 cameraDistance (cameraDistance * (8 # 10)) cameraDistance)
               (mkVector3 (width / 2) (height / 2) (depth / 2))
  end.

Definition createStaircaseScene {M : MathLib} (geometry : StaircaseGeometry)
    (calibrationData : option CalibrationData) : outcome Scene :=
  let width := Geometry.width (dimensions geometry) in
  let height := Geometry.height (dimensions geometry) in
  let depth := Geometry.depth (dimensions geometry) in
  let maxDim := max (max width height) depth in
  match stringerMeshes (stringers geometry) with
  | Throw msg => Throw msg
  | Ret stringerGroup =>
      Ret (mkScene (placeCamera (dimensions geometry) calibrationData)
                   (mkVector3 (width / 2) (height / 2) (depth / 2))
                   (max width depth * 2)
                   stringerGroup
                   (flat_map (treadMesh width) (treads geometry))
                   (flat_map (riserMesh width) (risers geometry))
                   (maxDim * 4))
  end.

End Three3d.

Module Three3dFacts.
Import JsMath Geometry GeometryFacts Three3d.

(** The two opposite corners of a box mesh. *)
Definition box_min (b : BoxMesh) : Vector3 :=
  mkVector3 (vx (box_position b) - vx (box_size b) / 2)
            (vy (box_position b) - vy (box_size b) / 2)
            (vz (box_position b) - vz (box_size b) / 2)%Q.

Definition box_max (b : BoxMesh) : Vector3 :=
  mkVector3 (vx (box_position b) + vx (box_size b) / 2)
            (vy (box_position b) + vy (box_size b) / 2)
            (vz (box_position b) + vz (box_size b) / 2)%Q.

(** The outline that the scene extrudes for a path: the path seen from the
    side, closed by its first point. *)
Definition side_view (path : list Vector3) : list (Q * Q) :=
  match path with
  | [] => []
  | first :: _ => map (fun v => (vz v, vy v)) path ++ [(vz first, vy first)]
  end.

(** What the code gives the mesh of a stringer path: its side view as the
    outline, 1.5 of depth, a quarter turn as [rotation.x] and the [x] of the
    first vertex as [position.x]. *)
Definition stringer_mesh_of {M : MathLib} (path : list Vector3)
    (mesh : ShapeMesh) : Prop :=
  shape mesh = side_view path
  /\ extrude_depth mesh = (15 # 10)%Q
  /\ rotation_x mesh = (PI / 2)%Q
  /\ exists first rest, path = first :: rest /\ position_x mesh = vx first.

Lemma stringerMeshes_paths {M : MathLib} (paths : list (list Vector3)) :
  Forall (fun path => path <> []) paths ->
  exists meshes,
    stringerMeshes paths = Ret meshes
    /\ Forall2 stringer_mesh_of paths meshes.
Proof.
  induction 1 as [| path paths Hpath _ IH].
  - exists []. split; constructor.
  - destruct IH as (meshes & Heq & Hall).
    destruct path as [| first rest]; [contradiction|].
    cbn [stringerMeshes]. rewrite Heq. eexists. split; [reflexivity|].
    constructor; [| exact Hall].
    repeat split. now exists first, rest.
Qed.

Lemma flat_map_single {A B : Type} (f : A -> list B) (g : A -> B) (l : list A) :
  Forall (fun a => f a = [g a]) l -> flat_map f l = map g l.
Proof.
  induction 1 as [| a l Ha _ IH]; cbn [flat_map map]; [reflexivity|].
  now rewrite Ha, IH.
Qed.

Lemma Forall2_map_seq {B C : Type} (R : B -> C -> Prop) (f : nat -> B)
    (g : nat -> C) (l : list nat) :
  (forall k, In k l -> R (f k) (g k)) -> Forall2 R (map f l) (map g l).
Proof.
  induction l as [| k l IH]; intros H; cbn [map]; constructor.
  - apply H. now left.
  - apply IH. intros j Hj. apply H. now right.
Qed.

(** X27: the scene is made of what the builder built.  For every geometry
    of [buildStaircaseGeometry] with two stringers or more,
    [createStaircaseScene] returns a scene with one mesh per stringer path,
    per tread and per riser, in their order.  A stringer mesh is set up with
    the side view of its path, closed, as its outline, 1.5 of depth, a
    [rotation.x] of [PI / 2] and the [x] of the path as [position.x].  The
    box of a tread mesh has the first and the seventh vertex of the tread as
    its opposite corners; and the box of a riser mesh, 0.75 thick, has the
    third vertex of the riser quad as one corner and lies in front of the
    quad. *)
Theorem scene_matches_geometry {M : MathLib} (stairData : StairOutputs.t)
    (materialsData : MaterialsOutputs.t) (stairWidthIn : Q)
    (calibrationData : option CalibrationData) :
  2 <= MaterialsOutputs.numStringers materialsData ->
  let g := buildStaircaseGeometry stairData materialsData stairWidthIn in
  exists scene,
    createStaircaseScene g calibrationData = Ret scene
    /\ Z.of_nat (List.length (stringerGroup scene))
       = MaterialsOutputs.numStringers materialsData
    /\ List.length (treadGroup scene)
       = Z.to_nat (StairOutputs.numTreads stairData)
    /\ List.length (riserGroup scene)
       = Z.to_nat (StairOutputs.numRisers stairData)
    /\ Forall2 stringer_mesh_of (stringers g) (stringerGroup scene)
    /\ Forall2 (fun tread mesh =>
                  veq (box_min mesh) (at_index tread 0)
                  /\ veq (box_max mesh) (at_index tread 6))
               (treads g) (treadGroup scene)
    /\ Forall2 (fun riser mesh =>
                  veq (box_max mesh) (at_index riser 2)
                  /\ veq (box_min mesh)
                         (mkVector3 (vx (at_index riser 0)) (vy (at_index riser 0))
                                    (vz (at_index riser 0) - (75 # 100))))
               (risers g) (riserGroup scene).
Proof.
  intros Hstringers g.
  assert (Hpaths : Forall (fun path => path <> []) (stringers g)).
  { unfold g. rewrite stringers_eq. apply Forall_map, Forall_forall.
    intros i _. unfold stringerPathAt. discriminate. }
  destruct (stringerMeshes_paths (stringers g) Hpaths)
    as (meshes & Heq & Hall).
  assert (Htreads :
    Forall2 (fun tread mesh =>
               veq (box_min mesh) (at_index tread 0)
               /\ veq (box_max mesh) (at_index tread 6))
            (treads g) (flat_map (treadMesh stairWidthIn) (treads g))).
  { subst g. rewrite treads_eq.
    rewrite (flat_map_single _
               (fun tread =>
                  mkBoxMesh (mkVector3 stairWidthIn 1
                               (vz (at_index tread 2) - vz (at_index tread 0)))
                    (mkVector3 (stairWidthIn / 2)
                               (vy (at_index tread 0) + 1 / 2)
                               ((vz (at_index tread 0) + vz (at_index tread 2)) / 2)))%Q)
      by (apply Forall_map, Forall_forall; intros k _; reflexivity).
    rewrite map_map. apply Forall2_map_seq. intros k _.
    unfold veq, box_min, box_max, at_index, treadBox, TREAD_THICKNESS.
    cbn [nth vx vy vz box_size box_position].
    repeat split; field. }
  assert (Hrisers :
    Forall2 (fun riser mesh =>
               veq (box_max mesh) (at_index riser 2)
               /\ veq (box_min mesh)
                      (mkVector3 (vx (at_index riser 0)) (vy (at_index riser 0))
                                 (vz (at_index riser 0) - (75 # 100))))
            (risers g) (flat_map (riserMesh stairWidthIn) (risers g))).
  { subst g. rewrite risers_eq.
    rewrite (flat_map_single _
               (fun riser =>
                  mkBoxMesh (mkVector3 stairWidthIn
                               (vy (at_index riser 2) - vy (at_index riser 0))
                               (75 # 100))
                    (mkVector3 (stairWidthIn / 2)
                               ((vy (at_index riser 0) + vy (at_index riser 2)) / 2)
                               (vz (at_index riser 0) - (75 # 100) / 2)))%Q)
      by (apply Forall_map, Forall_forall; intros k _; reflexivity).
    rewrite map_map. apply Forall2_map_seq. intros k _.
    unfold veq, box_min, box_max, at_index, riserQuad.
    cbn [nth vx vy vz box_size box_position].
    repeat split; field. }
  unfold createStaircaseScene. rewrite Heq. eexists. split; [reflexivity|].
  cbn [stringerGroup treadGroup riserGroup].
  change (width (dimensions g)) with stairWidthIn.
  split; [| split; [| split; [| split; [exact Hall | split; assumption]]]].
  - rewrite <- (Forall2_length Hall). unfold g. rewrite stringers_length. lia.
  - rewrite <- (Forall2_length Htreads). unfold g.
    now rewrite treads_eq, length_map, length_seq.
  - rewrite <- (Forall2_length Hrisers). unfold g.
    now rewrite risers_eq, length_map, length_seq.
Qed.

(** X27 on the sample flight: four stringer meshes, fourteen tread boxes
    and fifteen riser boxes. *)
Lemma scene_matches_geometry_witness :
  let g := buildStaircaseGeometry sampleLayout (sampleMaterials true) 36 in
  exists scene,
    @createStaircaseScene Stairs.sampleMath g None = Ret scene
    /\ Z.of_nat (List.length (stringerGroup scene)) = 4
    /\ List.length (treadGroup scene) = 14%nat
    /\ List.length (riserGroup scene) = 15%nat
    /\ Forall2 (@stringer_mesh_of Stairs.sampleMath)
               (stringers g) (stringerGroup scene)
    /\ Forall2 (fun tread mesh =>
                  veq (box_min mesh) (at_index tread 0)
                  /\ veq (box_max mesh) (at_index tread 6))
               (treads g) (treadGroup scene)
    /\ Forall2 (fun riser mesh =>
                  veq (box_max mesh) (at_index riser 2)
                  /\ veq (box_min mesh)
                         (mkVector3 (vx (at_index riser 0)) (vy (at_index riser 0))
                                    (vz (at_index riser 0) - (75 # 100))))
               (risers g) (riserGroup scene).
Proof.
  apply (@scene_matches_geometry Stairs.sampleMath sampleLayout
           (sampleMaterials true) 36 None).
  vm_compute. discriminate.
Defined.

Lemma max_cases (a b : Q) :
  (a <= max a b)%Q /\ (b <= max a b)%Q /\ (max a b = a \/ max a b = b).
Proof.
  unfold max. destruct (Qle_bool a b) eqn:E.
  - apply Qle_bool_iff in E. repeat split; [exact E | apply Qle_refl | now right].
  - assert (H : (b < a)%Q).
    { apply Qnot_le_lt. intros H. apply Qle_bool_iff in H. congruence. }
    repeat split; [apply Qle_refl | lra | now left].
Qed.

(** X28: the camera stands back.  For a box that is not flat and, where
    there is a calibration, a floor level and a vanishing point that are
    fractions of the photo, the camera looks at the centre of the box from
    beyond its far end and from at least half its height.  With a
    calibration it stands three times the largest dimension back, between
    half the height and one and a half times the height, within the depth
    of the box to the left or right of its middle, and in the middle when
    there is no vanishing point or when the vanishing point is at 0, which
    the code takes for none; without one it stands at 2.5, 2 and 2.5 times
    the largest dimension. *)
Theorem camera_stands_back (dims : Dimensions)
    (calibrationData : option CalibrationData) :
  (0 <= width dims)%Q -> (0 <= height dims)%Q -> (0 < depth dims)%Q ->
  (forall c, calibrationData = Some c ->
     (0 <= floorY c <= 1)%Q
     /\ forall x, vanishingPointX c = Some x -> (0 <= x <= 1)%Q) ->
  let cam := placeCamera dims calibrationData in
  let maxDim := max (max (width dims) (height dims)) (depth dims) in
  lookAt cam = mkVector3 (width dims / 2) (height dims / 2) (depth dims / 2)
  /\ (depth dims < vz (position cam))%Q
  /\ (height dims / 2 <= vy (position cam))%Q
  /\ match calibrationData with
     | Some c =>
         vz (position cam) = (maxDim * 3)%Q
         /\ (vy (position cam) <= height dims * (3 # 2))%Q
         /\ (width dims / 2 - depth dims <= vx (position cam)
             <= width dims / 2 + depth dims)%Q
         /\ (vanishingPointX c = None \/ vanishingPointX c = Some 0%Q ->
             (vx (position cam) == width dims / 2)%Q)
     | None =>
         position cam
         = mkVector3 (maxDim * (25 # 10)) (maxDim * (25 # 10) * (8 # 10))
                     (maxDim * (25 # 10))
     end.
Proof.
  intros Hw Hh Hd Hcal cam maxDim.
  destruct (max_cases (width dims) (height dims)) as (Hm1 & Hm2 & _).
  destruct (max_cases (max (width dims) (height dims)) (depth dims))
    as (Hm3 & Hm4 & _).
  fold maxDim in Hm3, Hm4.
  assert (Hhalf : (height dims / 2 == height dims * (1 # 2))%Q) by field.
  assert (Hwhalf : (width dims / 2 == width dims * (1 # 2))%Q) by field.
  unfold cam, placeCamera. fold maxDim.
  destruct calibrationData as [c |]; cbn [lookAt position vx vy vz].
  - destruct (Hcal c eq_refl) as [[Hf0 Hf1] Hvp].
    assert (Hfloor : (0 <= (1 - floorY c) * height dims)%Q)
      by (apply Qmult_le_0_compat; lra).
    assert (Hfloor' : (0 <= floorY c * height dims)%Q)
      by (apply Qmult_le_0_compat; lra).
    assert (Hsplit : ((1 - floorY c) * height dims
                      == height dims - floorY c * height dims)%Q) by ring.
    split; [reflexivity|]. split; [lra|]. split; [lra|].
    split; [reflexivity|]. split; [lra|].
    destruct (vanishingPointX c) as [x |] eqn:Ex.
    + destruct (Hvp x eq_refl) as [Hx0 Hx1].
      destruct (Qeq_bool x 0) eqn:Ez.
      * split; [lra|]. intros _. ring.
      * assert (Hl : (0 <= x * depth dims)%Q) by (apply Qmult_le_0_compat; lra).
        assert (Hr : (0 <= (1 - x) * depth dims)%Q)
          by (apply Qmult_le_0_compat; lra).
        assert (Hoff : ((x - (5 # 10)) * depth dims * 2
                        == 2 * (x * depth dims) - depth dims)%Q) by ring.
        assert (Hr' : ((1 - x) * depth dims == depth dims - x * depth dims)%Q)
          by ring.
        split; [lra|].
        intros [Hnone | Hzero]; [discriminate|].
        inversion Hzero; subst x. discriminate.
    + split; [lra|]. intros _. ring.
  - split; [reflexivity|]. split; [lra|]. split; [lra | reflexivity].
Qed.

(** X28 for a box of 36 by 109.5 by 140 and a photo with the floor at
    0.9 and the vanishing point at 0.25. *)
Lemma camera_stands_back_witness :
  let dims := mkDimensions 36 (1095 # 10) 140 in
  let c := mkCalibrationData (9 # 10) (Some (1 # 4)) (Some (4 # 10)) 800 600 in
  let cam := placeCamera dims (Some c) in
  let maxDim := max (max 36 (1095 # 10)) 140 in
  lookAt cam = mkVector3 (36 / 2) ((1095 # 10) / 2) (140 / 2)
  /\ (140 < vz (position cam))%Q
  /\ ((1095 # 10) / 2 <= vy (position cam))%Q
  /\ vz (position cam) = (maxDim * 3)%Q
  /\ (vy (position cam) <= (1095 # 10) * (3 # 2))%Q
  /\ (36 / 2 - 140 <= vx (position cam) <= 36 / 2 + 140)%Q
  /\ (Some (1 # 4) = None \/ Some (1 # 4) = Some 0%Q ->
      (vx (position cam) == 36 / 2)%Q).
Proof.
  intros dims c cam maxDim.
  apply (camera_stands_back dims (Some c)); try (cbn; lra).
  intros c' Hc. inversion Hc; subst c'. cbn.
  split; [lra|]. intros x Hx. inversion Hx; subst x. lra.
Defined.

End Three3dFacts.

(** ** The 2D drawings: what is drawn of the layout *)

(** [src/lib/rendering/canvas2d.ts].  A drawing is the list of the calls
    that it makes on the canvas context, in order; the canvas is given by
    its width and height.  The two helpers of the file, [drawDimension] and
    [drawTitleBlock], are kept as calls: what they draw in turn (arrow heads
    at angles, the date) is outside the model. *)

Module Canvas2d.
Import JsMath JsString Units.

Local Open Scope string_scope.

Definition SCALE : Q := 8.
Definition MARGIN : Q := 60.
Definition LINE_WIDTH : Q := 2.
Definition DIMENSION_OFFSET : Q := 30.

Inductive Command : Type :=
| fillStyle (style : string)
| strokeStyle (style : string)
| lineWidth (w : Q)
| font (f : string)
| setLineDash (segments : list Q)
| save
| restore
| beginPath
| closePath
| stroke
| moveTo (x y : Q)
| lineTo (x y : Q)
| fillRect (x y w h : Q)
| strokeRect (x y w h : Q)
| fillText (text : string) (x y : Q)
| drawDimension (x1 y1 x2 y2 : Q) (text : string) (offset : Q)
| drawTitleBlock (width height : Q) (title : string).

(** The calls made so far. *)
Definition Context2D : Type := list Command.

(** [for (let i = first; i <= last; i++) body(i)]. *)
Definition for_range {S : Type} (first last : Z) (body : Z -> S -> S) (init : S) : S :=
  fold_left (fun acc k => body (first + Z.of_nat k) acc)
            (seq 0 (Z.to_nat (last - first + 1))) init.

Definition drawSideElevation (width height : Q) (stairData : StairOutputs.t)
    (jobName : string) : Context2D :=
  let exactRiserIn := StairOutputs.exactRiserIn stairData in
  let treadRunIn := StairOutputs.treadRunIn stairData in
  let numRisers := StairOutputs.numRisers stairData in
  let numTreads := StairOutputs.numTreads stairData in
  let totalRunIn := StairOutputs.totalRunIn stairData in
  let ctx : Context2D := [] in
  (* Clear canvas *)
  let ctx := push (fillStyle "#fff") ctx in
  let ctx := push (fillRect 0 0 width height) ctx in
  (* Calculate drawing area *)
  let totalRise := (inject_Z numRisers * exactRiserIn)%Q in
  let drawWidth := (totalRunIn * SCALE)%Q in
  let drawHeight := (totalRise * SCALE)%Q in
  (* Center the drawing *)
  let offsetX := MARGIN in
  let offsetY := (height - MARGIN)%Q in
  (* Draw stringers (simplified as stepped line) *)
  let ctx := push save ctx in
  let ctx := push (strokeStyle "#000") ctx in
  let ctx := push (lineWidth LINE_WIDTH) ctx in
  let ctx := push beginPath ctx in
  let ctx := push (moveTo offsetX offsetY) ctx in
  let ctx :=
    for_range 0 numTreads (fun i ctx =>
      let runZ := (inject_Z i * treadRunIn * SCALE)%Q in
      let riseY := (inject_Z i * exactRiserIn * SCALE)%Q in
      (* Horizontal line (tread) *)
      let ctx :=
        push (lineTo (offsetX + runZ + treadRunIn * SCALE) (offsetY - riseY))%Q ctx in
      (* Vertical line (riser) *)
      if (i <? numTreads)%Z then
        push (lineTo (offsetX + runZ + treadRunIn * SCALE)
                     (offsetY - (riseY + exactRiserIn * SCALE)))%Q ctx
      else ctx) ctx in
  let ctx := push stroke ctx in
  let ctx := push restore ctx in
  (* Draw treads *)
  let ctx := push save ctx in
  let ctx := push (strokeStyle "#000") ctx in
  let ctx := push (lineWidth LINE_WIDTH) ctx in
  let ctx := push (fillStyle "rgba(200, 150, 100, 0.3)") ctx in
  let ctx :=
    for_loop numTreads (fun i ctx =>
      let runZ := (inject_Z i * treadRunIn * SCALE)%Q in
      let riseY := (inject_Z (i + 1) * exactRiserIn * SCALE)%Q in
      push (fillRect (offsetX + runZ) (offsetY - riseY - 4)
                     (treadRunIn * SCALE) 4)%Q ctx) ctx in
  let ctx := push restore ctx in
  (* Dimensions - Rise *)
  let ctx :=
    for_range 1 numRisers (fun i ctx =>
      let riseY := (inject_Z i * exactRiserIn * SCALE)%Q in
      let prevRiseY := (inject_Z (i - 1) * exactRiserIn * SCALE)%Q in
      let runZ := (inject_Z (i - 1) * treadRunIn * SCALE)%Q in
      push (drawDimension (offsetX + runZ - 20) (offsetY - prevRiseY)
                          (offsetX + runZ - 20) (offsetY - riseY)
                          (toFraction exactRiserIn 16 ++ dq) (-10))%Q ctx) ctx in
  (* Dimensions - Run *)
  let ctx :=
    for_loop numTreads (fun i ctx =>
      let runZ := (inject_Z i * treadRunIn * SCALE)%Q in
      let nextRunZ := (inject_Z (i + 1) * treadRunIn * SCALE)%Q in
      let riseY := (inject_Z (i + 1) * exactRiserIn * SCALE)%Q in
      push (drawDimension (offsetX + runZ) (offsetY - riseY + 20)
                          (offsetX + nextRunZ) (offsetY - riseY + 20)
                          (toFraction treadRunIn 16 ++ dq) 10)%Q ctx) ctx in
  (* Total run dimension *)
  let ctx :=
    push (drawDimension offsetX (offsetY + 40) (offsetX + drawWidth) (offsetY + 40)
                        ("Total Run: " ++ toFraction totalRunIn 16 ++ dq) 10)%Q ctx in
  (* Total rise dimension *)
  let ctx :=
    push (drawDimension (offsetX - 60) offsetY (offsetX - 60) (offsetY - drawHeight)
                        ("Total Rise: " ++ toFraction totalRise 16 ++ dq) (-10))%Q ctx in
  (* Title block *)
  push (drawTitleBlock width height (jobName ++ " - Side Elevation")) ctx.

Definition drawPlanView (width height : Q) (stairData : StairOutputs.t)
    (materialsData : MaterialsOutputs.t) (stairWidthIn : Q) (jobName : string)
    : Context2D :=
  let treadRunIn := StairOutputs.treadRunIn stairData in
  let numTreads := StairOutputs.numTreads stairData in
  let totalRunIn := StairOutputs.totalRunIn stairData in
  let numStringers := MaterialsOutputs.numStringers materialsData in
  let ctx : Context2D := [] in
  (* Clear canvas *)
  let ctx := push (fillStyle "#fff") ctx in
  let ctx := push (fillRect 0 0 width height) ctx in
  (* Calculate drawing area *)
  let drawWidth := (totalRunIn * SCALE)%Q in
  let drawHeight := (stairWidthIn * SCALE)%Q in
  (* Center the drawing *)
  let offsetX := MARGIN in
  let offsetY := ((height - drawHeight) / 2)%Q in
  (* Draw treads *)
  let ctx := push save ctx in
  let ctx := push (strokeStyle "#000") ctx in
  let ctx := push (lineWidth LINE_WIDTH) ctx in
  let ctx := push (fillStyle "rgba(200, 150, 100, 0.2)") ctx in
  let ctx :=
    for_loop numTreads (fun i ctx =>
      let runZ := (inject_Z i * treadRunIn * SCALE)%Q in
      let ctx :=
        push (fillRect (offsetX + runZ) offsetY (treadRunIn * SCALE) drawHeight)%Q ctx in
      push (strokeRect (offsetX + runZ) offsetY (treadRunIn * SCALE) drawHeight)%Q ctx)
      ctx in
  let ctx := push restore ctx in
  (* Draw stringers *)
  let ctx := push save ctx in
  let ctx := push (strokeStyle "#333") ctx in
  let ctx := push (lineWidth 3) ctx in
  let ctx := push (setLineDash [5; 5]%Q) ctx in
  let stringerSpacing := (stairWidthIn / inject_Z (numStringers - 1))%Q in
  let ctx :=
    for_loop numStringers (fun i ctx =>
      let yPos := (offsetY + inject_Z i * stringerSpacing * SCALE)%Q in
      let ctx := push beginPath ctx in
      let ctx := push (moveTo offsetX yPos) ctx in
      let ctx := push (lineTo (offsetX + drawWidth) yPos)%Q ctx in
      push stroke ctx) ctx in
  let ctx := push restore ctx in
  (* Dimensions - Width *)
  let ctx :=
    push (drawDimension (offsetX - 40) offsetY (offsetX - 40) (offsetY + drawHeight)
                        (toFraction stairWidthIn 16 ++ dq) (-10))%Q ctx in
  (* Dimensions - Total run *)
  let ctx :=
    push (drawDimension offsetX (offsetY + drawHeight + 40)
                        (offsetX + drawWidth) (offsetY + drawHeight + 40)
                        ("Total Run: " ++ toFraction totalRunIn 16 ++ dq) 10)%Q ctx in
  (* Stringer spacing *)
  let ctx :=
    if (1 <? numStringers)%Z then
      push (drawDimension (offsetX - 80) offsetY
                          (offsetX - 80) (offsetY + stringerSpacing * SCALE)
                          (toFraction stringerSpacing 16 ++ dq ++ " o.c.") (-10))%Q ctx
    else ctx in
  (* Title block *)
  let ctx := push (drawTitleBlock width height (jobName ++ " - Plan View")) ctx in
  (* Legend *)
  let ctx := push save ctx in
  let ctx := push (font "12px sans-serif") ctx in
  let ctx := push (fillStyle "#000") ctx in
  let ctx :=
    push (fillText (Z_to_string numStringers ++ " Stringers") offsetX (offsetY - 20))%Q
         ctx in
  let ctx :=
    push (fillText (Z_to_string numTreads ++ " Treads") offsetX (offsetY - 5))%Q ctx in
  push restore ctx.

Definition drawStringerDetail (width height : Q) (stairData : StairOutputs.t)
    (jobName : string) : Context2D :=
  let exactRiserIn := StairOutputs.exactRiserIn stairData in
  let treadRunIn := StairOutputs.treadRunIn stairData in
  let numTreads := StairOutputs.numTreads stairData in
  let stringerLenIn := StairOutputs.stringerLenIn stairData in
  let ctx : Context2D := [] in
  (* Clear canvas *)
  let ctx := push (fillStyle "#fff") ctx in
  let ctx := push (fillRect 0 0 width height) ctx in
  (* Calculate drawing area *)
  let totalRun := (inject_Z numTreads * treadRunIn)%Q in
  let totalRise := (inject_Z (numTreads + 1) * exactRiserIn)%Q in
  let drawWidth := (totalRun * SCALE)%Q in
  let drawHeight := (totalRise * SCALE)%Q in
  (* Center the drawing *)
  let offsetX := MARGIN in
  let offsetY := (height - MARGIN)%Q in
  (* Draw stringer outline with notches *)
  let ctx := push save ctx in
  let ctx := push (strokeStyle "#000") ctx in
  let ctx := push (lineWidth (LINE_WIDTH * (15 # 10))) ctx in
  let ctx := push beginPath ctx in
  (* Start at bottom left *)
  let ctx := push (moveTo offsetX offsetY) ctx in
  (* Draw notched pattern *)
  let ctx :=
    for_loop numTreads (fun i ctx =>
      let runZ := (inject_Z i * treadRunIn * SCALE)%Q in
      let riseY := (inject_Z (i + 1) * exactRiserIn * SCALE)%Q in
      (* Vertical cut (riser) *)
      let ctx := push (lineTo (offsetX + runZ) (offsetY - riseY))%Q ctx in
      (* Horizontal cut (tread) *)
      push (lineTo (offsetX + runZ + treadRunIn * SCALE) (offsetY - riseY))%Q ctx)
      ctx in
  (* Top of stringer *)
  let finalRise := (inject_Z (numTreads + 1) * exactRiserIn * SCALE)%Q in
  let ctx := push (lineTo (offsetX + drawWidth) (offsetY - finalRise))%Q ctx in
  (* Back edge (straight line) - close the path *)
  let ctx := push (lineTo offsetX (offsetY - finalRise))%Q ctx in
  let ctx := push closePath ctx in
  let ctx := push stroke ctx in
  let ctx := push restore ctx in
  (* Mark cut lines *)
  let ctx := push save ctx in
  let ctx := push (strokeStyle "#f00") ctx in
  let ctx := push (lineWidth 1) ctx in
  let ctx := push (setLineDash [5; 3]%Q) ctx in
  let ctx :=
    for_loop numTreads (fun i ctx =>
      let runZ := (inject_Z i * treadRunIn * SCALE)%Q in
      let riseY := (inject_Z (i + 1) * exactRiserIn * SCALE)%Q in
      (* Riser cut *)
      let ctx := push beginPath ctx in
      let ctx :=
        push (moveTo (offsetX + runZ)
                     (offsetY - inject_Z i * exactRiserIn * SCALE))%Q ctx in
      let ctx := push (lineTo (offsetX + runZ) (offsetY - riseY))%Q ctx in
      let ctx := push stroke ctx in
      (* Tread cut *)
      let ctx := push beginPath ctx in
      let ctx := push (moveTo (offsetX + runZ) (offsetY - riseY))%Q ctx in
      let ctx :=
        push (lineTo (offsetX + runZ + treadRunIn * SCALE) (offsetY - riseY))%Q ctx in
      push stroke ctx) ctx in
  let ctx := push restore ctx in
  (* Dimensions for cuts *)
  let ctx :=
    push (drawDimension offsetX offsetY (offsetX + treadRunIn * SCALE) offsetY
                        ("Tread: " ++ toFraction treadRunIn 16 ++ dq) (-30))%Q ctx in
  let ctx :=
    push (drawDimension offsetX offsetY offsetX (offsetY - exactRiserIn * SCALE)
                        ("Riser: " ++ toFraction exactRiserIn 16 ++ dq) (-70))%Q ctx in
  (* Stringer length *)
  let ctx := push save ctx in
  let ctx := push (font "14px monospace") ctx in
  let ctx := push (fillStyle "#000") ctx in
  let ctx :=
    push (fillText ("Stringer Length: " ++ toFraction stringerLenIn 16 ++ dq
                    ++ " (" ++ Z_to_string (ceil (stringerLenIn / 12)) ++ "')")
                   offsetX (offsetY + 40))%Q ctx in
  let ctx :=
    push (fillText ("Stock needed: 2x12 x "
                    ++ Z_to_string (ceil (stringerLenIn / 12)) ++ "'")
                   offsetX (offsetY + 60))%Q ctx in
  let ctx := push restore ctx in
  (* Title block *)
  let ctx :=
    push (drawTitleBlock width height (jobName ++ " - Stringer Detail")) ctx in
  (* Note *)
  let ctx := push save ctx in
  let ctx := push (font "11px sans-serif") ctx in
  let ctx := push (fillStyle "#f00") ctx in
  let ctx :=
    push (fillText "Red dashed lines indicate cuts" offsetX (height - 110))%Q ctx in
  push restore ctx.

End Canvas2d.

Module Canvas2dFacts.
Import JsMath Geometry GeometryFacts Canvas2d.

(** *** The first path of a drawing *)

Definition point_of (c : Command) : option (Q * Q) :=
  match c with
  | moveTo x y => Some (x, y)
  | lineTo x y => Some (x, y)
  | _ => None
  end.

(** The points of the [moveTo] and [lineTo] calls that a list of calls
    starts with. *)
Fixpoint leading_points (calls : list Command) : list (Q * Q) :=
  match calls with
  | [] => []
  | c :: calls' =>
      match point_of c with
      | Some p => p :: leading_points calls'
      | None => []
      end
  end.

(** The points of the first path of a drawing: what follows its first
    [beginPath]. *)
Fixpoint first_path (calls : list Command) : list (Q * Q) :=
  match calls with
  | [] => []
  | beginPath :: calls' => leading_points calls'
  | _ :: calls' => first_path calls'
  end.

(** Two points at the same place. *)
Definition peq (a b : Q * Q) : Prop := (fst a == fst b)%Q /\ (snd a == snd b)%Q.

Lemma leading_points_app (points : list Command) (c : Command)
    (rest : list Command) :
  Forall (fun x => point_of x <> None) points -> point_of c = None ->
  leading_points (points ++ c :: rest)
  = flat_map (fun x => match point_of x with Some p => [p] | None => [] end)
             points.
Proof.
  intros Hpoints Hc. induction Hpoints as [| x points Hx _ IH];
    cbn [app leading_points flat_map].
  - now rewrite Hc.
  - destruct (point_of x) as [p |]; [| contradiction]. now rewrite IH.
Qed.

(** *** A drawing goes on from what was drawn *)

Definition extends (drawn : Context2D) (ctx : Context2D) : Prop :=
  exists more, ctx = drawn ++ more.

Lemma extends_refl (drawn : Context2D) : extends drawn drawn.
Proof. exists []. now rewrite app_nil_r. Qed.

Lemma extends_push (drawn ctx : Context2D) (c : Command) :
  extends drawn ctx -> extends drawn (push c ctx).
Proof.
  intros [more ->]. exists (more ++ [c]). unfold push. now rewrite app_assoc.
Qed.

Lemma extends_fold {A : Type} (drawn : Context2D) (l : list A)
    (body : Context2D -> A -> Context2D) (ctx : Context2D) :
  (forall a ctx', extends drawn ctx' -> extends drawn (body ctx' a)) ->
  extends drawn ctx -> extends drawn (fold_left body l ctx).
Proof.
  intros Hbody. revert ctx. induction l as [| a l IH]; intros ctx Hctx;
    cbn [fold_left]; [exact Hctx|].
  apply IH, Hbody, Hctx.
Qed.

Lemma extends_for_loop (drawn : Context2D) (n : Z)
    (body : Z -> Context2D -> Context2D) (ctx : Context2D) :
  (forall i ctx', extends drawn ctx' -> extends drawn (body i ctx')) ->
  extends drawn ctx -> extends drawn (for_loop n body ctx).
Proof. intros Hbody. unfold for_loop. apply extends_fold. intros a. apply Hbody. Qed.

Lemma extends_for_range (drawn : Context2D) (first last : Z)
    (body : Z -> Context2D -> Context2D) (ctx : Context2D) :
  (forall i ctx', extends drawn ctx' -> extends drawn (body i ctx')) ->
  extends drawn ctx -> extends drawn (for_range first last body ctx).
Proof. intros Hbody. unfold for_range. apply extends_fold. intros a. apply Hbody. Qed.

(** What was drawn up to the end of a path decides the first path. *)
Lemma first_path_extends (before points : list Command) (c : Command)
    (ctx : Context2D) :
  Forall (fun x => x <> beginPath) before ->
  Forall (fun x => point_of x <> None) points -> point_of c = None ->
  extends (before ++ beginPath :: points ++ [c]) ctx ->
  first_path ctx
  = flat_map (fun x => match point_of x with Some p => [p] | None => [] end)
             points.
Proof.
  intros Hbefore Hpoints Hc [more ->].
  induction Hbefore as [| x before Hx _ IH]; cbn [app first_path].
  - rewrite <- app_assoc. cbn [app]. now apply leading_points_app.
  - destruct x; try exact IH. contradiction.
Qed.

(** A loop that appends to what it has. *)
Lemma fold_append {A B : Type} (f : A -> list B) (l : list A) (init : list B) :
  fold_left (fun acc a => acc ++ f a) l init = init ++ flat_map f l.
Proof.
  revert init. induction l as [| a l IH]; intros init; cbn [fold_left flat_map].
  - now rewrite app_nil_r.
  - now rewrite IH, app_assoc.
Qed.

Lemma for_range_append {B : Type} (first last : Z) (step : Z -> list B)
    (body : Z -> list B -> list B) (init : list B) :
  (forall i acc, body i acc = acc ++ step i) ->
  for_range first last body init
  = init ++ flat_map (fun k => step (first + Z.of_nat k))
                     (seq 0 (Z.to_nat (last - first + 1))).
Proof.
  intros Hbody. unfold for_range. rewrite <- fold_append.
  generalize (seq 0 (Z.to_nat (last - first + 1))) as l. intros l. revert init.
  induction l as [| k l IH]; intros init; cbn [fold_left]; [reflexivity|].
  now rewrite Hbody, IH.
Qed.

Lemma Forall2_flat_map {A B C : Type} (R : B -> C -> Prop) (f : A -> list B)
    (g : A -> list C) (l : list A) :
  (forall a, In a l -> Forall2 R (f a) (g a)) ->
  Forall2 R (flat_map f l) (flat_map g l).
Proof.
  induction l as [| a l IH]; intros H; cbn [flat_map]; [constructor|].
  apply Forall2_app; [apply H; now left|].
  apply IH. intros b Hb. apply H. now right.
Qed.

(** *** The outline of the stringer detail *)

Lemma detail_outline (width height : Q) (stairData : StairOutputs.t) (jobName : string) :
  let e := StairOutputs.exactRiserIn stairData in
  let r := StairOutputs.treadRunIn stairData in
  let nT := StairOutputs.numTreads stairData in
  let offsetX := MARGIN in
  let offsetY := (height - MARGIN)%Q in
  first_path (drawStringerDetail width height stairData jobName)
  = ((offsetX, offsetY)
     :: flat_map (fun k =>
          [ (offsetX + inject_Z (Z.of_nat k) * r * SCALE,
             offsetY - inject_Z (Z.of_nat k + 1) * e * SCALE);
            (offsetX + inject_Z (Z.of_nat k) * r * SCALE + r * SCALE,
             offsetY - inject_Z (Z.of_nat k + 1) * e * SCALE) ])
          (seq 0 (Z.to_nat nT))
     ++ [ (offsetX + inject_Z nT * r * SCALE,
           offsetY - inject_Z (nT + 1) * e * SCALE);
          (offsetX, offsetY - inject_Z (nT + 1) * e * SCALE) ])%Q.
Proof.
  intros e r nT offsetX offsetY.
  set (notch := fun k : nat =>
          [ lineTo (offsetX + inject_Z (Z.of_nat k) * r * SCALE)
                   (offsetY - inject_Z (Z.of_nat k + 1) * e * SCALE);
            lineTo (offsetX + inject_Z (Z.of_nat k) * r * SCALE + r * SCALE)
                   (offsetY - inject_Z (Z.of_nat k + 1) * e * SCALE) ]%Q).
  set (points := moveTo offsetX offsetY
                 :: flat_map notch (seq 0 (Z.to_nat nT))
                 ++ [ lineTo (offsetX + inject_Z nT * r * SCALE)
                             (offsetY - inject_Z (nT + 1) * e * SCALE);
                      lineTo offsetX (offsetY - inject_Z (nT + 1) * e * SCALE) ]%Q).
  set (before := [fillStyle "#fff"; fillRect 0 0 width height; save;
                  strokeStyle "#000"; lineWidth (LINE_WIDTH * (15 # 10))]).
  rewrite (first_path_extends before points closePath).
  - unfold points. cbn [flat_map point_of app]. f_equal.
    rewrite flat_map_app. cbn [flat_map point_of app]. f_equal.
    generalize (seq 0 (Z.to_nat nT)) as l. intros l.
    induction l as [| k l IH]; cbn [flat_map app]; [reflexivity|].
    unfold notch at 1. cbn [flat_map point_of app]. now rewrite IH.
  - unfold before. repeat constructor; discriminate.
  - unfold points. constructor; [discriminate|].
    apply Forall_app. split.
    + apply Forall_flat_map, Forall_forall. intros k _. unfold notch.
      repeat constructor; discriminate.
    + repeat constructor; discriminate.
  - reflexivity.
  - unfold drawStringerDetail. cbv zeta.
    do 15 apply extends_push.
    apply extends_for_loop; [intros i ctx' Hctx; repeat apply extends_push; exact Hctx|].
    do 6 apply extends_push.
    fold e r nT offsetX offsetY.
    match goal with
    | |- extends ?a ?b => replace b with a; [apply extends_refl|]
    end.
    unfold push.
    rewrite (for_loop_push2 nT
               (fun i => lineTo (MARGIN + inject_Z i * r * SCALE)
                                (height - MARGIN - inject_Z (i + 1) * e * SCALE))
               (fun i => lineTo (MARGIN + inject_Z i * r * SCALE + r * SCALE)
                                (height - MARGIN - inject_Z (i + 1) * e * SCALE)))%Q.
    unfold before, points, notch, offsetX, offsetY. cbn [app].
    rewrite <- !app_assoc. reflexivity.
Qed.

(** *** The stepped line of the side elevation *)

Lemma elevation_profile (width height : Q) (stairData : StairOutputs.t)
    (jobName : string) :
  let e := StairOutputs.exactRiserIn stairData in
  let r := StairOutputs.treadRunIn stairData in
  let nT := StairOutputs.numTreads stairData in
  let offsetX := MARGIN in
  let offsetY := (height - MARGIN)%Q in
  first_path (drawSideElevation width height stairData jobName)
  = ((offsetX, offsetY)
     :: flat_map (fun k =>
          (offsetX + inject_Z (0 + Z.of_nat k) * r * SCALE + r * SCALE,
           offsetY - inject_Z (0 + Z.of_nat k) * e * SCALE)
          :: if (0 + Z.of_nat k <? nT)%Z
             then [ (offsetX + inject_Z (0 + Z.of_nat k) * r * SCALE + r * SCALE,
                     offsetY - (inject_Z (0 + Z.of_nat k) * e * SCALE
                                + e * SCALE)) ]
             else [])
          (seq 0 (Z.to_nat (nT - 0 + 1))))%Q.
Proof.
  intros e r nT offsetX offsetY.
  set (step := fun i : Z =>
          lineTo (offsetX + inject_Z i * r * SCALE + r * SCALE)%Q
                 (offsetY - inject_Z i * e * SCALE)%Q
          :: if (i <? nT)%Z
             then [ lineTo (offsetX + inject_Z i * r * SCALE + r * SCALE)%Q
                           (offsetY - (inject_Z i * e * SCALE + e * SCALE))%Q ]
             else []).
  set (points := moveTo offsetX offsetY
                 :: flat_map (fun k => step (0 + Z.of_nat k))
                             (seq 0 (Z.to_nat (nT - 0 + 1)))).
  set (before := [fillStyle "#fff"; fillRect 0 0 width height; save;
                  strokeStyle "#000"; lineWidth LINE_WIDTH]).
  rewrite (first_path_extends before points stroke).
  - unfold points. cbn [flat_map point_of app]. f_equal.
    generalize (seq 0 (Z.to_nat (nT - 0 + 1))) as l. intros l.
    induction l as [| k l IH]; cbn [flat_map app]; [reflexivity|].
    rewrite flat_map_app, IH. f_equal.
    unfold step. destruct (0 + Z.of_nat k <? nT)%Z; reflexivity.
  - unfold before. repeat constructor; discriminate.
  - unfold points. constructor; [discriminate|].
    apply Forall_flat_map, Forall_forall. intros k _. unfold step.
    destruct (0 + Z.of_nat k <? nT)%Z; repeat constructor; discriminate.
  - reflexivity.
  - unfold drawSideElevation. cbv zeta.
    do 3 apply extends_push.
    apply extends_for_loop;
      [intros i ctx' Hctx; repeat apply extends_push; exact Hctx|].
    apply extends_for_range;
      [intros i ctx' Hctx; repeat apply extends_push; exact Hctx|].
    apply extends_push.
    apply extends_for_loop;
      [intros i ctx' Hctx; repeat apply extends_push; exact Hctx|].
    do 5 apply extends_push.
    fold e r nT offsetX offsetY.
    match goal with
    | |- extends ?a ?b => replace b with a; [apply extends_refl|]
    end.
    rewrite (for_range_append 0 nT step).
    + unfold push, before, points. cbn [app]. rewrite <- ?app_assoc. reflexivity.
    + intros i acc. unfold step, push. cbv beta.
      destruct (i <? nT)%Z; [rewrite <- app_assoc|]; reflexivity.
Qed.

(** *** The drawings and the geometry *)

(** Where the drawings put the point that is [z] inches along the run and
    [y] inches up: 8 pixels to the inch from the margin, upwards from the
    bottom margin. *)
Definition to_canvas (height : Q) (z y : Q) : Q * Q :=
  (MARGIN + z * SCALE, height - MARGIN - y * SCALE)%Q.

Lemma Forall2_flat_map_map {A B C D : Type} (R : B -> D -> Prop)
    (f : A -> list B) (g : A -> list C) (h : C -> D) (l : list A) :
  (forall a, In a l -> Forall2 R (f a) (map h (g a))) ->
  Forall2 R (flat_map f l) (map h (flat_map g l)).
Proof.
  induction l as [| a l IH]; intros H; cbn [flat_map map]; [constructor|].
  rewrite map_app. apply Forall2_app; [apply H; now left|].
  apply IH. intros b Hb. apply H. now right.
Qed.

Section Drawings.
Context {M : MathLib}.
Variables (input : StairInputs.t) (stairData : StairOutputs.t).
Variables (width height : Q) (jobName : string).

(** X29: the stringer detail is the stringer of the geometry.  For a
    layout of the solver for a positive target riser and two stringers or
    more, the geometry of [buildStaircaseGeometry] has a path for every
    stringer, and the outline that [drawStringerDetail] strokes is every one
    of these paths seen from the side, at 8 pixels to the inch, vertex by
    vertex from the bottom to the landing, and then the corner above the
    bottom that closes the board. *)
Theorem stringer_detail_follows_geometry (materialsData : MaterialsOutputs.t)
    (stairWidthIn : Q) :
  (0 < nullish (StairInputs.targetRiserIn input) (725 # 100))%Q ->
  Stairs.calcStairs input = Ret stairData ->
  2 <= MaterialsOutputs.numStringers materialsData ->
  let g := buildStaircaseGeometry stairData materialsData stairWidthIn in
  let outline := first_path (drawStringerDetail width height stairData jobName) in
  Z.of_nat (List.length (stringers g))
  = MaterialsOutputs.numStringers materialsData
  /\ Z.of_nat (List.length outline)
     = 1 + 2 * StairOutputs.numTreads stairData + 2
  /\ Forall (fun path =>
              Forall2 peq outline
                (map (fun v => to_canvas height (vz v) (vy v)) path
                 ++ [to_canvas height 0 (Geometry.height (dimensions g))]))
            (stringers g).
Proof.
  intros _ Ho Hstringers g outline.
  destruct (solver_well_formed input stairData Ho)
    as [Hrisers Htreads _ _ Htotal].
  split.
  { unfold g. rewrite stringers_length. lia. }
  split.
  { unfold outline. rewrite detail_outline. cbn [List.length].
    rewrite length_app, (flat_map_constant_length (c := 2%nat)), length_seq
      by reflexivity.
    cbn [List.length]. lia. }
  unfold g. rewrite stringers_eq. apply Forall_map, Forall_forall.
  intros i _. unfold outline. rewrite detail_outline.
  unfold stringerPathAt. cbn [app map]. rewrite map_app, <- app_assoc.
  cbn [map app dimensions Geometry.height buildStaircaseGeometry].
  rewrite Htotal, Hrisers.
  set (e := StairOutputs.exactRiserIn stairData).
  set (r := StairOutputs.treadRunIn stairData).
  set (nT := StairOutputs.numTreads stairData).
  constructor.
  { unfold peq, to_canvas. cbn [fst snd vz vy]. split; ring. }
  apply Forall2_app.
  - apply Forall2_flat_map_map. intros k _.
    unfold riserTop, treadBack. fold e r. cbn [map vz vy].
    constructor; [| constructor; [| constructor]];
      unfold peq, to_canvas; cbn [fst snd]; rewrite inject_Z_plus;
      change (inject_Z 1) with 1%Q; split; ring.
  - constructor; [| constructor; [| constructor]];
      unfold peq, to_canvas; cbn [fst snd vz vy]; rewrite inject_Z_plus;
      change (inject_Z 1) with 1%Q; split; ring.
Qed.

(** X30: the side elevation runs before it rises.  For a layout of the
    solver for a positive target riser, the stepped line that [drawSideElevation] strokes starts at the
    bottom with a tread at floor level and goes tread, riser, tread, ...:
    it ends one tread run beyond the total run and one riser below the
    total rise, while the two dimension lines of the same drawing span the
    total run and the total rise. *)
Theorem elevation_runs_before_it_rises :
  (0 < nullish (StairInputs.targetRiserIn input) (725 # 100))%Q ->
  Stairs.calcStairs input = Ret stairData ->
  let e := StairOutputs.exactRiserIn stairData in
  let r := StairOutputs.treadRunIn stairData in
  let numTreads := StairOutputs.numTreads stairData in
  let totalRunIn := StairOutputs.totalRunIn stairData in
  let totalRise := (inject_Z (StairOutputs.numRisers stairData) * e)%Q in
  let drawing := drawSideElevation width height stairData jobName in
  Forall2 peq (first_path drawing)
    (to_canvas height 0 0
     :: flat_map (fun k =>
          [ to_canvas height (inject_Z (Z.of_nat k + 1) * r)
                      (inject_Z (Z.of_nat k) * e);
            to_canvas height (inject_Z (Z.of_nat k + 1) * r)
                      (inject_Z (Z.of_nat k + 1) * e) ])%Q
          (seq 0 (Z.to_nat numTreads))
     ++ [to_canvas height (totalRunIn + r) (totalRise - e)])
  /\ In (drawDimension MARGIN (height - MARGIN + 40)
                       (MARGIN + totalRunIn * SCALE) (height - MARGIN + 40)
                       ("Total Run: " ++ Units.toFraction totalRunIn 16 ++ dq)%string
                       10)%Q drawing
  /\ In (drawDimension (MARGIN - 60) (height - MARGIN)
                       (MARGIN - 60) (height - MARGIN - totalRise * SCALE)
                       ("Total Rise: " ++ Units.toFraction totalRise 16 ++ dq)%string
                       (-10))%Q drawing.
Proof.
  intros _ Ho e r numTreads totalRunIn totalRise drawing.
  destruct (solver_well_formed input stairData Ho)
    as [Hrisers Htreads _ _ Htotal].
  fold numTreads in Hrisers, Htreads, Htotal. fold r totalRunIn in Htotal.
  split; [| split].
  - unfold drawing. rewrite elevation_profile. fold e r numTreads.
    replace (Z.to_nat (numTreads - 0 + 1)) with (S (Z.to_nat numTreads)) by lia.
    rewrite seq_S, flat_map_app. cbn [flat_map app Nat.add].
    constructor.
    { unfold peq, to_canvas. cbn [fst snd]. split; ring. }
    apply Forall2_app.
    + apply Forall2_flat_map. intros k Hk. apply in_seq in Hk.
      destruct (Z.ltb_spec (0 + Z.of_nat k) numTreads) as [_ | Hge]; [| lia].
      replace (0 + Z.of_nat k) with (Z.of_nat k) by lia.
      constructor; [| constructor; [| constructor]];
        unfold peq, to_canvas; cbn [fst snd]; rewrite inject_Z_plus;
        change (inject_Z 1) with 1%Q; split; ring.
    + destruct (Z.ltb_spec (0 + Z.of_nat (Z.to_nat numTreads)) numTreads)
        as [Hlt | _]; [lia|].
      replace (0 + Z.of_nat (Z.to_nat numTreads)) with numTreads by lia.
      constructor; [| constructor].
      unfold peq, to_canvas, totalRise. cbn [fst snd].
      rewrite Htotal, Hrisers, inject_Z_plus. change (inject_Z 1) with 1%Q.
      fold e. split; ring.
  - unfold drawing, drawSideElevation. cbv zeta. unfold push.
    apply in_or_app. left. apply in_or_app. left. apply in_or_app. right.
    left. reflexivity.
  - unfold drawing, drawSideElevation. cbv zeta. unfold push.
    apply in_or_app. left. apply in_or_app. right. left. reflexivity.
Qed.

End Drawings.

(** X29 on the sample flight, drawn on a canvas of 1400 by 1000. *)
Lemma stringer_detail_follows_geometry_witness :
  let g := buildStaircaseGeometry sampleLayout (sampleMaterials true) 36 in
  let outline :=
    first_path (drawStringerDetail 1400 1000 sampleLayout "Stair Stringer") in
  Z.of_nat (List.length (stringers g)) = 4
  /\ Z.of_nat (List.length outline) = 1 + 2 * 14 + 2
  /\ Forall (fun path =>
               Forall2 peq outline
                 (map (fun v => to_canvas 1000 (vz v) (vy v)) path
                  ++ [to_canvas 1000 0 (Geometry.height (dimensions g))]))
            (stringers g).
Proof.
  apply (@stringer_detail_follows_geometry Stairs.sampleMath sampleInput
           sampleLayout 1400 1000 "Stair Stringer" (sampleMaterials true) 36);
    [reflexivity | vm_compute; reflexivity | vm_compute; discriminate].
Defined.

(** X30 on the sample flight: the stepped line ends at 150 in along the
    run and 102.2 in up, for a total run of 140 in and a total rise of
    109.5 in. *)
Lemma elevation_runs_before_it_rises_witness :
  let drawing := drawSideElevation 1400 1000 sampleLayout "Stair Stringer" in
  let e := StairOutputs.exactRiserIn sampleLayout in
  let r := StairOutputs.treadRunIn sampleLayout in
  let totalRunIn := StairOutputs.totalRunIn sampleLayout in
  let totalRise := (inject_Z (StairOutputs.numRisers sampleLayout) * e)%Q in
  ((totalRunIn + r == 150)%Q /\ (totalRise - e == 1022 # 10)%Q)
  /\ Forall2 peq (first_path drawing)
       (to_canvas 1000 0 0
        :: flat_map (fun k =>
             [ to_canvas 1000 (inject_Z (Z.of_nat k + 1) * r)
                         (inject_Z (Z.of_nat k) * e);
               to_canvas 1000 (inject_Z (Z.of_nat k + 1) * r)
                         (inject_Z (Z.of_nat k + 1) * e) ])%Q
             (seq 0 (Z.to_nat (StairOutputs.numTreads sampleLayout)))
        ++ [to_canvas 1000 (totalRunIn + r) (totalRise - e)])
  /\ In (drawDimension MARGIN (1000 - MARGIN + 40)
                       (MARGIN + totalRunIn * SCALE) (1000 - MARGIN + 40)
                       ("Total Run: " ++ Units.toFraction totalRunIn 16 ++ dq)%string
                       10)%Q drawing
  /\ In (drawDimension (MARGIN - 60) (1000 - MARGIN)
                       (MARGIN - 60) (1000 - MARGIN - totalRise * SCALE)
                       ("Total Rise: " ++ Units.toFraction totalRise 16 ++ dq)%string
                       (-10))%Q drawing.
Proof.
  intros drawing e r totalRunIn totalRise.
  split; [split; vm_compute; reflexivity|].
  apply (@elevation_runs_before_it_rises Stairs.sampleMath sampleInput
           sampleLayout 1400 1000 "Stair Stringer");
    [reflexivity | vm_compute; reflexivity].
Defined.

End Canvas2dFacts.
